(** * LRU cache (lru_cache.c): a shallow embedding and its verification

    The C translation unit keeps one hash index (bucket chaining over a
    fixed table) and one doubly-linked recency list over the same nodes.
    We model the C heap as a finite map from addresses to typed cells,
    every C function as a function in a state-and-failure monad, and every
    pointer as an integer address with [0] for [NULL].

    Modelling conventions
    - [size_t], [unsigned long] and [uint64_t] are 64-bit (LP64); [int] is
      32-bit.  Unsigned arithmetic is written with its wrap-around
      ([wrap64]); the conversion to [int] is the usual two's-complement
      truncation ([to_int]).
    - One cache instance is modelled: the fields of [struct lru_cache] are
      the [st_cache] component of the state, the bucket array is the list
      [c_hash_table].  The [cache == NULL] guards therefore never fire and
      are not written.
    - The allocator strategy is the default one ([malloc], [free],
      byte-wise copy).  Whether an allocation request succeeds is decided
      by an oracle carried in the state ([st_oracle]): one boolean per
      request, [true] meaning success; an exhausted oracle always succeeds.
    - The reader-writer lock is always acquired successfully (a single
      thread is modelled), so lock calls are not written.
    - A result [None] of a computation stands for undefined behaviour of the
      C program (a load through a dangling pointer, a division by zero) or
      for a loop that never terminates. *)

From Stdlib Require Import ZArith List Lia Strings.Byte Sorting.Sorted.
From Stdlib Require Strings.String.
Import Strings.String.StringSyntax.
Delimit Scope string_scope with string.
From stdpp Require Import base option list gmap fin_maps.

Local Open Scope Z_scope.

(** ** Machine integers *)

Definition wrap64 (x : Z) : Z := x mod 2 ^ 64.

(** [(int) x] for an unsigned 64-bit [x]. *)
Definition to_int (x : Z) : Z :=
  let y := x mod 2 ^ 32 in
  if y <? 2 ^ 31 then y else y - 2 ^ 32.

Definition byte_val (b : byte) : Z := Z.of_N (Byte.to_N b).

Abbreviation bytes := (list byte).

Definition blen (b : bytes) : Z := Z.of_nat (length b).

#[global] Instance byte_eq_dec : EqDecision byte.
Proof.
  intros x y. destruct (decide (Byte.to_N x = Byte.to_N y)) as [E|E].
  - left. apply (f_equal Byte.of_N) in E. rewrite !Byte.of_to_N in E.
    congruence.
  - right. congruence.
Defined.

(** A C string literal with its terminating NUL, as the driver passes it
    ([strlen (s) + 1] bytes). *)
Definition cstr (s : String.string) : bytes :=
  String.list_byte_of_string s ++ [x00].

(** ** Constants and result codes *)

Definition LRU_CACHE_DEFAULT_CAPACITY : Z := 1024.
Definition LRU_CACHE_MIN_CAPACITY : Z := 1.

Inductive lru_error_t : Set :=
| LRU_SUCCESS
| LRU_ERROR_NOMEM
| LRU_ERROR_INVALID_ARG
| LRU_ERROR_NOT_FOUND
| LRU_ERROR_LOCK
| LRU_ERROR_FULL.

Global Instance lru_error_eq_dec : EqDecision lru_error_t.
Proof. solve_decision. Defined.

(** ** Structures *)

Record lru_stats_t : Set := mk_stats {
  hits : Z;
  misses : Z;
  evictions : Z;
  insertions : Z;
  deletions : Z;
  collisions : Z;
  current_size : Z;
  peak_size : Z
}.

(** [struct lru_node]; the fields carry the prefix [n_]. *)
Record lru_node_t : Set := mk_node {
  n_key : Z;
  n_key_size : Z;
  n_value : Z;
  n_value_size : Z;
  n_prev : Z;
  n_next : Z;
  n_hash_entry : Z
}.

(** [struct lru_hash_entry]; the fields carry the prefix [e_]. *)
Record lru_hash_entry_t : Set := mk_entry {
  e_node : Z;
  e_next : Z
}.

(** [struct lru_cache] without the lock and the allocator (see above); the
    fields carry the prefix [c_]. *)
Record lru_cache_t : Type := mk_cache {
  c_capacity : Z;
  c_size : Z;
  c_hash_table_size : Z;
  c_head : Z;
  c_tail : Z;
  c_hash_table : list Z;
  c_hash_fn : bytes → Z → Z;
  c_compare_fn : bytes → Z → bytes → Z → Z;
  c_eviction_fn : Z;
  c_eviction_user_data : Z;
  c_stats : lru_stats_t;
  c_thread_safe : bool;
  c_track_stats : bool
}.

(** A heap cell: a byte buffer (a key or a value), a list node or a chain
    cell of the hash index. *)
Inductive cell : Set :=
| CBuf (b : bytes)
| CNode (n : lru_node_t)
| CEntry (e : lru_hash_entry_t).

(** One call of the eviction callback: the function called, its five
    arguments, and the bytes the callback finds behind the two buffer
    pointers at the time of the call ([None] if the buffer is not live). *)
Record eviction_call : Set := mk_call {
  ec_fn : Z;
  ec_key : Z;
  ec_key_size : Z;
  ec_value : Z;
  ec_value_size : Z;
  ec_user_data : Z;
  ec_key_bytes : option bytes;
  ec_value_bytes : option bytes
}.

Record state : Type := mk_state {
  st_cache : lru_cache_t;
  st_heap : gmap Z cell;
  st_brk : Z;
  st_oracle : list bool;
  st_log : list eviction_call
}.

(** ** Field updates *)

Definition set_hits v (t : lru_stats_t) :=
  mk_stats v (misses t) (evictions t) (insertions t) (deletions t)
    (collisions t) (current_size t) (peak_size t).
Definition set_misses v (t : lru_stats_t) :=
  mk_stats (hits t) v (evictions t) (insertions t) (deletions t)
    (collisions t) (current_size t) (peak_size t).
Definition set_evictions v (t : lru_stats_t) :=
  mk_stats (hits t) (misses t) v (insertions t) (deletions t)
    (collisions t) (current_size t) (peak_size t).
Definition set_insertions v (t : lru_stats_t) :=
  mk_stats (hits t) (misses t) (evictions t) v (deletions t)
    (collisions t) (current_size t) (peak_size t).
Definition set_deletions v (t : lru_stats_t) :=
  mk_stats (hits t) (misses t) (evictions t) (insertions t) v
    (collisions t) (current_size t) (peak_size t).
Definition set_collisions v (t : lru_stats_t) :=
  mk_stats (hits t) (misses t) (evictions t) (insertions t) (deletions t)
    v (current_size t) (peak_size t).
Definition set_current_size v (t : lru_stats_t) :=
  mk_stats (hits t) (misses t) (evictions t) (insertions t) (deletions t)
    (collisions t) v (peak_size t).
Definition set_peak_size v (t : lru_stats_t) :=
  mk_stats (hits t) (misses t) (evictions t) (insertions t) (deletions t)
    (collisions t) (current_size t) v.

Definition set_n_key v (n : lru_node_t) :=
  mk_node v (n_key_size n) (n_value n) (n_value_size n) (n_prev n) (n_next n)
    (n_hash_entry n).
Definition set_n_key_size v (n : lru_node_t) :=
  mk_node (n_key n) v (n_value n) (n_value_size n) (n_prev n) (n_next n)
    (n_hash_entry n).
Definition set_n_value v (n : lru_node_t) :=
  mk_node (n_key n) (n_key_size n) v (n_value_size n) (n_prev n) (n_next n)
    (n_hash_entry n).
Definition set_n_value_size v (n : lru_node_t) :=
  mk_node (n_key n) (n_key_size n) (n_value n) v (n_prev n) (n_next n)
    (n_hash_entry n).
Definition set_n_prev v (n : lru_node_t) :=
  mk_node (n_key n) (n_key_size n) (n_value n) (n_value_size n) v (n_next n)
    (n_hash_entry n).
Definition set_n_next v (n : lru_node_t) :=
  mk_node (n_key n) (n_key_size n) (n_value n) (n_value_size n) (n_prev n) v
    (n_hash_entry n).
Definition set_n_hash_entry v (n : lru_node_t) :=
  mk_node (n_key n) (n_key_size n) (n_value n) (n_value_size n) (n_prev n)
    (n_next n) v.

Definition set_e_node v (e : lru_hash_entry_t) := mk_entry v (e_next e).
Definition set_e_next v (e : lru_hash_entry_t) := mk_entry (e_node e) v.

Definition set_c_capacity v (c : lru_cache_t) :=
  mk_cache v (c_size c) (c_hash_table_size c) (c_head c) (c_tail c)
    (c_hash_table c) (c_hash_fn c) (c_compare_fn c) (c_eviction_fn c)
    (c_eviction_user_data c) (c_stats c) (c_thread_safe c) (c_track_stats c).
Definition set_c_size v (c : lru_cache_t) :=
  mk_cache (c_capacity c) v (c_hash_table_size c) (c_head c) (c_tail c)
    (c_hash_table c) (c_hash_fn c) (c_compare_fn c) (c_eviction_fn c)
    (c_eviction_user_data c) (c_stats c) (c_thread_safe c) (c_track_stats c).
Definition set_c_head v (c : lru_cache_t) :=
  mk_cache (c_capacity c) (c_size c) (c_hash_table_size c) v (c_tail c)
    (c_hash_table c) (c_hash_fn c) (c_compare_fn c) (c_eviction_fn c)
    (c_eviction_user_data c) (c_stats c) (c_thread_safe c) (c_track_stats c).
Definition set_c_tail v (c : lru_cache_t) :=
  mk_cache (c_capacity c) (c_size c) (c_hash_table_size c) (c_head c) v
    (c_hash_table c) (c_hash_fn c) (c_compare_fn c) (c_eviction_fn c)
    (c_eviction_user_data c) (c_stats c) (c_thread_safe c) (c_track_stats c).
Definition set_c_hash_table v (c : lru_cache_t) :=
  mk_cache (c_capacity c) (c_size c) (c_hash_table_size c) (c_head c)
    (c_tail c) v (c_hash_fn c) (c_compare_fn c) (c_eviction_fn c)
    (c_eviction_user_data c) (c_stats c) (c_thread_safe c) (c_track_stats c).
Definition set_c_hash_fn v (c : lru_cache_t) :=
  mk_cache (c_capacity c) (c_size c) (c_hash_table_size c) (c_head c)
    (c_tail c) (c_hash_table c) v (c_compare_fn c) (c_eviction_fn c)
    (c_eviction_user_data c) (c_stats c) (c_thread_safe c) (c_track_stats c).
Definition set_c_compare_fn v (c : lru_cache_t) :=
  mk_cache (c_capacity c) (c_size c) (c_hash_table_size c) (c_head c)
    (c_tail c) (c_hash_table c) (c_hash_fn c) v (c_eviction_fn c)
    (c_eviction_user_data c) (c_stats c) (c_thread_safe c) (c_track_stats c).
Definition set_c_eviction v u (c : lru_cache_t) :=
  mk_cache (c_capacity c) (c_size c) (c_hash_table_size c) (c_head c)
    (c_tail c) (c_hash_table c) (c_hash_fn c) (c_compare_fn c) v u
    (c_stats c) (c_thread_safe c) (c_track_stats c).
Definition set_c_stats v (c : lru_cache_t) :=
  mk_cache (c_capacity c) (c_size c) (c_hash_table_size c) (c_head c)
    (c_tail c) (c_hash_table c) (c_hash_fn c) (c_compare_fn c)
    (c_eviction_fn c) (c_eviction_user_data c) v (c_thread_safe c)
    (c_track_stats c).

Definition set_st_cache v (s : state) :=
  mk_state v (st_heap s) (st_brk s) (st_oracle s) (st_log s).
Definition set_st_heap v (s : state) :=
  mk_state (st_cache s) v (st_brk s) (st_oracle s) (st_log s).
Definition set_st_log v (s : state) :=
  mk_state (st_cache s) (st_heap s) (st_brk s) (st_oracle s) v.

(** ** The monad of C computations *)

Definition M (A : Type) : Type := state → option (A * state).

Global Instance M_ret : MRet M := λ A (a : A) s, Some (a, s).
Global Instance M_bind : MBind M := λ A B (f : A → M B) (m : M A) s,
  match m s with
  | Some (a, s') => f a s'
  | None => None
  end.

(** Undefined behaviour. *)
Definition stuck {A} : M A := λ _, None.

Definition get_cache : M lru_cache_t := λ s, Some (st_cache s, s).
Definition modify_cache (f : lru_cache_t → lru_cache_t) : M unit :=
  λ s, Some (tt, set_st_cache (f (st_cache s)) s).
Definition modify_stats (f : lru_stats_t → lru_stats_t) : M unit :=
  modify_cache (λ c, set_c_stats (f (c_stats c)) c).

Definition load_node (p : Z) : M lru_node_t := λ s,
  match st_heap s !! p with
  | Some (CNode n) => Some (n, s)
  | _ => None
  end.
Definition modify_node (p : Z) (f : lru_node_t → lru_node_t) : M unit := λ s,
  match st_heap s !! p with
  | Some (CNode n) => Some (tt, set_st_heap (<[p := CNode (f n)]> (st_heap s)) s)
  | _ => None
  end.
Definition load_entry (p : Z) : M lru_hash_entry_t := λ s,
  match st_heap s !! p with
  | Some (CEntry e) => Some (e, s)
  | _ => None
  end.
Definition modify_entry (p : Z) (f : lru_hash_entry_t → lru_hash_entry_t)
  : M unit := λ s,
  match st_heap s !! p with
  | Some (CEntry e) =>
      Some (tt, set_st_heap (<[p := CEntry (f e)]> (st_heap s)) s)
  | _ => None
  end.
Definition load_buf (p : Z) : M bytes := λ s,
  match st_heap s !! p with
  | Some (CBuf b) => Some (b, s)
  | _ => None
  end.

Definition get_heap : M (gmap Z cell) := λ s, Some (st_heap s, s).
Definition log_call (e : eviction_call) : M unit :=
  λ s, Some (tt, set_st_log (st_log s ++ [e]) s).

(** [malloc]: the oracle decides; a successful request returns the break
    address, which is not in use, and installs the initial cell there. *)
Definition malloc (init : cell) : M Z := λ s,
  let '(ok, rest) :=
    match st_oracle s with
    | [] => (true, [])
    | b :: r => (b, r)
    end in
  if ok then
    Some (st_brk s,
          mk_state (st_cache s) (<[st_brk s := init]> (st_heap s))
            (st_brk s + 1) rest (st_log s))
  else
    Some (0, mk_state (st_cache s) (st_heap s) (st_brk s) rest (st_log s)).

(** [free]: a no-op on [NULL], undefined on an address that is not live. *)
Definition free (p : Z) : M unit := λ s,
  if p =? 0 then Some (tt, s)
  else match st_heap s !! p with
       | Some _ => Some (tt, set_st_heap (delete p (st_heap s)) s)
       | None => None
       end.

(** ** Default strategies *)

Definition node_zero : lru_node_t := mk_node 0 0 0 0 0 0 0.
Definition entry_zero : lru_hash_entry_t := mk_entry 0 0.

(** [default_malloc (sizeof (lru_node_t))] and
    [default_malloc (sizeof (lru_hash_entry_t))].  The C block is
    uninitialised; every field is assigned before it is read, so the
    initial content chosen here is never observed. *)
Definition default_malloc_node : M Z := malloc (CNode node_zero).
Definition default_malloc_entry : M Z := malloc (CEntry entry_zero).

Definition default_free (p : Z) : M unit := free p.
Definition default_destroy (p : Z) : M unit := free p.

(** [default_copy (data, size)]: [data] is the content of the memory the
    source pointer designates; reading [size] bytes past its end is
    undefined. *)
Definition default_copy (data : bytes) (size : Z) : M Z :=
  if Z.of_nat (length data) <? size then stuck
  else malloc (CBuf (take (Z.to_nat size) data)).

(** [default_hash]: [hash = ((hash << 5) + hash) + ptr[i]] over the first
    [key_size] bytes, in [unsigned long]. *)
Definition default_hash (key : bytes) (key_size : Z) : Z :=
  fold_left
    (λ hash b, wrap64 (wrap64 (wrap64 (Z.shiftl hash 5) + hash) + byte_val b))
    (take (Z.to_nat key_size) key) 5381.

(** [memcmp] over the first [n] bytes: the difference of the first pair of
    bytes that differ, [0] if there is none. *)
Fixpoint memcmp (a b : bytes) (n : nat) : Z :=
  match n with
  | O => 0
  | S n' =>
      match a, b with
      | x :: a', y :: b' =>
          if byte_val x =? byte_val y then memcmp a' b' n'
          else byte_val x - byte_val y
      | _, _ => 0
      end
  end.

Definition default_compare (key1 : bytes) (size1 : Z) (key2 : bytes)
    (size2 : Z) : Z :=
  if negb (size1 =? size2) then to_int (wrap64 (size1 - size2))
  else memcmp key1 key2 (Z.to_nat size1).

(** [(size_t) (capacity / LRU_CACHE_LOAD_FACTOR)] with the load factor
    [0.75]: the quotient is computed in [double] and truncated.  For
    [capacity < 2^51] both the conversion of [capacity] and the division
    are exact enough for the truncated quotient to be [⌊4·capacity / 3⌋]. *)
Definition div_load_factor (capacity : Z) : Z := (4 * capacity) / 3.

Definition calculate_hash_table_size (capacity : Z) : Z :=
  let size := div_load_factor capacity in
  let size := wrap64 (size - 1) in
  let size := Z.lor size (Z.shiftr size 1) in
  let size := Z.lor size (Z.shiftr size 2) in
  let size := Z.lor size (Z.shiftr size 4) in
  let size := Z.lor size (Z.shiftr size 8) in
  let size := Z.lor size (Z.shiftr size 16) in
  wrap64 (size + 1).

(** ** Nodes *)

Definition create_node (key : bytes) (key_size : Z) (value : bytes)
    (value_size : Z) : M Z :=
  node ← default_malloc_node;
  if node =? 0 then mret 0
  else
    k ← default_copy key key_size;
    modify_node node (set_n_key k);;
    if k =? 0 then default_free node;; mret 0
    else
      v ← default_copy value value_size;
      modify_node node (set_n_value v);;
      if v =? 0 then
        nd ← load_node node;
        default_destroy (n_key nd);;
        default_free node;;
        mret 0
      else
        modify_node node (set_n_key_size key_size);;
        modify_node node (set_n_value_size value_size);;
        modify_node node (set_n_prev 0);;
        modify_node node (set_n_next 0);;
        modify_node node (set_n_hash_entry 0);;
        mret node.

Definition destroy_node (node : Z) : M unit :=
  if node =? 0 then mret tt
  else
    nd ← load_node node;
    (if negb (n_key nd =? 0) then default_destroy (n_key nd) else mret tt);;
    nd ← load_node node;
    (if negb (n_value nd =? 0) then default_destroy (n_value nd) else mret tt);;
    default_free node.

(** ** Recency list *)

Definition remove_from_list (node : Z) : M unit :=
  nd ← load_node node;
  (if negb (n_prev nd =? 0) then
     modify_node (n_prev nd) (set_n_next (n_next nd))
   else modify_cache (set_c_head (n_next nd)));;
  nd ← load_node node;
  (if negb (n_next nd =? 0) then
     modify_node (n_next nd) (set_n_prev (n_prev nd))
   else modify_cache (set_c_tail (n_prev nd))).

Definition add_to_front (node : Z) : M unit :=
  c ← get_cache;
  modify_node node (set_n_next (c_head c));;
  modify_node node (set_n_prev 0);;
  c ← get_cache;
  (if negb (c_head c =? 0) then modify_node (c_head c) (set_n_prev node)
   else mret tt);;
  modify_cache (set_c_head node);;
  c ← get_cache;
  (if c_tail c =? 0 then modify_cache (set_c_tail node) else mret tt).

Definition move_to_front (node : Z) : M unit :=
  c ← get_cache;
  if c_head c =? node then mret tt
  else remove_from_list node;; add_to_front node.

(** ** Hash index *)

Definition hash_key (key : bytes) (key_size : Z) : M Z :=
  c ← get_cache;
  if c_hash_table_size c =? 0 then stuck
  else mret (c_hash_fn c key key_size mod c_hash_table_size c).

(** A value of type [lru_hash_entry_t **]: the address of a bucket of the
    table or of the [next] field of a chain cell. *)
Inductive slot : Set :=
| SlotBucket (i : Z)
| SlotNext (entry : Z).

Definition read_slot (sl : slot) : M Z :=
  match sl with
  | SlotBucket i =>
      c ← get_cache;
      if (i <? 0) || (c_hash_table_size c <=? i) then stuck
      else match c_hash_table c !! Z.to_nat i with
           | Some p => mret p
           | None => stuck
           end
  | SlotNext entry => en ← load_entry entry; mret (e_next en)
  end.

Definition write_slot (sl : slot) (v : Z) : M unit :=
  match sl with
  | SlotBucket i =>
      c ← get_cache;
      if (i <? 0) || (c_hash_table_size c <=? i) then stuck
      else match c_hash_table c !! Z.to_nat i with
           | Some _ =>
               modify_cache
                 (λ c, set_c_hash_table (<[Z.to_nat i := v]> (c_hash_table c)) c)
           | None => stuck
           end
  | SlotNext entry => modify_entry entry (set_e_next v)
  end.

Definition count_collision : M unit :=
  c ← get_cache;
  if c_track_stats c then
    modify_stats (λ t, set_collisions (wrap64 (collisions t + 1)) t)
  else mret tt.

(** The [while] loop of [find_in_hash_table].  The loop visits one chain
    cell per iteration and changes none; a run of more iterations than
    there are live cells has come back to a cell without a match and goes
    on forever.  [find_in_hash_table] passes that bound as fuel. *)
Fixpoint find_loop (fuel : nat) (key : bytes) (key_size : Z)
    (entry_ptr : slot) : M (Z * slot) :=
  match fuel with
  | O => stuck
  | S fuel' =>
      entry ← read_slot entry_ptr;
      if entry =? 0 then mret (0, entry_ptr)
      else
        en ← load_entry entry;
        nd ← load_node (e_node en);
        kb ← load_buf (n_key nd);
        c ← get_cache;
        if c_compare_fn c kb (n_key_size nd) key key_size =? 0 then
          mret (e_node en, entry_ptr)
        else
          count_collision;;
          find_loop fuel' key key_size (SlotNext entry)
  end.

Definition live_cells : M nat := λ s, Some (size (st_heap s), s).

(** Returns the node found ([0] if none) and the value stored through
    [prev_entry_ptr]. *)
Definition find_in_hash_table (key : bytes) (key_size : Z) : M (Z * slot) :=
  hash ← hash_key key key_size;
  fuel ← live_cells;
  find_loop (S fuel) key key_size (SlotBucket hash).

Definition add_to_hash_table (node : Z) : M lru_error_t :=
  entry ← default_malloc_entry;
  if entry =? 0 then mret LRU_ERROR_NOMEM
  else
    nd ← load_node node;
    kb ← load_buf (n_key nd);
    hash ← hash_key kb (n_key_size nd);
    modify_entry entry (set_e_node node);;
    first ← read_slot (SlotBucket hash);
    modify_entry entry (set_e_next first);;
    write_slot (SlotBucket hash) entry;;
    modify_node node (set_n_hash_entry entry);;
    mret LRU_SUCCESS.

Definition remove_from_hash_table (node : Z) : M unit :=
  nd ← load_node node;
  kb ← load_buf (n_key nd);
  r ← find_in_hash_table kb (n_key_size nd);
  let entry_ptr := r.2 in
  entry ← read_slot entry_ptr;
  if negb (entry =? 0) then
    en ← load_entry entry;
    write_slot entry_ptr (e_next en);;
    default_free entry
  else mret tt.

(** ** Eviction *)

Definition buf_at (h : gmap Z cell) (p : Z) : option bytes :=
  match h !! p with
  | Some (CBuf b) => Some b
  | _ => None
  end.

(** The call [cache->eviction_fn (key, key_size, value, value_size,
    user_data)].  The callback is client code; the contract forbids it to
    call back into the cache, so its effect on the cache is nil and the call
    is recorded in [st_log]. *)
Definition call_eviction_fn (lru_node : Z) : M unit :=
  nd ← load_node lru_node;
  c ← get_cache;
  h ← get_heap;
  log_call
    (mk_call (c_eviction_fn c) (n_key nd) (n_key_size nd) (n_value nd)
       (n_value_size nd) (c_eviction_user_data c)
       (buf_at h (n_key nd)) (buf_at h (n_value nd))).

Definition evict_lru : M lru_error_t :=
  c ← get_cache;
  if c_tail c =? 0 then mret LRU_ERROR_NOT_FOUND
  else
    let lru_node := c_tail c in
    (if negb (c_eviction_fn c =? 0) then call_eviction_fn lru_node
     else mret tt);;
    remove_from_hash_table lru_node;;
    remove_from_list lru_node;;
    c ← get_cache;
    (if c_track_stats c then
       modify_stats (λ t, set_evictions (wrap64 (evictions t + 1)) t)
     else mret tt);;
    modify_cache (λ c, set_c_size (wrap64 (c_size c - 1)) c);;
    destroy_node lru_node;;
    mret LRU_SUCCESS.

(** ** Public operations *)

(** [lru_cache_create].  The two [calloc] requests consult the oracle.  The
    result of the first is dereferenced without a check, so its failure is
    undefined behaviour (outer [None]); the failure of the second makes the
    function return [NULL] (inner [None]).  The bucket array and the cache
    structure live outside the typed heap, which starts empty. *)
Definition lru_cache_create (capacity : Z) (oracle : list bool)
  : option (option state) :=
  let '(ok1, oracle) :=
    match oracle with [] => (true, []) | b :: r => (b, r) end in
  if negb ok1 then None
  else
    let capacity :=
      if capacity <? LRU_CACHE_MIN_CAPACITY then LRU_CACHE_DEFAULT_CAPACITY
      else capacity in
    let hash_table_size := calculate_hash_table_size capacity in
    let '(ok2, oracle) :=
      match oracle with [] => (true, []) | b :: r => (b, r) end in
    if negb ok2 then Some None
    else
      Some (Some
        (mk_state
           (mk_cache capacity 0 hash_table_size 0 0
              (replicate (Z.to_nat hash_table_size) 0)
              default_hash default_compare 0 0
              (mk_stats 0 0 0 0 0 0 0 0) true true)
           ∅ 1 oracle [])).

Definition lru_cache_set_hash_function (hash_fn : option (bytes → Z → Z))
  : M lru_error_t :=
  match hash_fn with
  | None => mret LRU_ERROR_INVALID_ARG
  | Some f =>
      c ← get_cache;
      if 0 <? c_size c then mret LRU_ERROR_INVALID_ARG
      else modify_cache (set_c_hash_fn f);; mret LRU_SUCCESS
  end.

Definition lru_cache_set_compare_function
    (compare_fn : option (bytes → Z → bytes → Z → Z)) : M lru_error_t :=
  match compare_fn with
  | None => mret LRU_ERROR_INVALID_ARG
  | Some f =>
      c ← get_cache;
      if 0 <? c_size c then mret LRU_ERROR_INVALID_ARG
      else modify_cache (set_c_compare_fn f);; mret LRU_SUCCESS
  end.

Definition lru_cache_set_eviction_callback (eviction_fn user_data : Z)
  : M lru_error_t :=
  modify_cache (set_c_eviction eviction_fn user_data);;
  mret LRU_SUCCESS.

(** The tail of [lru_cache_put] from [add_to_hash_table] on (lines 543 to
    561 of the source). *)
Definition put_insert (node : Z) : M lru_error_t :=
  result ← add_to_hash_table node;
  if negb (bool_decide (result = LRU_SUCCESS)) then
    destroy_node node;; mret result
  else
    add_to_front node;;
    modify_cache (λ c, set_c_size (wrap64 (c_size c + 1)) c);;
    c ← get_cache;
    (if c_track_stats c then
       modify_stats (λ t, set_insertions (wrap64 (insertions t + 1)) t);;
       modify_stats (set_current_size (c_size c));;
       c ← get_cache;
       (if peak_size (c_stats c) <? c_size c then
          modify_stats (set_peak_size (c_size c))
        else mret tt)
     else mret tt);;
    mret LRU_SUCCESS.

(** A buffer argument is [None] for a [NULL] pointer and otherwise the
    content of the caller's memory behind the pointer. *)
Definition lru_cache_put (key : option bytes) (key_size : Z)
    (value : option bytes) (value_size : Z) : M lru_error_t :=
  match key, value with
  | Some key, Some value =>
      if (key_size =? 0) || (value_size =? 0) then mret LRU_ERROR_INVALID_ARG
      else
        r ← find_in_hash_table key key_size;
        let node := r.1 in
        if negb (node =? 0) then
          new_value ← default_copy value value_size;
          if new_value =? 0 then mret LRU_ERROR_NOMEM
          else
            nd ← load_node node;
            default_destroy (n_value nd);;
            modify_node node (set_n_value new_value);;
            modify_node node (set_n_value_size value_size);;
            move_to_front node;;
            mret LRU_SUCCESS
        else
          node ← create_node key key_size value value_size;
          if node =? 0 then mret LRU_ERROR_NOMEM
          else
            c ← get_cache;
            if c_capacity c <=? c_size c then
              result ← evict_lru;
              if negb (bool_decide (result = LRU_SUCCESS)) then
                destroy_node node;; mret result
              else put_insert node
            else put_insert node
  | _, _ => mret LRU_ERROR_INVALID_ARG
  end.

(** What a lookup stores through its two out-parameters, [None] where it
    stores nothing.  The out-parameters themselves are taken to be valid
    pointers. *)
Record lookup_out : Set := mk_out {
  out_value : option Z;
  out_value_size : option Z
}.

Definition lru_cache_get (key : option bytes) (key_size : Z)
  : M (lru_error_t * lookup_out) :=
  match key with
  | Some key =>
      if key_size =? 0 then mret (LRU_ERROR_INVALID_ARG, mk_out None None)
      else
        r ← find_in_hash_table key key_size;
        let node := r.1 in
        if node =? 0 then
          c ← get_cache;
          (if c_track_stats c then
             modify_stats (λ t, set_misses (wrap64 (misses t + 1)) t)
           else mret tt);;
          mret (LRU_ERROR_NOT_FOUND, mk_out None None)
        else
          move_to_front node;;
          nd ← load_node node;
          vb ← load_buf (n_value nd);
          copy ← default_copy vb (n_value_size nd);
          if copy =? 0 then mret (LRU_ERROR_NOMEM, mk_out (Some 0) None)
          else
            nd ← load_node node;
            c ← get_cache;
            (if c_track_stats c then
               modify_stats (λ t, set_hits (wrap64 (hits t + 1)) t)
             else mret tt);;
            mret (LRU_SUCCESS, mk_out (Some copy) (Some (n_value_size nd)))
  | None => mret (LRU_ERROR_INVALID_ARG, mk_out None None)
  end.

Definition lru_cache_peek (key : option bytes) (key_size : Z)
  : M (lru_error_t * lookup_out) :=
  match key with
  | Some key =>
      if key_size =? 0 then mret (LRU_ERROR_INVALID_ARG, mk_out None None)
      else
        r ← find_in_hash_table key key_size;
        let node := r.1 in
        if node =? 0 then mret (LRU_ERROR_NOT_FOUND, mk_out None None)
        else
          nd ← load_node node;
          vb ← load_buf (n_value nd);
          copy ← default_copy vb (n_value_size nd);
          if copy =? 0 then mret (LRU_ERROR_NOMEM, mk_out (Some 0) None)
          else
            nd ← load_node node;
            mret (LRU_SUCCESS, mk_out (Some copy) (Some (n_value_size nd)))
  | None => mret (LRU_ERROR_INVALID_ARG, mk_out None None)
  end.

Definition lru_cache_delete (key : option bytes) (key_size : Z)
  : M lru_error_t :=
  match key with
  | Some key =>
      if key_size =? 0 then mret LRU_ERROR_INVALID_ARG
      else
        r ← find_in_hash_table key key_size;
        let node := r.1 in
        if node =? 0 then mret LRU_ERROR_NOT_FOUND
        else
          remove_from_hash_table node;;
          remove_from_list node;;
          modify_cache (λ c, set_c_size (wrap64 (c_size c - 1)) c);;
          c ← get_cache;
          (if c_track_stats c then
             modify_stats (λ t, set_deletions (wrap64 (deletions t + 1)) t);;
             modify_stats (set_current_size (c_size c))
           else mret tt);;
          destroy_node node;;
          mret LRU_SUCCESS
  | None => mret LRU_ERROR_INVALID_ARG
  end.

Definition lru_cache_contains (key : option bytes) (key_size : Z) : M bool :=
  match key with
  | Some key =>
      if key_size =? 0 then mret false
      else
        r ← find_in_hash_table key key_size;
        mret (negb (r.1 =? 0))
  | None => mret false
  end.

(** The two loops of [lru_cache_clear] that follow pointers take the number
    of live cells as fuel, for the reason given at [find_loop]: each
    iteration frees a cell. *)
Fixpoint clear_nodes (fuel : nat) (node : Z) : M unit :=
  if node =? 0 then mret tt
  else match fuel with
       | O => stuck
       | S fuel' =>
           nd ← load_node node;
           let next := n_next nd in
           destroy_node node;;
           clear_nodes fuel' next
       end.

Fixpoint clear_chain (fuel : nat) (entry : Z) : M unit :=
  if entry =? 0 then mret tt
  else match fuel with
       | O => stuck
       | S fuel' =>
           en ← load_entry entry;
           let next_entry := e_next en in
           default_free entry;;
           clear_chain fuel' next_entry
       end.

(** The [for] loop over the buckets, [todo] buckets from [i] on. *)
Fixpoint clear_buckets (todo : nat) (i : Z) : M unit :=
  match todo with
  | O => mret tt
  | S todo' =>
      entry ← read_slot (SlotBucket i);
      fuel ← live_cells;
      clear_chain fuel entry;;
      write_slot (SlotBucket i) 0;;
      clear_buckets todo' (i + 1)
  end.

Definition lru_cache_clear : M unit :=
  c ← get_cache;
  fuel ← live_cells;
  clear_nodes fuel (c_head c);;
  c ← get_cache;
  clear_buckets (Z.to_nat (c_hash_table_size c)) 0;;
  modify_cache (set_c_head 0);;
  modify_cache (set_c_tail 0);;
  modify_cache (set_c_size 0);;
  c ← get_cache;
  (if c_track_stats c then modify_stats (set_current_size 0) else mret tt).

Definition lru_cache_size : M Z := c ← get_cache; mret (c_size c).
Definition lru_cache_capacity : M Z := c ← get_cache; mret (c_capacity c).

(** The loop [while (cache->size > cache->capacity) evict_lru (cache)].
    The result of [evict_lru] is ignored: a failed eviction leaves the state
    as it is and the loop never ends; a successful one lowers [size] by one.
    So the loop ends within [size] iterations or not at all, and
    [lru_cache_resize] passes [size] as fuel. *)
Fixpoint resize_loop (fuel : nat) : M unit :=
  c ← get_cache;
  if c_capacity c <? c_size c then
    match fuel with
    | O => stuck
    | S fuel' => evict_lru;; resize_loop fuel'
    end
  else mret tt.

Definition lru_cache_resize (new_capacity : Z) : M lru_error_t :=
  if new_capacity <? LRU_CACHE_MIN_CAPACITY then mret LRU_ERROR_INVALID_ARG
  else
    modify_cache (set_c_capacity new_capacity);;
    c ← get_cache;
    resize_loop (Z.to_nat (c_size c));;
    mret LRU_SUCCESS.

(** [lru_cache_get_stats]: the snapshot copied to the caller, if any. *)
Definition lru_cache_get_stats : M (lru_error_t * option lru_stats_t) :=
  c ← get_cache;
  if negb (c_track_stats c) then mret (LRU_ERROR_INVALID_ARG, None)
  else mret (LRU_SUCCESS, Some (c_stats c)).

Definition lru_cache_reset_stats : M unit :=
  c ← get_cache;
  if negb (c_track_stats c) then mret tt
  else
    modify_stats (λ _, mk_stats 0 0 0 0 0 0 0 0);;
    c ← get_cache;
    modify_stats (set_current_size (c_size c));;
    modify_stats (set_peak_size (c_size c)).

(** ** Requests and runs *)

(** A well-formed request of a client: buffers are passed with their true
    length. *)
Inductive op : Set :=
| Put (key value : bytes)
| Get (key : bytes)
| Peek (key : bytes)
| Delete (key : bytes)
| Contains (key : bytes)
| Clear
| Resize (new_capacity : Z)
| SetEvictionCallback (eviction_fn user_data : Z)
| ResetStats.

Inductive response : Set :=
| RCode (e : lru_error_t)
| RLookup (e : lru_error_t) (out : lookup_out)
| RBool (b : bool)
| RUnit.

Definition exec (o : op) : M response :=
  match o with
  | Put key value =>
      e ← lru_cache_put (Some key) (blen key) (Some value) (blen value);
      mret (RCode e)
  | Get key =>
      r ← lru_cache_get (Some key) (blen key); mret (RLookup r.1 r.2)
  | Peek key =>
      r ← lru_cache_peek (Some key) (blen key); mret (RLookup r.1 r.2)
  | Delete key => e ← lru_cache_delete (Some key) (blen key); mret (RCode e)
  | Contains key =>
      b ← lru_cache_contains (Some key) (blen key); mret (RBool b)
  | Clear => lru_cache_clear;; mret RUnit
  | Resize new_capacity => e ← lru_cache_resize new_capacity; mret (RCode e)
  | SetEvictionCallback eviction_fn user_data =>
      e ← lru_cache_set_eviction_callback eviction_fn user_data;
      mret (RCode e)
  | ResetStats => lru_cache_reset_stats;; mret RUnit
  end.

Fixpoint run (ops : list op) : M (list response) :=
  match ops with
  | [] => mret []
  | o :: ops' => r ← exec o; rs ← run ops'; mret (r :: rs)
  end.

(** ** Reading the cache off the heap *)

(** The node addresses from [p] along the [next] pointers. *)
Fixpoint walk_nodes (fuel : nat) (h : gmap Z cell) (p : Z) : list Z :=
  match fuel with
  | O => []
  | S fuel' =>
      if p =? 0 then []
      else match h !! p with
           | Some (CNode nd) => p :: walk_nodes fuel' h (n_next nd)
           | _ => []
           end
  end.

Definition cache_nodes (s : state) : list Z :=
  walk_nodes (size (st_heap s)) (st_heap s) (c_head (st_cache s)).

Definition node_item (h : gmap Z cell) (n : Z) : option (bytes * bytes) :=
  match h !! n with
  | Some (CNode nd) =>
      match buf_at h (n_key nd), buf_at h (n_value nd) with
      | Some kb, Some vb =>
          Some (take (Z.to_nat (n_key_size nd)) kb,
                take (Z.to_nat (n_value_size nd)) vb)
      | _, _ => None
      end
  | _ => None
  end.

(** The cached pairs from the most to the least recently used one: what an
    iterator over the cache yields. *)
Definition cache_items (s : state) : list (bytes * bytes) :=
  omap (node_item (st_heap s)) (cache_nodes s).

Definition cache_keys (s : state) : list bytes := (cache_items s).*1.

(** The bytes behind the pointer a lookup has returned. *)
Definition out_bytes (s : state) (out : lookup_out) : option bytes :=
  match out_value out, out_value_size out with
  | Some p, Some n =>
      match buf_at (st_heap s) p with
      | Some b => Some (take (Z.to_nat n) b)
      | None => None
      end
  | _, _ => None
  end.


(** ** Iterators *)

(** [lru_iterator_t] without its cache pointer (one cache is modelled).
    Like the cache structure and the bucket array, an iterator lives
    outside the typed heap: its allocation consults the oracle and nothing
    else, and its release is not written. *)
Record lru_iterator_t : Set := mk_iter {
  it_current : Z;
  it_locked : bool
}.

(** An allocation request for a block outside the typed heap: [true] if
    it is served. *)
Definition malloc_block : M bool := λ s,
  let '(ok, rest) :=
    match st_oracle s with
    | [] => (true, [])
    | b :: r => (b, r)
    end in
  Some (ok, mk_state (st_cache s) (st_heap s) (st_brk s) rest (st_log s)).

(** [lru_iterator_create]: [None] is the [NULL] result. *)
Definition lru_iterator_create : M (option lru_iterator_t) :=
  ok ← malloc_block;
  if negb ok then mret None
  else
    c ← get_cache;
    mret (Some (mk_iter (c_head c) (c_thread_safe c))).

Definition lru_iterator_has_next (iter : option lru_iterator_t) : bool :=
  match iter with
  | None => false
  | Some it => negb (it_current it =? 0)
  end.

(** What [lru_iterator_next] stores through its four out-parameters,
    [None] where it stores nothing. *)
Record iterator_out : Set := mk_iter_out {
  io_key : option Z;
  io_key_size : option Z;
  io_value : option Z;
  io_value_size : option Z
}.

(** [lru_iterator_next]: the four booleans tell which out-parameters are
    not [NULL]; the iterator is returned as the call leaves it. *)
Definition lru_iterator_next (iter : option lru_iterator_t)
    (key key_size value value_size : bool)
  : M (lru_error_t * iterator_out * option lru_iterator_t) :=
  match iter with
  | None =>
      mret (LRU_ERROR_INVALID_ARG, mk_iter_out None None None None, iter)
  | Some it =>
      if it_current it =? 0 then
        mret (LRU_ERROR_INVALID_ARG, mk_iter_out None None None None, iter)
      else
        node ← load_node (it_current it);
        k ← (if key then
               kb ← load_buf (n_key node);
               copy ← default_copy kb (n_key_size node);
               mret (Some copy)
             else mret None);
        if bool_decide (k = Some 0) then
          mret (LRU_ERROR_NOMEM, mk_iter_out k None None None, iter)
        else
          let ks := if key_size then Some (n_key_size node) else None in
          v ← (if value then
                 vb ← load_buf (n_value node);
                 copy ← default_copy vb (n_value_size node);
                 mret (Some copy)
               else mret None);
          if bool_decide (v = Some 0) then
            match k with
            | Some p => default_destroy p
            | None => mret tt
            end;;
            mret (LRU_ERROR_NOMEM, mk_iter_out k ks v None, iter)
          else
            let vs := if value_size then Some (n_value_size node) else None in
            mret (LRU_SUCCESS, mk_iter_out k ks v vs,
                  Some (mk_iter (n_next node) (it_locked it)))
  end.

(** [lru_iterator_destroy]: the lock is released and the block, which is
    outside the typed heap, is freed. *)
Definition lru_iterator_destroy (iter : option lru_iterator_t) : M unit :=
  mret tt.

(** The loop of the driver ([main]) over an iterator: every pair the
    iterator hands out is recorded (the driver prints it) and its two
    copies are freed; a call that fails is tried again, so the loop has no
    bound of its own and runs for as long as the allocator refuses.
    [fuel] bounds the iterations that are followed: the result is [None]
    if the loop has not ended within [fuel] iterations. *)
Fixpoint iterate_loop (fuel : nat) (iter : option lru_iterator_t)
  : M (list (bytes * bytes)) :=
  if lru_iterator_has_next iter then
    match fuel with
    | O => stuck
    | S fuel' =>
        r ← lru_iterator_next iter true true true true;
        if bool_decide (r.1.1 = LRU_SUCCESS) then
          match io_key r.1.2, io_value r.1.2 with
          | Some key, Some value =>
              kb ← load_buf key;
              vb ← load_buf value;
              free key;;
              free value;;
              rest ← iterate_loop fuel' r.2;
              mret ((kb, vb) :: rest)
          | _, _ => stuck
          end
        else iterate_loop fuel' r.2
    end
  else mret [].

(** The iteration block of the driver, its loop followed for at most
    [fuel] iterations; the inner [None] is the case that no iterator could
    be created. *)
Definition iterate (fuel : nat) : M (option (list (bytes * bytes))) :=
  iter ← lru_iterator_create;
  match iter with
  | None => mret None
  | Some _ =>
      items ← iterate_loop fuel iter;
      lru_iterator_destroy iter;;
      mret (Some items)
  end.
(** * Verification *)

(** ** Reasoning about computations *)

(** [wp m s Q]: from [s] the computation [m] has defined behaviour,
    terminates, and its result and final state satisfy [Q]. *)
Definition wp {A} (m : M A) (s : state) (Q : A → state → Prop) : Prop :=
  match m s with
  | Some (a, s') => Q a s'
  | None => False
  end.

Global Arguments wp : simpl never.
Global Arguments M_bind : simpl never.
Global Arguments M_ret : simpl never.

(** The oracle's verdict on the next request, and what is left of it. *)
Definition oracle_head (o : list bool) : bool :=
  match o with [] => true | b :: _ => b end.
Definition oracle_tail (o : list bool) : list bool :=
  match o with [] => [] | _ :: r => r end.

(** ** Ghost description of a well-formed cache *)

(** What the heap holds for one cached entry: the addresses of its node, of
    its key and value buffers and of its chain cell, and the bytes of the
    two buffers. *)
Record gnode : Set := mk_gnode {
  g_addr : Z;
  g_key : Z;
  g_kb : bytes;
  g_val : Z;
  g_vb : bytes;
  g_entry : Z
}.

(** The node cell of [g] when its neighbours are [p] and [n]. *)
Definition gnode_cell (g : gnode) (p n : Z) : lru_node_t :=
  mk_node (g_key g) (blen (g_kb g)) (g_val g) (blen (g_vb g)) p n (g_entry g).

Definition addr_hd (G : list gnode) (d : Z) : Z :=
  match G with
  | [] => d
  | g :: _ => g_addr g
  end.

Fixpoint addr_last (G : list gnode) (d : Z) : Z :=
  match G with
  | [] => d
  | g :: G' => addr_last G' (g_addr g)
  end.

Definition entry_hd (es : list gnode) (d : Z) : Z :=
  match es with
  | [] => d
  | g :: _ => g_entry g
  end.

(** [dseg h p G q]: the nodes of [G] are doubly linked in this order, the
    one before the first being [p] and the one after the last [q]. *)
Fixpoint dseg (h : gmap Z cell) (p : Z) (G : list gnode) (q : Z) : Prop :=
  match G with
  | [] => True
  | g :: G' =>
      h !! g_addr g = Some (CNode (gnode_cell g p (addr_hd G' q))) ∧
      dseg h (g_addr g) G' q
  end.

(** The node of [g] is live and carries the payload of [g]. *)
Definition node_ok (h : gmap Z cell) (g : gnode) : Prop :=
  ∃ p n, h !! g_addr g = Some (CNode (gnode_cell g p n)).

Definition bufs_ok (h : gmap Z cell) (g : gnode) : Prop :=
  h !! g_key g = Some (CBuf (g_kb g)) ∧ h !! g_val g = Some (CBuf (g_vb g)).

(** [cseg h es q]: the chain cells of [es] are linked in this order, the
    cell after the last being [q]; [chain h es]: they are a whole chain. *)
Fixpoint cseg (h : gmap Z cell) (es : list gnode) (q : Z) : Prop :=
  match es with
  | [] => True
  | g :: es' =>
      h !! g_entry g = Some (CEntry (mk_entry (g_addr g) (entry_hd es' q))) ∧
      cseg h es' q
  end.

Abbreviation chain h es := (cseg h es 0).

(** The test of [find_in_hash_table] on the entry [g] for the key [key]. *)
Definition kmatch (c : lru_cache_t) (key : bytes) (key_size : Z) (g : gnode)
  : bool :=
  c_compare_fn c (g_kb g) (blen (g_kb g)) key key_size =? 0.

Definition bucket_of (c : lru_cache_t) (key : bytes) : Z :=
  c_hash_fn c key (blen key) mod c_hash_table_size c.

(** No entry of a chain matches the key of a later one. *)
Fixpoint chain_distinct (c : lru_cache_t) (es : list gnode) : Prop :=
  match es with
  | [] => True
  | g :: es' =>
      Forall (λ g', kmatch c (g_kb g') (blen (g_kb g')) g = false) es' ∧
      chain_distinct c es'
  end.

Definition table_ok (h : gmap Z cell) (c : lru_cache_t)
    (bs : list (list gnode)) : Prop :=
  c_hash_table_size c = Z.of_nat (length (c_hash_table c)) ∧
  0 < c_hash_table_size c ∧
  length bs = length (c_hash_table c) ∧
  ∀ i es, bs !! i = Some es →
    c_hash_table c !! i = Some (entry_hd es 0) ∧
    chain h es ∧
    Forall (λ g, bucket_of c (g_kb g) = Z.of_nat i) es ∧
    chain_distinct c es.

(** What the verification needs of a comparison strategy. *)
Definition cmp_ok (cmp : bytes → Z → bytes → Z → Z) : Prop :=
  (∀ a, cmp a (blen a) a (blen a) = 0) ∧
  (∀ a b, cmp a (blen a) b (blen b) = 0 → cmp b (blen b) a (blen a) = 0).

(** The live cells lie between [NULL] and the break. *)
Definition heap_ok (s : state) : Prop :=
  0 < st_brk s ∧ ∀ p x, st_heap s !! p = Some x → 0 < p < st_brk s.

Definition list_ok (s : state) (G : list gnode) : Prop :=
  dseg (st_heap s) 0 G 0 ∧
  c_head (st_cache s) = addr_hd G 0 ∧
  c_tail (st_cache s) = addr_last G 0.

(** [Inv s G bs]: the state [s] holds a well-formed cache whose entries
    are [G] in recency order (most recent first) and whose buckets hold the
    chains [bs].  The bound [size ≤ capacity] is kept apart ([WF]): a
    capacity reduction breaks it until the evictions are done. *)
Record Inv (s : state) (G : list gnode) (bs : list (list gnode)) : Prop :=
  mk_Inv {
  inv_list : list_ok s G;
  inv_table : table_ok (st_heap s) (st_cache s) bs;
  inv_perm : mjoin bs ≡ₚ G;
  inv_bufs : Forall (bufs_ok (st_heap s)) G;
  inv_nodup_nodes : NoDup (g_addr <$> G);
  inv_nodup_entries : NoDup (g_entry <$> G);
  inv_nodup_bufs : NoDup ((g_key <$> G) ++ (g_val <$> G));
  inv_size : c_size (st_cache s) = Z.of_nat (length G);
  inv_size_lt : c_size (st_cache s) < 2 ^ 64;
  inv_cap : 1 ≤ c_capacity (st_cache s) < 2 ^ 64;
  inv_cmp : cmp_ok (c_compare_fn (st_cache s));
  inv_heap : heap_ok s
}.

(** A well-formed cache within its capacity. *)
Definition WF (s : state) : Prop :=
  ∃ G bs, Inv s G bs ∧ c_size (st_cache s) ≤ c_capacity (st_cache s).

(** The result of the chain walk of [find_in_hash_table] on the chain [es]
    entered through [sl]: the node, the slot and the number of
    collisions counted. *)
Fixpoint chain_find (P : gnode → bool) (es : list gnode) (sl : slot)
  : Z * slot * nat :=
  match es with
  | [] => (0, sl, O)
  | g :: es' =>
      if P g then (g_addr g, sl, O)
      else
        let r := chain_find P es' (SlotNext (g_entry g)) in
        (r.1.1, r.1.2, S r.2)
  end.

(** One execution of [count_collision] on the cache structure. *)
Definition bump (c : lru_cache_t) : lru_cache_t :=
  if c_track_stats c then
    set_c_stats (set_collisions (wrap64 (collisions (c_stats c) + 1)) (c_stats c)) c
  else c.

Definition add_coll (k : nat) (s : state) : state :=
  set_st_cache (Nat.iter k bump (st_cache s)) s.

Global Arguments set_st_cache _ _ /.
Global Arguments set_st_heap _ _ /.
Global Arguments set_st_log _ _ /.

(** The slot reached after walking past the chain cells of [l] from [sl]. *)
Fixpoint slot_after (l : list gnode) (sl : slot) : slot :=
  match l with
  | [] => sl
  | g :: l' => slot_after l' (SlotNext (g_entry g))
  end.

Global Arguments add_coll : simpl never.

(** Two cache structures that differ at most in their statistics. *)
Definition shape_eq (c c' : lru_cache_t) : Prop :=
  c' = set_c_stats (c_stats c') c.

Definition with_entry (e : Z) (g : gnode) : gnode :=
  mk_gnode (g_addr g) (g_key g) (g_kb g) (g_val g) (g_vb g) e.

(** The addresses the cache owns for the entries [G]. *)
Definition owned (G : list gnode) : list Z :=
  (g_addr <$> G) ++ (g_entry <$> G) ++ (g_key <$> G) ++ (g_val <$> G).

Inductive kind : Set := KBuf | KNode | KEntry.

Definition cell_kind (x : cell) : kind :=
  match x with
  | CBuf _ => KBuf
  | CNode _ => KNode
  | CEntry _ => KEntry
  end.

Definition kind_at (h : gmap Z cell) (p : Z) : option kind :=
  cell_kind <$> h !! p.

(** The record of the callback's call for the entry [t]. *)
Definition call_of (c : lru_cache_t) (t : gnode) : eviction_call :=
  mk_call (c_eviction_fn c) (g_key t) (blen (g_kb t)) (g_val t)
    (blen (g_vb t)) (c_eviction_user_data c) (Some (g_kb t)) (Some (g_vb t)).

Definition evict_log (c : lru_cache_t) (t : gnode) : list eviction_call :=
  if c_eviction_fn c =? 0 then [] else [call_of c t].

(** The fields of the cache structure that no operation on entries
    changes. *)
Definition same_config (c c' : lru_cache_t) : Prop :=
  c_capacity c' = c_capacity c ∧
  c_hash_table_size c' = c_hash_table_size c ∧
  c_hash_fn c' = c_hash_fn c ∧
  c_compare_fn c' = c_compare_fn c ∧
  c_eviction_fn c' = c_eviction_fn c ∧
  c_eviction_user_data c' = c_eviction_user_data c ∧
  c_thread_safe c' = c_thread_safe c ∧
  c_track_stats c' = c_track_stats c.

(** Statistics with the collision counter blanked. *)
Definition no_coll (t : lru_stats_t) : lru_stats_t := set_collisions 0 t.

(** What one successful [evict_lru] of the entry [t] does to the state. *)
Record evicted (s : state) (G : list gnode) (t : gnode) (s' : state)
  : Prop := mk_evicted {
  ev_config : same_config (st_cache s) (st_cache s');
  ev_size : c_size (st_cache s') = c_size (st_cache s) - 1;
  ev_stats :
    no_coll (c_stats (st_cache s')) =
    no_coll
      (if c_track_stats (st_cache s) then
         set_evictions (wrap64 (evictions (c_stats (st_cache s)) + 1))
           (c_stats (st_cache s))
       else c_stats (st_cache s));
  ev_brk : st_brk s' = st_brk s;
  ev_oracle : st_oracle s' = st_oracle s;
  ev_log : st_log s' = st_log s ++ evict_log (st_cache s) t;
  ev_frame : ∀ q, q ∉ owned G → st_heap s' !! q = st_heap s !! q;
  ev_freed :
    ∀ q, q ∈ [g_addr t; g_key t; g_val t; g_entry t] → st_heap s' !! q = None
}.

Definition with_value (v : Z) (vb : bytes) (g : gnode) : gnode :=
  mk_gnode (g_addr g) (g_key g) (g_kb g) v vb (g_entry g).

(** Replace the ghost entry at the address of [g'] by [g']. *)
Definition subst_g (g' x : gnode) : gnode :=
  if g_addr x =? g_addr g' then g' else x.

(** The pairs of the entries [G], as [cache_items] reads them. *)
Definition items_of (G : list gnode) : list (bytes * bytes) :=
  (λ g, (g_kb g, g_vb g)) <$> G.

Definition subst_bs (g' : gnode) (bs : list (list gnode)) : list (list gnode) :=
  (λ es : list gnode, subst_g g' <$> es) <$> bs.

(** The entry a lookup of [key] finds: the first match in the chain of the
    bucket of [key]. *)
Definition glookup (c : lru_cache_t) (bs : list (list gnode)) (key : bytes)
  : option gnode :=
  match bs !! Z.to_nat (bucket_of c key) with
  | Some es => find (kmatch c key (blen key)) es
  | None => None
  end.

(** ** What the operations do, in terms of the ghost description *)

(** [cache_upd s s' f d log]: from [s] to [s'] the configuration is kept,
    [size] grows by [d], the statistics other than the collision counter
    change by [f] (if statistics are tracked at all), and the callback is
    called as [log] records. *)
Record cache_upd (s s' : state) (f : lru_stats_t → lru_stats_t) (d : Z)
    (log : list eviction_call) : Prop := mk_cache_upd {
  cu_config : same_config (st_cache s) (st_cache s');
  cu_size : c_size (st_cache s') = c_size (st_cache s) + d;
  cu_stats :
    no_coll (c_stats (st_cache s')) =
    no_coll (if c_track_stats (st_cache s) then f (c_stats (st_cache s))
             else c_stats (st_cache s));
  cu_log : st_log s' = st_log s ++ log;
  cu_brk : st_brk s ≤ st_brk s'
}.

Definition count_hit (t : lru_stats_t) : lru_stats_t :=
  set_hits (wrap64 (hits t + 1)) t.
Definition count_miss (t : lru_stats_t) : lru_stats_t :=
  set_misses (wrap64 (misses t + 1)) t.
Definition count_eviction (t : lru_stats_t) : lru_stats_t :=
  set_evictions (wrap64 (evictions t + 1)) t.
Definition count_deletion (size : Z) (t : lru_stats_t) : lru_stats_t :=
  set_current_size size (set_deletions (wrap64 (deletions t + 1)) t).
Definition count_insertion (size : Z) (t : lru_stats_t) : lru_stats_t :=
  let t := set_insertions (wrap64 (insertions t + 1)) t in
  let t := set_current_size size t in
  if peak_size t <? size then set_peak_size size t else t.

Inductive get_rel (s : state) (G : list gnode) (bs : list (list gnode))
    (key : bytes)
  : lru_error_t → lookup_out → state → list gnode → Prop :=
| get_miss s' :
    glookup (st_cache s) bs key = None →
    cache_upd s s' count_miss 0 [] →
    st_heap s' = st_heap s → st_oracle s' = st_oracle s →
    get_rel s G bs key LRU_ERROR_NOT_FOUND (mk_out None None) s' G
| get_hit s' Ga g Gb :
    glookup (st_cache s) bs key = Some g →
    G = Ga ++ g :: Gb →
    oracle_head (st_oracle s) = true →
    cache_upd s s' count_hit 0 [] →
    st_heap s' !! st_brk s = Some (CBuf (g_vb g)) →
    st_brk s ∉ owned G →
    st_oracle s' = oracle_tail (st_oracle s) →
    get_rel s G bs key LRU_SUCCESS
      (mk_out (Some (st_brk s)) (Some (blen (g_vb g)))) s' (g :: Ga ++ Gb)
| get_nomem s' Ga g Gb :
    glookup (st_cache s) bs key = Some g →
    G = Ga ++ g :: Gb →
    oracle_head (st_oracle s) = false →
    cache_upd s s' id 0 [] →
    st_oracle s' = oracle_tail (st_oracle s) →
    get_rel s G bs key LRU_ERROR_NOMEM (mk_out (Some 0) None) s' (g :: Ga ++ Gb).

Inductive peek_rel (s : state) (G : list gnode) (bs : list (list gnode))
    (key : bytes) : lru_error_t → lookup_out → state → Prop :=
| peek_miss s' :
    glookup (st_cache s) bs key = None →
    cache_upd s s' id 0 [] →
    st_heap s' = st_heap s → st_oracle s' = st_oracle s →
    peek_rel s G bs key LRU_ERROR_NOT_FOUND (mk_out None None) s'
| peek_hit s' g :
    glookup (st_cache s) bs key = Some g →
    oracle_head (st_oracle s) = true →
    cache_upd s s' id 0 [] →
    st_heap s' = <[st_brk s := CBuf (g_vb g)]> (st_heap s) →
    st_brk s ∉ owned G →
    st_oracle s' = oracle_tail (st_oracle s) →
    peek_rel s G bs key LRU_SUCCESS
      (mk_out (Some (st_brk s)) (Some (blen (g_vb g)))) s'
| peek_nomem s' g :
    glookup (st_cache s) bs key = Some g →
    oracle_head (st_oracle s) = false →
    cache_upd s s' id 0 [] →
    st_heap s' = st_heap s →
    st_oracle s' = oracle_tail (st_oracle s) →
    peek_rel s G bs key LRU_ERROR_NOMEM (mk_out (Some 0) None) s'.

Definition contains_rel (s : state) (bs : list (list gnode)) (key : bytes)
    (b : bool) (s' : state) : Prop :=
  b = bool_decide (is_Some (glookup (st_cache s) bs key)) ∧
  cache_upd s s' id 0 [] ∧
  st_heap s' = st_heap s ∧ st_oracle s' = st_oracle s.

Inductive delete_rel (s : state) (G : list gnode) (bs : list (list gnode))
    (key : bytes) : lru_error_t → state → list gnode → Prop :=
| delete_miss s' :
    glookup (st_cache s) bs key = None →
    cache_upd s s' id 0 [] →
    st_heap s' = st_heap s → st_oracle s' = st_oracle s →
    delete_rel s G bs key LRU_ERROR_NOT_FOUND s' G
| delete_hit s' Ga g Gb :
    glookup (st_cache s) bs key = Some g →
    G = Ga ++ g :: Gb →
    cache_upd s s' (count_deletion (c_size (st_cache s) - 1)) (-1) [] →
    st_oracle s' = st_oracle s →
    (∀ q, q ∉ owned G → st_heap s' !! q = st_heap s !! q) →
    (∀ q, q ∈ [g_addr g; g_key g; g_val g; g_entry g] →
          st_heap s' !! q = None) →
    delete_rel s G bs key LRU_SUCCESS s' (Ga ++ Gb).

(** What evicting the entries [E], in this order, does to the state. *)
Record evicted_all (s : state) (G E : list gnode) (s' : state) : Prop :=
  mk_evicted_all {
  ea_config : same_config (st_cache s) (st_cache s');
  ea_size : c_size (st_cache s') = c_size (st_cache s) - Z.of_nat (length E);
  ea_stats :
    no_coll (c_stats (st_cache s')) =
    no_coll
      (if c_track_stats (st_cache s) then
         Nat.iter (length E) count_eviction (c_stats (st_cache s))
       else c_stats (st_cache s));
  ea_brk : st_brk s' = st_brk s;
  ea_oracle : st_oracle s' = st_oracle s;
  ea_log : st_log s' = st_log s ++ E ≫= evict_log (st_cache s);
  ea_frame : ∀ q, q ∉ owned G → st_heap s' !! q = st_heap s !! q;
  ea_freed : ∀ q, q ∈ owned E → st_heap s' !! q = None
}.

Inductive resize_rel (s : state) (G : list gnode) (n : Z)
  : lru_error_t → state → list gnode → Prop :=
| resize_invalid :
    n < 1 → resize_rel s G n LRU_ERROR_INVALID_ARG s G
| resize_done s' G' E :
    1 ≤ n →
    G = G' ++ E →
    Z.of_nat (length G') = Z.min (Z.of_nat (length G)) n →
    evicted_all (set_st_cache (set_c_capacity n (st_cache s)) s) G (rev E) s' →
    resize_rel s G n LRU_SUCCESS s' G'.

(** [h'] is [h] without the cells at the addresses [D]. *)
Definition heap_minus (h : gmap Z cell) (D : list Z) (h' : gmap Z cell)
  : Prop :=
  (∀ q, q ∈ D → h' !! q = None) ∧ (∀ q, q ∉ D → h' !! q = h !! q).

(** The cells [clear_nodes] frees for the entries [G]. *)
Definition node_cells (G : list gnode) : list Z :=
  G ≫= λ g, [g_addr g; g_val g; g_key g].

Record clear_rel (s : state) (G : list gnode) (s' : state) : Prop :=
  mk_clear_rel {
  cl_upd : cache_upd s s' (set_current_size 0) (- c_size (st_cache s)) [];
  cl_oracle : st_oracle s' = st_oracle s;
  cl_heap : heap_minus (st_heap s) (owned G) (st_heap s')
}.

(** The entries a [put] of a new key evicts first: the least recently
    used one if the cache is full, none otherwise. *)
Definition evicts (s : state) (E : list gnode) : Prop :=
  (E = [] ∧ c_size (st_cache s) < c_capacity (st_cache s)) ∨
  (c_capacity (st_cache s) ≤ c_size (st_cache s) ∧ ∃ t, E = [t]).

Inductive put_rel (s : state) (G : list gnode) (bs : list (list gnode))
    (key value : bytes)
  : lru_error_t → state → list gnode → list (list gnode) → Prop :=
| put_updated s' Ga g Gb :
    glookup (st_cache s) bs key = Some g →
    G = Ga ++ g :: Gb →
    oracle_head (st_oracle s) = true →
    cache_upd s s' id 0 [] →
    st_oracle s' = oracle_tail (st_oracle s) →
    glookup (st_cache s') (subst_bs (with_value (st_brk s) value g) bs) key =
      Some (with_value (st_brk s) value g) →
    put_rel s G bs key value LRU_SUCCESS s'
      (with_value (st_brk s) value g :: Ga ++ Gb)
      (subst_bs (with_value (st_brk s) value g) bs)
| put_update_nomem s' g :
    glookup (st_cache s) bs key = Some g →
    oracle_head (st_oracle s) = false →
    cache_upd s s' id 0 [] →
    st_heap s' = st_heap s →
    st_oracle s' = oracle_tail (st_oracle s) →
    put_rel s G bs key value LRU_ERROR_NOMEM s' G bs
| put_create_nomem s' n :
    glookup (st_cache s) bs key = None →
    false ∈ st_oracle s →
    cache_upd s s' id 0 [] →
    st_heap s' = st_heap s →
    st_oracle s' = drop n (st_oracle s) →
    put_rel s G bs key value LRU_ERROR_NOMEM s' G bs
| put_inserted s' bs' Gk E g :
    glookup (st_cache s) bs key = None →
    G = Gk ++ E → evicts s E →
    g_kb g = key → g_vb g = value →
    cache_upd s s'
      (λ t, count_insertion (c_size (st_cache s) - Z.of_nat (length E) + 1)
              (Nat.iter (length E) count_eviction t))
      (1 - Z.of_nat (length E)) (E ≫= evict_log (st_cache s)) →
    (∀ q, q ∈ owned E → st_heap s' !! q = None) →
    st_oracle s' = drop 4 (st_oracle s) →
    glookup (st_cache s') bs' key = Some g →
    put_rel s G bs key value LRU_SUCCESS s' (g :: Gk) bs'
| put_insert_nomem s' bs' Gk E :
    glookup (st_cache s) bs key = None →
    G = Gk ++ E → evicts s E →
    false ∈ st_oracle s →
    cache_upd s s' (Nat.iter (length E) count_eviction)
      (- Z.of_nat (length E)) (E ≫= evict_log (st_cache s)) →
    (∀ q, q ∈ owned E → st_heap s' !! q = None) →
    st_oracle s' = drop 4 (st_oracle s) →
    put_rel s G bs key value LRU_ERROR_NOMEM s' Gk bs'.

(** ** Requests and histories *)

(** A request a client can make: a capacity is a [size_t]. *)
Definition op_ok (o : op) : bool :=
  match o with
  | Resize new_capacity => new_capacity <? 2 ^ 64
  | _ => true
  end.

(** The statistics after [lru_cache_reset_stats] on a cache of [size]
    entries. *)
Definition stats_reset (size : Z) : lru_stats_t :=
  mk_stats 0 0 0 0 0 0 size size.

(** What one request does, in terms of the ghost description. *)
Inductive step_rel (s : state) (G : list gnode) (bs : list (list gnode))
  : op → response → state → list gnode → list (list gnode) → Prop :=
| step_put key value r s' G' bs' :
    0 < blen key → 0 < blen value →
    put_rel s G bs key value r s' G' bs' →
    step_rel s G bs (Put key value) (RCode r) s' G' bs'
| step_put_invalid key value :
    blen key = 0 ∨ blen value = 0 →
    step_rel s G bs (Put key value) (RCode LRU_ERROR_INVALID_ARG) s G bs
| step_get key r out s' G' :
    0 < blen key →
    get_rel s G bs key r out s' G' →
    step_rel s G bs (Get key) (RLookup r out) s' G' bs
| step_get_invalid key :
    blen key = 0 →
    step_rel s G bs (Get key)
      (RLookup LRU_ERROR_INVALID_ARG (mk_out None None)) s G bs
| step_peek key r out s' :
    0 < blen key →
    peek_rel s G bs key r out s' →
    step_rel s G bs (Peek key) (RLookup r out) s' G bs
| step_peek_invalid key :
    blen key = 0 →
    step_rel s G bs (Peek key)
      (RLookup LRU_ERROR_INVALID_ARG (mk_out None None)) s G bs
| step_delete key r s' G' bs' :
    0 < blen key →
    delete_rel s G bs key r s' G' →
    step_rel s G bs (Delete key) (RCode r) s' G' bs'
| step_delete_invalid key :
    blen key = 0 →
    step_rel s G bs (Delete key) (RCode LRU_ERROR_INVALID_ARG) s G bs
| step_contains key b s' :
    0 < blen key →
    contains_rel s bs key b s' →
    step_rel s G bs (Contains key) (RBool b) s' G bs
| step_contains_invalid key :
    blen key = 0 →
    step_rel s G bs (Contains key) (RBool false) s G bs
| step_clear s' :
    clear_rel s G s' →
    step_rel s G bs Clear RUnit s' [] (replicate (length bs) [])
| step_resize n r s' G' bs' :
    resize_rel s G n r s' G' →
    step_rel s G bs (Resize n) (RCode r) s' G' bs'
| step_set_callback fn ud :
    step_rel s G bs (SetEvictionCallback fn ud) (RCode LRU_SUCCESS)
      (set_st_cache (set_c_eviction fn ud (st_cache s)) s) G bs
| step_reset_stats :
    step_rel s G bs ResetStats RUnit
      (set_st_cache
         (if c_track_stats (st_cache s) then
            set_c_stats (stats_reset (c_size (st_cache s))) (st_cache s)
          else st_cache s) s) G bs.

(** ** The bucket-table length *)

(** The smearing steps of [calculate_hash_table_size]. *)
Definition smear (x : Z) : Z :=
  let x := Z.lor x (Z.shiftr x 1) in
  let x := Z.lor x (Z.shiftr x 2) in
  let x := Z.lor x (Z.shiftr x 4) in
  let x := Z.lor x (Z.shiftr x 8) in
  Z.lor x (Z.shiftr x 16).

Definition is_pow2 (n : Z) : Prop := ∃ k, 0 ≤ k ∧ n = 2 ^ k.

(** [n] is the least power of two that is at least the rational [p / q]. *)
Definition next_pow2_ge (p q n : Z) : Prop :=
  is_pow2 n ∧ p ≤ q * n ∧ ∀ m, is_pow2 m → p ≤ q * m → n ≤ m.

(** ** Observations on runs *)

(** The state [lru_cache_create] returns when both of its allocations
    succeed: an empty cache with [hts] buckets, [oracle] being what is left
    of the allocation oracle. *)
Definition fresh_cache (capacity hts : Z) (oracle : list bool) : state :=
  mk_state
    (mk_cache capacity 0 hts 0 0 (replicate (Z.to_nat hts) 0)
       default_hash default_compare 0 0 (mk_stats 0 0 0 0 0 0 0 0) true true)
    ∅ 1 oracle [].

(** A request touches the key [k]: a [put] or a [get] of [k] that
    succeeds. *)
Definition touches (e : op * response) (k : bytes) : bool :=
  match e with
  | (Put k' _, RCode LRU_SUCCESS) => bool_decide (k' = k)
  | (Get k', RLookup LRU_SUCCESS _) => bool_decide (k' = k)
  | _ => false
  end.

(** A [get] that failed for lack of memory. *)
Definition failed_get (e : op * response) : bool :=
  match e with
  | (Get _, RLookup LRU_ERROR_NOMEM _) => true
  | _ => false
  end.

(** The number of requests since [k] was last touched, the history being
    given latest request first. *)
Fixpoint age (rh : list (op * response)) (k : bytes) : nat :=
  match rh with
  | [] => O
  | e :: rh' => if touches e k then O else S (age rh' k)
  end.

(** Requests whose keys are shorter than [2^32] bytes where a key is
    stored or promoted. *)
Definition short_keys (o : op) : bool :=
  match o with
  | Put key _ => blen key <? 2 ^ 32
  | Get key => blen key <? 2 ^ 32
  | _ => true
  end.

(** Requests whose key, if they have one, is shorter than [2^32] bytes. *)
Definition short_key (o : op) : bool :=
  match o with
  | Put key _ | Get key | Peek key | Delete key | Contains key =>
      blen key <? 2 ^ 32
  | _ => true
  end.






(** The allocation requests the oracle still refuses. *)
Definition refusals (o : list bool) : nat :=
  length (filter (λ b : bool, b = false) o).

(** The call the callback gets for the entry whose node is at [n]. *)
Definition node_call (s : state) (n : Z) : option eviction_call :=
  match st_heap s !! n with
  | Some (CNode nd) =>
      Some (mk_call (c_eviction_fn (st_cache s)) (n_key nd) (n_key_size nd)
              (n_value nd) (n_value_size nd)
              (c_eviction_user_data (st_cache s))
              (buf_at (st_heap s) (n_key nd))
              (buf_at (st_heap s) (n_value nd)))
  | _ => None
  end.

(** The nodes of [s] that are no longer in the cache in [s'], least
    recently used first. *)
Definition gone_nodes (s s' : state) : list Z :=
  rev (filter (λ n, n ∉ cache_nodes s') (cache_nodes s)).

(** The entries a request evicts for lack of capacity. *)
Definition evicted_nodes (o : op) (s s' : state) : list Z :=
  match o with
  | Put _ _ | Resize _ => gone_nodes s s'
  | _ => []
  end.

(** Keys and values of the example runs, as the driver of the source passes
    them: C strings with their terminating NUL. *)
Definition key_a : bytes := cstr "a"%string.
Definition key_b : bytes := cstr "b"%string.
Definition key_c : bytes := cstr "c"%string.
Definition key_d : bytes := cstr "d"%string.
Definition val_1 : bytes := cstr "1"%string.
Definition val_2 : bytes := cstr "2"%string.
Definition val_3 : bytes := cstr "3"%string.
Definition val_4 : bytes := cstr "4"%string.

Definition key_n (n : String.string) : bytes := cstr (String.append "key"%string n).
Definition value_n (n : String.string) : bytes :=
  cstr (String.append "value_"%string n).

(** The capacity [lru_cache_create] works with. *)
Definition effective_capacity (capacity : Z) : Z :=
  if capacity <? LRU_CACHE_MIN_CAPACITY then LRU_CACHE_DEFAULT_CAPACITY
  else capacity.

(** What a client sees of a run: the result codes, the bytes behind the
    pointers the lookups returned, the cached pairs from the most to the
    least recently used one, the statistics, and the keys and values the
    eviction callback was called with. *)
Record observation : Set := mk_obs {
  ob_codes : list (option lru_error_t);
  ob_values : list (option bytes);
  ob_items : list (bytes * bytes);
  ob_stats : lru_stats_t;
  ob_evicted : list (option bytes * option bytes)
}.

Definition response_code (r : response) : option lru_error_t :=
  match r with
  | RCode e => Some e
  | RLookup e _ => Some e
  | _ => None
  end.

Definition response_value (s : state) (r : response) : option bytes :=
  match r with
  | RLookup _ out => out_bytes s out
  | _ => None
  end.

Definition observe (r : option (list response * state))
  : option observation :=
  match r with
  | Some (rs, s) =>
      Some (mk_obs (response_code <$> rs) (response_value s <$> rs)
              (cache_items s) (c_stats (st_cache s))
              ((λ c, (ec_key_bytes c, ec_value_bytes c)) <$> st_log s))
  | None => None
  end.

(** The driver of the source: seven insertions into a cache of capacity
    five with the eviction callback registered, then two lookups. *)
Definition scenario : list op :=
  [SetEvictionCallback 1 2;
   Put (key_n "1"%string) (value_n "1"%string); Put (key_n "2"%string) (value_n "2"%string);
   Put (key_n "3"%string) (value_n "3"%string); Put (key_n "4"%string) (value_n "4"%string);
   Put (key_n "5"%string) (value_n "5"%string); Put (key_n "6"%string) (value_n "6"%string);
   Put (key_n "7"%string) (value_n "7"%string);
   Get (key_n "3"%string); Get (key_n "6"%string)].

(** The state a run ends in (the initial one if the run is undefined). *)
Definition state_after (ops : list op) (s : state) : state :=
  match run ops s with
  | Some (_, s') => s'
  | None => s
  end.

(** [c] is the call for the entry whose node was at [n] in [s]: it carries
    the node's own key and value pointers and sizes and the registered
    function and context, the two buffers were live when it was made, and
    in [s'] the node and both buffers are freed. *)
Definition evicted_call (s s' : state) (n : Z) (c : eviction_call) : Prop :=
  node_call s n = Some c ∧
  is_Some (ec_key_bytes c) ∧ is_Some (ec_value_bytes c) ∧
  st_heap s' !! n = None ∧
  st_heap s' !! ec_key c = None ∧
  st_heap s' !! ec_value c = None.

(** The request [o] is one that evicts for lack of capacity in [s]: a
    [put] into a full cache or a [resize] below the current size. *)
Definition capacity_driven (o : op) (s : state) : Prop :=
  match o with
  | Put _ _ => c_capacity (st_cache s) ≤ c_size (st_cache s)
  | Resize n => 1 ≤ n < c_size (st_cache s)
  | _ => False
  end.

(** ** Rules for the primitive computations *)

Lemma wp_run {A} (m : M A) s Q :
  wp m s Q ↔ ∃ a s', m s = Some (a, s') ∧ Q a s'.
Proof.
  unfold wp. destruct (m s) as [[a s']|]; split.
  - eauto.
  - by intros (? & ? & [= <- <-] & ?).
  - done.
  - by intros (? & ? & ? & ?).
Qed.

Lemma wp_ret {A} (a : A) s Q : Q a s → wp (mret a) s Q.
Proof. done. Qed.

Lemma wp_bind {A B} (m : M A) (f : A → M B) s Q :
  wp m s (λ a s', wp (f a) s' Q) → wp (m ≫= f) s Q.
Proof. unfold wp, mbind, M_bind. by destruct (m s) as [[a s']|]. Qed.

Lemma wp_bind_inv {A B} (m : M A) (f : A → M B) s Q :
  wp (m ≫= f) s Q → wp m s (λ a s', wp (f a) s' Q).
Proof. unfold wp, mbind, M_bind. by destruct (m s) as [[a s']|]. Qed.

Lemma wp_mono {A} (m : M A) s (Q Q' : A → state → Prop) :
  wp m s Q → (∀ a s', Q a s' → Q' a s') → wp m s Q'.
Proof. unfold wp. destruct (m s) as [[a s']|]; eauto. Qed.

Lemma wp_eq {A} (m : M A) s a s' (Q : A → state → Prop) :
  m s = Some (a, s') → Q a s' → wp m s Q.
Proof. unfold wp. by intros ->. Qed.

Lemma wp_get_cache s Q : Q (st_cache s) s → wp get_cache s Q.
Proof. done. Qed.

Lemma wp_get_heap s Q : Q (st_heap s) s → wp get_heap s Q.
Proof. done. Qed.

Lemma wp_live_cells s Q : Q (size (st_heap s)) s → wp live_cells s Q.
Proof. done. Qed.

Lemma wp_modify_cache f s Q :
  Q tt (set_st_cache (f (st_cache s)) s) → wp (modify_cache f) s Q.
Proof. done. Qed.

Lemma wp_modify_stats f s Q :
  Q tt (set_st_cache (set_c_stats (f (c_stats (st_cache s))) (st_cache s)) s) →
  wp (modify_stats f) s Q.
Proof. done. Qed.

Lemma wp_log_call e s Q :
  Q tt (set_st_log (st_log s ++ [e]) s) → wp (log_call e) s Q.
Proof. done. Qed.

Lemma wp_load_node p nd s Q :
  st_heap s !! p = Some (CNode nd) → Q nd s → wp (load_node p) s Q.
Proof. unfold wp, load_node. by intros ->. Qed.

Lemma wp_modify_node p nd f s Q :
  st_heap s !! p = Some (CNode nd) →
  Q tt (set_st_heap (<[p := CNode (f nd)]> (st_heap s)) s) →
  wp (modify_node p f) s Q.
Proof. unfold wp, modify_node. by intros ->. Qed.

Lemma wp_load_entry p en s Q :
  st_heap s !! p = Some (CEntry en) → Q en s → wp (load_entry p) s Q.
Proof. unfold wp, load_entry. by intros ->. Qed.

Lemma wp_modify_entry p en f s Q :
  st_heap s !! p = Some (CEntry en) →
  Q tt (set_st_heap (<[p := CEntry (f en)]> (st_heap s)) s) →
  wp (modify_entry p f) s Q.
Proof. unfold wp, modify_entry. by intros ->. Qed.

Lemma wp_load_buf p b s Q :
  st_heap s !! p = Some (CBuf b) → Q b s → wp (load_buf p) s Q.
Proof. unfold wp, load_buf. by intros ->. Qed.

Lemma wp_free p x s Q :
  st_heap s !! p = Some x → p ≠ 0 →
  Q tt (set_st_heap (delete p (st_heap s)) s) → wp (free p) s Q.
Proof.
  unfold wp, free. intros -> Hp. by destruct (Z.eqb_spec p 0).
Qed.

Lemma wp_malloc init s Q :
  (oracle_head (st_oracle s) = true →
   Q (st_brk s)
     (mk_state (st_cache s) (<[st_brk s := init]> (st_heap s)) (st_brk s + 1)
        (oracle_tail (st_oracle s)) (st_log s))) →
  (oracle_head (st_oracle s) = false →
   Q 0 (mk_state (st_cache s) (st_heap s) (st_brk s)
          (oracle_tail (st_oracle s)) (st_log s))) →
  wp (malloc init) s Q.
Proof.
  unfold wp, malloc. destruct (st_oracle s) as [|[] r]; simpl; eauto.
Qed.

Lemma wp_default_copy data size s Q :
  size ≤ Z.of_nat (length data) →
  (oracle_head (st_oracle s) = true →
   Q (st_brk s)
     (mk_state (st_cache s)
        (<[st_brk s := CBuf (take (Z.to_nat size) data)]> (st_heap s))
        (st_brk s + 1) (oracle_tail (st_oracle s)) (st_log s))) →
  (oracle_head (st_oracle s) = false →
   Q 0 (mk_state (st_cache s) (st_heap s) (st_brk s)
          (oracle_tail (st_oracle s)) (st_log s))) →
  wp (default_copy data size) s Q.
Proof.
  intros Hsz H1 H2. unfold default_copy.
  destruct (Z.ltb_spec (Z.of_nat (length data)) size); [lia|].
  by apply wp_malloc.
Qed.

(** ** The recency list *)

(** ** Tactics *)

Set Warnings "-clear-no-such-hyp".

Lemma addr_hd_app G1 G2 d : addr_hd (G1 ++ G2) d = addr_hd G1 (addr_hd G2 d).
Proof. by destruct G1. Qed.

Lemma addr_last_app G1 G2 d :
  addr_last (G1 ++ G2) d = addr_last G2 (addr_last G1 d).
Proof. revert d. induction G1 as [|g G1 IH]; intros d; simpl; [done|apply IH]. Qed.

Lemma dseg_app h p G1 G2 q :
  dseg h p (G1 ++ G2) q ↔
  dseg h p G1 (addr_hd G2 q) ∧ dseg h (addr_last G1 p) G2 q.
Proof.
  revert p. induction G1 as [|g G1 IH]; intros p; simpl.
  - tauto.
  - rewrite IH, addr_hd_app. tauto.
Qed.

Lemma dseg_frame h h' p G q :
  (∀ g, g ∈ G → h' !! g_addr g = h !! g_addr g) →
  dseg h p G q → dseg h' p G q.
Proof.
  revert p. induction G as [|g G IH]; intros p Hf; simpl; [done|].
  intros [Hg HG]. split.
  - rewrite Hf; [done|left].
  - apply IH; [|done]. intros g' Hg'. apply Hf. by right.
Qed.

Lemma dseg_node_ok h p G q g : dseg h p G q → g ∈ G → node_ok h g.
Proof.
  revert p. induction G as [|g' G IH]; intros p; simpl.
  - by intros _ ?%elem_of_nil.
  - intros [Hg HG] [->|Hin]%elem_of_cons; [by eexists _, _|eauto].
Qed.

Lemma dseg_mid h p G1 g G2 q :
  dseg h p (G1 ++ g :: G2) q →
  h !! g_addr g =
    Some (CNode (gnode_cell g (addr_last G1 p) (addr_hd G2 q))).
Proof. rewrite dseg_app. simpl. tauto. Qed.

Lemma set_c_head_id c : set_c_head (c_head c) c = c.
Proof. by destruct c. Qed.
Lemma set_c_tail_id c : set_c_tail (c_tail c) c = c.
Proof. by destruct c. Qed.
Lemma state_eta s :
  mk_state (st_cache s) (st_heap s) (st_brk s) (st_oracle s) (st_log s) = s.
Proof. by destruct s. Qed.

Lemma node_ok_nonzero h g : h !! 0 = None → node_ok h g → g_addr g ≠ 0.
Proof. intros H0 (p & n & Hg) E. rewrite E in Hg. congruence. Qed.

Lemma addr_last_nonzero h p G q d :
  h !! 0 = None → dseg h p G q → d ≠ 0 → addr_last G d ≠ 0.
Proof.
  intros H0. revert p d. induction G as [|g G IH]; intros p d; simpl; [done|].
  intros [Hg HG] _. eapply IH; [done|]. intros E. rewrite E in Hg. congruence.
Qed.

Lemma dseg_set_next h p G g q q' :
  NoDup (g_addr <$> (G ++ [g])) →
  dseg h p (G ++ [g]) q →
  dseg (<[g_addr g := CNode (gnode_cell g (addr_last G p) q')]> h) p (G ++ [g]) q'.
Proof.
  intros Hnd. rewrite !dseg_app. simpl. intros (HG & Hg & _).
  split_and!; [|by rewrite lookup_insert_eq|done].
  eapply dseg_frame; [|done].
  intros g' Hg'. rewrite lookup_insert_ne; [done|].
  rewrite map_app, NoDup_app in Hnd. destruct Hnd as (_ & Hd & _).
  intros E. eapply (Hd (g_addr g')).
  - apply list_elem_of_fmap. eauto.
  - rewrite <- E. simpl. left.
Qed.

Lemma dseg_set_prev h p p' g G q :
  NoDup (g_addr <$> (g :: G)) →
  dseg h p (g :: G) q →
  dseg (<[g_addr g := CNode (gnode_cell g p' (addr_hd G q))]> h) p' (g :: G) q.
Proof.
  intros Hnd. simpl. intros [Hg HG].
  split; [by rewrite lookup_insert_eq|].
  eapply dseg_frame; [|done].
  intros g' Hg'. rewrite lookup_insert_ne; [done|].
  simpl in Hnd. apply NoDup_cons in Hnd as [Hn _].
  intros E. apply Hn. rewrite E. apply list_elem_of_fmap. eauto.
Qed.

Ltac close_with HQ :=
  lazymatch goal with
  | |- ?Q tt ?s' =>
      let h := eval cbn in (st_heap s') in
      refine (eq_ind _ (Q tt) (HQ h _ _ _) _ _)
  end.

Ltac ne_tac :=
  solve [assumption | apply not_eq_sym; assumption | congruence | lia].

Ltac hl :=
  simpl;
  repeat first
    [ rewrite lookup_insert_eq
    | rewrite lookup_insert_ne by ne_tac
    | rewrite lookup_delete_ne by ne_tac ];
  first [eassumption | reflexivity].

Ltac wp_pure :=
  repeat lazymatch goal with
  | |- wp (mbind _ _) _ _ => apply wp_bind
  | |- wp (mret _) _ _ => apply wp_ret
  | |- wp get_cache _ _ => apply wp_get_cache
  | |- wp get_heap _ _ => apply wp_get_heap
  | |- wp live_cells _ _ => apply wp_live_cells
  | |- wp (modify_cache _) _ _ => apply wp_modify_cache
  | |- wp (modify_stats _) _ _ => apply wp_modify_stats
  | |- wp (log_call _) _ _ => apply wp_log_call
  end.


Lemma submseteq_NoDup {A} (l k : list A) : l ⊆+ k → NoDup k → NoDup l.
Proof.
  intros (k' & Hp & Hs)%submseteq_sublist_r Hk.
  rewrite Hp. by eapply sublist_NoDup.
Qed.

(** Address disequalities from the [NoDup] facts of the invariant: lift
    memberships of ghost entries to memberships of addresses, abstract the
    address lists and the addresses, and leave the rest to [set_solver]. *)
Ltac nd_lift f :=
  repeat match goal with
         | H : ?g ∈ ?G |- _ =>
             lazymatch type of g with
             | gnode => apply (list_elem_of_fmap_2 f) in H
             end
         end.

Ltac nd_abs :=
  repeat match goal with
         | |- context [?f <$> ?G] =>
             is_var G; let x := fresh "L" in
             set (x := f <$> G) in *; clearbody x
         | H : context [?f <$> ?G] |- _ =>
             is_var G; let x := fresh "L" in
             set (x := f <$> G) in *; clearbody x
         end.

Ltac nd_abs_elt :=
  repeat match goal with
         | |- context [?f ?g] =>
             is_var g;
             lazymatch type of g with gnode => idtac end;
             lazymatch type of (f g) with Z => idtac end;
             let x := fresh "a" in set (x := f g) in *; clearbody x
         | H : context [?f ?g] |- _ =>
             is_var g;
             lazymatch type of g with gnode => idtac end;
             lazymatch type of (f g) with Z => idtac end;
             let x := fresh "a" in set (x := f g) in *; clearbody x
         end.

Ltac fmap_fold :=
  repeat match goal with
         | H : context [list_fmap ?A ?B ?f ?l] |- _ =>
             progress change (list_fmap A B f l) with (@fmap list _ A B f l) in H
         | |- context [list_fmap ?A ?B ?f ?l] =>
             progress change (list_fmap A B f l) with (@fmap list _ A B f l)
         end.

Ltac fmap_norm :=
  fmap_fold;
  repeat first
    [ rewrite fmap_app in * | rewrite fmap_cons in * | rewrite fmap_nil in * ].

Ltac nd_go :=
  fmap_norm;
  nd_abs; nd_abs_elt;
  rewrite ?NoDup_app, ?NoDup_cons in *;
  set_solver.

Ltac nd_solve := nd_lift g_addr; nd_go.

(** [NoDup] of a rearranged part of a list that has no duplicates. *)
Ltac nd_sub H :=
  fmap_norm;
  eapply submseteq_NoDup; [|exact H]; solve_submseteq.

Lemma dseg_insert_other h p G q a x :
  a ∉ (g_addr <$> G) → dseg h p G q → dseg (<[a := x]> h) p G q.
Proof.
  intros Ha. apply dseg_frame. intros g Hg.
  rewrite lookup_insert_ne; [done|]. intros ->. apply Ha.
  apply list_elem_of_fmap. eauto.
Qed.

Lemma remove_from_list_spec s G1 g G2 Q :
  list_ok s (G1 ++ g :: G2) →
  NoDup (g_addr <$> (G1 ++ g :: G2)) →
  st_heap s !! 0 = None →
  (∀ h', dseg h' 0 (G1 ++ G2) 0 →
         (∀ p, p ∉ g_addr <$> (G1 ++ G2) → h' !! p = st_heap s !! p) →
         dom h' = dom (st_heap s) →
         Q tt (mk_state
                 (set_c_tail (addr_last (G1 ++ G2) 0)
                    (set_c_head (addr_hd (G1 ++ G2) 0) (st_cache s)))
                 h' (st_brk s) (st_oracle s) (st_log s))) →
  wp (remove_from_list (g_addr g)) s Q.
Proof.
  intros (Hd & Hh & Ht) Hnd H0 HQ.
  pose proof (dseg_mid _ _ _ _ _ _ Hd) as Hg.
  unfold remove_from_list.
  apply wp_bind. eapply wp_load_node; [done|]. simpl (n_prev _). simpl (n_next _).
  destruct G1 as [|g1 G1 _] using rev_ind; destruct G2 as [|g2 G2].
  - (* the only node *)
    simpl. wp_pure.
    eapply wp_load_node; [done|]. simpl. wp_pure.
    close_with HQ; [done|done|done|].
    destruct s as [[] ? ? ? ?]; simpl in *; by subst.
  - (* the head *)
    simpl in *. destruct Hd as [_ Hd].
    destruct Hd as [Hg2 HG2].
    assert (g_addr g2 ≠ 0) as Hz by congruence.
    wp_pure.
    eapply wp_load_node; [done|]. simpl.
    destruct (Z.eqb_spec (g_addr g2) 0); [done|]. simpl.
    eapply wp_modify_node; [done|]. simpl.
    close_with HQ.
    + split; [by rewrite lookup_insert_eq|].
      apply dseg_insert_other; [|done]. clear -Hnd. nd_solve.
    + intros p Hp. rewrite lookup_insert_ne; [done|]. set_solver.
    + apply dom_insert_lookup_L. by eexists.
    + destruct s as [[] ? ? ? ?]; simpl in *; subst. done.
  - (* the tail *)
    rewrite app_nil_r in *.
    rewrite addr_last_app in *. simpl in *.
    rewrite <- app_assoc in Hd, Hnd. simpl in Hd, Hnd.
    pose proof (dseg_mid _ _ _ _ _ _ Hd) as Hg1. simpl in Hg1.
    assert (g_addr g1 ≠ 0) as Hz by congruence.
    destruct (Z.eqb_spec (g_addr g1) 0); [done|]. simpl.
    apply wp_bind. eapply wp_modify_node; [done|]. simpl.
    assert (g_addr g1 ≠ g_addr g) as Hne by (clear -Hnd; nd_solve).
    apply wp_bind. eapply wp_load_node; [hl|]. simpl.
    wp_pure.
    close_with HQ.
    + replace (G1 ++ [g1; g]) with ((G1 ++ [g1]) ++ [g]) in Hd
        by (by rewrite <- app_assoc).
      apply dseg_app in Hd as [Hd _]. simpl in Hd.
      eapply dseg_set_next; [|done]. clear -Hnd.

      rewrite fmap_app in *. apply NoDup_app in Hnd as (? & ? & Hnd).
      apply NoDup_app. split_and!; [done|set_solver|].
      simpl in *. apply NoDup_cons in Hnd as [_ Hnd]. apply NoDup_singleton.
    + intros p Hp. rewrite lookup_insert_ne; [done|]. clear -Hp. set_solver.
    + apply dom_insert_lookup_L. by eexists.
    + destruct s as [[] ? ? ? ?]; simpl in *; subst.
      unfold set_c_tail, set_c_head. simpl.
      by rewrite !addr_hd_app.
  - (* in the middle *)
    rewrite addr_last_app in *. simpl in *.
    rewrite <- app_assoc in Hd, Hnd. simpl in Hd, Hnd.
    pose proof (dseg_mid _ _ _ _ _ _ Hd) as Hg1. simpl in Hg1.
    assert (g_addr g1 ≠ 0) as Hz by congruence.
    destruct (Z.eqb_spec (g_addr g1) 0); [done|]. simpl.
    pose proof (dseg_mid (st_heap s) 0 (G1 ++ [g1; g]) g2 G2 0) as Hg2.
    rewrite <- app_assoc in Hg2. specialize (Hg2 Hd).
    rewrite addr_last_app in Hg2. simpl in Hg2.
    assert (g_addr g2 ≠ 0) as Hz2 by congruence.
    assert (g_addr g1 ≠ g_addr g) as Hne1 by (clear -Hnd; nd_solve).
    assert (g_addr g2 ≠ g_addr g) as Hne2 by (clear -Hnd; nd_solve).
    assert (g_addr g1 ≠ g_addr g2) as Hne3 by (clear -Hnd; nd_solve).
    apply wp_bind. eapply wp_modify_node; [done|]. simpl.
    apply wp_bind. eapply wp_load_node; [hl|]. simpl.
    destruct (Z.eqb_spec (g_addr g2) 0); [done|]. simpl.
    eapply wp_modify_node; [hl|]. simpl.
    close_with HQ.
    + rewrite <- app_assoc. apply dseg_app. simpl.
      replace (G1 ++ g1 :: g :: g2 :: G2) with ((G1 ++ [g1]) ++ g :: g2 :: G2) in Hd
        by (by rewrite <- app_assoc).
      apply dseg_app in Hd as [Hd1 Hd2]. simpl in Hd2.
      destruct Hd2 as (_ & _ & Hd2).
      apply dseg_app in Hd1 as [Hd1 _].
      split_and!.
      * do 2 (apply dseg_insert_other; [clear -Hnd; nd_solve|]). done.
      * rewrite lookup_insert_ne, lookup_insert_eq; [|done].
        by rewrite ?addr_last_app.
      * by rewrite lookup_insert_eq.
      * do 2 (apply dseg_insert_other; [clear -Hnd; nd_solve|]). done.
    + intros p Hp.
      rewrite lookup_insert_ne, lookup_insert_ne; [done| |]; clear -Hp; set_solver.
    + rewrite dom_insert_lookup_L; [|rewrite lookup_insert_ne; eauto].
      apply dom_insert_lookup_L. by eexists.
    + destruct s as [[] ? ? ? ?]; simpl in *; subst.
      unfold set_c_tail, set_c_head. simpl.
      by rewrite <- ?app_assoc, ?addr_hd_app, ?addr_last_app.
Qed.

Ltac dom_tac :=
  simpl;
  repeat (rewrite dom_insert_lookup_L; [|solve [eexists; hl]]);
  done.

Ltac state_eq :=
  match goal with
  | s : state |- _ => destruct s as [[] ? ? ? ?]
  end;
  simpl in *; subst;
  unfold set_c_tail, set_c_head; simpl;
  rewrite <- ?app_assoc, ?addr_hd_app, ?addr_last_app; try done.

Lemma add_to_front_spec s G g p n Q :
  list_ok s G →
  st_heap s !! g_addr g = Some (CNode (gnode_cell g p n)) →
  NoDup (g_addr <$> (g :: G)) →
  st_heap s !! 0 = None →
  (∀ h', dseg h' 0 (g :: G) 0 →
         (∀ p, p ∉ g_addr <$> (g :: G) → h' !! p = st_heap s !! p) →
         dom h' = dom (st_heap s) →
         Q tt (mk_state
                 (set_c_tail (addr_last (g :: G) 0)
                    (set_c_head (g_addr g) (st_cache s)))
                 h' (st_brk s) (st_oracle s) (st_log s))) →
  wp (add_to_front (g_addr g)) s Q.
Proof.
  intros (Hd & Hh & Ht) Hg Hnew H0 HQ.
  assert (g_addr g ≠ 0) as Hz by congruence.
  unfold add_to_front. wp_pure.
  eapply wp_modify_node; [done|]. wp_pure.
  eapply wp_modify_node; [hl|]. simpl. wp_pure. simpl.
  destruct G as [|g1 G].
  - simpl in *. rewrite Hh. simpl. wp_pure. simpl. rewrite Ht. simpl.
    wp_pure. close_with HQ.
    + split; [hl|done].
    + intros q Hq. rewrite !lookup_insert_ne; [done| |]; clear -Hq; set_solver.
    + dom_tac.
    + state_eq.
  - simpl in *. destruct Hd as [Hg1 Hd].
    assert (g_addr g1 ≠ 0) as Hz1 by congruence.
    assert (g_addr g ≠ g_addr g1) as Hne by (clear -Hnew; nd_solve).
    rewrite Hh. destruct (Z.eqb_spec (g_addr g1) 0); [done|]. simpl.
    eapply wp_modify_node; [hl|]. wp_pure. simpl.
    rewrite Ht.
    assert (addr_last G (g_addr g1) ≠ 0) as Hl
      by (by eapply addr_last_nonzero).
    destruct (Z.eqb_spec (addr_last G (g_addr g1)) 0); [done|].
    wp_pure. close_with HQ.
    + split_and!; [hl|hl|].
      do 3 (apply dseg_insert_other; [clear -Hnew; nd_solve|]).
      done.
    + intros q Hq.
      rewrite !lookup_insert_ne; [done| | |]; clear -Hq; set_solver.
    + dom_tac.
    + state_eq.
Qed.

Lemma move_to_front_spec s G1 g G2 Q :
  list_ok s (G1 ++ g :: G2) →
  NoDup (g_addr <$> (G1 ++ g :: G2)) →
  st_heap s !! 0 = None →
  (∀ h', dseg h' 0 (g :: G1 ++ G2) 0 →
         (∀ p, p ∉ g_addr <$> (G1 ++ g :: G2) → h' !! p = st_heap s !! p) →
         dom h' = dom (st_heap s) →
         Q tt (mk_state
                 (set_c_tail (addr_last (g :: G1 ++ G2) 0)
                    (set_c_head (g_addr g) (st_cache s)))
                 h' (st_brk s) (st_oracle s) (st_log s))) →
  wp (move_to_front (g_addr g)) s Q.
Proof.
  intros Hl Hnd H0 HQ. pose proof Hl as (Hd & Hh & Ht).
  unfold move_to_front. wp_pure.
  destruct (Z.eqb_spec (c_head (st_cache s)) (g_addr g)) as [E|E].
  - destruct G1 as [|g1 G1].
    + simpl in *. wp_pure. close_with HQ; [done|done|done|]. state_eq.
    + exfalso. simpl in *. clear -Hnd Hh E. rewrite Hh in E. nd_solve.
  - destruct G1 as [|g1 G1 _] using rev_ind; [by simpl in *|].
    wp_pure. apply (remove_from_list_spec s (G1 ++ [g1]) g G2); [done..|].
    intros h1 Hd1 Hf1 Hdom1.
    pose proof (dseg_mid _ _ _ _ _ _ Hd) as Hg.
    eapply (add_to_front_spec _ ((G1 ++ [g1]) ++ G2) g).
    + split_and!; [done|by simpl|by simpl].
    + rewrite Hf1; [done|]. clear -Hnd. nd_solve.
    + clear -Hnd. nd_sub Hnd.
    + rewrite Hf1; [done|]. intros Hin. 
      apply list_elem_of_fmap in Hin as (g' & E' & Hin).
      assert (g' ∈ (G1 ++ [g1]) ++ g :: G2) as Hin' by set_solver.
      eapply (dseg_node_ok _ _ _ _ _ Hd) in Hin' as (? & ? & Hin').
      congruence.
    + intros h2 Hd2 Hf2 Hdom2. close_with HQ.
      * done.
      * intros q Hq. rewrite Hf2, Hf1; [done| |]; clear -Hq; set_solver.
      * simpl in *. congruence.
      * state_eq.
Qed.

(** ** The hash index *)

Lemma chain_find_hit P l1 g l2 sl :
  Forall (λ g', P g' = false) l1 → P g = true →
  chain_find P (l1 ++ g :: l2) sl = (g_addr g, slot_after l1 sl, length l1).
Proof.
  intros Hl Hg. revert sl. induction Hl as [|g' l1 Hg' _ IH]; intros sl; simpl.
  - by rewrite Hg.
  - by rewrite Hg', IH.
Qed.

Lemma chain_find_miss P es sl :
  Forall (λ g', P g' = false) es →
  chain_find P es sl = (0, slot_after es sl, length es).
Proof.
  intros Hl. revert sl. induction Hl as [|g' l1 Hg' _ IH]; intros sl; simpl.
  - done.
  - by rewrite Hg', IH.
Qed.

Lemma chain_find_cases (P : gnode → bool) es :
  (∃ l1 g l2, es = l1 ++ g :: l2 ∧ Forall (λ g', P g' = false) l1 ∧ P g = true)
  ∨ Forall (λ g', P g' = false) es.
Proof.
  induction es as [|g es IH].
  - by right.
  - destruct (P g) eqn:Hg.
    + left. by exists [], g, es.
    + destruct IH as [(l1 & g' & l2 & -> & Hl & Hg')|Hall].
      * left. exists (g :: l1), g', l2. split_and!; [done| |done].
        by constructor.
      * right. by constructor.
Qed.

Lemma set_st_cache_id s : set_st_cache (st_cache s) s = s.
Proof. by destruct s. Qed.

Lemma add_coll_0 s : add_coll 0 s = s.
Proof. unfold add_coll. simpl. by destruct s. Qed.

Lemma bump_compare c : c_compare_fn (bump c) = c_compare_fn c.
Proof. unfold bump. by destruct (c_track_stats c). Qed.

Lemma kmatch_bump c key ks g : kmatch (bump c) key ks g = kmatch c key ks g.
Proof. unfold kmatch. by rewrite bump_compare. Qed.

Lemma wp_count_collision s Q :
  Q tt (set_st_cache (bump (st_cache s)) s) → wp count_collision s Q.
Proof.
  intros HQ. unfold count_collision. wp_pure.
  unfold bump in HQ. destruct (c_track_stats (st_cache s)); wp_pure; [done|].
  by rewrite set_st_cache_id in HQ.
Qed.

Lemma entry_hd_app l1 l2 d : entry_hd (l1 ++ l2) d = entry_hd l1 (entry_hd l2 d).
Proof. by destruct l1. Qed.

Lemma cseg_app h l1 l2 q :
  cseg h (l1 ++ l2) q ↔ cseg h l1 (entry_hd l2 q) ∧ cseg h l2 q.
Proof.
  induction l1 as [|g l1 IH]; simpl.
  - tauto.
  - rewrite IH, entry_hd_app. tauto.
Qed.

Lemma cseg_frame h h' es q :
  (∀ g, g ∈ es → h' !! g_entry g = h !! g_entry g) →
  cseg h es q → cseg h' es q.
Proof.
  induction es as [|g es IH]; intros Hf; simpl; [done|].
  intros [Hg Hes]. split.
  - rewrite Hf; [done|left].
  - apply IH; [|done]. intros g' Hg'. apply Hf. by right.
Qed.

Lemma cseg_entry_ok h es q g :
  cseg h es q → g ∈ es →
  ∃ nx, h !! g_entry g = Some (CEntry (mk_entry (g_addr g) nx)).
Proof.
  induction es as [|g' es IH]; simpl.
  - by intros _ ?%elem_of_nil.
  - intros [Hg Hes] [->|Hin]%elem_of_cons; eauto.
Qed.

Lemma find_loop_spec es : ∀ sl s fuel key ks Q,
  read_slot sl s = Some (entry_hd es 0, s) →
  chain (st_heap s) es →
  Forall (node_ok (st_heap s)) es →
  Forall (bufs_ok (st_heap s)) es →
  st_heap s !! 0 = None →
  (length es < fuel)%nat →
  (let r := chain_find (kmatch (st_cache s) key ks) es sl in
   Q (r.1.1, r.1.2) (add_coll r.2 s)) →
  wp (find_loop fuel key ks sl) s Q.
Proof.
  induction es as [|g es IH]; intros sl s fuel key ks Q Hsl Hch Hno Hbo H0 Hfuel HQ.
  - destruct fuel as [|fuel]; [simpl in Hfuel; lia|].
    simpl. wp_pure. eapply wp_eq; [done|]. simpl. wp_pure.
    simpl in HQ. by rewrite add_coll_0 in HQ.
  - destruct fuel as [|fuel]; [simpl in Hfuel; lia|].
    simpl in Hch. destruct Hch as [Hg Hch].
    apply Forall_cons in Hno as [(p & n & Hn) Hno].
    apply Forall_cons in Hbo as [[Hk Hv] Hbo].
    assert (g_entry g ≠ 0) as Hz by congruence.
    simpl. wp_pure. eapply wp_eq; [done|]. simpl.
    destruct (Z.eqb_spec (g_entry g) 0); [done|].
    wp_pure. eapply wp_load_entry; [done|]. wp_pure. simpl.
    eapply wp_load_node; [done|]. wp_pure. simpl.
    eapply wp_load_buf; [done|]. wp_pure.
    simpl in HQ.
    change (c_compare_fn (st_cache s) (g_kb g) (blen (g_kb g)) key ks =? 0)
      with (kmatch (st_cache s) key ks g).
    destruct (kmatch (st_cache s) key ks g) eqn:Hm.
    + wp_pure. simpl in HQ. by rewrite add_coll_0 in HQ.
    + wp_pure. apply wp_count_collision.
      apply IH; simpl; try done.
      * unfold load_entry, mbind, M_bind. simpl. by rewrite Hg.
      * simpl in Hfuel. lia.
      * simpl in HQ. 
        assert (∀ P P' es sl, (∀ g, P g = P' g) → chain_find P es sl = chain_find P' es sl) as Hext.
        { clear. intros P P' es. induction es as [|g es IH]; intros sl HP; simpl; [done|].
          rewrite HP. destruct (P' g); [done|]. by rewrite IH. }
        rewrite (Hext _ (kmatch (st_cache s) key ks)) by (intros; apply kmatch_bump).
        unfold add_coll in *. simpl in *.
        by rewrite <- Nat.iter_succ_r.
Qed.

Lemma nodup_length_le_size (h : gmap Z cell) (l : list Z) :
  NoDup l → (∀ x, x ∈ l → is_Some (h !! x)) → (length l ≤ size h)%nat.
Proof.
  intros Hnd Hall.
  rewrite <- (size_dom (D := gset Z)).
  rewrite <- (size_list_to_set (C := gset Z) l) by done.
  apply subseteq_size. intros x Hx. apply elem_of_dom. apply Hall.
  by apply elem_of_list_to_set in Hx.
Qed.

Lemma lookup_concat_length {A} (bs : list (list A)) i es :
  bs !! i = Some es → (length es ≤ length (mjoin bs))%nat.
Proof.
  revert i. induction bs as [|b bs IH]; intros [|i]; simpl; try done.
  - intros [= ->]. rewrite length_app. lia.
  - intros H%IH. rewrite length_app. lia.
Qed.

Lemma lookup_concat_elem {A} (bs : list (list A)) i es x :
  bs !! i = Some es → x ∈ es → x ∈ mjoin bs.
Proof.
  intros Hi Hx. apply list_elem_of_join. exists es. split; [done|].
  by eapply list_elem_of_lookup_2.
Qed.

Lemma Inv_chain_elem s G bs i es g :
  Inv s G bs → bs !! i = Some es → g ∈ es → g ∈ G.
Proof.
  intros HI Hi Hg. rewrite <- (inv_perm _ _ _ HI).
  by eapply lookup_concat_elem.
Qed.

Lemma Inv_node_ok s G bs g : Inv s G bs → g ∈ G → node_ok (st_heap s) g.
Proof. intros HI. destruct (inv_list _ _ _ HI) as (Hd & _). by eapply dseg_node_ok. Qed.

Lemma Inv_bufs_ok s G bs g : Inv s G bs → g ∈ G → bufs_ok (st_heap s) g.
Proof.
  intros HI Hg. pose proof (inv_bufs _ _ _ HI) as Hb.
  rewrite Forall_forall in Hb. by apply Hb.
Qed.

Lemma Inv_null s G bs : Inv s G bs → st_heap s !! 0 = None.
Proof.
  intros HI. destruct (st_heap s !! 0) eqn:E; [|done].
  apply (proj2 (inv_heap _ _ _ HI)) in E. lia.
Qed.

Lemma Inv_length_le s G bs : Inv s G bs → (length G ≤ size (st_heap s))%nat.
Proof.
  intros HI. rewrite <- (length_fmap g_addr).
  apply nodup_length_le_size; [apply HI|].
  intros x (g & -> & Hg)%list_elem_of_fmap.
  destruct (Inv_node_ok _ _ _ _ HI Hg) as (? & ? & ->). by eexists.
Qed.

Lemma Inv_bucket s G bs key :
  Inv s G bs →
  0 ≤ bucket_of (st_cache s) key < c_hash_table_size (st_cache s) ∧
  ∃ es, bs !! Z.to_nat (bucket_of (st_cache s) key) = Some es.
Proof.
  intros HI. destruct (inv_table _ _ _ HI) as (Hsz & Hpos & Hlen & _).
  assert (0 ≤ bucket_of (st_cache s) key < c_hash_table_size (st_cache s)) as Hb
    by (unfold bucket_of; by apply Z.mod_pos_bound).
  split; [done|]. apply lookup_lt_is_Some_2. lia.
Qed.

Lemma find_in_hash_table_spec s G bs key Q :
  Inv s G bs →
  (∀ es, bs !! Z.to_nat (bucket_of (st_cache s) key) = Some es →
     let r := chain_find (kmatch (st_cache s) key (blen key)) es
                (SlotBucket (bucket_of (st_cache s) key)) in
     Q (r.1.1, r.1.2) (add_coll r.2 s)) →
  wp (find_in_hash_table key (blen key)) s Q.
Proof.
  intros HI HQ. destruct (Inv_bucket _ _ _ key HI) as (Hb & es & Hes).
  pose proof (inv_table _ _ _ HI) as (Hsz & Hpos & Hlen & Hbs).
  destruct (Hbs _ _ Hes) as (Htbl & Hch & Hbk & Hdist).
  unfold find_in_hash_table, hash_key. wp_pure.
  destruct (Z.eqb_spec (c_hash_table_size (st_cache s)) 0); [lia|].
  wp_pure. fold (bucket_of (st_cache s) key).
  eapply find_loop_spec; try done.
  - unfold read_slot, mbind, M_bind, get_cache.
    destruct (Z.ltb_spec (bucket_of (st_cache s) key) 0); [lia|].
    destruct (Z.leb_spec (c_hash_table_size (st_cache s)) (bucket_of (st_cache s) key)); [lia|].
    simpl. by rewrite Htbl.
  - apply Forall_forall. intros g Hg. eapply Inv_node_ok; [done|].
    by eapply Inv_chain_elem.
  - apply Forall_forall. intros g Hg. eapply Inv_bufs_ok; [done|].
    by eapply Inv_chain_elem.
  - by eapply Inv_null.
  - pose proof (lookup_concat_length _ _ _ Hes) as H1.
    pose proof (Permutation_length (inv_perm _ _ _ HI)) as H2.
    pose proof (Inv_length_le _ _ _ HI). lia.
  - by apply HQ.
Qed.

Lemma shape_eq_refl c : shape_eq c c.
Proof. by destruct c. Qed.

Lemma shape_eq_set_stats t c : shape_eq c (set_c_stats t c).
Proof. by destruct c. Qed.

Lemma shape_eq_trans c1 c2 c3 : shape_eq c1 c2 → shape_eq c2 c3 → shape_eq c1 c3.
Proof.
  unfold shape_eq. destruct c1, c2, c3; simpl. intros [= -> -> -> -> -> -> -> -> -> -> -> ->].
  intros [= -> -> -> -> -> -> -> -> -> -> -> ->]. done.
Qed.

Lemma shape_eq_bump c : shape_eq c (bump c).
Proof.
  unfold bump. destruct (c_track_stats c);
    [apply shape_eq_set_stats|apply shape_eq_refl].
Qed.

Lemma shape_eq_iter_bump k c : shape_eq c (Nat.iter k bump c).
Proof.
  induction k as [|k IH]; simpl; [apply shape_eq_refl|].
  eapply shape_eq_trans; [done|apply shape_eq_bump].
Qed.

Lemma shape_eq_fields c c' :
  shape_eq c c' →
  c_capacity c' = c_capacity c ∧ c_size c' = c_size c ∧
  c_hash_table_size c' = c_hash_table_size c ∧ c_head c' = c_head c ∧
  c_tail c' = c_tail c ∧ c_hash_table c' = c_hash_table c ∧
  c_hash_fn c' = c_hash_fn c ∧ c_compare_fn c' = c_compare_fn c ∧
  c_eviction_fn c' = c_eviction_fn c ∧
  c_eviction_user_data c' = c_eviction_user_data c ∧
  c_thread_safe c' = c_thread_safe c ∧ c_track_stats c' = c_track_stats c.
Proof. intros ->. by destruct c. Qed.

Lemma bucket_of_ext c c' key :
  c_hash_fn c' = c_hash_fn c → c_hash_table_size c' = c_hash_table_size c →
  bucket_of c' key = bucket_of c key.
Proof. unfold bucket_of. by intros -> ->. Qed.

Lemma kmatch_ext c c' key ks g :
  c_compare_fn c' = c_compare_fn c → kmatch c' key ks g = kmatch c key ks g.
Proof. unfold kmatch. by intros ->. Qed.

Lemma chain_distinct_ext c c' es :
  c_compare_fn c' = c_compare_fn c → chain_distinct c es → chain_distinct c' es.
Proof.
  intros Hc. induction es as [|g es IH]; simpl; [done|].
  intros [Hg Hes]. split; [|by apply IH].
  eapply Forall_impl; [done|]. intros g' Hg'. simpl in *.
  by rewrite (kmatch_ext c c').
Qed.

Lemma table_ok_ext h h' c c' bs :
  c_hash_fn c' = c_hash_fn c → c_compare_fn c' = c_compare_fn c →
  c_hash_table_size c' = c_hash_table_size c →
  c_hash_table c' = c_hash_table c →
  (∀ g, g ∈ mjoin bs → h' !! g_entry g = h !! g_entry g) →
  table_ok h c bs → table_ok h' c' bs.
Proof.
  intros Hf Hc Hs Ht Hfr (H1 & H2 & H3 & H4).
  split_and!; [congruence|congruence|congruence|].
  intros i es Hi. destruct (H4 i es Hi) as (Ha & Hb & Hd & He).
  split_and!.
  - congruence.
  - eapply cseg_frame; [|done]. intros g Hg. apply Hfr.
    by eapply lookup_concat_elem.
  - eapply Forall_impl; [done|]. intros g Hg. simpl in *.
    by rewrite (bucket_of_ext c c').
  - by eapply chain_distinct_ext.
Qed.

Lemma Inv_shape s s' G bs :
  Inv s G bs →
  shape_eq (st_cache s) (st_cache s') →
  st_heap s' = st_heap s → st_brk s' = st_brk s →
  Inv s' G bs.
Proof.
  intros HI Hc Hh Hb. destruct HI as [(Hd & Hhd & Htl) Ht Hp Hbu N1 N2 N3 Hsz Hszlt Hcap Hcmp Hhp].
  apply shape_eq_fields in Hc as (? & ? & ? & ? & ? & ? & ? & ? & ? & ? & ? & ?).
  split; try done.
  - split_and!; congruence.
  - eapply table_ok_ext; [done..| |done]. intros. by rewrite Hh.
  - by rewrite Hh.
  - congruence.
  - congruence.
  - congruence.
  - congruence.
  - destruct Hhp as [? Hhp]. split; [congruence|].
    intros p x. rewrite Hh, Hb. apply Hhp.
Qed.

Lemma Inv_add_coll k s G bs : Inv s G bs → Inv (add_coll k s) G bs.
Proof.
  intros HI. eapply Inv_shape; [done| |done..].
  apply shape_eq_iter_bump.
Qed.

Lemma slot_after_snoc l x sl : slot_after (l ++ [x]) sl = SlotNext (g_entry x).
Proof. revert sl. induction l as [|g l IH]; intros sl; simpl; [done|apply IH]. Qed.

Lemma chain_distinct_app c l1 g l2 :
  chain_distinct c (l1 ++ g :: l2) →
  Forall (λ x, kmatch c (g_kb g) (blen (g_kb g)) x = false) l1 ∧
  chain_distinct c (l1 ++ l2).
Proof.
  induction l1 as [|x l1 IH]; simpl.
  - intros [_ H]. by split.
  - intros [Hx H]. apply IH in H as [H1 H2].
    apply Forall_app in Hx as [Hx1 Hx2]. apply Forall_cons in Hx2 as [Hx2 Hx3].
    split_and!.
    + by constructor.
    + by apply Forall_app.
    + done.
Qed.

Lemma Inv_locate s G bs g :
  Inv s G bs → g ∈ G →
  ∃ l1 l2, bs !! Z.to_nat (bucket_of (st_cache s) (g_kb g)) = Some (l1 ++ g :: l2).
Proof.
  intros HI Hg. rewrite <- (inv_perm _ _ _ HI) in Hg.
  apply list_elem_of_join in Hg as (es & Hg & Hes).
  apply list_elem_of_lookup in Hes as (i & Hi).
  destruct (inv_table _ _ _ HI) as (_ & _ & _ & Hbs).
  destruct (Hbs _ _ Hi) as (_ & _ & Hbk & _).
  rewrite Forall_forall in Hbk. rewrite (Hbk _ Hg), Nat2Z.id.
  apply list_elem_of_split in Hg as (l1 & l2 & ->). eauto.
Qed.

Lemma NoDup_fmap_inj {A B} (f : A → B) (l : list A) x y :
  NoDup (f <$> l) → x ∈ l → y ∈ l → f x = f y → x = y.
Proof.
  induction l as [|a l IH].
  - by intros _ ?%elem_of_nil.
  - rewrite fmap_cons. intros [Ha Hl]%NoDup_cons [->|Hx]%elem_of_cons [->|Hy]%elem_of_cons E.
    + done.
    + exfalso. apply Ha. rewrite E. by apply list_elem_of_fmap_2.
    + exfalso. apply Ha. rewrite <- E. by apply list_elem_of_fmap_2.
    + by apply IH.
Qed.

Lemma read_slot_after s sl l1 g l2 :
  read_slot sl s = Some (entry_hd (l1 ++ g :: l2) 0, s) →
  chain (st_heap s) (l1 ++ g :: l2) →
  read_slot (slot_after l1 sl) s = Some (g_entry g, s).
Proof.
  intros Hsl Hch. destruct l1 as [|x l1 _] using rev_ind; [done|].
  rewrite slot_after_snoc. rewrite <- app_assoc in Hch. simpl in Hch.
  apply cseg_app in Hch as [_ [Hx _]]. simpl in Hx.
  unfold read_slot, load_entry, mbind, M_bind. by rewrite Hx.
Qed.

Lemma Inv_read_bucket s G bs i es :
  Inv s G bs → bs !! i = Some es →
  read_slot (SlotBucket (Z.of_nat i)) s = Some (entry_hd es 0, s).
Proof.
  intros HI Hi. destruct (inv_table _ _ _ HI) as (Hsz & Hpos & Hlen & Hbs).
  destruct (Hbs _ _ Hi) as (Htbl & _).
  apply lookup_lt_Some in Hi.
  unfold read_slot, mbind, M_bind, get_cache.
  destruct (Z.ltb_spec (Z.of_nat i) 0); [lia|].
  destruct (Z.leb_spec (c_hash_table_size (st_cache s)) (Z.of_nat i)); [lia|].
  simpl. by rewrite Nat2Z.id, Htbl.
Qed.

Lemma Inv_entry_inj s G bs g g' :
  Inv s G bs → g ∈ G → g' ∈ G → g_entry g = g_entry g' → g = g'.
Proof. intros HI. apply NoDup_fmap_inj, HI. Qed.

Lemma table_ok_replace h h' c c' bs i es' :
  table_ok h c bs → (i < length bs)%nat →
  c_hash_fn c' = c_hash_fn c → c_compare_fn c' = c_compare_fn c →
  c_hash_table_size c' = c_hash_table_size c →
  c_hash_table c' = <[i := entry_hd es' 0]> (c_hash_table c) →
  chain h' es' →
  Forall (λ g, bucket_of c (g_kb g) = Z.of_nat i) es' →
  chain_distinct c es' →
  (∀ j es g, j ≠ i → bs !! j = Some es → g ∈ es →
     h' !! g_entry g = h !! g_entry g) →
  table_ok h' c' (<[i := es']> bs).
Proof.
  intros (H1 & H2 & H3 & H4) Hi Hf Hc Hs Ht Hch Hbk Hd Hfr.
  split_and!.
  - rewrite Hs, Ht, length_insert. done.
  - congruence.
  - rewrite Ht, !length_insert. done.
  - intros j es Hj. destruct (decide (j = i)) as [->|Hne].
    + rewrite list_lookup_insert_eq in Hj by done. injection Hj as <-.
      split_and!.
      * rewrite Ht. rewrite list_lookup_insert_eq; [done|lia].
      * done.
      * eapply Forall_impl; [done|]. intros g Hg. simpl in *.
        by rewrite (bucket_of_ext c c').
      * by eapply chain_distinct_ext.
    + rewrite list_lookup_insert_ne in Hj by done.
      destruct (H4 _ _ Hj) as (Ha & Hb & Hc' & Hd').
      split_and!.
      * rewrite Ht. by rewrite list_lookup_insert_ne.
      * eapply cseg_frame; [|done]. intros g Hg. by eapply Hfr.
      * eapply Forall_impl; [done|]. intros g Hg. simpl in *.
        by rewrite (bucket_of_ext c c').
      * by eapply chain_distinct_ext.
Qed.

Lemma Inv_chain_nodup s G bs i es :
  Inv s G bs → bs !! i = Some es → NoDup (g_entry <$> es).
Proof.
  intros HI Hi. pose proof (inv_nodup_entries _ _ _ HI) as Hnd.
  eapply submseteq_NoDup; [|exact Hnd]. apply fmap_submseteq.
  rewrite <- (inv_perm _ _ _ HI). apply sublist_submseteq.
  rewrite <- (take_drop_middle _ _ _ Hi). rewrite join_app. simpl.
  apply sublist_inserts_l, sublist_inserts_r. reflexivity.
Qed.

Lemma Inv_other_bucket s G bs i j es es' g g' :
  Inv s G bs → bs !! i = Some es → bs !! j = Some es' → i ≠ j →
  g ∈ es → g' ∈ es' → g_entry g ≠ g_entry g'.
Proof.
  intros HI Hi Hj Hne Hg Hg' E.
  assert (g = g') as <-.
  { apply (Inv_entry_inj s G bs); [done| | |done].
    - by apply (Inv_chain_elem s G bs i es).
    - by apply (Inv_chain_elem s G bs j es'). }
  destruct (inv_table _ _ _ HI) as (_ & _ & _ & Hbs).
  destruct (Hbs _ _ Hi) as (_ & _ & H1 & _).
  destruct (Hbs _ _ Hj) as (_ & _ & H2 & _).
  rewrite Forall_forall in H1, H2. specialize (H1 _ Hg). specialize (H2 _ Hg').
  lia.
Qed.

Lemma remove_from_hash_table_spec s G bs g l1 l2 Q :
  Inv s G bs →
  bs !! Z.to_nat (bucket_of (st_cache s) (g_kb g)) = Some (l1 ++ g :: l2) →
  (∀ h',
     let b := Z.to_nat (bucket_of (st_cache s) (g_kb g)) in
     let c' := set_c_hash_table
                 (<[b := entry_hd (l1 ++ l2) 0]> (c_hash_table (st_cache s)))
                 (Nat.iter (length l1) bump (st_cache s)) in
     table_ok h' c' (<[b := l1 ++ l2]> bs) →
     (∀ p, p ∉ g_entry <$> (l1 ++ [g]) → h' !! p = st_heap s !! p) →
     h' !! g_entry g = None →
     dom h' = dom (st_heap s) ∖ {[g_entry g]} →
     Q tt (mk_state c' h' (st_brk s) (st_oracle s) (st_log s))) →
  wp (remove_from_hash_table (g_addr g)) s Q.
Proof.
  intros HI Hb HQ.
  assert (g ∈ G) as HgG.
  { eapply Inv_chain_elem; [done..|]. set_solver. }
  destruct (Inv_node_ok _ _ _ _ HI HgG) as (p & n & Hn).
  destruct (Inv_bufs_ok _ _ _ _ HI HgG) as [Hk Hv].
  pose proof (Inv_null _ _ _ HI) as H0.
  pose proof (inv_table _ _ _ HI) as Htab.
  pose proof Htab as (Hsz & Hpos & Hlen & Hbs).
  destruct (Hbs _ _ Hb) as (Htbl & Hch & Hbk & Hdist).
  destruct (Inv_bucket _ _ _ (g_kb g) HI) as (Hrange & _).
  apply chain_distinct_app in Hdist as [Hmiss Hdist'].
  pose proof (proj1 (inv_cmp _ _ _ HI) (g_kb g)) as Hrefl.
  pose proof (Inv_chain_nodup _ _ _ _ _ HI Hb) as Hnd.
  pose proof (shape_eq_fields _ _ (shape_eq_iter_bump (length l1) (st_cache s)))
    as (_ & _ & F1 & _ & _ & F2 & F3 & F4 & _).
  assert (Forall (λ g0, bucket_of (st_cache s) (g_kb g0) =
            Z.of_nat (Z.to_nat (bucket_of (st_cache s) (g_kb g)))) (l1 ++ l2)) as Hbk'.
  { apply Forall_app in Hbk as [? [_ ?]%Forall_cons]. by apply Forall_app. }
  assert (Z.to_nat (bucket_of (st_cache s) (g_kb g)) < length bs)%nat as Hlt
    by (by eapply lookup_lt_Some).
  unfold remove_from_hash_table. wp_pure.
  eapply wp_load_node; [done|]. wp_pure. simpl.
  eapply wp_load_buf; [done|]. wp_pure.
  eapply find_in_hash_table_spec; [done|]. intros es Hes.
  rewrite Hb in Hes. injection Hes as <-.
  rewrite chain_find_hit; [|done|by apply Z.eqb_eq]. simpl.
  wp_pure.
  eapply wp_eq.
  { apply (read_slot_after _ _ l1 g l2); [|done].
    rewrite <- (Z2Nat.id (bucket_of _ _)) by lia.
    eapply Inv_read_bucket; [by apply Inv_add_coll|done]. }
  assert (g_entry g ≠ 0) as Hz.
  { apply cseg_app in Hch as [_ [Hg _]]. congruence. }
  destruct (Z.eqb_spec (g_entry g) 0); [done|]. simpl.
  pose proof Hch as Hch0.
  apply cseg_app in Hch as [Hc1 [Hg Hc2]].
  wp_pure. eapply wp_load_entry; [done|]. wp_pure. simpl.
  destruct l1 as [|x l1 _] using rev_ind.
  - (* the first cell of the chain *)
    unfold write_slot. simpl. wp_pure. simpl.
    destruct (Z.ltb_spec (bucket_of (st_cache s) (g_kb g)) 0); [lia|].
    destruct (Z.leb_spec (c_hash_table_size (st_cache s))
                (bucket_of (st_cache s) (g_kb g))); [lia|].
    simpl. rewrite Htbl. wp_pure. simpl.
    eapply wp_free; [done|done|]. simpl.
    refine (eq_ind _ (Q tt) (HQ (delete (g_entry g) (st_heap s)) _ _ _ _) _ _).
    + eapply table_ok_replace; try done.
      * eapply cseg_frame; [|done]. intros g' Hg'.
        rewrite lookup_delete_ne; [done|].
        clear -Hnd Hg'. nd_lift g_entry. nd_go.
      * intros j es g' Hj Hes Hg'. rewrite lookup_delete_ne; [done|].
        eapply (Inv_other_bucket _ _ _ _ _ _ _ g g' HI Hb Hes); [done| |done].
        set_solver.
    + intros q Hq. rewrite lookup_delete_ne; [done|]. set_solver.
    + by rewrite lookup_delete_eq.
    + by rewrite dom_delete_L.
    + done.
  - (* a later cell *)
    rewrite slot_after_snoc. unfold write_slot.
    apply cseg_app in Hc1 as [Hc1 [Hx _]]. simpl in Hx.
    unfold add_coll. simpl.
    eapply wp_modify_entry; [done|]. simpl.
    assert (g_entry x ≠ g_entry g) as Hxg
      by (clear -Hnd; nd_lift g_entry; nd_go).
    eapply wp_free; [hl|done|]. simpl.
    refine (eq_ind _ (Q tt)
              (HQ (delete (g_entry g) (<[g_entry x := _]> (st_heap s))) _ _ _ _) _ _).
    + eapply table_ok_replace; try done.
      * rewrite <- app_assoc. apply cseg_app. simpl. split_and!.
        -- eapply cseg_frame; [|done]. intros g' Hg'.
           rewrite lookup_delete_ne, lookup_insert_ne; [done| |];
             clear -Hnd Hg'; nd_lift g_entry; nd_go.
        -- rewrite lookup_delete_ne, lookup_insert_eq; [done|done].
        -- eapply cseg_frame; [|done]. intros g' Hg'.
           rewrite lookup_delete_ne, lookup_insert_ne; [done| |];
             clear -Hnd Hg'; nd_lift g_entry; nd_go.
      * intros j es g' Hj Hes Hg'.
        rewrite lookup_delete_ne, lookup_insert_ne; [done| |].
        -- eapply (Inv_other_bucket _ _ _ _ _ _ _ x g' HI Hb Hes); [done| |done].
           set_solver.
        -- eapply (Inv_other_bucket _ _ _ _ _ _ _ g g' HI Hb Hes); [done| |done].
           set_solver.
    + intros q Hq.
      rewrite lookup_delete_ne, lookup_insert_ne; [done| |]; set_solver.
    + by rewrite lookup_delete_eq.
    + rewrite dom_delete_L, dom_insert_lookup_L; [done|by eexists].
    + simpl. f_equal. rewrite <- app_assoc, entry_hd_app. simpl.
      rewrite list_insert_id.
      * destruct (Nat.iter _ _ _) eqn:E. simpl in *. by subst.
      * by rewrite Htbl, <- app_assoc, entry_hd_app.
Qed.

Lemma Inv_fresh s G bs : Inv s G bs → st_heap s !! st_brk s = None.
Proof.
  intros HI. destruct (st_heap s !! st_brk s) eqn:E; [|done].
  apply (proj2 (inv_heap _ _ _ HI)) in E. lia.
Qed.

Lemma kmatch_sym c a b ga gb :
  cmp_ok (c_compare_fn c) → g_kb ga = a → g_kb gb = b →
  kmatch c a (blen a) gb = false → kmatch c b (blen b) ga = false.
Proof.
  intros [_ Hsym] <- <-. unfold kmatch. rewrite !Z.eqb_neq.
  intros H1 H2. apply H1. by apply Hsym.
Qed.

Lemma add_to_hash_table_spec s G bs g0 p n es Q :
  Inv s G bs →
  g_entry g0 = 0 →
  st_heap s !! g_addr g0 = Some (CNode (gnode_cell g0 p n)) →
  st_heap s !! g_key g0 = Some (CBuf (g_kb g0)) →
  bs !! Z.to_nat (bucket_of (st_cache s) (g_kb g0)) = Some es →
  Forall (λ x, kmatch (st_cache s) (g_kb g0) (blen (g_kb g0)) x = false) es →
  (oracle_head (st_oracle s) = false →
   Q LRU_ERROR_NOMEM
     (mk_state (st_cache s) (st_heap s) (st_brk s)
        (oracle_tail (st_oracle s)) (st_log s))) →
  (oracle_head (st_oracle s) = true →
   let b := Z.to_nat (bucket_of (st_cache s) (g_kb g0)) in
   let g := with_entry (st_brk s) g0 in
   let c' := set_c_hash_table (<[b := st_brk s]> (c_hash_table (st_cache s)))
               (st_cache s) in
   let h' := <[g_addr g0 := CNode (gnode_cell g p n)]>
               (<[st_brk s := CEntry (mk_entry (g_addr g0) (entry_hd es 0))]>
                  (st_heap s)) in
   table_ok h' c' (<[b := g :: es]> bs) →
   Q LRU_SUCCESS
     (mk_state c' h' (st_brk s + 1) (oracle_tail (st_oracle s)) (st_log s))) →
  wp (add_to_hash_table (g_addr g0)) s Q.
Proof.
  intros HI He Hn Hk Hb Hmiss Hfail Hok.
  pose proof (Inv_fresh _ _ _ HI) as Hfresh.
  pose proof (inv_table _ _ _ HI) as Htab.
  pose proof Htab as (Hsz & Hpos & Hlen & Hbs).
  destruct (Hbs _ _ Hb) as (Htbl & Hch & Hbk & Hdist).
  destruct (Inv_bucket _ _ _ (g_kb g0) HI) as (Hrange & _).
  assert (g_addr g0 ≠ st_brk s) as Hne by congruence.
  unfold add_to_hash_table, default_malloc_entry. wp_pure.
  apply wp_malloc; intros Ho.
  - (* the cell is allocated *)
    destruct (proj2 (inv_heap _ _ _ HI) _ _ Hn) as [Hgt Hlt].
    destruct (Z.eqb_spec (st_brk s) 0); [lia|].
    wp_pure. eapply wp_load_node; [hl|]. wp_pure. simpl.
    eapply wp_load_buf; [hl|]. wp_pure.
    unfold hash_key. wp_pure. simpl.
    destruct (Z.eqb_spec (c_hash_table_size (st_cache s)) 0); [lia|].
    wp_pure. fold (bucket_of (st_cache s) (g_kb g0)).
    eapply wp_modify_entry; [hl|]. wp_pure. simpl.
    unfold read_slot. wp_pure. simpl.
    destruct (Z.ltb_spec (bucket_of (st_cache s) (g_kb g0)) 0); [lia|].
    destruct (Z.leb_spec (c_hash_table_size (st_cache s))
                (bucket_of (st_cache s) (g_kb g0))); [lia|].
    simpl. rewrite Htbl. wp_pure.
    eapply wp_modify_entry; [hl|]. wp_pure. simpl.
    unfold write_slot. wp_pure. simpl.
    destruct (Z.ltb_spec (bucket_of (st_cache s) (g_kb g0)) 0); [lia|].
    destruct (Z.leb_spec (c_hash_table_size (st_cache s))
                (bucket_of (st_cache s) (g_kb g0))); [lia|].
    simpl. rewrite Htbl. wp_pure. simpl.
    eapply wp_modify_node; [hl|]. wp_pure. simpl.
    rewrite !insert_insert_eq.
    refine (eq_ind _ (Q LRU_SUCCESS) (Hok Ho _) _ _).
    + eapply table_ok_replace; try done.
      * by eapply lookup_lt_Some.
      * simpl. split.
        -- rewrite lookup_insert_ne, lookup_insert_eq; [done|done].
        -- eapply cseg_frame; [|done]. intros g' Hg'.
           destruct (cseg_entry_ok _ _ _ _ Hch Hg') as (nx & Hnx).
           rewrite !lookup_insert_ne; [done|congruence|congruence].
      * constructor; [|done]. simpl. rewrite Z2Nat.id; [done|lia].
      * simpl. split; [|done].
        eapply Forall_impl; [exact Hmiss|]. intros x Hx. simpl in *.
        eapply (kmatch_sym _ (g_kb g0) (g_kb x)); [apply HI|done|done|done].
      * intros j es' g' Hj Hes' Hg'.
        destruct (inv_table _ _ _ HI) as (_ & _ & _ & Hbs').
        destruct (Hbs' _ _ Hes') as (_ & Hch' & _).
        destruct (cseg_entry_ok _ _ _ _ Hch' Hg') as (nx & Hnx).
        rewrite !lookup_insert_ne; [done|congruence|congruence].
    + simpl. unfold with_entry, gnode_cell, set_n_hash_entry. simpl. done.
  - (* out of memory *)
    simpl. wp_pure. by apply Hfail.
Qed.

(** ** Nodes *)

Ltac heap_ext :=
  apply map_eq; intros ?;
  repeat first [rewrite lookup_insert | rewrite lookup_delete];
  repeat case_decide; subst; try done; try lia.

Lemma take_blen (b : list byte) : take (Z.to_nat (blen b)) b = b.
Proof. unfold blen. rewrite Nat2Z.id. apply firstn_all. Qed.

Lemma heap_ok_fresh s q : heap_ok s → st_brk s ≤ q → st_heap s !! q = None.
Proof.
  intros [_ Hh] Hq. destruct (st_heap s !! q) eqn:E; [|done].
  apply Hh in E. lia.
Qed.

Lemma create_node_spec s key value Q :
  heap_ok s →
  let o := st_oracle s in
  let o1 := oracle_tail o in
  let o2 := oracle_tail o1 in
  let o3 := oracle_tail o2 in
  let a := st_brk s in
  (oracle_head o = false →
   Q 0 (mk_state (st_cache s) (st_heap s) a o1 (st_log s))) →
  (oracle_head o = true → oracle_head o1 = false →
   Q 0 (mk_state (st_cache s) (st_heap s) (a + 1) o2 (st_log s))) →
  (oracle_head o = true → oracle_head o1 = true → oracle_head o2 = false →
   Q 0 (mk_state (st_cache s) (st_heap s) (a + 2) o3 (st_log s))) →
  (oracle_head o = true → oracle_head o1 = true → oracle_head o2 = true →
   Q a (mk_state (st_cache s)
          (<[a := CNode (gnode_cell (mk_gnode a (a + 1) key (a + 2) value 0) 0 0)]>
             (<[a + 2 := CBuf value]> (<[a + 1 := CBuf key]> (st_heap s))))
          (a + 3) o3 (st_log s))) →
  wp (create_node key (blen key) value (blen value)) s Q.
Proof.
  intros Hh o o1 o2 o3 a H1 H2 H3 H4.
  assert (st_heap s !! a = None) as Hfresh
    by (apply heap_ok_fresh; [done|unfold a; lia]).
  assert (st_heap s !! (a + 1) = None) as Hfresh1
    by (apply heap_ok_fresh; [done|unfold a; lia]).
  assert (st_heap s !! (a + 2) = None) as Hfresh2
    by (apply heap_ok_fresh; [done|unfold a; lia]).
  assert (0 < a) as Ha by apply Hh.
  unfold create_node, default_malloc_node. wp_pure.
  apply wp_malloc; intros Ho; [|simpl; wp_pure; by apply H1].
  fold a. destruct (Z.eqb_spec a 0); [lia|].
  wp_pure. apply wp_default_copy; [unfold blen; lia|..]; simpl; intros Ho1.
  - fold a o o1. rewrite take_blen.
    wp_pure. eapply wp_modify_node; [hl|]. simpl.
    destruct (Z.eqb_spec (a + 1) 0); [lia|].
    wp_pure. apply wp_default_copy; [unfold blen; lia|..]; simpl; intros Ho2.
    + rewrite take_blen. wp_pure.
      eapply wp_modify_node; [hl|]. simpl.
      destruct (Z.eqb_spec (a + 1 + 1) 0); [lia|].
      wp_pure. do 5 (eapply wp_modify_node; [hl|]; wp_pure; simpl).
      refine (eq_ind _ (Q a) (H4 Ho Ho1 Ho2) _ _).
      f_equal; [|lia]. unfold a in *. heap_ext.
      all: replace (st_brk s + 1 + 1) with (st_brk s + 2) in * by lia; try done.
    + wp_pure. eapply wp_modify_node; [hl|]. simpl.
      destruct (Z.eqb_spec 0 0); [|done].
      wp_pure. eapply wp_load_node; [hl|]. wp_pure. simpl.
      unfold default_destroy, default_free.
      eapply wp_free; [hl|lia|]. wp_pure. simpl.
      eapply wp_free; [hl|lia|]. wp_pure. simpl.
      refine (eq_ind _ (Q 0) (H3 Ho Ho1 Ho2) _ _).
      f_equal; [|lia]. unfold a in *. heap_ext.
  - fold a o o1. wp_pure. eapply wp_modify_node; [hl|]. simpl.
    wp_pure. unfold default_free.
    eapply wp_free; [hl|lia|]. wp_pure. simpl.
    refine (eq_ind _ (Q 0) (H2 Ho Ho1) _ _).
    f_equal. unfold a in *. heap_ext.
Qed.

Lemma destroy_node_spec s g p n Q :
  st_heap s !! g_addr g = Some (CNode (gnode_cell g p n)) →
  bufs_ok (st_heap s) g →
  g_key g ≠ g_val g →
  st_heap s !! 0 = None →
  Q tt (set_st_heap
          (delete (g_addr g) (delete (g_val g) (delete (g_key g) (st_heap s)))) s) →
  wp (destroy_node (g_addr g)) s Q.
Proof.
  intros Hn [Hk Hv] Hkv H0 HQ.
  unfold destroy_node, default_destroy, default_free.
  destruct (Z.eqb_spec (g_addr g) 0); [congruence|].
  wp_pure. eapply wp_load_node; [done|]. wp_pure. simpl.
  destruct (Z.eqb_spec (g_key g) 0); [congruence|]. simpl.
  eapply wp_free; [done|done|]. wp_pure. simpl.
  eapply wp_load_node; [hl|].
  wp_pure. simpl.
  destruct (Z.eqb_spec (g_val g) 0); [congruence|]. simpl.
  eapply wp_free; [hl|done|].
  wp_pure. simpl.
  eapply wp_free; [hl|done|].
  done.
Qed.

(** ** Maintaining the invariant *)

Lemma Inv_entry_cell s G bs g :
  Inv s G bs → g ∈ G →
  ∃ nx, st_heap s !! g_entry g = Some (CEntry (mk_entry (g_addr g) nx)).
Proof.
  intros HI Hg. destruct (Inv_locate _ _ _ _ HI Hg) as (l1 & l2 & Hb).
  destruct (inv_table _ _ _ HI) as (_ & _ & _ & Hbs).
  destruct (Hbs _ _ Hb) as (_ & Hch & _).
  eapply cseg_entry_ok; [done|]. set_solver.
Qed.

Lemma Inv_kind_node s G bs p :
  Inv s G bs → p ∈ g_addr <$> G → kind_at (st_heap s) p = Some KNode.
Proof.
  intros HI (g & -> & Hg)%list_elem_of_fmap.
  destruct (Inv_node_ok _ _ _ _ HI Hg) as (? & ? & H). unfold kind_at. by rewrite H.
Qed.

Lemma Inv_kind_entry s G bs p :
  Inv s G bs → p ∈ g_entry <$> G → kind_at (st_heap s) p = Some KEntry.
Proof.
  intros HI (g & -> & Hg)%list_elem_of_fmap.
  destruct (Inv_entry_cell _ _ _ _ HI Hg) as (? & H). unfold kind_at. by rewrite H.
Qed.

Lemma Inv_kind_buf s G bs p :
  Inv s G bs → p ∈ (g_key <$> G) ++ (g_val <$> G) →
  kind_at (st_heap s) p = Some KBuf.
Proof.
  intros HI [(g & -> & Hg)%list_elem_of_fmap|(g & -> & Hg)%list_elem_of_fmap]%elem_of_app;
    destruct (Inv_bufs_ok _ _ _ _ HI Hg) as [H1 H2]; unfold kind_at;
    by rewrite ?H1, ?H2.
Qed.

Lemma owned_cases G p :
  p ∈ owned G ↔
  p ∈ g_addr <$> G ∨ p ∈ g_entry <$> G ∨ p ∈ (g_key <$> G) ++ (g_val <$> G).
Proof. unfold owned. rewrite !elem_of_app. tauto. Qed.

Lemma Inv_owned_live s G bs p :
  Inv s G bs → p ∈ owned G → is_Some (kind_at (st_heap s) p).
Proof.
  intros HI [H|[H|H]]%owned_cases.
  - erewrite Inv_kind_node; eauto.
  - erewrite Inv_kind_entry; eauto.
  - erewrite Inv_kind_buf; eauto.
Qed.

Lemma Inv_owned_lt s G bs p :
  Inv s G bs → p ∈ owned G → 0 < p < st_brk s.
Proof.
  intros HI Hp. destruct (Inv_owned_live _ _ _ _ HI Hp) as [k Hk].
  unfold kind_at in Hk. destruct (st_heap s !! p) eqn:E; [|done].
  by apply (proj2 (inv_heap _ _ _ HI)) in E.
Qed.

(** The invariant reads the heap at the owned addresses only. *)
Lemma Inv_frame s s' G bs :
  Inv s G bs →
  shape_eq (st_cache s) (st_cache s') →
  (∀ p, p ∈ owned G → st_heap s' !! p = st_heap s !! p) →
  heap_ok s' →
  Inv s' G bs.
Proof.
  intros HI Hc Hfr Hh'.
  pose proof HI as [(Hd & Hhd & Htl) Ht Hp Hbu N1 N2 N3 Hsz Hszlt Hcap Hcmp Hhp].
  apply shape_eq_fields in Hc as (? & ? & ? & ? & ? & ? & ? & ? & ? & ? & ? & ?).
  split; try done.
  - split_and!; [|congruence|congruence].
    eapply dseg_frame; [|done]. intros g Hg. apply Hfr, owned_cases. left.
    by apply list_elem_of_fmap_2.
  - eapply table_ok_ext; [done..| |done]. intros g Hg. apply Hfr, owned_cases.
    right. left. apply list_elem_of_fmap_2. by rewrite <- Hp.
  - apply Forall_forall. intros g Hg.
    destruct (Inv_bufs_ok _ _ _ _ HI Hg) as [Hb1 Hb2].
    split; (rewrite Hfr; [done|]); apply owned_cases; right; right;
      apply elem_of_app; [left|right]; by apply list_elem_of_fmap_2.
  - congruence.
  - congruence.
  - congruence.
  - congruence.
Qed.

Lemma Inv_free s G bs p :
  Inv s G bs → p ∉ owned G →
  Inv (set_st_heap (delete p (st_heap s)) s) G bs.
Proof.
  intros HI Hp. eapply Inv_frame; [done|apply shape_eq_refl|..].
  - intros q Hq. simpl. rewrite lookup_delete_ne; [done|]. by intros ->.
  - destruct (inv_heap _ _ _ HI) as [Hb Hh]. split; [done|]. simpl.
    intros q x [_ Hq]%lookup_delete_Some. by eapply Hh.
Qed.

Lemma Inv_alloc s G bs x o l :
  Inv s G bs →
  Inv (mk_state (st_cache s) (<[st_brk s := x]> (st_heap s)) (st_brk s + 1) o l)
    G bs.
Proof.
  intros HI. eapply Inv_frame; [done|apply shape_eq_refl|..].
  - intros q Hq. simpl. rewrite lookup_insert_ne; [done|].
    apply (Inv_owned_lt _ _ _ _ HI) in Hq. lia.
  - destruct (inv_heap _ _ _ HI) as [Hb Hh]. split; simpl; [lia|].
    intros q y [[<- _]|[_ Hq]]%lookup_insert_Some; [lia|].
    apply Hh in Hq. lia.
Qed.

Lemma Inv_env s G bs b o l :
  Inv s G bs → st_brk s ≤ b →
  Inv (mk_state (st_cache s) (st_heap s) b o l) G bs.
Proof.
  intros HI Hb. eapply Inv_frame; [done|apply shape_eq_refl|done|].
  destruct (inv_heap _ _ _ HI) as [Hb' Hh]. split; simpl; [lia|].
  intros q y Hq. apply Hh in Hq. lia.
Qed.

Lemma mjoin_lookup_perm {A} (bs : list (list A)) b es :
  bs !! b = Some es →
  ∃ R, mjoin bs ≡ₚ es ++ R ∧ ∀ es', mjoin (<[b := es']> bs) ≡ₚ es' ++ R.
Proof.
  intros Hb. exists (mjoin (take b bs) ++ mjoin (drop (S b) bs)). split.
  - rewrite <- (take_drop_middle _ _ _ Hb) at 1. rewrite join_app. simpl.
    solve_Permutation.
  - intros es'. rewrite insert_take_drop by (by eapply lookup_lt_Some).
    rewrite join_app. simpl. solve_Permutation.
Qed.

Lemma Inv_remove s s' G0 t G1 bs l1 l2 :
  Inv s (G0 ++ t :: G1) bs →
  bs !! Z.to_nat (bucket_of (st_cache s) (g_kb t)) = Some (l1 ++ t :: l2) →
  list_ok s' (G0 ++ G1) →
  table_ok (st_heap s') (st_cache s')
    (<[Z.to_nat (bucket_of (st_cache s) (g_kb t)) := l1 ++ l2]> bs) →
  (∀ p, p ∈ (g_key <$> G0 ++ G1) ++ (g_val <$> G0 ++ G1) →
        st_heap s' !! p = st_heap s !! p) →
  c_size (st_cache s') = c_size (st_cache s) - 1 →
  c_capacity (st_cache s') = c_capacity (st_cache s) →
  c_compare_fn (st_cache s') = c_compare_fn (st_cache s) →
  heap_ok s' →
  Inv s' (G0 ++ G1) (<[Z.to_nat (bucket_of (st_cache s) (g_kb t)) := l1 ++ l2]> bs).
Proof.
  intros HI Hb Hl Ht Hfr Hsz Hcap Hcmp Hh.
  pose proof HI as [_ _ Hp Hbu N1 N2 N3 Hsz0 Hszlt Hcap0 Hcmp0 _].
  split; try done.
  - destruct (mjoin_lookup_perm _ _ _ Hb) as (R & HR1 & HR2).
    rewrite HR2. rewrite HR1 in Hp.
    apply (Permutation_cons_inv (a := t)).
    rewrite (Permutation_middle G0 G1 t). rewrite <- Hp. solve_Permutation.
  - apply Forall_forall. intros g Hg.
    assert (g ∈ G0 ++ t :: G1) as Hg' by set_solver.
    destruct (Inv_bufs_ok _ _ _ _ HI Hg') as [H1 H2].
    split; (rewrite Hfr; [done|]); apply elem_of_app; [left|right];
      by apply list_elem_of_fmap_2.
  - clear -N1. nd_sub N1.
  - clear -N2. nd_sub N2.
  - clear -N3. nd_sub N3.
  - rewrite Hsz, Hsz0, !length_app. simpl. lia.
  - rewrite Hsz. lia.
  - congruence.
  - congruence.
Qed.

(** ** Detaching, evicting, inserting *)

Lemma kind_at_ne h p q k k' :
  kind_at h p = Some k → kind_at h q = Some k' → k ≠ k' → p ≠ q.
Proof. intros Hp Hq Hk ->. congruence. Qed.

Lemma elem_of_fmap_mid {A B} (f : A → B) G0 t G1 p :
  p ∈ f <$> G0 ++ G1 → p ∈ f <$> G0 ++ t :: G1.
Proof. rewrite !fmap_app, fmap_cons, !elem_of_app, elem_of_cons. tauto. Qed.

Lemma elem_of_mjoin_insert s G bs b l1 t l2 g :
  Inv s G bs → bs !! b = Some (l1 ++ t :: l2) →
  g ∈ mjoin (<[b := l1 ++ l2]> bs) → g ∈ G.
Proof.
  intros HI Hb Hg. destruct (mjoin_lookup_perm _ _ _ Hb) as (R & HR1 & HR2).
  rewrite HR2 in Hg. rewrite <- (inv_perm _ _ _ HI), HR1.
  clear -Hg. set_solver.
Qed.

Lemma detach_spec s G0 t G1 bs Q :
  Inv s (G0 ++ t :: G1) bs →
  (∀ k T h' bs' p n,
     let c' := set_c_tail (addr_last (G0 ++ G1) 0)
                 (set_c_head (addr_hd (G0 ++ G1) 0)
                    (set_c_hash_table T (Nat.iter k bump (st_cache s)))) in
     Inv (mk_state (set_c_size (c_size (st_cache s) - 1) c') h'
            (st_brk s) (st_oracle s) (st_log s)) (G0 ++ G1) bs' →
     h' !! g_addr t = Some (CNode (gnode_cell t p n)) →
     bufs_ok h' t →
     h' !! g_entry t = None →
     (∀ q, q ∉ owned (G0 ++ t :: G1) → h' !! q = st_heap s !! q) →
     dom h' = dom (st_heap s) ∖ {[g_entry t]} →
     Q tt (mk_state c' h' (st_brk s) (st_oracle s) (st_log s))) →
  wp (remove_from_hash_table (g_addr t)) s
    (λ _ s1, wp (remove_from_list (g_addr t)) s1 Q).
Proof.
  intros HI HQ.
  assert (t ∈ G0 ++ t :: G1) as Ht by set_solver.
  destruct (Inv_locate _ _ _ _ HI Ht) as (l1 & l2 & Hb).
  destruct (Inv_node_ok _ _ _ _ HI Ht) as (p & n & Hn).
  pose proof (Inv_bufs_ok _ _ _ _ HI Ht) as Hbt.
  pose proof (inv_list _ _ _ HI) as (Hd & Hhd & Htl).
  pose proof (inv_nodup_nodes _ _ _ HI) as N1.
  pose proof (inv_nodup_entries _ _ _ HI) as N2.
  pose proof (inv_nodup_bufs _ _ _ HI) as N3.
  pose proof (Inv_null _ _ _ HI) as H0.
  pose proof (shape_eq_fields _ _ (shape_eq_iter_bump (length l1) (st_cache s)))
    as (F1 & F2 & F3 & F4 & F5 & F6 & F7 & F8 & _).
  (* the chain cells are among the owned entries *)
  assert (∀ x, x ∈ l1 ++ [t] → x ∈ G0 ++ t :: G1) as Hsub.
  { intros x Hx. eapply Inv_chain_elem; [done..|]. set_solver. }
  assert (∀ q, q ∈ g_entry <$> (l1 ++ [t]) →
            kind_at (st_heap s) q = Some KEntry) as Hkind.
  { intros q (x & -> & Hx)%list_elem_of_fmap.
    eapply Inv_kind_entry; [done|]. apply list_elem_of_fmap_2. by apply Hsub. }
  eapply remove_from_hash_table_spec; [done..|].
  intros h1 b c1 Ht1 Hf1 Hfree1 Hdom1. subst b c1.
  assert (∀ q k, kind_at (st_heap s) q = Some k → k ≠ KEntry →
            h1 !! q = st_heap s !! q) as Hf1'.
  { intros q k Hq Hk. apply Hf1. intros Hin. apply Hkind in Hin. congruence. }
  apply (remove_from_list_spec _ G0 t G1).
  { split_and!; simpl; [|by rewrite F4|by rewrite F5].
    eapply dseg_frame; [|done]. intros g Hg.
    eapply Hf1'; [eapply Inv_kind_node; [done|]; by apply list_elem_of_fmap_2|done]. }
  { done. }
  { simpl. rewrite (Hf1 0); [done|]. intros Hin. apply Hkind in Hin.
    unfold kind_at in Hin. by rewrite H0 in Hin. }
  simpl. intros h2 Hd2 Hf2 Hdom2.
  assert (g_addr t ∉ g_addr <$> G0 ++ G1) as Hnt by (clear -N1; nd_solve).
  assert (∀ q k, kind_at (st_heap s) q = Some k → k ≠ KEntry → k ≠ KNode →
            h2 !! q = st_heap s !! q) as Hf2'.
  { intros q k Hq Hk1 Hk2. rewrite Hf2.
    - by eapply Hf1'.
    - intros Hin. apply (elem_of_fmap_mid _ _ t) in Hin.
      eapply Inv_kind_node in Hin; [|done]. congruence. }
  set (T := <[Z.to_nat (bucket_of (st_cache s) (g_kb t)) :=
               entry_hd (l1 ++ l2) 0]> (c_hash_table (st_cache s))) in *.
  assert (∀ x, x ∈ l1 ++ l2 → x ∈ G0 ++ G1) as Hsub'.
  { intros x Hx.
    assert (x ∈ G0 ++ t :: G1) as Hx'
      by (eapply Inv_chain_elem; [done..|]; clear -Hx; set_solver).
    assert (x ≠ t); [|clear -Hx' H; set_solver].
    intros ->. pose proof (Inv_chain_nodup _ _ _ _ _ HI Hb) as Hnd.
    apply NoDup_fmap_1 in Hnd. clear -Hnd Hx.
    apply NoDup_app in Hnd as (_ & Hnd & [Hnd' _]%NoDup_cons). set_solver. }
  refine (eq_ind _ (Q tt) (HQ (length l1) T h2 _ p n _ _ _ _ _ _) _ _).
  - eapply (Inv_remove s _ G0 t G1 bs l1 l2); simpl; rewrite ?F1, ?F8; try done.
    + eapply table_ok_ext; [..|exact Ht1]; try done.
      intros g Hg. apply Hf2. intros Hin.
      apply (elem_of_fmap_mid _ _ t) in Hin.
      eapply Inv_kind_node in Hin; [|done].
      eapply elem_of_mjoin_insert in Hg; [|done..].
      apply (list_elem_of_fmap_2 g_entry) in Hg.
      eapply Inv_kind_entry in Hg; [|done]. congruence.
    + intros q Hq.
      eapply Hf2'; [eapply Inv_kind_buf; [done|]|done|done].
      clear -Hq. rewrite elem_of_app in *.
      destruct Hq as [Hq|Hq]; [left|right]; by apply elem_of_fmap_mid.
    + destruct (inv_heap _ _ _ HI) as [Hb0 Hh]. split; [done|]. simpl.
      intros q x Hq. assert (q ∈ dom h2) as Hqd by (apply elem_of_dom; eauto).
      rewrite Hdom2, Hdom1 in Hqd. apply elem_of_difference in Hqd as [Hqd _].
      apply elem_of_dom in Hqd as [y Hy]. by eapply Hh.
  - rewrite Hf2 by done.
    erewrite Hf1'; [done|unfold kind_at; by rewrite Hn|done].
  - destruct Hbt as [Hk Hv].
    split; (erewrite Hf2'; [done|unfold kind_at; by rewrite ?Hk, ?Hv|done|done]).
  - rewrite Hf2; [done|]. intros Hin.
    apply (elem_of_fmap_mid _ _ t) in Hin.
    eapply Inv_kind_node in Hin; [|done].
    assert (g_entry t ∈ g_entry <$> G0 ++ t :: G1) as Hin'' by (clear; set_solver).
    eapply Inv_kind_entry in Hin''; [|done]. congruence.
  - intros q Hq. rewrite Hf2, Hf1; [done|..].
    + intros Hin. apply Hq, owned_cases. right. left.
      apply list_elem_of_fmap in Hin as (x & -> & Hx).
      apply list_elem_of_fmap_2. by apply Hsub.
    + intros Hin. apply Hq, owned_cases. left. by apply elem_of_fmap_mid.
  - by rewrite Hdom2, Hdom1.
  - done.
Qed.

Lemma same_config_refl c : same_config c c.
Proof. by repeat split. Qed.

Lemma same_config_trans c1 c2 c3 :
  same_config c1 c2 → same_config c2 c3 → same_config c1 c3.
Proof.
  intros (?&?&?&?&?&?&?&?) (?&?&?&?&?&?&?&?). repeat split; congruence.
Qed.

Lemma shape_eq_same_config c c' : shape_eq c c' → same_config c c'.
Proof.
  intros H%shape_eq_fields. destruct H as (?&?&?&?&?&?&?&?&?&?&?&?).
  by repeat split.
Qed.

Lemma no_coll_iter_bump k c :
  no_coll (c_stats (Nat.iter k bump c)) = no_coll (c_stats c).
Proof.
  induction k as [|k IH]; simpl; [done|]. rewrite <- IH.
  unfold bump. destruct (c_track_stats _); [|done]. by destruct (c_stats _).
Qed.

Lemma wrap64_small x : 0 ≤ x < 2 ^ 64 → wrap64 x = x.
Proof. intros. unfold wrap64. by apply Z.mod_small. Qed.

Lemma wp_bind2 {A B C} (m1 : M A) (m2 : M B) (f : B → M C) s Q :
  wp m1 s (λ _ s1, wp m2 s1 (λ b s2, wp (f b) s2 Q)) →
  wp m1 s (λ _ s1, wp (m2 ≫= f) s1 Q).
Proof. intros H. eapply wp_mono; [exact H|]. intros ? s1. apply wp_bind. Qed.

Lemma Inv_unowned_node s G bs a :
  Inv s G bs → kind_at (st_heap s) a = Some KNode → a ∉ g_addr <$> G →
  a ∉ owned G.
Proof.
  intros HI Ha Hn [H|[H|H]]%owned_cases; [done|..].
  - eapply Inv_kind_entry in H; [|done]. congruence.
  - eapply Inv_kind_buf in H; [|done]. congruence.
Qed.

Lemma Inv_unowned_buf s G bs a :
  Inv s G bs → kind_at (st_heap s) a = Some KBuf →
  a ∉ (g_key <$> G) ++ (g_val <$> G) → a ∉ owned G.
Proof.
  intros HI Ha Hn [H|[H|H]]%owned_cases; [..|done].
  - eapply Inv_kind_node in H; [|done]. congruence.
  - eapply Inv_kind_entry in H; [|done]. congruence.
Qed.

Lemma Inv_unowned_dead s G bs a :
  Inv s G bs → st_heap s !! a = None → a ∉ owned G.
Proof.
  intros HI Ha H. destruct (Inv_owned_live _ _ _ _ HI H) as [k Hk].
  unfold kind_at in Hk. by rewrite Ha in Hk.
Qed.

Lemma evict_lru_spec s G0 t bs Q :
  Inv s (G0 ++ [t]) bs →
  (∀ s' bs', Inv s' G0 bs' → evicted s (G0 ++ [t]) t s' → Q LRU_SUCCESS s') →
  wp evict_lru s Q.
Proof.
  intros HI HQ.
  assert (t ∈ G0 ++ [t]) as Ht by set_solver.
  destruct (Inv_node_ok _ _ _ _ HI Ht) as (p & n & Hn).
  pose proof (Inv_bufs_ok _ _ _ _ HI Ht) as [Hk Hv].
  pose proof (inv_list _ _ _ HI) as (Hd & Hhd & Htl).
  pose proof (Inv_null _ _ _ HI) as H0.
  rewrite addr_last_app in Htl. simpl in Htl.
  assert (g_addr t ≠ 0) as Hz by congruence.
  unfold evict_lru. wp_pure. rewrite Htl.
  destruct (Z.eqb_spec (g_addr t) 0); [done|].
  (* the callback *)
  set (s0 := set_st_log (st_log s ++ evict_log (st_cache s) t) s).
  assert (Inv s0 (G0 ++ [t]) bs) as HI0.
  { eapply Inv_shape; [done|apply shape_eq_refl|done|done]. }
  apply wp_bind.
  apply (wp_mono _ _ (λ _ s1, s1 = s0)).
  { unfold s0, evict_log. destruct (Z.eqb_spec (c_eviction_fn (st_cache s)) 0); simpl.
    - wp_pure. rewrite app_nil_r. by destruct s.
    - unfold call_eviction_fn. wp_pure. eapply wp_load_node; [done|].
      wp_pure. simpl. unfold buf_at. by rewrite Hk, Hv. }
  intros _ ? ->.
  apply wp_bind, wp_bind2. apply (detach_spec _ G0 t [] bs); [done|].
  intros k T h2 bs' p' n' c2 HI2 Hn2 Hb2 He2 Hf2 Hdom2. subst c2.
  rewrite app_nil_r in *. simpl in *.
  pose proof (shape_eq_fields _ _ (shape_eq_iter_bump k (st_cache s)))
    as (F1 & F2 & F3 & F4 & F5 & F6 & F7 & F8 & F9 & F10 & F11 & F12).
  wp_pure. simpl. rewrite F12.
  pose proof (inv_size _ _ _ HI) as Hsz. pose proof (inv_size_lt _ _ _ HI) as Hszlt.
  rewrite length_app in Hsz. simpl in Hsz.
  pose proof (inv_nodup_nodes _ _ _ HI) as N1.
  pose proof (inv_nodup_entries _ _ _ HI) as N2.
  pose proof (inv_nodup_bufs _ _ _ HI) as N3.
  assert (g_key t ≠ g_val t) as Hkv by (clear -N3; nd_go).
  assert (h2 !! 0 = None) as H02.
  { rewrite Hf2; [done|]. intros Hin.
    apply (Inv_owned_lt _ _ _ _ HI) in Hin. lia. }
  set (st' := if c_track_stats (st_cache s) then
                set_evictions (wrap64 (evictions (c_stats (Nat.iter k bump (st_cache s))) + 1))
                  (c_stats (Nat.iter k bump (st_cache s)))
              else c_stats (Nat.iter k bump (st_cache s))).
  set (c4 := set_c_size (c_size (st_cache s) - 1)
               (set_c_stats st'
                  (set_c_tail (addr_last G0 0)
                     (set_c_head (addr_hd G0 0)
                        (set_c_hash_table T (Nat.iter k bump (st_cache s))))))).
  set (h3 := delete (g_addr t) (delete (g_val t) (delete (g_key t) h2))).
  set (s' := mk_state c4 h3 (st_brk s) (st_oracle s)
               (st_log s ++ evict_log (st_cache s) t)).
  assert (g_addr t ∉ owned G0) as Ho1.
  { eapply Inv_unowned_node; [exact HI2| |].
    - unfold kind_at. simpl. by rewrite Hn2.
    - clear -N1. nd_solve. }
  assert (g_key t ∉ owned G0) as Ho2.
  { eapply Inv_unowned_buf; [exact HI2| |].
    - unfold kind_at. simpl. by rewrite (proj1 Hb2).
    - clear -N3. nd_go. }
  assert (g_val t ∉ owned G0) as Ho3.
  { eapply Inv_unowned_buf; [exact HI2| |].
    - unfold kind_at. simpl. by rewrite (proj2 Hb2).
    - clear -N3. nd_go. }
  assert (g_entry t ∉ owned G0) as Ho4.
  { eapply Inv_unowned_dead; [exact HI2|done]. }
  assert (Inv s' G0 bs') as HI'.
  { eapply Inv_frame; [exact HI2| |..].
    - unfold s', c4. simpl. unfold shape_eq. simpl. by destruct (Nat.iter _ _ _).
    - intros q Hq. unfold s', h3. simpl.
      rewrite !lookup_delete_ne; [done|..]; by intros <-.
    - destruct (inv_heap _ _ _ HI2) as [Hbrk Hh2]. split; [done|].
      unfold s', h3. simpl in *. intros q x Hq.
      apply lookup_delete_Some in Hq as [_ Hq].
      apply lookup_delete_Some in Hq as [_ Hq].
      apply lookup_delete_Some in Hq as [_ Hq]. by eapply Hh2. }
  assert (evicted s (G0 ++ [t]) t s') as Hev.
  { split; unfold s', c4, h3; simpl.
    - by repeat split.
    - done.
    - unfold st'. destruct (c_track_stats (st_cache s)).
      + pose proof (no_coll_iter_bump k (st_cache s)) as Hnc.
        unfold no_coll in *.
        destruct (c_stats (Nat.iter k bump (st_cache s))),
          (c_stats (st_cache s)).
        simpl in *. by injection Hnc as -> -> -> -> -> -> ->.
      + apply no_coll_iter_bump.
    - done.
    - done.
    - done.
    - intros q Hq. rewrite !lookup_delete_ne; [by apply Hf2|..];
        intros <-; apply Hq, owned_cases; clear; set_solver.
    - intros q Hq. 
      destruct (decide (q = g_addr t)) as [->|?]; [by rewrite lookup_delete_eq|].
      rewrite lookup_delete_ne by done.
      destruct (decide (q = g_val t)) as [->|?]; [by rewrite lookup_delete_eq|].
      rewrite lookup_delete_ne by done.
      destruct (decide (q = g_key t)) as [->|?]; [by rewrite lookup_delete_eq|].
      rewrite lookup_delete_ne by done.
      assert (q = g_entry t) as -> by (clear -Hq n1 n2 n3; set_solver). done. }
  assert (wrap64 (c_size (st_cache s) - 1) = c_size (st_cache s) - 1) as Hw
    by (apply wrap64_small; lia).
  destruct (c_track_stats (st_cache s)) eqn:Htr; wp_pure; simpl;
    rewrite F2, Hw;
    (eapply destroy_node_spec; [done..|]); simpl; wp_pure;
    exact (HQ s' bs' HI' Hev).
Qed.

Lemma Inv_relink s s' G G' bs :
  Inv s G bs → G' ≡ₚ G →
  list_ok s' G' →
  (∀ q, q ∉ g_addr <$> G → st_heap s' !! q = st_heap s !! q) →
  c_size (st_cache s') = c_size (st_cache s) →
  c_capacity (st_cache s') = c_capacity (st_cache s) →
  c_hash_table_size (st_cache s') = c_hash_table_size (st_cache s) →
  c_hash_table (st_cache s') = c_hash_table (st_cache s) →
  c_hash_fn (st_cache s') = c_hash_fn (st_cache s) →
  c_compare_fn (st_cache s') = c_compare_fn (st_cache s) →
  heap_ok s' →
  Inv s' G' bs.
Proof.
  intros HI HP Hl Hfr Hsz Hcap Hhts Htb Hhf Hcf Hh.
  pose proof HI as [_ Ht Hp Hbu N1 N2 N3 Hsz0 Hszlt Hcap0 Hcmp0 _].
  assert (∀ q k, kind_at (st_heap s) q = Some k → k ≠ KNode →
            st_heap s' !! q = st_heap s !! q) as Hfr'.
  { intros q k Hq Hk. apply Hfr. intros Hin.
    eapply Inv_kind_node in Hin; [|done]. congruence. }
  split; try done.
  - eapply table_ok_ext; [done..| |done]. intros g Hg.
    eapply Hfr'; [eapply Inv_kind_entry; [done|]|done].
    apply list_elem_of_fmap_2. by rewrite <- Hp.
  - by rewrite Hp, HP.
  - apply Forall_forall. intros g Hg. rewrite HP in Hg.
    destruct (Inv_bufs_ok _ _ _ _ HI Hg) as [H1 H2].
    split.
    + erewrite Hfr'; [done|unfold kind_at; by rewrite H1|done].
    + erewrite Hfr'; [done|unfold kind_at; by rewrite H2|done].
  - by rewrite HP.
  - by rewrite HP.
  - by rewrite HP.
  - rewrite Hsz, Hsz0. by rewrite HP.
  - congruence.
  - congruence.
  - congruence.
Qed.

Lemma heap_ok_dom s s' :
  heap_ok s → st_brk s ≤ st_brk s' → dom (st_heap s') ⊆ dom (st_heap s) →
  heap_ok s'.
Proof.
  intros [Hb Hh] Hle Hdom. split; [lia|]. intros q x Hq.
  assert (q ∈ dom (st_heap s)) as [y Hy]%elem_of_dom
    by (apply Hdom, elem_of_dom; eauto).
  apply Hh in Hy. lia.
Qed.

Lemma Inv_move_to_front s Ga g Gb bs Q :
  Inv s (Ga ++ g :: Gb) bs →
  (∀ h',
     let c' := set_c_tail (addr_last (g :: Ga ++ Gb) 0)
                 (set_c_head (g_addr g) (st_cache s)) in
     Inv (mk_state c' h' (st_brk s) (st_oracle s) (st_log s)) (g :: Ga ++ Gb) bs →
     (∀ q, q ∉ g_addr <$> (Ga ++ g :: Gb) → h' !! q = st_heap s !! q) →
     dom h' = dom (st_heap s) →
     Q tt (mk_state c' h' (st_brk s) (st_oracle s) (st_log s))) →
  wp (move_to_front (g_addr g)) s Q.
Proof.
  intros HI HQ. eapply move_to_front_spec; [apply HI..|by eapply Inv_null|].
  intros h' Hd Hf Hdom. apply HQ; [|done..].
  eapply Inv_relink; [exact HI|..]; simpl; try done.
  - solve_Permutation.
  - eapply heap_ok_dom; [apply HI|done|]. simpl. by rewrite Hdom.
Qed.

(** ** Reading the cache off a well-formed state *)

Lemma walk_nodes_dseg h G : ∀ p fuel,
  dseg h p G 0 → h !! 0 = None → (length G ≤ fuel)%nat →
  walk_nodes fuel h (addr_hd G 0) = g_addr <$> G.
Proof.
  induction G as [|g G IH]; intros p fuel Hd H0 Hf.
  - by destruct fuel.
  - destruct fuel as [|fuel]; [simpl in Hf; lia|].
    simpl in *. destruct Hd as [Hg Hd].
    destruct (Z.eqb_spec (g_addr g) 0) as [E|E]; [congruence|].
    rewrite Hg. simpl. f_equal. eapply IH; [done..|lia].
Qed.

Lemma Inv_cache_nodes s G bs : Inv s G bs → cache_nodes s = g_addr <$> G.
Proof.
  intros HI. destruct (inv_list _ _ _ HI) as (Hd & Hhd & _).
  unfold cache_nodes. rewrite Hhd.
  eapply walk_nodes_dseg; [done|by eapply Inv_null|by eapply Inv_length_le].
Qed.

Lemma Inv_node_item s G bs g :
  Inv s G bs → g ∈ G → node_item (st_heap s) (g_addr g) = Some (g_kb g, g_vb g).
Proof.
  intros HI Hg. destruct (Inv_node_ok _ _ _ _ HI Hg) as (p & n & Hn).
  destruct (Inv_bufs_ok _ _ _ _ HI Hg) as [Hk Hv].
  unfold node_item, buf_at. rewrite Hn. simpl. rewrite Hk, Hv.
  by rewrite !take_blen.
Qed.

Lemma Inv_cache_items s G bs : Inv s G bs → cache_items s = items_of G.
Proof.
  intros HI. unfold cache_items, items_of. rewrite (Inv_cache_nodes _ _ _ HI).
  enough (∀ G', (∀ g, g ∈ G' → g ∈ G) →
            omap (node_item (st_heap s)) (g_addr <$> G') =
            (λ g, (g_kb g, g_vb g)) <$> G') as H by (by apply H).
  intros G'. induction G' as [|g G' IH]; intros Hsub.
  - done.
  - rewrite !fmap_cons. simpl.
    rewrite (Inv_node_item _ _ _ _ HI) by (apply Hsub; left). simpl.
    f_equal. apply IH. intros x Hx. apply Hsub. by right.
Qed.


(** ** Replacing the value of an entry *)

Lemma subst_g_id g' (L : list gnode) :
  (∀ x, x ∈ L → g_addr x ≠ g_addr g') → subst_g g' <$> L = L.
Proof.
  induction L as [|x L IH]; intros H; [done|].
  rewrite fmap_cons, IH by (intros y Hy; apply H; by right).
  unfold subst_g. destruct (Z.eqb_spec (g_addr x) (g_addr g')) as [E|E]; [|done].
  exfalso. eapply H; [left|done].
Qed.

Lemma subst_g_self g' g : g_addr g = g_addr g' → subst_g g' g = g'.
Proof. intros E. unfold subst_g. by rewrite E, Z.eqb_refl. Qed.

Section subst_same.
  Context (g g' : gnode).
  Context (Ha : g_addr g' = g_addr g) (Hk : g_kb g' = g_kb g)
          (He : g_entry g' = g_entry g).
  Context (L0 : list gnode) (Hg : g ∈ L0) (Hnd : NoDup (g_addr <$> L0)).

Lemma subst_same_fields x :
    x ∈ L0 →
    g_addr (subst_g g' x) = g_addr x ∧ g_kb (subst_g g' x) = g_kb x ∧
    g_entry (subst_g g' x) = g_entry x.
  Proof.
    intros Hx. unfold subst_g.
    destruct (Z.eqb_spec (g_addr x) (g_addr g')) as [E|E]; [|done].
    assert (x = g) as -> by (eapply NoDup_fmap_inj; [done..|congruence]).
    done.
  Qed.

Lemma entry_hd_subst es d :
    (∀ x, x ∈ es → x ∈ L0) → entry_hd (subst_g g' <$> es) d = entry_hd es d.
  Proof.
    destruct es as [|x es]; [done|]. intros H. simpl.
    apply subst_same_fields, H. left.
  Qed.

Lemma cseg_subst h es q :
    (∀ x, x ∈ es → x ∈ L0) → cseg h es q → cseg h (subst_g g' <$> es) q.
  Proof.
    induction es as [|x es IH]; intros H; [done|].
    rewrite fmap_cons. simpl. intros [Hx Hes].
    destruct (subst_same_fields x) as (E1 & E2 & E3); [apply H; left|].
    rewrite E1, E3, entry_hd_subst by (intros y Hy; apply H; by right).
    split; [done|]. apply IH; [|done]. intros y Hy. apply H. by right.
  Qed.

Lemma kmatch_subst c key ks x :
    x ∈ L0 → kmatch c key ks (subst_g g' x) = kmatch c key ks x.
  Proof.
    intros Hx. unfold kmatch.
    destruct (subst_same_fields x Hx) as (_ & -> & _). done.
  Qed.

Lemma chain_distinct_subst c es :
    (∀ x, x ∈ es → x ∈ L0) → chain_distinct c es →
    chain_distinct c (subst_g g' <$> es).
  Proof.
    induction es as [|x es IH]; intros H; [done|].
    rewrite fmap_cons. simpl. intros [Hx Hes]. split.
    - apply Forall_fmap. eapply Forall_impl.
      + apply Forall_forall. intros y Hy. 
        rewrite Forall_forall in Hx. exact (conj (Hx y Hy) (H y (list_elem_of_further _ _ _ Hy))).
      + intros y [Hy HyL]. simpl.
        destruct (subst_same_fields y HyL) as (_ & -> & _).
        rewrite kmatch_subst; [done|]. apply H. left.
    - apply IH; [|done]. intros y Hy. apply H. by right.
  Qed.
End subst_same.

Lemma addr_hd_fmap_eq G G' d :
  g_addr <$> G = g_addr <$> G' → addr_hd G d = addr_hd G' d.
Proof. destruct G, G'; try done. rewrite !fmap_cons. by intros [= E _]. Qed.

Lemma addr_last_fmap_eq G : ∀ G' d,
  g_addr <$> G = g_addr <$> G' → addr_last G d = addr_last G' d.
Proof.
  induction G as [|g G IH]; intros [|g' G'] d; try done.
  rewrite !fmap_cons. intros [= E1 E2]. simpl. rewrite E1. by apply IH.
Qed.

Lemma Inv_set_value s Ga g Gb bs a vb :
  Inv s (Ga ++ g :: Gb) bs →
  st_heap s !! a = Some (CBuf vb) →
  a ∉ owned (Ga ++ g :: Gb) →
  let g' := with_value a vb g in
  let h' := <[g_addr g := CNode (gnode_cell g' (addr_last Ga 0) (addr_hd Gb 0))]>
              (delete (g_val g) (st_heap s)) in
  Inv (set_st_heap h' s) (Ga ++ g' :: Gb) (subst_bs g' bs).
Proof.
  intros HI Ha Hown g' h'.
  pose proof HI as [(Hd & Hhd & Htl) Ht Hp Hbu N1 N2 N3 Hsz Hszlt Hcap Hcmp Hhp].
  assert (g ∈ Ga ++ g :: Gb) as Hg by set_solver.
  destruct (Inv_bufs_ok _ _ _ _ HI Hg) as [Hk Hv].
  pose proof (dseg_mid _ _ _ _ _ _ Hd) as Hn.
  assert (g_addr <$> Ga ++ g' :: Gb = g_addr <$> Ga ++ g :: Gb) as Eaddr
    by (by rewrite !fmap_app, !fmap_cons).
  assert (g_entry <$> Ga ++ g' :: Gb = g_entry <$> Ga ++ g :: Gb) as Eentry
    by (by rewrite !fmap_app, !fmap_cons).
  assert (g_key <$> Ga ++ g' :: Gb = g_key <$> Ga ++ g :: Gb) as Ekey
    by (by rewrite !fmap_app, !fmap_cons).
  (* what the update leaves alone *)
  assert (∀ q k, kind_at (st_heap s) q = Some k → q ≠ g_addr g → q ≠ g_val g →
            h' !! q = st_heap s !! q) as Hfr.
  { intros q k _ H1 H2. unfold h'.
    rewrite lookup_insert_ne, lookup_delete_ne; done. }
  assert (g_addr g ≠ g_val g) as Hav by congruence.
  assert (∀ x, x ∈ Ga ++ Gb → g_addr x ≠ g_addr g ∧ g_addr x ≠ g_val g) as Hnodes.
  { intros x Hx. split.
    - clear -N1 Hx. nd_solve.
    - assert (x ∈ Ga ++ g :: Gb) as Hx' by (clear -Hx; set_solver).
      destruct (Inv_node_ok _ _ _ _ HI Hx') as (? & ? & ?). congruence. }
  assert (subst_g g' <$> Ga ++ g :: Gb = Ga ++ g' :: Gb) as Esub.
  { rewrite fmap_app, fmap_cons, subst_g_self by done.
    rewrite !subst_g_id; [done|..]; intros x Hx; apply Hnodes; set_solver. }
  split; simpl.
  - split_and!.
    + apply dseg_app. simpl. apply dseg_app in Hd as [Hd1 [_ Hd2]]. split_and!.
      * eapply dseg_frame; [|done]. intros x Hx.
        destruct (Hnodes x) as [? ?]; [set_solver|].
        unfold h'. rewrite lookup_insert_ne, lookup_delete_ne; done.
      * unfold h'. by rewrite lookup_insert_eq.
      * eapply dseg_frame; [|done]. intros x Hx.
        destruct (Hnodes x) as [? ?]; [set_solver|].
        unfold h'. rewrite lookup_insert_ne, lookup_delete_ne; done.
    + etrans; [exact Hhd|]. by apply addr_hd_fmap_eq.
    + etrans; [exact Htl|]. by apply addr_last_fmap_eq.
  - destruct Ht as (H1 & H2 & H3 & H4). unfold subst_bs.
    split_and!; [done|done|by rewrite length_fmap|].
    intros i es' Hi. rewrite list_lookup_fmap in Hi.
    destruct (bs !! i) as [es|] eqn:Hes; [|done]. injection Hi as <-.
    destruct (H4 _ _ Hes) as (Hh1 & Hh2 & Hh3 & Hh4).
    assert (∀ x, x ∈ es → x ∈ Ga ++ g :: Gb) as Hsub
      by (intros x Hx; by eapply Inv_chain_elem).
    split_and!.
    + by rewrite (entry_hd_subst g g' eq_refl eq_refl eq_refl (Ga ++ g :: Gb)).
    + apply (cseg_subst g g' eq_refl eq_refl eq_refl (Ga ++ g :: Gb)); [done..|].
      eapply cseg_frame; [|done]. intros x Hx.
      destruct (cseg_entry_ok _ _ _ _ Hh2 Hx) as (nx & Hnx).
      eapply Hfr; [unfold kind_at; by rewrite Hnx|congruence|congruence].
    + apply Forall_fmap. eapply Forall_impl.
      * apply Forall_forall. intros y Hy. rewrite Forall_forall in Hh3.
        exact (conj (Hh3 y Hy) (Hsub y Hy)).
      * intros y [Hy HyL]. simpl.
        by destruct (subst_same_fields g g' eq_refl eq_refl eq_refl
                       (Ga ++ g :: Gb) Hg N1 y HyL) as (_ & -> & _).
    + by apply (chain_distinct_subst g g' eq_refl eq_refl eq_refl (Ga ++ g :: Gb)).
  - rewrite <- Esub, <- Hp. clear. unfold subst_bs.
    induction bs as [|b bs IH]; [done|].
    rewrite fmap_cons. simpl. by rewrite fmap_app, IH.
  - apply Forall_forall. intros x Hx.
    apply elem_of_app in Hx as [Hx|[->|Hx]%elem_of_cons].
    + assert (x ∈ Ga ++ g :: Gb) as Hx' by (clear -Hx; set_solver).
      destruct (Inv_bufs_ok _ _ _ _ HI Hx') as [Hk' Hv']. split.
      * erewrite Hfr; [done|unfold kind_at; by rewrite Hk'|congruence|].
        clear -N3 Hx. nd_lift g_key. nd_go.
      * erewrite Hfr; [done|unfold kind_at; by rewrite Hv'|congruence|].
        clear -N3 Hx. nd_lift g_val. nd_go.
    + split; simpl.
      * erewrite Hfr; [done|unfold kind_at; by rewrite Hk|congruence|].
        clear -N3. nd_go.
      * erewrite Hfr; [done|unfold kind_at; by rewrite Ha|congruence|].
        intros ->. apply Hown, owned_cases. right. right. clear. set_solver.
    + assert (x ∈ Ga ++ g :: Gb) as Hx' by (clear -Hx; set_solver).
      destruct (Inv_bufs_ok _ _ _ _ HI Hx') as [Hk' Hv']. split.
      * erewrite Hfr; [done|unfold kind_at; by rewrite Hk'|congruence|].
        clear -N3 Hx. nd_lift g_key. nd_go.
      * erewrite Hfr; [done|unfold kind_at; by rewrite Hv'|congruence|].
        clear -N3 Hx. nd_lift g_val. nd_go.
  - by rewrite Eaddr.
  - by rewrite Eentry.
  - rewrite Ekey. 
    assert (a ∉ (g_key <$> Ga ++ g :: Gb) ++ (g_val <$> Ga ++ g :: Gb)) as Ha'.
    { intros H. apply Hown, owned_cases. by right; right. }
    clear -N3 Ha'. rewrite !fmap_app, !fmap_cons in *. simpl.
    nd_abs. nd_abs_elt. rewrite ?NoDup_app, ?NoDup_cons in *. set_solver.
  - rewrite Hsz, !length_app. done.
  - done.
  - done.
  - done.
  - eapply heap_ok_dom; [exact Hhp|done|]. simpl. unfold h'.
    rewrite dom_insert_lookup_L.
    + rewrite dom_delete_L. set_solver.
    + rewrite lookup_delete_ne by done. by eexists.
Qed.

(** ** Lookups *)

Lemma chain_find_find P es sl :
  (chain_find P es sl).1.1 =
  match find P es with Some g => g_addr g | None => 0 end.
Proof.
  revert sl. induction es as [|g es IH]; intros sl; simpl; [done|].
  destruct (P g); [done|]. simpl. apply IH.
Qed.

Lemma find_Some_split {A} (P : A → bool) es g :
  find P es = Some g →
  ∃ l1 l2, es = l1 ++ g :: l2 ∧ P g = true ∧ Forall (λ x, P x = false) l1.
Proof.
  induction es as [|x es IH]; simpl; [done|].
  destruct (P x) eqn:Hx.
  - intros [= ->]. by exists [], es.
  - intros (l1 & l2 & -> & Hg & Hl)%IH. exists (x :: l1), l2.
    split_and!; [done|done|by constructor].
Qed.

Lemma find_None_Forall {A} (P : A → bool) es :
  find P es = None → Forall (λ x, P x = false) es.
Proof.
  induction es as [|x es IH]; simpl; [done|].
  destruct (P x) eqn:Hx; [done|]. intros H. constructor; auto.
Qed.

Lemma glookup_Some s G bs key g :
  Inv s G bs → glookup (st_cache s) bs key = Some g →
  g ∈ G ∧ kmatch (st_cache s) key (blen key) g = true ∧
  bucket_of (st_cache s) (g_kb g) = bucket_of (st_cache s) key.
Proof.
  intros HI. unfold glookup.
  destruct (bs !! _) as [es|] eqn:Hes; [|done].
  intros (l1 & l2 & -> & Hg & _)%find_Some_split.
  assert (g ∈ l1 ++ g :: l2) as Hin by set_solver.
  split_and!; [by eapply Inv_chain_elem|done|].
  destruct (inv_table _ _ _ HI) as (_ & _ & _ & Hbs).
  destruct (Hbs _ _ Hes) as (_ & _ & Hbk & _).
  rewrite Forall_forall in Hbk. rewrite (Hbk _ Hin).
  destruct (Inv_bucket _ _ _ key HI) as [? _]. lia.
Qed.

Lemma find_ext' {A} (P P' : A → bool) es :
  (∀ x, P x = P' x) → find P es = find P' es.
Proof.
  intros H. induction es as [|x es IH]; simpl; [done|]. by rewrite H, IH.
Qed.

Lemma glookup_ext c c' bs key :
  shape_eq c c' → glookup c' bs key = glookup c bs key.
Proof.
  intros H%shape_eq_fields. destruct H as (_&_&E1&_&_&_&E2&E3&_).
  unfold glookup. rewrite (bucket_of_ext c c') by done.
  destruct (bs !! _); [|done]. apply find_ext'. intros x.
  by apply kmatch_ext.
Qed.

Lemma find_spec s G bs key Q :
  Inv s G bs →
  (∀ k sl,
     Q (match glookup (st_cache s) bs key with
        | Some g => g_addr g
        | None => 0
        end, sl) (add_coll k s)) →
  wp (find_in_hash_table key (blen key)) s Q.
Proof.
  intros HI HQ. eapply find_in_hash_table_spec; [done|].
  intros es Hes. simpl. rewrite chain_find_find.
  unfold glookup in HQ. rewrite Hes in HQ. apply HQ.
Qed.

Lemma cache_upd_shape s s' d log :
  shape_eq (st_cache s) (st_cache s') → 
  no_coll (c_stats (st_cache s')) = no_coll (c_stats (st_cache s)) →
  st_log s' = st_log s ++ log → st_brk s ≤ st_brk s' → d = 0 →
  cache_upd s s' id d log.
Proof.
  intros Hs Hn Hl Hb ->. split; try done.
  - by apply shape_eq_same_config.
  - apply shape_eq_fields in Hs as (_&->&_). lia.
  - by destruct (c_track_stats (st_cache s)).
Qed.

Lemma no_coll_stats_upd k c (f : lru_stats_t → lru_stats_t) :
  (∀ t col, f (set_collisions col t) = set_collisions col (f t)) →
  no_coll (f (c_stats (Nat.iter k bump c))) = no_coll (f (c_stats c)).
Proof.
  intros Hf. pose proof (no_coll_iter_bump k c) as Hnc.
  assert (c_stats (Nat.iter k bump c) =
          set_collisions (collisions (c_stats (Nat.iter k bump c))) (c_stats c))
    as ->.
  { unfold no_coll in Hnc.
    destruct (c_stats (Nat.iter k bump c)), (c_stats c). simpl in *.
    by injection Hnc as -> -> -> -> -> -> ->. }
  rewrite Hf. unfold no_coll. by destruct (f (c_stats c)).
Qed.

(** Splits a [cache_upd] goal whose final cache is built from the bumped
    cache [Nat.iter k bump c]; the statistics are left to the caller. *)
Ltac cu_split Hsh :=
  let HF := fresh "HF" in
  pose proof (shape_eq_fields _ _ Hsh) as HF;
  destruct HF as (? & ? & ? & ? & ? & ? & ? & ? & ? & ? & ? & ?);
  split;
  [ repeat split; simpl; congruence
  | simpl; lia
  | simpl
  | simpl; rewrite ?app_nil_r; done
  | simpl; lia ].

Lemma lru_cache_get_spec s G bs key Q :
  Inv s G bs → 0 < blen key →
  (∀ r out s' G', Inv s' G' bs → get_rel s G bs key r out s' G' → Q (r, out) s') →
  wp (lru_cache_get (Some key) (blen key)) s Q.
Proof.
  intros HI Hkey HQ. unfold lru_cache_get.
  destruct (Z.eqb_spec (blen key) 0) as [?|_]; [lia|].
  wp_pure. eapply find_spec; [done|]. intros k sl. simpl.
  pose proof (Inv_add_coll k _ _ _ HI) as HIk.
  pose proof (shape_eq_iter_bump k (st_cache s)) as Hsh.
  pose proof (shape_eq_fields _ _ Hsh) as (_ & _ & _ & _ & _ & _ & _ & _ & _ & _ & _ & F12).
  destruct (glookup (st_cache s) bs key) as [g|] eqn:Hlook.
  - (* hit *)
    destruct (glookup_Some _ _ _ _ _ HI Hlook) as (Hg & Hm & Hbk).
    destruct (Inv_node_ok _ _ _ _ HI Hg) as (p & n & Hn).
    assert (g_addr g ≠ 0) as Hz.
    { pose proof (Inv_null _ _ _ HI). congruence. }
    destruct (Z.eqb_spec (g_addr g) 0) as [?|_]; [done|].
    apply list_elem_of_split in Hg as (Ga & Gb & ->).
    wp_pure. eapply Inv_move_to_front; [exact HIk|].
    intros h1 c1 HI1 Hf1 Hdom1. subst c1. simpl in *.
    assert (g ∈ g :: Ga ++ Gb) as Hg1 by set_solver.
    destruct (Inv_node_ok _ _ _ _ HI1 Hg1) as (p1 & n1 & Hn1).
    destruct (Inv_bufs_ok _ _ _ _ HI1 Hg1) as [Hk1 Hv1]. simpl in *.
    wp_pure. eapply wp_load_node; [done|]. wp_pure. simpl.
    eapply wp_load_buf; [done|]. wp_pure.
    apply wp_default_copy; [unfold blen; lia|..]; simpl; intros Ho.
    + rewrite take_blen.
      pose proof (Inv_alloc _ _ _ (CBuf (g_vb g)) (oracle_tail (st_oracle s))
                    (st_log s) HI1) as HI2. simpl in HI2.
      assert (st_brk s ≠ 0) as Hb0 by (destruct (inv_heap _ _ _ HI); lia).
      destruct (Z.eqb_spec (st_brk s) 0) as [?|_]; [done|].
      assert (st_brk s ≠ g_addr g) as Hbg.
      { intros E. pose proof (Inv_fresh _ _ _ HI1) as Hfr. simpl in Hfr. congruence. }
      wp_pure. eapply wp_load_node; [hl|].
      wp_pure. simpl. rewrite F12.
      assert (st_brk s ∉ owned (Ga ++ g :: Gb)) as Hown.
      { intros Hin. apply (Inv_owned_lt _ _ _ _ HI) in Hin. lia. }
      destruct (c_track_stats (st_cache s)) eqn:Htr; wp_pure; simpl.
      * eapply HQ.
        -- eapply Inv_shape; [exact HI2|..]; simpl; try done; apply shape_eq_set_stats.
        -- eapply get_hit; simpl; try done; [|by rewrite lookup_insert_eq].
           cu_split Hsh. rewrite Htr.
           apply (no_coll_stats_upd k _ count_hit). by intros [].
      * eapply HQ; [exact HI2|].
        eapply get_hit; simpl; try done; [|by rewrite lookup_insert_eq].
        cu_split Hsh. rewrite Htr. apply no_coll_iter_bump.
    + wp_pure. eapply HQ.
      * eapply Inv_env in HI1; [exact HI1|simpl; lia].
      * eapply get_nomem; simpl; try done.
        cu_split Hsh. rewrite (no_coll_iter_bump k). by destruct (c_track_stats (st_cache s)).
  - (* miss *)
    simpl. wp_pure. unfold add_coll. simpl. rewrite F12.
    destruct (c_track_stats (st_cache s)) eqn:Htr; wp_pure; simpl.
    + eapply HQ.
      * eapply Inv_shape; [exact HIk|..]; simpl; try done; apply shape_eq_set_stats.
      * eapply get_miss; simpl; try done.
        cu_split Hsh. rewrite Htr.
        apply (no_coll_stats_upd k _ count_miss). by intros [].
    + eapply HQ; [exact HIk|].
      eapply get_miss; simpl; try done.
      cu_split Hsh. rewrite Htr. apply no_coll_iter_bump.
Qed.
Lemma lru_cache_peek_spec s G bs key Q :
  Inv s G bs → 0 < blen key →
  (∀ r out s', Inv s' G bs → peek_rel s G bs key r out s' → Q (r, out) s') →
  wp (lru_cache_peek (Some key) (blen key)) s Q.
Proof.
  intros HI Hkey HQ. unfold lru_cache_peek.
  destruct (Z.eqb_spec (blen key) 0) as [?|_]; [lia|].
  wp_pure. eapply find_spec; [done|]. intros k sl. simpl.
  pose proof (Inv_add_coll k _ _ _ HI) as HIk.
  pose proof (shape_eq_iter_bump k (st_cache s)) as Hsh.
  destruct (glookup (st_cache s) bs key) as [g|] eqn:Hlook.
  - destruct (glookup_Some _ _ _ _ _ HI Hlook) as (Hg & Hm & Hbk).
    destruct (Inv_node_ok _ _ _ _ HI Hg) as (p & n & Hn).
    destruct (Inv_bufs_ok _ _ _ _ HI Hg) as [Hk1 Hv1].
    assert (g_addr g ≠ 0) as Hz.
    { pose proof (Inv_null _ _ _ HI). congruence. }
    destruct (Z.eqb_spec (g_addr g) 0) as [?|_]; [done|].
    wp_pure. eapply wp_load_node; [done|]. wp_pure. simpl.
    eapply wp_load_buf; [done|]. wp_pure.
    apply wp_default_copy; [unfold blen; lia|..]; simpl; intros Ho.
    + rewrite take_blen.
      pose proof (Inv_alloc _ _ _ (CBuf (g_vb g)) (oracle_tail (st_oracle s))
                    (st_log s) HIk) as HI2. simpl in HI2.
      assert (st_brk s ≠ 0) as Hb0 by (destruct (inv_heap _ _ _ HI); lia).
      destruct (Z.eqb_spec (st_brk s) 0) as [?|_]; [done|].
      assert (st_brk s ≠ g_addr g) as Hbg.
      { intros E. pose proof (Inv_fresh _ _ _ HI) as Hfr. congruence. }
      wp_pure. eapply wp_load_node; [hl|].
      wp_pure. simpl.
      assert (st_brk s ∉ owned G) as Hown.
      { intros Hin. apply (Inv_owned_lt _ _ _ _ HI) in Hin. lia. }
      eapply HQ; [exact HI2|].
      eapply peek_hit; simpl; try done.
      cu_split Hsh. rewrite (no_coll_iter_bump k).
      by destruct (c_track_stats (st_cache s)).
    + wp_pure. eapply HQ.
      * eapply Inv_env in HIk; [exact HIk|simpl; lia].
      * eapply peek_nomem; simpl; try done.
        cu_split Hsh. rewrite (no_coll_iter_bump k).
        by destruct (c_track_stats (st_cache s)).
  - simpl. wp_pure. eapply HQ; [exact HIk|].
    eapply peek_miss; simpl; try done.
    cu_split Hsh. rewrite (no_coll_iter_bump k).
    by destruct (c_track_stats (st_cache s)).
Qed.

Lemma lru_cache_contains_spec s G bs key Q :
  Inv s G bs → 0 < blen key →
  (∀ b s', Inv s' G bs → contains_rel s bs key b s' → Q b s') →
  wp (lru_cache_contains (Some key) (blen key)) s Q.
Proof.
  intros HI Hkey HQ. unfold lru_cache_contains.
  destruct (Z.eqb_spec (blen key) 0) as [?|_]; [lia|].
  wp_pure. eapply find_spec; [done|]. intros k sl. simpl.
  pose proof (Inv_add_coll k _ _ _ HI) as HIk.
  pose proof (shape_eq_iter_bump k (st_cache s)) as Hsh.
  wp_pure. eapply HQ; [exact HIk|].
  split_and!; simpl; try done.
  - destruct (glookup (st_cache s) bs key) as [g|] eqn:Hlook.
    + destruct (glookup_Some _ _ _ _ _ HI Hlook) as (Hg & Hm & Hbk).
      destruct (Inv_node_ok _ _ _ _ HI Hg) as (p & n & Hn).
      assert (g_addr g ≠ 0) as Hz.
      { pose proof (Inv_null _ _ _ HI). congruence. }
      destruct (Z.eqb_spec (g_addr g) 0) as [?|_]; [done|].
      symmetry. by apply bool_decide_eq_true.
    + symmetry. apply bool_decide_eq_false. by intros [? ?].
  - cu_split Hsh. rewrite (no_coll_iter_bump k).
    by destruct (c_track_stats (st_cache s)).
Qed.
Lemma no_coll_eq_fields t t' :
  no_coll t = no_coll t' →
  hits t = hits t' ∧ misses t = misses t' ∧ evictions t = evictions t' ∧
  insertions t = insertions t' ∧ deletions t = deletions t' ∧
  current_size t = current_size t' ∧ peak_size t = peak_size t'.
Proof. destruct t, t'. unfold no_coll. simpl. intros [= -> -> -> -> -> -> ->]. done. Qed.

Lemma no_coll_intro t t' :
  hits t = hits t' → misses t = misses t' → evictions t = evictions t' →
  insertions t = insertions t' → deletions t = deletions t' →
  current_size t = current_size t' → peak_size t = peak_size t' →
  no_coll t = no_coll t'.
Proof. destruct t, t'. unfold no_coll. simpl. by intros -> -> -> -> -> -> ->. Qed.

Lemma lru_cache_delete_spec s G bs key Q :
  Inv s G bs → 0 < blen key →
  (∀ r s' G' bs', Inv s' G' bs' → delete_rel s G bs key r s' G' → Q r s') →
  wp (lru_cache_delete (Some key) (blen key)) s Q.
Proof.
  intros HI Hkey HQ. unfold lru_cache_delete.
  destruct (Z.eqb_spec (blen key) 0) as [?|_]; [lia|].
  wp_pure. eapply find_spec; [done|]. intros k sl. simpl.
  pose proof (Inv_add_coll k _ _ _ HI) as HIk.
  pose proof (shape_eq_iter_bump k (st_cache s)) as Hsh.
  destruct (glookup (st_cache s) bs key) as [g|] eqn:Hlook.
  - destruct (glookup_Some _ _ _ _ _ HI Hlook) as (Hg & Hm & Hbk).
    destruct (Inv_node_ok _ _ _ _ HI Hg) as (p & n & Hn).
    assert (g_addr g ≠ 0) as Hz.
    { pose proof (Inv_null _ _ _ HI). congruence. }
    destruct (Z.eqb_spec (g_addr g) 0) as [?|_]; [done|].
    apply list_elem_of_split in Hg as (Ga & Gb & ->).
    simpl. apply wp_bind, wp_bind2.
    apply (detach_spec _ Ga g Gb bs); [done|].
    intros k' T h2 bs' p' n' c2 HI2 Hn2 Hb2 He2 Hf2 Hdom2. subst c2.
    unfold add_coll in *. simpl in *. rewrite <- Nat.iter_add in *.
    pose proof (shape_eq_fields _ _ Hsh) as (_ & F2k & _).
    rewrite F2k in HI2. clear Hsh F2k.
    pose proof (shape_eq_iter_bump (k' + k) (st_cache s)) as Hsh.
    pose proof (shape_eq_fields _ _ Hsh)
      as (F1 & F2 & F3 & F4 & F5 & F6 & F7 & F8 & F9 & F10 & F11 & F12).
    pose proof (inv_size _ _ _ HI) as Hsz.
    pose proof (inv_size_lt _ _ _ HI) as Hszlt.
    rewrite length_app in Hsz. simpl in Hsz.
    pose proof (inv_nodup_nodes _ _ _ HI) as N1.
    pose proof (inv_nodup_entries _ _ _ HI) as N2.
    pose proof (inv_nodup_bufs _ _ _ HI) as N3.
    assert (g_key g ≠ g_val g) as Hkv by (clear -N3; nd_go).
    assert (h2 !! 0 = None) as H02.
    { rewrite Hf2; [by apply (Inv_null _ _ _ HI)|]. intros Hin.
      apply (Inv_owned_lt _ _ _ _ HI) in Hin. lia. }
    assert (wrap64 (c_size (st_cache s) - 1) = c_size (st_cache s) - 1) as Hw
      by (apply wrap64_small; lia).
    set (cb := Nat.iter (k' + k) bump (st_cache s)) in *.
    set (st' := if c_track_stats (st_cache s) then
                  count_deletion (c_size (st_cache s) - 1) (c_stats cb)
                else c_stats cb).
    set (c4 := set_c_stats st'
                 (set_c_size (c_size (st_cache s) - 1)
                    (set_c_tail (addr_last (Ga ++ Gb) 0)
                       (set_c_head (addr_hd (Ga ++ Gb) 0)
                          (set_c_hash_table T cb))))).
    set (h3 := delete (g_addr g) (delete (g_val g) (delete (g_key g) h2))).
    set (s' := mk_state c4 h3 (st_brk s) (st_oracle s) (st_log s)).
    assert (g_addr g ∉ owned (Ga ++ Gb)) as Ho1.
    { eapply Inv_unowned_node; [exact HI2| |].
      - unfold kind_at. simpl. by rewrite Hn2.
      - clear -N1. nd_solve. }
    assert (g_key g ∉ owned (Ga ++ Gb)) as Ho2.
    { eapply Inv_unowned_buf; [exact HI2| |].
      - unfold kind_at. simpl. by rewrite (proj1 Hb2).
      - clear -N3. nd_go. }
    assert (g_val g ∉ owned (Ga ++ Gb)) as Ho3.
    { eapply Inv_unowned_buf; [exact HI2| |].
      - unfold kind_at. simpl. by rewrite (proj2 Hb2).
      - clear -N3. nd_go. }
    assert (g_entry g ∉ owned (Ga ++ Gb)) as Ho4.
    { eapply Inv_unowned_dead; [exact HI2|done]. }
    assert (Inv s' (Ga ++ Gb) bs') as HI'.
    { eapply Inv_frame; [exact HI2| |..].
      - unfold s', c4. simpl. unfold shape_eq. simpl. by destruct cb.
      - intros q Hq. unfold s', h3. simpl.
        rewrite !lookup_delete_ne; [done|..]; by intros <-.
      - destruct (inv_heap _ _ _ HI2) as [Hbrk Hh2]. split; [done|].
        unfold s', h3. simpl in *. intros q x Hq.
        apply lookup_delete_Some in Hq as [_ Hq].
        apply lookup_delete_Some in Hq as [_ Hq].
        apply lookup_delete_Some in Hq as [_ Hq]. by eapply Hh2. }
    assert (delete_rel s (Ga ++ g :: Gb) bs key LRU_SUCCESS s' (Ga ++ Gb)) as Hrel.
    { eapply delete_hit; try done.
      - unfold s', c4. split; simpl; try done.
        + unfold st'. destruct (c_track_stats (st_cache s)).
          * pose proof (no_coll_eq_fields _ _ (no_coll_iter_bump (k' + k) (st_cache s)))
              as (E1 & E2 & E3 & E4 & E5 & E6 & E7).
            apply no_coll_intro; unfold count_deletion, cb; simpl; congruence.
          * apply no_coll_iter_bump.
        + by rewrite app_nil_r.
      - intros q Hq. unfold s', h3. simpl.
        rewrite !lookup_delete_ne; [by apply Hf2|..];
          intros <-; apply Hq, owned_cases; clear; set_solver.
      - intros q Hq. unfold s', h3. simpl.
        destruct (decide (q = g_addr g)) as [->|D1]; [by rewrite lookup_delete_eq|].
        rewrite lookup_delete_ne by done.
        destruct (decide (q = g_val g)) as [->|D2]; [by rewrite lookup_delete_eq|].
        rewrite lookup_delete_ne by done.
        destruct (decide (q = g_key g)) as [->|D3]; [by rewrite lookup_delete_eq|].
        rewrite lookup_delete_ne by done.
        assert (q = g_entry g) as -> by (clear -Hq D1 D2 D3; set_solver). done. }
    wp_pure. simpl. rewrite F12, F2, Hw.
    destruct (c_track_stats (st_cache s)) eqn:Htr; wp_pure; simpl;
      (eapply destroy_node_spec; [done..|]); simpl; wp_pure;
      exact (HQ _ s' _ bs' HI' Hrel).
  - simpl. wp_pure. eapply HQ; [exact HIk|].
    eapply delete_miss; simpl; try done.
    cu_split Hsh. rewrite (no_coll_iter_bump k).
    by destruct (c_track_stats (st_cache s)).
Qed.
Lemma Inv_config s s' G bs :
  Inv s G bs →
  c_size (st_cache s') = c_size (st_cache s) →
  c_hash_table_size (st_cache s') = c_hash_table_size (st_cache s) →
  c_head (st_cache s') = c_head (st_cache s) →
  c_tail (st_cache s') = c_tail (st_cache s) →
  c_hash_table (st_cache s') = c_hash_table (st_cache s) →
  c_hash_fn (st_cache s') = c_hash_fn (st_cache s) →
  c_compare_fn (st_cache s') = c_compare_fn (st_cache s) →
  1 ≤ c_capacity (st_cache s') < 2 ^ 64 →
  st_heap s' = st_heap s → st_brk s' = st_brk s →
  Inv s' G bs.
Proof.
  intros [(Hd & Hhd & Htl) Ht Hp Hbu N1 N2 N3 Hsz Hszlt Hcap Hcmp Hhp]
    E1 E2 E3 E4 E5 E6 E7 Hc Hh Hb.
  split; try done.
  - unfold list_ok. rewrite Hh, E3, E4. done.
  - rewrite Hh. eapply table_ok_ext; [..|exact Ht]; done.
  - by rewrite Hh.
  - congruence.
  - congruence.
  - congruence.
  - destruct Hhp as [H1 H2]. split; [congruence|]. rewrite Hh, Hb. done.
Qed.

Lemma owned_app G1 G2 p : p ∈ owned (G1 ++ G2) ↔ p ∈ owned G1 ∨ p ∈ owned G2.
Proof.
  rewrite !owned_cases, !fmap_app, !elem_of_app. tauto.
Qed.

Lemma owned_single t p :
  p ∈ owned [t] ↔ p ∈ [g_addr t; g_key t; g_val t; g_entry t].
Proof. unfold owned. simpl. set_solver. Qed.

Lemma evict_log_ext c c' t :
  c_eviction_fn c' = c_eviction_fn c →
  c_eviction_user_data c' = c_eviction_user_data c →
  evict_log c' t = evict_log c t.
Proof. unfold evict_log, call_of. by intros -> ->. Qed.

Lemma count_eviction_coll col t :
  count_eviction (set_collisions col t) = set_collisions col (count_eviction t).
Proof. by destruct t. Qed.

Lemma no_coll_count_eviction t t' :
  no_coll t = no_coll t' → no_coll (count_eviction t) = no_coll (count_eviction t').
Proof.
  intros (E1 & E2 & E3 & E4 & E5 & E6 & E7)%no_coll_eq_fields.
  apply no_coll_intro; unfold count_eviction; simpl; congruence.
Qed.

Lemma no_coll_iter_count_eviction n t t' :
  no_coll t = no_coll t' →
  no_coll (Nat.iter n count_eviction t) = no_coll (Nat.iter n count_eviction t').
Proof.
  intros H. induction n as [|n IH]; simpl; [done|]. by apply no_coll_count_eviction.
Qed.

Lemma iter_succ_r {A} (f : A → A) n x : Nat.iter (S n) f x = Nat.iter n f (f x).
Proof. induction n as [|n IH]; simpl in *; [done|]. by rewrite IH. Qed.

Lemma resize_loop_spec E : ∀ s G' bs fuel Q,
  Inv s (G' ++ E) bs → (length E ≤ fuel)%nat →
  Z.of_nat (length G') = Z.min (Z.of_nat (length (G' ++ E))) (c_capacity (st_cache s)) →
  (∀ s' bs', Inv s' G' bs' → evicted_all s (G' ++ E) (rev E) s' → Q tt s') →
  wp (resize_loop fuel) s Q.
Proof.
  induction E as [|t E0 IH] using rev_ind; intros s G' bs fuel Q HI Hfuel Hlen HQ.
  - rewrite app_nil_r in *.
    pose proof (inv_size _ _ _ HI) as Hsz.
    destruct fuel; simpl; wp_pure;
      (destruct (Z.ltb_spec (c_capacity (st_cache s)) (c_size (st_cache s))); [lia|]);
      wp_pure; (eapply HQ; [done|]);
      (split; simpl; rewrite ?app_nil_r, ?Z.sub_0_r; try done;
         [by destruct (c_track_stats _)|set_solver]).
  - pose proof (inv_size _ _ _ HI) as Hsz.
    rewrite !length_app in *. simpl in *.
    destruct fuel as [|fuel]; [lia|]. simpl. wp_pure.
    destruct (Z.ltb_spec (c_capacity (st_cache s)) (c_size (st_cache s))); [|lia].
    apply wp_bind. rewrite app_assoc in HI.
    eapply evict_lru_spec; [exact HI|].
    intros s1 bs1 HI1 [(C1 & C2 & C3 & C4 & C5 & C6 & C7 & C8) Es Est Eb Eo El Ef Efr].
    eapply IH; [exact HI1|lia| |].
    { rewrite C1, length_app. lia. }
    intros s' bs' HI' [(D1 & D2 & D3 & D4 & D5 & D6 & D7 & D8) Fs Fst Fb Fo Fl Ff Ffr].
    eapply HQ; [done|].
    rewrite rev_app_distr. simpl.
    split.
    + repeat split; congruence.
    + rewrite Fs, Es. simpl. rewrite length_rev. lia.
    + rewrite Fst, C8. destruct (c_track_stats (st_cache s)); [|done].
      simpl length. rewrite iter_succ_r.
      by apply no_coll_iter_count_eviction.
    + congruence.
    + congruence.
    + rewrite Fl, El. simpl. rewrite <- app_assoc.
      f_equal. f_equal. clear -C5 C6.
      induction (rev E0) as [|x l IHl]; [done|].
      rewrite !bind_cons, IHl. f_equal. by apply evict_log_ext.
    + intros q Hq. rewrite Ff.
      * apply Ef. by rewrite <- app_assoc.
      * intros Hin. apply Hq. rewrite app_assoc.
        apply owned_app. by left.
    + intros q Hq. 
      change (t :: rev E0) with ([t] ++ rev E0) in Hq.
      apply owned_app in Hq as [Hq|Hq].
      * apply owned_single in Hq.
        rewrite Ff; [by apply Efr|].
        eapply Inv_unowned_dead; [exact HI1|]. by apply Efr.
      * by apply Ffr.
Qed.

Lemma lru_cache_resize_spec s G bs n Q :
  Inv s G bs → n < 2 ^ 64 →
  (∀ r s' G' bs', Inv s' G' bs' →
     c_size (st_cache s') ≤ c_capacity (st_cache s') ∨ r = LRU_ERROR_INVALID_ARG →
     resize_rel s G n r s' G' → Q r s') →
  wp (lru_cache_resize n) s Q.
Proof.
  intros HI Hn HQ. unfold lru_cache_resize, LRU_CACHE_MIN_CAPACITY.
  destruct (Z.ltb_spec n 1).
  - wp_pure. eapply HQ; [done|by right|]. by constructor.
  - wp_pure. simpl.
    pose proof (inv_size _ _ _ HI) as Hsz.
    set (s0 := set_st_cache (set_c_capacity n (st_cache s)) s).
    assert (Inv s0 G bs) as HI0.
    { pose proof (inv_cap _ _ _ HI).
      eapply Inv_config; [exact HI|..]; simpl; try done; lia. }
    set (k := Z.to_nat (Z.min (Z.of_nat (length G)) n)).
    assert (G = take k G ++ drop k G) as HG by (by rewrite take_drop).
    rewrite HG in HI0.
    eapply (resize_loop_spec (drop k G) s0 (take k G));
      [exact HI0| | |].
    { rewrite Hsz, Nat2Z.id, length_drop. lia. }
    { rewrite <- HG. simpl. rewrite length_take. unfold k. lia. }
    intros s' bs' HI' Hev. wp_pure.
    eapply HQ; [exact HI'| |].
    + left. destruct Hev as [(C1 & _) Es _ _ _ _ _ _].
      rewrite Es, C1, length_rev, length_drop. simpl. rewrite Hsz. unfold k. lia.
    + eapply resize_done; [done|exact HG| |].
      * rewrite length_take. unfold k. lia.
      * by rewrite <- HG in Hev.
Qed.
Lemma heap_minus_nil h : heap_minus h [] h.
Proof. split; [by intros ? ?%elem_of_nil|done]. Qed.

Lemma heap_minus_trans h D1 h1 D2 h2 :
  heap_minus h D1 h1 → heap_minus h1 D2 h2 → heap_minus h (D1 ++ D2) h2.
Proof.
  intros [A1 A2] [B1 B2]. split; intros q Hq.
  - destruct (decide (q ∈ D2)) as [?|Hn]; [by apply B1|].
    rewrite B2 by done. apply A1. set_solver.
  - rewrite B2, A2; set_solver.
Qed.

Lemma heap_minus_perm h D D' h' :
  (∀ q, q ∈ D ↔ q ∈ D') → heap_minus h D h' → heap_minus h D' h'.
Proof.
  intros HD [A1 A2]. split; intros q Hq.
  - apply A1. by apply HD.
  - apply A2. by rewrite HD.
Qed.

Lemma heap_minus_delete3 h a b c :
  heap_minus h [a; b; c] (delete a (delete b (delete c h))).
Proof.
  split; intros q Hq.
  - destruct (decide (q = a)) as [->|?]; [by rewrite lookup_delete_eq|].
    rewrite lookup_delete_ne by done.
    destruct (decide (q = b)) as [->|?]; [by rewrite lookup_delete_eq|].
    rewrite lookup_delete_ne by done.
    destruct (decide (q = c)) as [->|?]; [by rewrite lookup_delete_eq|].
    set_solver.
  - rewrite !lookup_delete_ne; set_solver.
Qed.

Lemma node_cells_elem G q :
  q ∈ node_cells G ↔
  q ∈ g_addr <$> G ∨ q ∈ (g_key <$> G) ++ (g_val <$> G).
Proof.
  unfold node_cells. rewrite list_elem_of_bind, elem_of_app, !list_elem_of_fmap.
  split.
  - intros (g & Hq & Hg). set_solver.
  - intros [(g & -> & Hg)|[(g & -> & Hg)|(g & -> & Hg)]]; exists g; set_solver.
Qed.

Lemma clear_nodes_spec G : ∀ s p fuel Q,
  dseg (st_heap s) p G 0 → Forall (bufs_ok (st_heap s)) G →
  NoDup (g_addr <$> G) → NoDup ((g_key <$> G) ++ (g_val <$> G)) →
  st_heap s !! 0 = None → (length G ≤ fuel)%nat →
  (∀ h', heap_minus (st_heap s) (node_cells G) h' → Q tt (set_st_heap h' s)) →
  wp (clear_nodes fuel (addr_hd G 0)) s Q.
Proof.
  induction G as [|g G IH]; intros s p fuel Q Hd Hb N1 N3 H0 Hfuel HQ.
  - destruct fuel; simpl; wp_pure; destruct s; apply (HQ _ (heap_minus_nil _)).
  - destruct fuel as [|fuel]; [simpl in Hfuel; lia|].
    simpl in Hd. destruct Hd as [Hg Hd].
    apply Forall_cons in Hb as [[Hk Hv] Hb].
    assert (g_addr g ≠ 0) as Hz by congruence.
    simpl. destruct (Z.eqb_spec (g_addr g) 0) as [?|_]; [done|].
    wp_pure. eapply wp_load_node; [done|]. wp_pure. simpl.
    assert (g_key g ≠ g_val g) as Hkv by (clear -N3; nd_go).
    eapply destroy_node_spec; [done|done|done|done|].
    set (h1 := delete (g_addr g) (delete (g_val g) (delete (g_key g) (st_heap s)))).
    assert (∀ g', g' ∈ G → h1 !! g_addr g' = st_heap s !! g_addr g') as F1.
    { intros g' Hg'. destruct (dseg_node_ok _ _ _ _ _ Hd Hg') as (? & ? & Hn').
      unfold h1. rewrite !lookup_delete_ne; [done|congruence|congruence|].
      intros E. assert (g_addr g' ∈ g_addr <$> G) by (by apply list_elem_of_fmap_2).
      rewrite fmap_cons in N1. apply NoDup_cons in N1 as [N1 _]. congruence. }
    assert (∀ g', g' ∈ G → h1 !! g_key g' = st_heap s !! g_key g' ∧
                          h1 !! g_val g' = st_heap s !! g_val g') as F2.
    { intros g' Hg'. rewrite Forall_forall in Hb. destruct (Hb _ Hg') as [Hk' Hv'].
      assert (g_key g' ∈ g_key <$> G) by (by apply list_elem_of_fmap_2).
      assert (g_val g' ∈ g_val <$> G) by (by apply list_elem_of_fmap_2).
      unfold h1. split; rewrite !lookup_delete_ne; try done; try congruence;
        intros E; clear -N3 H H1 E; rewrite <- E in *; nd_go. }
    wp_pure. eapply (IH (set_st_heap h1 s) (g_addr g)); simpl.
    + by eapply dseg_frame.
    + rewrite Forall_forall in *. intros g' Hg'. destruct (F2 _ Hg') as [E1 E2].
      destruct (Hb _ Hg'). unfold bufs_ok. by rewrite E1, E2.
    + rewrite fmap_cons in N1. by apply NoDup_cons in N1 as [_ N1].
    + clear -N3. nd_sub N3.
    + unfold h1. rewrite !lookup_delete_ne; congruence.
    + simpl in Hfuel. lia.
    + intros h' Hh'.
      assert (heap_minus (st_heap s) (node_cells (g :: G)) h') as Hm.
      { apply (heap_minus_trans _ [g_addr g; g_val g; g_key g] h1); [|done].
        apply heap_minus_delete3. }
      apply (HQ _ Hm).
Qed.

Lemma clear_chain_spec es : ∀ s fuel Q,
  chain (st_heap s) es → NoDup (g_entry <$> es) →
  st_heap s !! 0 = None → (length es ≤ fuel)%nat →
  (∀ h', heap_minus (st_heap s) (g_entry <$> es) h' → Q tt (set_st_heap h' s)) →
  wp (clear_chain fuel (entry_hd es 0)) s Q.
Proof.
  induction es as [|g es IH]; intros s fuel Q Hc N2 H0 Hfuel HQ.
  - destruct fuel; simpl; wp_pure; destruct s; apply (HQ _ (heap_minus_nil _)).
  - destruct fuel as [|fuel]; [simpl in Hfuel; lia|].
    simpl in Hc. destruct Hc as [Hg Hc].
    assert (g_entry g ≠ 0) as Hz by congruence.
    simpl. destruct (Z.eqb_spec (g_entry g) 0) as [?|_]; [done|].
    wp_pure. eapply wp_load_entry; [done|]. wp_pure. simpl.
    unfold default_free. eapply wp_free; [done|done|].
    rewrite fmap_cons in N2. apply NoDup_cons in N2 as [N2a N2].
    wp_pure. eapply (IH (set_st_heap (delete (g_entry g) (st_heap s)) s)); simpl.
    + eapply cseg_frame; [|done]. intros g' Hg'.
      rewrite lookup_delete_ne; [done|]. intros E. apply N2a. rewrite E.
      by apply list_elem_of_fmap_2.
    + done.
    + rewrite lookup_delete_ne; congruence.
    + simpl in Hfuel. lia.
    + intros h' Hh'.
      assert (heap_minus (st_heap s) (g_entry <$> g :: es) h') as Hm.
      { rewrite fmap_cons.
        apply (heap_minus_trans _ [g_entry g] (delete (g_entry g) (st_heap s))
                 (g_entry <$> es)); [|done].
        split; intros q Hq.
        - apply list_elem_of_singleton in Hq as ->. by rewrite lookup_delete_eq.
        - rewrite lookup_delete_ne; [done|]. set_solver. }
      apply (HQ _ Hm).
Qed.

Lemma clear_buckets_spec B : ∀ s i Q,
  (∀ j es, B !! j = Some es →
     c_hash_table (st_cache s) !! (i + j)%nat = Some (entry_hd es 0) ∧
     chain (st_heap s) es) →
  NoDup (g_entry <$> mjoin B) → st_heap s !! 0 = None →
  (i + length B)%nat = length (c_hash_table (st_cache s)) →
  c_hash_table_size (st_cache s) = Z.of_nat (length (c_hash_table (st_cache s))) →
  (∀ h', heap_minus (st_heap s) (g_entry <$> mjoin B) h' →
     Q tt (mk_state
             (set_c_hash_table
                (take i (c_hash_table (st_cache s)) ++ replicate (length B) 0)
                (st_cache s))
             h' (st_brk s) (st_oracle s) (st_log s))) →
  wp (clear_buckets (length B) (Z.of_nat i)) s Q.
Proof.
  induction B as [|es B IH]; intros s i Q HB N2 H0 Hlen Hsz HQ.
  - simpl in *. wp_pure.
    specialize (HQ _ (heap_minus_nil _)).
    rewrite app_nil_r, take_ge in HQ by lia.
    destruct s as [[] ? ? ? ?]. exact HQ.
  - simpl in Hlen. simpl length. cbn [clear_buckets].
    destruct (HB 0%nat es eq_refl) as [HT Hch]. rewrite Nat.add_0_r in HT.
    simpl in N2. rewrite fmap_app in N2.
    apply NoDup_app in N2 as (N2a & N2b & N2c).
    wp_pure. unfold read_slot. wp_pure.
    destruct (Z.ltb_spec (Z.of_nat i) 0); [lia|].
    destruct (Z.leb_spec (c_hash_table_size (st_cache s)) (Z.of_nat i)); [lia|].
    simpl. rewrite Nat2Z.id, HT. wp_pure.
    eapply clear_chain_spec; [done|done|done| |].
    { rewrite <- (length_fmap g_entry). apply nodup_length_le_size; [done|].
      intros x (g & -> & Hg)%list_elem_of_fmap.
      destruct (cseg_entry_ok _ _ _ _ Hch Hg) as [? ->]. by eexists. }
    intros h1 [Hh1a Hh1b]. wp_pure. unfold write_slot. wp_pure. simpl.
    destruct (Z.ltb_spec (Z.of_nat i) 0); [lia|].
    destruct (Z.leb_spec (c_hash_table_size (st_cache s)) (Z.of_nat i)); [lia|].
    simpl. rewrite ?Nat2Z.id, HT. wp_pure. simpl.
    replace (Z.of_nat i + 1) with (Z.of_nat (S i)) by lia.
    eapply IH; simpl.
    + intros j es' Hj. destruct (HB (S j) es' Hj) as [HT' Hch'].
      split.
      * rewrite list_lookup_insert_ne by lia.
        by replace (S (i + j))%nat with (i + S j)%nat by lia.
      * eapply cseg_frame; [|done]. intros g Hg. apply Hh1b.
        intros Hin. apply (N2b _ Hin). apply list_elem_of_fmap_2.
        by eapply lookup_concat_elem.
    + done.
    + rewrite Hh1b; [done|]. intros (g & E & Hg)%list_elem_of_fmap.
      destruct (cseg_entry_ok _ _ _ _ Hch Hg) as [? Hx]. congruence.
    + rewrite length_insert. lia.
    + by rewrite length_insert.
    + intros h' Hh'.
      assert (heap_minus (st_heap s) (g_entry <$> mjoin (es :: B)) h') as Hm.
      { simpl. rewrite fmap_app. by eapply heap_minus_trans. }
      specialize (HQ _ Hm).
      assert (take (S i) (<[i:=0]> (c_hash_table (st_cache s))) ++
                replicate (length B) 0 =
              take i (c_hash_table (st_cache s)) ++ replicate (S (length B)) 0)
        as ->.
      { erewrite take_S_r; [|apply list_lookup_insert_eq; lia].
        rewrite take_insert_ge by lia. by rewrite <- app_assoc. }
      destruct s as [[] ? ? ? ?]. exact HQ.
Qed.

Lemma mjoin_replicate_nil {A} n : mjoin (replicate n ([] : list A)) = [].
Proof. induction n; simpl; [done|]. done. Qed.

Lemma lru_cache_clear_spec s G bs Q :
  Inv s G bs →
  (∀ s', Inv s' [] (replicate (length bs) []) → clear_rel s G s' → Q tt s') →
  wp lru_cache_clear s Q.
Proof.
  intros HI HQ.
  pose proof HI as [(Hd & Hhd & Htl) (T1 & T2 & T3 & T4) Hp Hbu N1 N2 N3
                      Hsz Hszlt Hcap Hcmp Hhp].
  pose proof (Inv_null _ _ _ HI) as H0.
  unfold lru_cache_clear. wp_pure. rewrite Hhd.
  eapply clear_nodes_spec; [done|done|done|done|done| |].
  { by eapply Inv_length_le. }
  intros h1 [Hh1a Hh1b]. wp_pure. simpl.
  assert (∀ g, g ∈ G → h1 !! g_entry g = st_heap s !! g_entry g) as Hfr1.
  { intros g Hg. apply Hh1b. intros Hin%node_cells_elem.
    assert (kind_at (st_heap s) (g_entry g) = Some KEntry) as Hk.
    { eapply Inv_kind_entry; [done|]. by apply list_elem_of_fmap_2. }
    destruct Hin as [Hin|Hin].
    - eapply Inv_kind_node in Hin; [|done]. congruence.
    - eapply Inv_kind_buf in Hin; [|done]. congruence. }
  assert (h1 !! 0 = None) as H01.
  { destruct (decide (0 ∈ node_cells G)); [by apply Hh1a|]. by rewrite Hh1b. }
  rewrite T1, Nat2Z.id, <- T3.
  eapply (clear_buckets_spec bs _ 0%nat); simpl.
  - intros j es Hj. destruct (T4 _ _ Hj) as (Ha & Hb & _). split; [done|].
    eapply cseg_frame; [|done]. intros g Hg. apply Hfr1.
    by eapply Inv_chain_elem.
  - rewrite Hp. done.
  - done.
  - done.
  - done.
  - intros h2 Hh2. wp_pure. simpl.
    assert (heap_minus (st_heap s) (owned G) h2) as Hm.
    { eapply heap_minus_perm; [|by eapply heap_minus_trans].
      intros q. rewrite elem_of_app, node_cells_elem, owned_cases.
      rewrite Hp. tauto. }
    set (st' := if c_track_stats (st_cache s) then
                  set_current_size 0 (c_stats (st_cache s))
                else c_stats (st_cache s)).
    set (c' := set_c_stats st'
                 (set_c_size 0 (set_c_tail 0 (set_c_head 0
                    (set_c_hash_table (replicate (length bs) 0) (st_cache s)))))).
    set (s' := mk_state c' h2 (st_brk s) (st_oracle s) (st_log s)).
    assert (Inv s' [] (replicate (length bs) [])) as HI'.
    { split; simpl; try done.
      - unfold table_ok, c'. simpl. rewrite !length_replicate.
        split_and!; try done; [congruence|].
        intros i es [-> Hi]%lookup_replicate. simpl.
        split_and!; try done. by rewrite lookup_replicate_2.
      - by rewrite mjoin_replicate_nil.
      - constructor.
      - constructor.
      - constructor.
      - destruct Hhp as [Hb Hh]. split; [done|]. simpl. intros q x Hq.
        destruct Hm as [Hm1 Hm2].
        destruct (decide (q ∈ owned G)) as [Hin|Hout].
        + rewrite Hm1 in Hq; done.
        + rewrite Hm2 in Hq by done. by eapply Hh. }
    assert (clear_rel s G s') as Hrel.
    { split; simpl; try done. split; simpl; try done.
      - lia.
      - by rewrite app_nil_r. }
    destruct (c_track_stats (st_cache s)) eqn:Htr; wp_pure; simpl;
      exact (HQ s' HI' Hrel).
Qed.
(** A lookup misses exactly when no entry of the bucket of the key matches
    it, whatever the order of the chains. *)
Lemma glookup_None_iff s G bs key :
  Inv s G bs →
  glookup (st_cache s) bs key = None ↔
  ∀ g, g ∈ G → bucket_of (st_cache s) (g_kb g) = bucket_of (st_cache s) key →
       kmatch (st_cache s) key (blen key) g = false.
Proof.
  intros HI. destruct (Inv_bucket _ _ _ key HI) as [Hr [es Hes]].
  destruct (inv_table _ _ _ HI) as (_ & _ & _ & Hbs).
  unfold glookup. rewrite Hes. split.
  - intros Hf%find_None_Forall g Hg Hb. rewrite Forall_forall in Hf. apply Hf.
    destruct (Inv_locate _ _ _ _ HI Hg) as (l1 & l2 & Hl).
    rewrite Hb, Hes in Hl. injection Hl as ->. set_solver.
  - intros H. destruct (find _ es) as [g|] eqn:Hf; [|done].
    apply find_Some_split in Hf as (l1 & l2 & -> & Hg & _).
    assert (g ∈ l1 ++ g :: l2) as Hin by set_solver.
    rewrite H in Hg; [done|by eapply Inv_chain_elem|].
    destruct (Hbs _ _ Hes) as (_ & _ & Hbk & _).
    rewrite Forall_forall in Hbk. rewrite (Hbk _ Hin). lia.
Qed.

Lemma glookup_None_sub s G bs s' G' bs' key :
  Inv s G bs → Inv s' G' bs' →
  (∀ g, g ∈ G' → g ∈ G) →
  c_hash_fn (st_cache s') = c_hash_fn (st_cache s) →
  c_hash_table_size (st_cache s') = c_hash_table_size (st_cache s) →
  c_compare_fn (st_cache s') = c_compare_fn (st_cache s) →
  glookup (st_cache s) bs key = None → glookup (st_cache s') bs' key = None.
Proof.
  intros HI HI' Hsub E1 E2 E3 H.
  apply (glookup_None_iff _ _ _ _ HI'). intros g Hg Hb.
  rewrite (kmatch_ext (st_cache s)) by done.
  apply (proj1 (glookup_None_iff _ _ _ _ HI) H); [by apply Hsub|].
  by rewrite <- !(bucket_of_ext (st_cache s) (st_cache s')).
Qed.

Lemma find_subst P g g' es :
  find P es = Some g → g_addr g = g_addr g' → P g' = true →
  find P (subst_g g' <$> es) = Some g'.
Proof.
  intros Hf Ha Hg'. induction es as [|x es IH]; [done|].
  rewrite fmap_cons. cbn [find] in *. unfold subst_g at 1 2.
  destruct (Z.eqb_spec (g_addr x) (g_addr g')) as [E|E].
  - by rewrite Hg'.
  - destruct (P x) eqn:Hx; [|by apply IH]. injection Hf as ->. congruence.
Qed.

Lemma glookup_subst c bs key g g' :
  glookup c bs key = Some g → g_addr g' = g_addr g → g_kb g' = g_kb g →
  glookup c (subst_bs g' bs) key = Some g'.
Proof.
  unfold glookup, subst_bs. intros H Ha Hk. rewrite list_lookup_fmap.
  destruct (bs !! _) as [es|]; [|done]. simpl.
  pose proof H as (l1 & l2 & _ & Hg & _)%find_Some_split.
  eapply find_subst; [done|done|]. unfold kmatch in *. by rewrite Hk.
Qed.

Lemma glookup_insert_head c bs key g es :
  cmp_ok (c_compare_fn c) →
  bs !! Z.to_nat (bucket_of c key) = Some es → g_kb g = key →
  glookup c (<[Z.to_nat (bucket_of c key) := g :: es]> bs) key = Some g.
Proof.
  intros [Hrefl _] Hes Hk. unfold glookup.
  rewrite list_lookup_insert_eq by (by eapply lookup_lt_Some). simpl.
  unfold kmatch. by rewrite Hk, Hrefl.
Qed.

Lemma oracle_tail_drop o : oracle_tail o = drop 1 o.
Proof. by destruct o. Qed.

Lemma oracle_head_false o : oracle_head o = false → false ∈ o.
Proof. destruct o as [|[] o]; simpl; try done. intros _. left. Qed.

Lemma oracle_tail_elem b o : b ∈ oracle_tail o → b ∈ o.
Proof. destruct o; simpl; [done|]. by right. Qed.

Lemma put_insert_spec s G bs g0 Q :
  Inv s G bs → g_entry g0 = 0 →
  st_heap s !! g_addr g0 = Some (CNode (gnode_cell g0 0 0)) →
  bufs_ok (st_heap s) g0 → g_key g0 ≠ g_val g0 →
  g_addr g0 ∉ owned G → g_key g0 ∉ owned G → g_val g0 ∉ owned G →
  glookup (st_cache s) bs (g_kb g0) = None →
  c_size (st_cache s) + 1 < 2 ^ 64 →
  (oracle_head (st_oracle s) = false →
   Q LRU_ERROR_NOMEM
     (mk_state (st_cache s)
        (delete (g_addr g0) (delete (g_val g0) (delete (g_key g0) (st_heap s))))
        (st_brk s) (oracle_tail (st_oracle s)) (st_log s))) →
  (oracle_head (st_oracle s) = true → ∀ c' h' bs',
     Inv (mk_state c' h' (st_brk s + 1) (oracle_tail (st_oracle s)) (st_log s))
       (with_entry (st_brk s) g0 :: G) bs' →
     same_config (st_cache s) c' →
     c_size c' = c_size (st_cache s) + 1 →
     c_stats c' =
       (if c_track_stats (st_cache s) then
          count_insertion (c_size (st_cache s) + 1) (c_stats (st_cache s))
        else c_stats (st_cache s)) →
     (∀ q, q ∉ g_addr <$> (g0 :: G) → q ≠ st_brk s →
           h' !! q = st_heap s !! q) →
     glookup c' bs' (g_kb g0) = Some (with_entry (st_brk s) g0) →
     Q LRU_SUCCESS
       (mk_state c' h' (st_brk s + 1) (oracle_tail (st_oracle s)) (st_log s))) →
  wp (put_insert (g_addr g0)) s Q.
Proof.
  intros HI He Hn [Hk Hv] Hkv Ho1 Ho2 Ho3 Hlook Hszlt Hfail Hok.
  pose proof HI as [(Hd & Hhd & Htl) Ht Hp Hbu N1 N2 N3 Hsz _ Hcap Hcmp Hhp].
  pose proof (Inv_null _ _ _ HI) as H0.
  pose proof (Inv_fresh _ _ _ HI) as Hfresh.
  destruct (Inv_bucket _ _ _ (g_kb g0) HI) as [Hr [es Hes]].
  assert (Forall (λ x, kmatch (st_cache s) (g_kb g0) (blen (g_kb g0)) x = false) es)
    as Hmiss.
  { unfold glookup in Hlook. rewrite Hes in Hlook. by apply find_None_Forall. }
  unfold put_insert. wp_pure.
  eapply add_to_hash_table_spec; [done..| |]; intros Ho.
  - simpl. wp_pure.
    eapply destroy_node_spec; [done|done|done|done|]. wp_pure. by apply Hfail.
  - intros b g c1 h1 Htab. simpl. wp_pure.
    assert (st_brk s ∉ owned G) as Hbo.
    { intros Hin. apply (Inv_owned_lt _ _ _ _ HI) in Hin. lia. }
    assert (g_addr g0 ≠ st_brk s) as Hab by congruence.
    assert (g_key g0 ≠ st_brk s) as Hkb by congruence.
    assert (g_val g0 ≠ st_brk s) as Hvb by congruence.
    assert (g_key g0 ≠ g_addr g0) as Hka by congruence.
    assert (g_val g0 ≠ g_addr g0) as Hva by congruence.
    assert (∀ q, q ∈ owned G → h1 !! q = st_heap s !! q) as Hf1.
    { intros q Hq. unfold h1. rewrite !lookup_insert_ne; [done|..]; congruence. }
    assert (NoDup (g_addr <$> g :: G)) as N1'.
    { rewrite fmap_cons. apply NoDup_cons. split; [|done].
      intros Hin. apply Ho1, owned_cases. by left. }
    eapply (add_to_front_spec _ G g 0 0).
    + split_and!; simpl; try done.
      eapply dseg_frame; [|done]. intros x Hx. apply Hf1.
      apply owned_cases. left. by apply list_elem_of_fmap_2.
    + simpl. unfold h1. by rewrite lookup_insert_eq.
    + done.
    + simpl. unfold h1. pose proof (proj1 Hhp).
      rewrite !lookup_insert_ne; [done|..]; first [congruence|lia].
    + intros h2 Hd2 Hf2 Hdom2.
      cbn [st_heap st_cache st_brk st_oracle st_log] in *. wp_pure. simpl.
      assert (wrap64 (c_size (st_cache s) + 1) = c_size (st_cache s) + 1) as Hw
        by (apply wrap64_small; lia).
      rewrite Hw.
      set (st' := if c_track_stats (st_cache s) then
                    count_insertion (c_size (st_cache s) + 1) (c_stats (st_cache s))
                  else c_stats (st_cache s)).
      set (c5 := set_c_stats st'
                   (set_c_size (c_size (st_cache s) + 1)
                      (set_c_tail (addr_last G (g_addr g0))
                         (set_c_head (g_addr g0) c1)))).
      set (bs' := <[b := g :: es]> bs).
      assert (∀ q, q ∉ g_addr <$> g0 :: G → q ≠ st_brk s →
                h2 !! q = st_heap s !! q) as Hf2'.
      { intros q Hq Hqb. rewrite Hf2 by done. unfold h1.
        rewrite !lookup_insert_ne; [done|congruence|].
        intros <-. apply Hq. left. }
      assert (∀ q, q ∈ (g_entry <$> G) ++ (g_key <$> G) ++ (g_val <$> G) →
                h2 !! q = st_heap s !! q) as Hf3.
      { intros q Hq.
        assert (q ∈ owned G) as Hqo by (unfold owned; set_solver).
        apply Hf2'; [|congruence].
        rewrite fmap_cons. intros [->|Hin]%elem_of_cons; [done|].
        pose proof (Inv_kind_node _ _ _ _ HI Hin) as K1.
        rewrite !elem_of_app in Hq. destruct Hq as [Hq|Hq].
        - pose proof (Inv_kind_entry _ _ _ _ HI Hq). congruence.
        - rewrite <- elem_of_app in Hq.
          pose proof (Inv_kind_buf _ _ _ _ HI Hq). congruence. }
      assert (Inv (mk_state c5 h2 (st_brk s + 1) (oracle_tail (st_oracle s)) (st_log s))
                (g :: G) bs') as HI'.
      { destruct (mjoin_lookup_perm _ _ _ Hes) as (R & HR1 & HR2).
        split; cbn [st_heap st_cache st_brk st_oracle st_log]; try done.
        - eapply table_ok_ext; [..|exact Htab]; try done.
          intros x Hx. unfold bs', b in Hx. rewrite HR2 in Hx.
          assert (x = g ∨ x ∈ G) as [->|HxG].
          { rewrite <- Hp, HR1. clear -Hx. set_solver. }
          + simpl. rewrite Hf2; [done|].
            rewrite fmap_cons. simpl. intros [?|Hin]%elem_of_cons; [done|].
            apply Hbo, owned_cases. by left.
          + rewrite Hf2; [done|].
            rewrite fmap_cons. simpl. intros [E|Hin]%elem_of_cons.
            * apply Ho1. rewrite <- E. apply owned_cases. right. left.
              by apply list_elem_of_fmap_2.
            * pose proof (Inv_kind_node _ _ _ _ HI Hin) as K1.
              assert (g_entry x ∈ g_entry <$> G) as Hin2
                by (by apply list_elem_of_fmap_2).
              pose proof (Inv_kind_entry _ _ _ _ HI Hin2). congruence.
        - unfold bs', b. rewrite HR2. rewrite <- Hp, HR1. solve_Permutation.
        - constructor.
          + split; simpl; rewrite Hf2'; try done; rewrite fmap_cons;
              intros [?|Hin]%elem_of_cons; try done;
              [apply Ho2|apply Ho3]; apply owned_cases; by left.
          + apply Forall_forall. intros x Hx.
            destruct (Inv_bufs_ok _ _ _ _ HI Hx) as [B1 B2].
            split; (rewrite Hf3; [done|]); rewrite !elem_of_app;
              right; [left|right]; by apply list_elem_of_fmap_2.
        - rewrite fmap_cons. apply NoDup_cons. split; [|done].
          simpl. intros Hin. apply Hbo, owned_cases. right. by left.
        - rewrite !fmap_cons. simpl.
          assert (g_key g0 ∉ (g_key <$> G) ++ (g_val <$> G)) as X1.
          { intros Hin. apply Ho2, owned_cases. by right; right. }
          assert (g_val g0 ∉ (g_key <$> G) ++ (g_val <$> G)) as X2.
          { intros Hin. apply Ho3, owned_cases. by right; right. }
          clear -N3 X1 X2 Hkv. rewrite elem_of_app in X1, X2.
          apply NoDup_cons. split.
          + rewrite elem_of_app, elem_of_cons. tauto.
          + rewrite <- Permutation_middle. apply NoDup_cons. split; [|done].
            rewrite elem_of_app. tauto.
        - simpl. rewrite Hsz. lia.
        - destruct Hhp as [Hb Hh]. split; simpl; [lia|]. intros q x Hq.
          assert (q ∈ dom h2) as Hqd by (apply elem_of_dom; eauto).
          rewrite Hdom2 in Hqd. unfold h1 in Hqd.
          rewrite !dom_insert_L in Hqd.
          apply elem_of_union in Hqd as [Hqd|Hqd];
            [apply elem_of_singleton in Hqd as ->|].
          { apply Hh in Hn. lia. }
          apply elem_of_union in Hqd as [Hqd|Hqd];
            [apply elem_of_singleton in Hqd as ->; lia|].
          apply elem_of_dom in Hqd as [y Hy]. apply Hh in Hy. lia. }
      assert (glookup c5 bs' (g_kb g0) = Some g) as Hlook'.
      { unfold bs', b.
        change (bucket_of (st_cache s) (g_kb g0)) with (bucket_of c5 (g_kb g0)).
        apply glookup_insert_head; [done| |done].
        by change (bucket_of c5 (g_kb g0)) with (bucket_of (st_cache s) (g_kb g0)). }
      assert (same_config (st_cache s) c5) as Hcfg by (by repeat split).
      destruct (c_track_stats (st_cache s)) eqn:Htr; wp_pure; simpl.
      * unfold count_insertion in st'. simpl in st'.
        destruct (peak_size (c_stats (st_cache s)) <? c_size (st_cache s) + 1)
          eqn:Hpk; wp_pure; simpl;
          (eapply (Hok Ho c5 h2 bs'); [exact HI'|done|done| |done|done]);
          unfold count_insertion; simpl; by rewrite Hpk.
      * eapply (Hok Ho c5 h2 bs'); [exact HI'|done|done| |done|done].
        done.
Qed.
Lemma no_coll_cong (f : lru_stats_t → lru_stats_t) t t' :
  (∀ t col, f (set_collisions col t) = set_collisions col (f t)) →
  no_coll t = no_coll t' → no_coll (f t) = no_coll (f t').
Proof.
  intros Hf Hnc.
  assert (t = set_collisions (collisions t) t') as ->.
  { unfold no_coll in Hnc. destruct t, t'. simpl in *.
    by injection Hnc as -> -> -> -> -> -> ->. }
  rewrite Hf. unfold no_coll. by destruct (f t').
Qed.

Lemma count_insertion_coll n col t :
  count_insertion n (set_collisions col t) = set_collisions col (count_insertion n t).
Proof.
  destruct t. unfold count_insertion. simpl. by destruct (_ <? _).
Qed.

Lemma iter_count_eviction_coll n col t :
  Nat.iter n count_eviction (set_collisions col t) =
  set_collisions col (Nat.iter n count_eviction t).
Proof.
  induction n as [|n IH]; simpl; [done|]. by rewrite IH, count_eviction_coll.
Qed.

Lemma evicted_all_nil s G : evicted_all s G [] s.
Proof.
  split; simpl; rewrite ?app_nil_r, ?Z.sub_0_r; try done.
  - by destruct (c_track_stats _).
  - by intros q ?%elem_of_nil.
Qed.

Lemma evicted_all_one s G t s' : evicted s G t s' → evicted_all s G [t] s'.
Proof.
  intros [Hc Hs Hst Hb Ho Hl Hf Hfr]. split; simpl; try done.
  - by rewrite app_nil_r.
  - intros q Hq. apply Hfr. by apply owned_single.
Qed.

Lemma evict_logs_ext c c' (E : list gnode) :
  c_eviction_fn c' = c_eviction_fn c →
  c_eviction_user_data c' = c_eviction_user_data c →
  E ≫= evict_log c' = E ≫= evict_log c.
Proof.
  intros E1 E2. induction E as [|x l IHl]; [done|].
  rewrite !bind_cons, IHl. f_equal. by apply evict_log_ext.
Qed.

Lemma oracle_tail3_drop o :
  oracle_tail (oracle_tail (oracle_tail (oracle_tail o))) = drop 4 o.
Proof. by destruct o as [|? [|? [|? [|? ?]]]]. Qed.

Lemma glookup_cfg c c' bs key :
  c_hash_fn c' = c_hash_fn c →
  c_hash_table_size c' = c_hash_table_size c →
  c_compare_fn c' = c_compare_fn c →
  glookup c' bs key = glookup c bs key.
Proof.
  intros E1 E2 E3. unfold glookup. rewrite (bucket_of_ext c c') by done.
  destruct (bs !! _); [|done]. apply find_ext'. intros x.
  by apply kmatch_ext.
Qed.

(** The update branch of [lru_cache_put]. *)
Lemma put_update_spec s Ga g Gb bs key value k Q :
  Inv s (Ga ++ g :: Gb) bs → 0 < blen value →
  glookup (st_cache s) bs key = Some g →
  (∀ r s' G' bs', Inv s' G' bs' →
     put_rel s (Ga ++ g :: Gb) bs key value r s' G' bs' → Q r s') →
  wp (new_value ← default_copy value (blen value);
      if new_value =? 0 then mret LRU_ERROR_NOMEM
      else
        nd ← load_node (g_addr g);
        default_destroy (n_value nd);;
        modify_node (g_addr g) (set_n_value new_value);;
        modify_node (g_addr g) (set_n_value_size (blen value));;
        move_to_front (g_addr g);;
        mret LRU_SUCCESS) (add_coll k s) Q.
Proof.
  intros HI Hval Hlook HQ.
  pose proof (Inv_add_coll k _ _ _ HI) as HIk.
  pose proof (shape_eq_iter_bump k (st_cache s)) as Hsh.
  assert (g ∈ Ga ++ g :: Gb) as Hg by set_solver.
  pose proof (inv_list _ _ _ HI) as (Hd & _ & _).
  pose proof (dseg_mid _ _ _ _ _ _ Hd) as Hn.
  destruct (Inv_bufs_ok _ _ _ _ HI Hg) as [Hk1 Hv1].
  pose proof (Inv_null _ _ _ HI) as H0.
  pose proof (Inv_fresh _ _ _ HI) as Hfr.
  assert (st_brk s ≠ 0) as Hb0 by (destruct (inv_heap _ _ _ HI); lia).
  assert (st_brk s ≠ g_addr g) as Hbg by congruence.
  assert (st_brk s ≠ g_val g) as Hbv by congruence.
  assert (g_val g ≠ g_addr g) as Hva by congruence.
  assert (g_val g ≠ 0) as Hv0 by congruence.
  assert (st_brk s ∉ owned (Ga ++ g :: Gb)) as Hown.
  { intros Hin. apply (Inv_owned_lt _ _ _ _ HI) in Hin. lia. }
  wp_pure. apply wp_default_copy; [unfold blen; lia|..];
    unfold add_coll; simpl; intros Ho.
  - rewrite take_blen.
    pose proof (Inv_alloc _ _ _ (CBuf value) (oracle_tail (st_oracle s))
                  (st_log s) HIk) as HI2.
    unfold add_coll in HI2. simpl in HI2.
    destruct (Z.eqb_spec (st_brk s) 0) as [?|_]; [done|].
    wp_pure. eapply wp_load_node; [hl|]. wp_pure. simpl.
    unfold default_destroy. eapply wp_free; [hl|done|]. wp_pure. simpl.
    eapply wp_modify_node; [hl|]. wp_pure. simpl.
    eapply wp_modify_node; [hl|]. wp_pure. simpl.
    rewrite insert_insert_eq.
    set (g' := with_value (st_brk s) value g).
    pose proof (Inv_set_value _ Ga g Gb bs (st_brk s) value HI2) as HI3.
    simpl in HI3. rewrite lookup_insert_eq in HI3.
    specialize (HI3 eq_refl Hown). fold g' in HI3.
    eapply (Inv_move_to_front _ Ga g' Gb); [exact HI3|].
    intros h' c' HI4 Hf4 Hdom4. subst c'. simpl in *. wp_pure.
    eapply HQ; [exact HI4|].
    apply put_updated; simpl; try done.
    + cu_split Hsh. rewrite (no_coll_iter_bump k).
      by destruct (c_track_stats (st_cache s)).
    + fold g'.
      pose proof (shape_eq_fields _ _ Hsh)
        as (F1 & F2 & F3 & F4 & F5 & F6 & F7 & F8 & F9 & F10 & F11 & F12).
      rewrite (glookup_cfg (st_cache s)) by done.
      by apply (glookup_subst _ _ _ g).
  - wp_pure. eapply HQ.
    + eapply Inv_env in HIk; [exact HIk|simpl; lia].
    + eapply put_update_nomem; simpl; try done.
      cu_split Hsh. rewrite (no_coll_iter_bump k).
      by destruct (c_track_stats (st_cache s)).
Qed.

(** The end of [lru_cache_put] for a new key, once the node is built and
    the entries [E] have made room for it. *)
Lemma put_new_tail s G bs key value k sX GX bsX E Q :
  let a := st_brk s in
  let o3 := oracle_tail (oracle_tail (oracle_tail (st_oracle s))) in
  let g0 := mk_gnode a (a + 1) key (a + 2) value 0 in
  let h2 := <[a := CNode (gnode_cell g0 0 0)]>
              (<[a + 2 := CBuf value]> (<[a + 1 := CBuf key]> (st_heap s))) in
  let s2 := mk_state (Nat.iter k bump (st_cache s)) h2 (a + 3) o3 (st_log s) in
  Inv s G bs → glookup (st_cache s) bs key = None →
  Inv s2 G bs →
  Inv sX GX bsX → G = GX ++ E → evicts s E → evicted_all s2 G E sX →
  (∀ r s' G' bs', Inv s' G' bs' → put_rel s G bs key value r s' G' bs' → Q r s') →
  wp (put_insert a) sX Q.
Proof.
  intros a o3 g0 h2 s2 HI Hlook HI2 HIX HG Hev
    [(C1 & C2 & C3 & C4 & C5 & C6 & C7 & C8) Es Est Eb Eo El Ef Efr] HQ.
  unfold s2 in *. cbn [st_heap st_cache st_brk st_oracle st_log] in *.
  pose proof (shape_eq_iter_bump k (st_cache s)) as Hsh.
  pose proof (shape_eq_fields _ _ Hsh)
    as (F1 & F2 & F3 & F4 & F5 & F6 & F7 & F8 & F9 & F10 & F11 & F12).
  pose proof (inv_size_lt _ _ _ HI) as Hszlt.
  pose proof (inv_cap _ _ _ HI) as Hcap.
  assert (∀ q, q ∈ owned G → 0 < q < a) as Hlt
    by (intros q Hq; by apply (Inv_owned_lt _ _ _ _ HI)).
  assert (∀ q, q ∈ owned GX → q ∈ owned G) as Hsub.
  { intros q Hq. rewrite HG. apply owned_app. by left. }
  assert (∀ q, a ≤ q → q ∉ owned G) as Hge.
  { intros q Hq Hin. apply Hlt in Hin. lia. }
  assert (0 < a) as Ha by (destruct (inv_heap _ _ _ HI); done).
  assert (st_heap sX !! a = Some (CNode (gnode_cell g0 0 0))) as Hn.
  { rewrite Ef by (apply Hge; lia). unfold h2. by rewrite lookup_insert_eq. }
  assert (st_heap sX !! (a + 1) = Some (CBuf key)) as Hk.
  { rewrite Ef by (apply Hge; lia). unfold h2.
    rewrite !lookup_insert_ne by lia. by rewrite lookup_insert_eq. }
  assert (st_heap sX !! (a + 2) = Some (CBuf value)) as Hv.
  { rewrite Ef by (apply Hge; lia). unfold h2.
    rewrite lookup_insert_ne by lia. by rewrite lookup_insert_eq. }
  assert (c_size (st_cache sX) + 1 < 2 ^ 64) as HszX.
  { rewrite Es, F2. destruct Hev as [[-> ?]|[? [t ->]]]; simpl; lia. }
  assert (glookup (st_cache sX) bsX key = None) as HlookX.
  { eapply (glookup_None_sub s G bs); [done|done| |congruence..|done].
    intros g Hg. rewrite HG. set_solver. }
  assert (E ≫= evict_log (Nat.iter k bump (st_cache s)) =
          E ≫= evict_log (st_cache s)) as Hlog
    by (by apply evict_logs_ext).
  assert (same_config (st_cache s) (st_cache sX)) as Hcfg.
  { repeat split; congruence. }
  assert (no_coll (c_stats (st_cache sX)) =
          no_coll (if c_track_stats (st_cache s) then
                     Nat.iter (length E) count_eviction (c_stats (st_cache s))
                   else c_stats (st_cache s))) as HstX.
  { rewrite Est, F12.
    destruct (c_track_stats (st_cache s)); [|apply no_coll_iter_bump].
    apply no_coll_cong; [intros; apply iter_count_eviction_coll|].
    apply no_coll_iter_bump. }
  apply (put_insert_spec sX GX bsX g0); simpl; try done;
    try (intros Hin%Hsub; apply Hlt in Hin; lia); try lia.
  - (* the chain cell cannot be allocated *)
    intros Ho. rewrite Eo in Ho.
    set (sN := mk_state (st_cache sX)
                 (delete a (delete (a + 2) (delete (a + 1) (st_heap sX))))
                 (st_brk sX) (oracle_tail (st_oracle sX)) (st_log sX)).
    assert (Inv sN GX bsX) as HIN.
    { eapply Inv_frame; [exact HIX|apply shape_eq_refl| |].
      - intros q Hq. unfold sN. simpl. apply Hsub, Hlt in Hq.
        rewrite !lookup_delete_ne; [done|lia..].
      - destruct (inv_heap _ _ _ HIX) as [Hb Hh]. split; [done|].
        unfold sN. simpl. intros q x Hq.
        apply lookup_delete_Some in Hq as [_ Hq].
        apply lookup_delete_Some in Hq as [_ Hq].
        apply lookup_delete_Some in Hq as [_ Hq]. by eapply Hh. }
    eapply HQ; [exact HIN|].
    eapply put_insert_nomem; unfold sN; simpl; try done.
    + do 3 apply oracle_tail_elem. by apply oracle_head_false.
    + split; simpl; try done.
      * rewrite Es, F2. lia.
      * by rewrite El, Hlog.
      * lia.
    + intros q Hq. rewrite !lookup_delete_None. right. right. right.
      by apply Efr.
    + rewrite Eo. apply oracle_tail3_drop.
  - (* the entry is inserted *)
    intros Ho c' h' bs' HI' (D1 & D2 & D3 & D4 & D5 & D6 & D7 & D8) Hsz' Hst'
      Hf' Hlook'.
    eapply HQ; [exact HI'|].
    eapply (put_inserted _ _ _ _ _ _ _ GX E); simpl; try done.
    + split; simpl; try done.
      * repeat split; congruence.
      * rewrite Hsz', Es, F2. lia.
      * rewrite Hst', C8, F12.
        destruct (c_track_stats (st_cache s)); [|done].
        replace (c_size (st_cache sX) + 1)
          with (c_size (st_cache s) - Z.of_nat (length E) + 1)
          by (rewrite Es, F2; lia).
        apply no_coll_cong; [intros; apply count_insertion_coll|done].
      * by rewrite El, Hlog.
      * lia.
    + intros q Hq.
      assert (q ∈ owned G) as HqG by (rewrite HG; apply owned_app; by right).
      pose proof (Hlt _ HqG).
      rewrite Hf'; [by apply Efr| |lia].
      intros [?|Hin]%elem_of_cons; [lia|]. fmap_fold.
      eapply (Inv_unowned_dead _ _ _ q HIX); [by apply Efr|].
      apply owned_cases. by left.
    + rewrite Eo. apply oracle_tail3_drop.
Qed.

Lemma lru_cache_put_spec s G bs key value Q :
  Inv s G bs → 0 < blen key → 0 < blen value →
  (∀ r s' G' bs', Inv s' G' bs' → put_rel s G bs key value r s' G' bs' → Q r s') →
  wp (lru_cache_put (Some key) (blen key) (Some value) (blen value)) s Q.
Proof.
  intros HI Hkey Hval HQ. unfold lru_cache_put.
  destruct (Z.eqb_spec (blen key) 0) as [?|_]; [lia|].
  destruct (Z.eqb_spec (blen value) 0) as [?|_]; [lia|].
  simpl. wp_pure. eapply find_spec; [done|]. intros k sl. simpl.
  pose proof (Inv_add_coll k _ _ _ HI) as HIk.
  pose proof (shape_eq_iter_bump k (st_cache s)) as Hsh.
  pose proof (shape_eq_fields _ _ Hsh)
    as (F1 & F2 & F3 & F4 & F5 & F6 & F7 & F8 & F9 & F10 & F11 & F12).
  destruct (glookup (st_cache s) bs key) as [g|] eqn:Hlook.
  - destruct (glookup_Some _ _ _ _ _ HI Hlook) as (Hg & Hm & Hbk).
    destruct (Inv_node_ok _ _ _ _ HI Hg) as (p & n & Hn).
    assert (g_addr g ≠ 0) as Hz.
    { pose proof (Inv_null _ _ _ HI). congruence. }
    destruct (Z.eqb_spec (g_addr g) 0) as [?|_]; [done|]. simpl.
    apply list_elem_of_split in Hg as (Ga & Gb & ->).
    by eapply put_update_spec.
  - simpl.
    assert (∀ b o, st_brk s ≤ b →
              Inv (mk_state (Nat.iter k bump (st_cache s)) (st_heap s) b o
                     (st_log s)) G bs) as HIe.
    { intros b o Hb. eapply Inv_env in HIk; [exact HIk|done]. }
    assert (∀ b o, st_brk s ≤ b →
              cache_upd s
                (mk_state (Nat.iter k bump (st_cache s)) (st_heap s) b o
                   (st_log s)) id 0 []) as Hcu.
    { intros b o Hb. cu_split Hsh. rewrite (no_coll_iter_bump k).
      by destruct (c_track_stats (st_cache s)). }
    pose proof (inv_heap _ _ _ HI) as [Hbpos Hhp].
    apply wp_bind.
    eapply create_node_spec; [apply HIk|..]; unfold add_coll; simpl.
    + intros Ho. wp_pure.
      eapply HQ; [apply HIe; lia|].
      eapply (put_create_nomem _ _ _ _ _ _ 1%nat); simpl; try done;
        first [by apply oracle_head_false | apply Hcu; lia].
    + intros Ho1 Ho2. wp_pure.
      eapply HQ; [apply HIe; lia|].
      eapply (put_create_nomem _ _ _ _ _ _ 2%nat); simpl; try done;
        first [ by apply oracle_tail_elem, oracle_head_false
              | apply Hcu; lia
              | by destruct (st_oracle s) as [|? [|? ?]] ].
    + intros Ho1 Ho2 Ho3. wp_pure.
      eapply HQ; [apply HIe; lia|].
      eapply (put_create_nomem _ _ _ _ _ _ 3%nat); simpl; try done;
        first [ by do 2 apply oracle_tail_elem; apply oracle_head_false
              | apply Hcu; lia
              | by destruct (st_oracle s) as [|? [|? [|? ?]]] ].
    + intros Ho1 Ho2 Ho3.
      destruct (Z.eqb_spec (st_brk s) 0) as [?|_]; [lia|]. simpl.
      set (a := st_brk s).
      set (g0 := mk_gnode a (a + 1) key (a + 2) value 0).
      set (h2 := <[a := CNode (gnode_cell g0 0 0)]>
                   (<[a + 2 := CBuf value]> (<[a + 1 := CBuf key]> (st_heap s)))).
      set (o3 := oracle_tail (oracle_tail (oracle_tail (st_oracle s)))).
      set (s2 := mk_state (Nat.iter k bump (st_cache s)) h2 (a + 3) o3 (st_log s)).
      assert (Inv s2 G bs) as HI2.
      { eapply Inv_frame; [exact HIk|apply shape_eq_refl| |].
        - intros q Hq. apply (Inv_owned_lt _ _ _ _ HI) in Hq.
          unfold s2, h2, add_coll. simpl.
          rewrite !lookup_insert_ne; [done|unfold a; lia..].
        - split; unfold s2; simpl; [unfold a; lia|].
          intros q x. unfold h2.
          rewrite !lookup_insert_Some. intros [[<- _]|[_ [[<- _]|[_ [[<- _]|[_ Hq]]]]]];
            try (unfold a; lia).
          apply Hhp in Hq. unfold a. lia. }
      pose proof (inv_size _ _ _ HI) as Hsz.
      pose proof (inv_cap _ _ _ HI) as Hcap.
      wp_pure. change (st_cache s2) with (Nat.iter k bump (st_cache s)).
      rewrite F1, F2.
      destruct (Z.leb_spec (c_capacity (st_cache s)) (c_size (st_cache s))) as [Hfull|Hroom].
      * (* the cache is full: evict the tail *)
        destruct G as [|x G1 _] using rev_ind; [simpl in Hsz; lia|].
        rename G1 into G0, x into t.
        wp_pure. eapply (evict_lru_spec s2 G0 t bs); [exact HI2|].
        intros s3 bs3 HI3 Hev. simpl.
        eapply (put_new_tail s (G0 ++ [t]) bs key value k s3 G0 bs3 [t]); try done.
        -- right. split; [done|by exists t].
        -- by apply evicted_all_one.
      * eapply (put_new_tail s G bs key value k s2 G bs []); try done.
        -- by rewrite app_nil_r.
        -- by left.
        -- apply evicted_all_nil.
Qed.
Lemma state_same s : set_st_cache (st_cache s) s = s.
Proof. by destruct s. Qed.

Lemma exec_spec s G bs o Q :
  Inv s G bs → c_size (st_cache s) ≤ c_capacity (st_cache s) →
  op_ok o = true →
  (∀ r s' G' bs', Inv s' G' bs' →
     c_size (st_cache s') ≤ c_capacity (st_cache s') →
     step_rel s G bs o r s' G' bs' → Q r s') →
  wp (exec o) s Q.
Proof.
  intros HI Hle Hok HQ.
  pose proof (inv_cap _ _ _ HI) as Hcap.
  destruct o as [key value|key|key|key|key| |n|fn ud| ]; simpl; wp_pure.
  - (* put *)
    destruct (decide (0 < blen key ∧ 0 < blen value)) as [[Hk Hv]|Hn].
    + eapply lru_cache_put_spec; [done..|].
      intros r s' G' bs' HI' Hrel. wp_pure.
      eapply HQ; [exact HI'| |by constructor].
      destruct Hrel as [s' Ga g Gb _ _ _ [(C1 & _) Hs _ _ _] _ _
                       |s' g _ _ [(C1 & _) Hs _ _ _] _ _
                       |s' n _ _ [(C1 & _) Hs _ _ _] _ _
                       |s' bs' Gk E g _ _ Hev _ _ [(C1 & _) Hs _ _ _] _ _ _
                       |s' bs' Gk E _ _ Hev _ [(C1 & _) Hs _ _ _] _ _];
        rewrite C1, Hs; try lia;
        destruct Hev as [[-> ?]|[? [t ->]]]; simpl; lia.
    + assert (blen key = 0 ∨ blen value = 0) as Hz by (unfold blen in *; lia).
      unfold lru_cache_put.
      assert ((blen key =? 0) || (blen value =? 0) = true) as ->.
      { destruct Hz as [-> | ->]; [done|]. by rewrite orb_true_r. }
      wp_pure. eapply HQ; [done|done|by constructor].
  - (* get *)
    destruct (decide (0 < blen key)) as [Hk|Hn].
    + eapply lru_cache_get_spec; [done..|].
      intros r out s' G' HI' Hrel. wp_pure. simpl.
      eapply HQ; [exact HI'| |by constructor].
      destruct Hrel as [s' _ [(C1 & _) Hs _ _ _] _ _
                       |s' Ga g Gb _ _ _ [(C1 & _) Hs _ _ _] _ _ _
                       |s' Ga g Gb _ _ _ [(C1 & _) Hs _ _ _] _];
        rewrite C1, Hs; lia.
    + assert (blen key = 0) as Hz by (unfold blen in *; lia).
      unfold lru_cache_get. rewrite Hz. simpl. wp_pure. simpl.
      eapply HQ; [done|done|by constructor].
  - (* peek *)
    destruct (decide (0 < blen key)) as [Hk|Hn].
    + eapply lru_cache_peek_spec; [done..|].
      intros r out s' HI' Hrel. wp_pure. simpl.
      eapply HQ; [exact HI'| |by constructor].
      destruct Hrel as [s' _ [(C1 & _) Hs _ _ _] _ _
                       |s' g _ _ [(C1 & _) Hs _ _ _] _ _ _
                       |s' g _ _ [(C1 & _) Hs _ _ _] _ _];
        rewrite C1, Hs; lia.
    + assert (blen key = 0) as Hz by (unfold blen in *; lia).
      unfold lru_cache_peek. rewrite Hz. simpl. wp_pure. simpl.
      eapply HQ; [done|done|by constructor].
  - (* delete *)
    destruct (decide (0 < blen key)) as [Hk|Hn].
    + eapply lru_cache_delete_spec; [done..|].
      intros r s' G' bs' HI' Hrel. wp_pure.
      eapply HQ; [exact HI'| |by constructor].
      destruct Hrel as [s' _ [(C1 & _) Hs _ _ _] _ _
                       |s' Ga g Gb _ _ [(C1 & _) Hs _ _ _] _ _ _];
        rewrite C1, Hs; lia.
    + assert (blen key = 0) as Hz by (unfold blen in *; lia).
      unfold lru_cache_delete. rewrite Hz. simpl. wp_pure.
      eapply HQ; [done|done|by constructor].
  - (* contains *)
    destruct (decide (0 < blen key)) as [Hk|Hn].
    + eapply lru_cache_contains_spec; [done..|].
      intros b s' HI' Hrel. wp_pure.
      eapply HQ; [exact HI'| |by constructor].
      destruct Hrel as (_ & [(C1 & _) Hs _ _ _] & _). rewrite C1, Hs. lia.
    + assert (blen key = 0) as Hz by (unfold blen in *; lia).
      unfold lru_cache_contains. rewrite Hz. simpl. wp_pure.
      eapply HQ; [done|done|by constructor].
  - (* clear *)
    eapply lru_cache_clear_spec; [done|].
    intros s' HI' Hrel. wp_pure.
    eapply HQ; [exact HI'| |by constructor].
    destruct Hrel as [[(C1 & _) Hs _ _ _] _ _]. rewrite C1, Hs. lia.
  - (* resize *)
    simpl in Hok. apply Z.ltb_lt in Hok.
    eapply lru_cache_resize_spec; [done..|].
    intros r s' G' bs' HI' Hsz Hrel. wp_pure.
    eapply HQ; [exact HI'| |by constructor].
    destruct Hsz as [?| ->]; [done|]. by inversion Hrel; subst.
  - (* eviction callback *)
    unfold lru_cache_set_eviction_callback. wp_pure. simpl.
    eapply HQ; [|done|constructor].
    eapply Inv_config; [exact HI|..]; simpl; done.
  - (* statistics reset *)
    unfold lru_cache_reset_stats. wp_pure.
    destruct (c_track_stats (st_cache s)) eqn:Htr; simpl; wp_pure; simpl.
    + pose proof (step_reset_stats s G bs) as Hst. rewrite Htr in Hst.
      eapply HQ; [|done|exact Hst].
      eapply Inv_config; [exact HI|..]; simpl; done.
    + pose proof (step_reset_stats s G bs) as Hst. rewrite Htr in Hst.
      rewrite state_same in Hst. by eapply HQ.
Qed.
Lemma calculate_hash_table_size_smear c :
  calculate_hash_table_size c =
  wrap64 (smear (wrap64 (div_load_factor c - 1)) + 1).
Proof. done. Qed.

Lemma smear_step x0 x m :
  0 < m →
  (∀ i, 0 ≤ i → Z.testbit x i = true ↔
                 ∃ j, i ≤ j < i + m ∧ Z.testbit x0 j = true) →
  ∀ i, 0 ≤ i → Z.testbit (Z.lor x (Z.shiftr x m)) i = true ↔
                ∃ j, i ≤ j < i + 2 * m ∧ Z.testbit x0 j = true.
Proof.
  intros Hm Hx i Hi.
  rewrite Z.lor_spec, Z.shiftr_spec by lia. rewrite orb_true_iff.
  rewrite !Hx by lia. split.
  - intros [(j & Hj & Hb)|(j & Hj & Hb)]; exists j; split; (lia || done).
  - intros (j & Hj & Hb). destruct (Z.lt_ge_cases j (i + m)).
    + left. exists j. split; (lia || done).
    + right. exists j. split; (lia || done).
Qed.

Lemma smear_bits x0 i :
  0 ≤ i →
  Z.testbit (smear x0) i = true ↔ ∃ j, i ≤ j < i + 32 ∧ Z.testbit x0 j = true.
Proof.
  revert i. unfold smear.
  apply (smear_step x0 _ 16); [lia|].
  apply (smear_step x0 _ 8); [lia|].
  apply (smear_step x0 _ 4); [lia|].
  apply (smear_step x0 _ 2); [lia|].
  apply (smear_step x0 _ 1); [lia|].
  intros i Hi. split.
  - intros Hb. exists i. split; (lia || done).
  - intros (j & Hj & Hb). by replace i with j by lia.
Qed.

Lemma smear_nonneg x : 0 ≤ x → 0 ≤ smear x.
Proof.
  intros Hx. unfold smear.
  repeat (apply Z.lor_nonneg; split; [|apply Z.shiftr_nonneg]); lia.
Qed.

Lemma smear_log2 x : 0 ≤ x → Z.log2 (smear x) ≤ Z.log2 x.
Proof.
  intros Hx. pose proof (smear_nonneg x Hx) as Hy.
  destruct (Z.eq_dec (smear x) 0) as [->|Hne]; [apply Z.log2_nonneg|].
  assert (0 < smear x) as Hpos by lia.
  pose proof (Z.bit_log2 _ Hpos) as Hb.
  apply smear_bits in Hb as (j & Hj & Hbj); [|apply Z.log2_nonneg].
  destruct (Z.le_gt_cases j (Z.log2 x)) as [?|Hgt]; [lia|].
  rewrite Z.bits_above_log2 in Hbj by lia. done.
Qed.

Lemma smear_lt x n : 0 ≤ x < 2 ^ n → 0 ≤ n → 0 ≤ smear x < 2 ^ n.
Proof.
  intros [Hx Hlt] Hn. pose proof (smear_nonneg x Hx) as Hy. split; [done|].
  destruct (Z.eq_dec (smear x) 0) as [->|Hne]; [by apply Z.pow_pos_nonneg|].
  apply Z.log2_lt_pow2; [lia|].
  pose proof (smear_log2 x Hx).
  destruct (Z.eq_dec x 0) as [->|?].
  - exfalso. apply Hne. apply Z.bits_inj'. intros i Hi.
    rewrite Z.bits_0. destruct (Z.testbit (smear 0) i) eqn:E; [|done].
    apply smear_bits in E as (j & _ & Hb); [|done]. by rewrite Z.bits_0 in Hb.
  - assert (Z.log2 x < n) by (apply Z.log2_lt_pow2; lia). lia.
Qed.

(** Below [2^32] the smearing fills all bits under the leading one. *)
Lemma smear_ones x :
  0 < x < 2 ^ 32 → smear x = Z.ones (Z.log2 x + 1).
Proof.
  intros [Hx Hlt].
  assert (0 ≤ Z.log2 x < 32) as Hl.
  { split; [apply Z.log2_nonneg|]. apply Z.log2_lt_pow2; lia. }
  apply Z.bits_inj'. intros i Hi.
  rewrite Z.testbit_ones_nonneg by lia.
  destruct (Z.ltb_spec i (Z.log2 x + 1)).
  - apply smear_bits; [done|]. exists (Z.log2 x). split; [lia|].
    by apply Z.bit_log2.
  - destruct (Z.testbit (smear x) i) eqn:E; [|done].
    apply smear_bits in E as (j & Hj & Hb); [|done].
    rewrite Z.bits_above_log2 in Hb by lia. done.
Qed.

Lemma smear_0 : smear 0 = 0.
Proof. done. Qed.

Lemma hash_table_size_pos c :
  1 ≤ c < 2 ^ 51 → 0 < calculate_hash_table_size c < 2 ^ 64.
Proof.
  intros Hc. rewrite calculate_hash_table_size_smear. unfold div_load_factor.
  assert (1 ≤ 4 * c / 3 < 2 ^ 53) as Hd.
  { split; [apply Z.div_le_lower_bound; lia|].
    apply Z.div_lt_upper_bound; lia. }
  assert (wrap64 (4 * c / 3 - 1) = 4 * c / 3 - 1) as ->.
  { unfold wrap64. apply Z.mod_small. lia. }
  pose proof (smear_lt (4 * c / 3 - 1) 53 ltac:(lia) ltac:(lia)) as Hs.
  unfold wrap64. rewrite Z.mod_small; lia.
Qed.

(** For a quotient up to [2^32] the table length is the least power of two
    that is at least the quotient. *)
Lemma hash_table_size_pow2 c :
  1 ≤ 4 * c / 3 ≤ 2 ^ 32 →
  calculate_hash_table_size c = 2 ^ Z.log2_up (4 * c / 3).
Proof.
  intros Hd. rewrite calculate_hash_table_size_smear. unfold div_load_factor.
  assert (wrap64 (4 * c / 3 - 1) = 4 * c / 3 - 1) as ->.
  { unfold wrap64. apply Z.mod_small. lia. }
  destruct (Z.eq_dec (4 * c / 3) 1) as [->|Hne]; [done|].
  rewrite smear_ones by lia.
  rewrite Z.ones_equiv, Z.sub_1_r, Z.add_1_r, Z.succ_pred.
  assert (Z.log2_up (4 * c / 3) = Z.succ (Z.log2 (4 * c / 3 - 1))) as Hup.
  { rewrite Z.log2_up_eqn by lia. by rewrite Z.sub_1_r. }
  rewrite Hup.
  assert (0 ≤ Z.log2 (4 * c / 3 - 1) < 32) as Hl.
  { split; [apply Z.log2_nonneg|]. apply Z.log2_lt_pow2; lia. }
  unfold wrap64. apply Z.mod_small.
  split; [apply Z.pow_nonneg; lia|].
  apply Z.pow_lt_mono_r; lia.
Qed.

Lemma log2_up_next_pow2 d :
  1 ≤ d →
  is_pow2 (2 ^ Z.log2_up d) ∧ d ≤ 2 ^ Z.log2_up d ∧
  ∀ m, is_pow2 m → d ≤ m → 2 ^ Z.log2_up d ≤ m.
Proof.
  intros Hd. split_and!.
  - exists (Z.log2_up d). split; [apply Z.log2_up_nonneg|done].
  - destruct (Z.eq_dec d 1) as [->|?]; [done|].
    apply Z.log2_up_spec. lia.
  - intros m (k & Hk & ->) Hle.
    destruct (Z.eq_dec d 1) as [->|?].
    + simpl. change (2 ^ Z.log2_up 1) with 1.
      assert (0 < 2 ^ k) by (apply Z.pow_pos_nonneg; lia). lia.
    + apply Z.pow_le_mono_r; [lia|].
      apply Z.log2_up_le_pow2; lia.
Qed.
(** ** The default comparison *)

Lemma to_int_wrap64_0 d : to_int (wrap64 d) = 0 ↔ d mod 2 ^ 32 = 0.
Proof.
  unfold to_int, wrap64.
  assert ((d mod 2 ^ 64) mod 2 ^ 32 = d mod 2 ^ 32) as ->.
  { apply Z.mod_mod_divide. exists (2 ^ 32). done. }
  pose proof (Z.mod_pos_bound d (2 ^ 32) ltac:(lia)).
  destruct (Z.ltb_spec (d mod 2 ^ 32) (2 ^ 31)); lia.
Qed.

Lemma byte_val_inj x y : byte_val x = byte_val y → x = y.
Proof.
  unfold byte_val. intros H%N2Z.inj.
  pose proof (Byte.of_to_N x) as Hx. pose proof (Byte.of_to_N y) as Hy.
  rewrite H in Hx. congruence.
Qed.

Lemma memcmp_refl a n : memcmp a a n = 0.
Proof.
  revert a. induction n as [|n IH]; intros [|x a]; simpl; try done.
  by rewrite Z.eqb_refl.
Qed.

Lemma memcmp_sym0 a b n : memcmp a b n = 0 → memcmp b a n = 0.
Proof.
  revert a b. induction n as [|n IH]; intros [|x a] [|y b]; simpl; try done.
  rewrite (Z.eqb_sym (byte_val y)).
  destruct (Z.eqb_spec (byte_val x) (byte_val y)); [apply IH|lia].
Qed.

Lemma memcmp_eq a b :
  length a = length b → memcmp a b (length a) = 0 ↔ a = b.
Proof.
  revert b. induction a as [|x a IH]; intros [|y b]; simpl; try done.
  intros [= Hl]. destruct (Z.eqb_spec (byte_val x) (byte_val y)) as [E|E].
  - apply byte_val_inj in E as ->. rewrite IH by done. split; congruence.
  - split; [lia|]. intros [= -> ->]. done.
Qed.

Lemma default_compare_ok : cmp_ok default_compare.
Proof.
  split.
  - intros a. unfold default_compare. rewrite Z.eqb_refl. simpl.
    apply memcmp_refl.
  - intros a b. unfold default_compare.
    rewrite (Z.eqb_sym (blen b)).
    destruct (Z.eqb_spec (blen a) (blen b)) as [E|E]; simpl.
    + rewrite E. apply memcmp_sym0.
    + rewrite !to_int_wrap64_0. intros H.
      replace (blen b - blen a) with (- (blen a - blen b)) by lia.
      by apply Z.mod_opp_l_z.
Qed.

(** On keys shorter than [2^32] bytes the default comparison is equality. *)
Lemma default_compare_eq a b :
  blen a < 2 ^ 32 → blen b < 2 ^ 32 →
  default_compare a (blen a) b (blen b) = 0 ↔ a = b.
Proof.
  intros Ha Hb. unfold default_compare.
  destruct (Z.eqb_spec (blen a) (blen b)) as [E|E]; simpl.
  - unfold blen in *. rewrite Nat2Z.id. apply memcmp_eq. lia.
  - rewrite to_int_wrap64_0. split; [|by intros ->].
    intros H. exfalso. unfold blen in *.
    destruct (Z.lt_ge_cases (Z.of_nat (length a)) (Z.of_nat (length b))).
    + replace (Z.of_nat (length a) - Z.of_nat (length b))
        with (- (Z.of_nat (length b) - Z.of_nat (length a))) in H by lia.
      apply Z.mod_opp_l_z in H; [|lia].
      rewrite Z.opp_involutive, Z.mod_small in H by lia. lia.
    + rewrite Z.mod_small in H by lia. lia.
Qed.

(** ** Creation *)

Lemma lru_cache_create_spec cap oracle s0 :
  0 ≤ cap < 2 ^ 51 →
  lru_cache_create cap oracle = Some (Some s0) →
  let cap' := if cap <? 1 then 1024 else cap in
  Inv s0 [] (replicate (Z.to_nat (calculate_hash_table_size cap')) []) ∧
  st_cache s0 =
    mk_cache cap' 0 (calculate_hash_table_size cap') 0 0
      (replicate (Z.to_nat (calculate_hash_table_size cap')) 0)
      default_hash default_compare 0 0 (mk_stats 0 0 0 0 0 0 0 0) true true ∧
  st_heap s0 = ∅ ∧ st_log s0 = [] ∧ st_oracle s0 = drop 2 oracle.
Proof.
  intros Hcap Hcr cap'. unfold lru_cache_create in Hcr.
  change LRU_CACHE_MIN_CAPACITY with 1 in Hcr.
  change LRU_CACHE_DEFAULT_CAPACITY with 1024 in Hcr.
  fold cap' in Hcr.
  assert (1 ≤ cap' < 2 ^ 51) as Hcap'.
  { unfold cap'. destruct (Z.ltb_spec cap 1); lia. }
  pose proof (hash_table_size_pos cap' Hcap') as Hhts.
  assert (∃ o', s0 = mk_state
            (mk_cache cap' 0 (calculate_hash_table_size cap') 0 0
               (replicate (Z.to_nat (calculate_hash_table_size cap')) 0)
               default_hash default_compare 0 0 (mk_stats 0 0 0 0 0 0 0 0)
               true true) ∅ 1 o' [] ∧ o' = drop 2 oracle) as (o' & -> & Ho').
  { destruct oracle as [|[] [|[] o]]; simpl in Hcr; try done;
      injection Hcr as <-; eexists; split; try done. }
  split_and!; try done.
  split; simpl; try done.
  - unfold table_ok. simpl. rewrite !length_replicate.
    split_and!; try done; try lia.
    intros i es [-> Hi]%lookup_replicate. simpl.
    split_and!; try done. by rewrite lookup_replicate_2.
  - by rewrite mjoin_replicate_nil.
  - constructor.
  - constructor.
  - constructor.
  - lia.
  - apply default_compare_ok.
Qed.
Lemma wp_elim {A} (m : M A) s Q a s' : wp m s Q → m s = Some (a, s') → Q a s'.
Proof. unfold wp. intros H E. by rewrite E in H. Qed.

Lemma wp_intro {A} (m : M A) s (Q : A → state → Prop) a s' :
  m s = Some (a, s') → Q a s' → wp m s Q.
Proof. unfold wp. intros E HQ. by rewrite E. Qed.

(** Induction over a run from a well-formed cache: a property [I] of the
    history and the ghost description that every step preserves holds at
    the end, and the run is defined. *)
Lemma run_spec
    (I : list (op * response) → state → list gnode → list (list gnode) → Prop) :
  (∀ h s G bs o r s' G' bs',
     I h s G bs → Inv s G bs →
     c_size (st_cache s) ≤ c_capacity (st_cache s) → op_ok o = true →
     step_rel s G bs o r s' G' bs' → Inv s' G' bs' →
     c_size (st_cache s') ≤ c_capacity (st_cache s') →
     I (h ++ [(o, r)]) s' G' bs') →
  ∀ ops h s G bs (Q : list response → state → Prop),
    Inv s G bs → c_size (st_cache s) ≤ c_capacity (st_cache s) →
    forallb op_ok ops = true → I h s G bs →
    (∀ rs s' G' bs', Inv s' G' bs' →
       c_size (st_cache s') ≤ c_capacity (st_cache s') →
       length rs = length ops → I (h ++ zip ops rs) s' G' bs' → Q rs s') →
    wp (run ops) s Q.
Proof.
  intros Hstep ops. induction ops as [|o ops IH];
    intros h s G bs Q HI Hle Hok HIh HQ; simpl.
  - wp_pure. eapply HQ; [done|done|done|]. by rewrite app_nil_r.
  - simpl in Hok. apply andb_true_iff in Hok as [Ho Hops].
    wp_pure. eapply exec_spec; [done..|].
    intros r s1 G1 bs1 HI1 Hle1 Hst. wp_pure.
    eapply (IH (h ++ [(o, r)])); [done|done|done|by eapply Hstep|].
    intros rs s2 G2 bs2 HI2 Hle2 Hlen HI2'. wp_pure.
    eapply HQ; [done|done|simpl; lia|].
    simpl. by rewrite <- app_assoc in HI2'.
Qed.

Lemma run_length ops : ∀ s rs s',
  run ops s = Some (rs, s') → length rs = length ops.
Proof.
  induction ops as [|o ops IH]; intros s rs s'; simpl.
  - by intros [= <- <-].
  - unfold mbind, M_bind. destruct (exec o s) as [[r s1]|]; [|done].
    destruct (run ops s1) as [[rs' s2]|] eqn:E; [|done].
    intros [= <- <-]. simpl. f_equal. by eapply IH.
Qed.

(** The same for the runs of a fresh cache. *)
Lemma reach_spec
    (I : list (op * response) → state → list gnode → list (list gnode) → Prop)
    cap oracle s0 ops :
  0 ≤ cap < 2 ^ 51 →
  lru_cache_create cap oracle = Some (Some s0) →
  forallb op_ok ops = true →
  (∀ bs, Inv s0 [] bs → I [] s0 [] bs) →
  (∀ h s G bs o r s' G' bs',
     I h s G bs → Inv s G bs →
     c_size (st_cache s) ≤ c_capacity (st_cache s) → op_ok o = true →
     step_rel s G bs o r s' G' bs' → Inv s' G' bs' →
     c_size (st_cache s') ≤ c_capacity (st_cache s') →
     I (h ++ [(o, r)]) s' G' bs') →
  ∃ rs s, run ops s0 = Some (rs, s) ∧
    ∃ G bs, Inv s G bs ∧ c_size (st_cache s) ≤ c_capacity (st_cache s) ∧
            I (zip ops rs) s G bs.
Proof.
  intros Hcap Hcr Hok H0 Hstep.
  destruct (lru_cache_create_spec _ _ _ Hcap Hcr) as (HI0 & Hc & _).
  assert (c_size (st_cache s0) ≤ c_capacity (st_cache s0)) as Hle.
  { rewrite Hc. simpl. destruct (Z.ltb_spec cap 1); lia. }
  assert (wp (run ops) s0
            (λ rs s, ∃ G bs, Inv s G bs ∧
               c_size (st_cache s) ≤ c_capacity (st_cache s) ∧
               I (zip ops rs) s G bs)) as Hwp.
  { eapply (run_spec I Hstep ops []); [exact HI0|done|done|by apply H0|].
    intros; eauto 10. }
  unfold wp in Hwp. destruct (run ops s0) as [[rs s]|] eqn:E; [|done].
  by exists rs, s.
Qed.
(** ** What a step keeps *)

(** No request changes the bucket-table length, the hash and comparison
    strategies or the statistics switch. *)
Lemma step_config s G bs o r s' G' bs' :
  step_rel s G bs o r s' G' bs' →
  c_hash_table_size (st_cache s') = c_hash_table_size (st_cache s) ∧
  c_hash_fn (st_cache s') = c_hash_fn (st_cache s) ∧
  c_compare_fn (st_cache s') = c_compare_fn (st_cache s) ∧
  c_track_stats (st_cache s') = c_track_stats (st_cache s).
Proof.
  assert (∀ s s', same_config (st_cache s) (st_cache s') →
    c_hash_table_size (st_cache s') = c_hash_table_size (st_cache s) ∧
    c_hash_fn (st_cache s') = c_hash_fn (st_cache s) ∧
    c_compare_fn (st_cache s') = c_compare_fn (st_cache s) ∧
    c_track_stats (st_cache s') = c_track_stats (st_cache s)) as Hsc.
  { intros s1 s2 (? & ? & ? & ? & ? & ? & ? & ?). done. }
  intros Hst. destruct Hst as
    [key value r s' G' bs' _ _ Hrel| | key r out s' G' _ Hrel|
    | key r out s' _ Hrel| | key r s' G' bs' _ Hrel|
    | key b s' _ Hrel| | s' Hrel | n r s' G' bs' Hrel | | ]; try done.
  - destruct Hrel; apply Hsc; by eapply cu_config.
  - destruct Hrel; apply Hsc; by eapply cu_config.
  - destruct Hrel; apply Hsc; by eapply cu_config.
  - destruct Hrel; apply Hsc; by eapply cu_config.
  - destruct Hrel as (_ & Hc & _). apply Hsc. by eapply cu_config.
  - destruct Hrel as [Hc _ _]. apply Hsc. by eapply cu_config.
  - destruct Hrel as [|s' G' E _ _ _ Hev]; [done|].
    destruct (Hsc _ _ (ea_config _ _ _ _ Hev)) as (? & ? & ? & ?). done.
  - simpl. by destruct (c_track_stats (st_cache s)) eqn:E.
Qed.
(** ** The claims *)

(** C2: after every completed operation (put, get, peek, delete, contains,
    clear, resize also to a smaller capacity, callback registration,
    statistics reset) the cache satisfies size() ≤ capacity(): for every
    sequence of requests on a fresh cache the run terminates without
    undefined behaviour and the size then reported is at most the capacity
    then reported. *)
Theorem C2_size_le_capacity cap oracle s0 ops :
  0 ≤ cap < 2 ^ 51 →
  lru_cache_create cap oracle = Some (Some s0) →
  forallb op_ok ops = true →
  ∃ rs s n c,
    run ops s0 = Some (rs, s) ∧
    lru_cache_size s = Some (n, s) ∧
    lru_cache_capacity s = Some (c, s) ∧
    n ≤ c.
Proof.
  intros Hcap Hcr Hok.
  destruct (reach_spec (λ _ _ _ _, True) cap oracle s0 ops Hcap Hcr Hok)
    as (rs & s & Hrun & G & bs & HI & Hle & _); [done..|].
  exists rs, s, (c_size (st_cache s)), (c_capacity (st_cache s)).
  done.
Qed.

Lemma C2_size_le_capacity_witness :
  ∃ rs s n c,
    run [Put key_a val_1; Put key_b val_2; Put key_c val_3; Get key_b;
         Resize 1; Delete key_b; Put key_d val_4; Clear]
      (fresh_cache 2 2 []) = Some (rs, s) ∧
    lru_cache_size s = Some (n, s) ∧
    lru_cache_capacity s = Some (c, s) ∧
    n ≤ c.
Proof.
  apply (C2_size_le_capacity 2 [] (fresh_cache 2 2 [])); [lia|reflexivity..].
Defined.

(** C3 (the code departs from it): a put that fails with OutOfMemory does
    not always leave the cache as it was.  In a cache of capacity 1 that
    holds the key a, a put of the new key b whose node and copies are
    allocated but whose chain cell is not returns LRU_ERROR_NOMEM after
    the entry of a has been evicted: the cache is then empty, the eviction
    counter has grown and the callback (if any) has run. *)
Theorem C3_put_nomem_evicts :
  let oracle := [true; true; true; true; true; true; true; true; true; false] in
  lru_cache_create 1 oracle = Some (Some (fresh_cache 1 1 (drop 2 oracle))) ∧
  observe (run [Put key_a val_1] (fresh_cache 1 1 (drop 2 oracle))) =
    Some (mk_obs [Some LRU_SUCCESS] [None] [(key_a, val_1)]
            (mk_stats 0 0 0 1 0 0 1 1) []) ∧
  observe (run [Put key_a val_1; Put key_b val_2]
             (fresh_cache 1 1 (drop 2 oracle))) =
    Some (mk_obs [Some LRU_SUCCESS; Some LRU_ERROR_NOMEM] [None; None] []
            (mk_stats 0 0 1 1 0 1 1 1) []).
Proof. split_and!; [reflexivity|by vm_compute..]. Qed.

(** The same for [get]: the entry found is promoted before its value is
    copied, so a get that fails with LRU_ERROR_NOMEM has changed the
    recency order. *)
Lemma get_nomem_promotes :
  let oracle := [true; true; true; true; true; true; true; true; false] in
  observe (run [Put key_a val_1; Put key_b val_2] (fresh_cache 2 2 oracle)) =
    Some (mk_obs [Some LRU_SUCCESS; Some LRU_SUCCESS] [None; None]
            [(key_b, val_2); (key_a, val_1)] (mk_stats 0 0 0 2 0 0 2 2) []) ∧
  observe (run [Put key_a val_1; Put key_b val_2; Get key_a]
             (fresh_cache 2 2 oracle)) =
    Some (mk_obs [Some LRU_SUCCESS; Some LRU_SUCCESS; Some LRU_ERROR_NOMEM]
            [None; None; None]
            [(key_a, val_1); (key_b, val_2)] (mk_stats 0 0 0 2 0 0 2 2) []).
Proof. split; by vm_compute. Qed.

(** C4 (the claim as stated fails): after the seven insertions the lookup
    of key3 does not return NotFound; it succeeds. *)
Lemma C4_counterexample :
  ∃ o, observe (run scenario (fresh_cache 5 8 [])) = Some o ∧
       ob_codes o !! 8%nat = Some (Some LRU_SUCCESS) ∧
       ob_codes o !! 8%nat ≠ Some (Some LRU_ERROR_NOT_FOUND).
Proof. eexists. split; [vm_compute; reflexivity|]. by vm_compute. Qed.

(** C4 (as amended): starting from an empty cache of capacity 5, inserting
    key1 through key7 sequentially produces exactly 2 evictions, of key1
    and key2; after that, get(key3) returns "value_3" and get(key6) returns
    "value_6" (the cache then holds key6, key3, key7, key5, key4 from the
    most to the least recently used one). *)
Theorem C4_scenario :
  lru_cache_create 5 [] = Some (Some (fresh_cache 5 8 [])) ∧
  observe (run scenario (fresh_cache 5 8 [])) =
    Some (mk_obs
            (replicate 10 (Some LRU_SUCCESS))
            (replicate 8 None ++
               [Some (value_n "3"%string); Some (value_n "6"%string)])
            [(key_n "6"%string, value_n "6"%string);
             (key_n "3"%string, value_n "3"%string);
             (key_n "7"%string, value_n "7"%string);
             (key_n "5"%string, value_n "5"%string);
             (key_n "4"%string, value_n "4"%string)]
            (mk_stats 2 0 2 7 0 0 5 5)
            [(Some (key_n "1"%string), Some (value_n "1"%string));
             (Some (key_n "2"%string), Some (value_n "2"%string))]).
Proof. split; [reflexivity|by vm_compute]. Qed.

(** C9 (the claim as stated fails): for the capacity 1 the table has one
    bucket, which is less than 1 / 0.75. *)
Lemma C9_counterexample :
  lru_cache_create 1 [] = Some (Some (fresh_cache 1 1 [])) ∧
  c_hash_table_size (st_cache (fresh_cache 1 1 [])) = 1 ∧
  ¬ next_pow2_ge (4 * 1) 3 (c_hash_table_size (st_cache (fresh_cache 1 1 []))).
Proof.
  split_and!; [done..|]. simpl. intros (_ & H & _). lia.
Qed.

(** C9 (as amended): for every capacity given at creation (0 standing for
    the default 1024) whose quotient by the load factor 0.75, truncated to
    an integer, is at most 2^32, the bucket-table length is computed once as
    the least power of two that is at least this truncated quotient, and it
    never changes afterwards; in particular resize does not recompute
    it. *)
Theorem C9_table_length cap oracle s0 ops :
  0 ≤ cap →
  4 * effective_capacity cap / 3 ≤ 2 ^ 32 →
  lru_cache_create cap oracle = Some (Some s0) →
  forallb op_ok ops = true →
  next_pow2_ge (4 * effective_capacity cap / 3) 1
    (c_hash_table_size (st_cache s0)) ∧
  ∃ rs s,
    run ops s0 = Some (rs, s) ∧
    c_hash_table_size (st_cache s) = c_hash_table_size (st_cache s0).
Proof.
  intros Hcap Hq Hcr Hok.
  assert (1 ≤ effective_capacity cap) as Hc1.
  { unfold effective_capacity, LRU_CACHE_MIN_CAPACITY, LRU_CACHE_DEFAULT_CAPACITY.
    destruct (Z.ltb_spec cap 1); lia. }
  assert (cap ≤ effective_capacity cap) as Hc2.
  { unfold effective_capacity, LRU_CACHE_MIN_CAPACITY, LRU_CACHE_DEFAULT_CAPACITY.
    destruct (Z.ltb_spec cap 1); lia. }
  assert (1 ≤ 4 * effective_capacity cap / 3) as Hq1
    by (apply Z.div_le_lower_bound; lia).
  assert (effective_capacity cap < 2 ^ 51) as Hc3.
  { destruct (Z.lt_ge_cases (effective_capacity cap) (2 ^ 51)); [done|].
    assert (2 ^ 51 ≤ 4 * effective_capacity cap / 3)
      by (apply Z.div_le_lower_bound; lia). lia. }
  destruct (lru_cache_create_spec cap oracle s0 ltac:(lia) Hcr) as (_ & Hc & _).
  change (if cap <? 1 then 1024 else cap) with (effective_capacity cap) in Hc.
  split.
  - rewrite Hc. simpl. rewrite hash_table_size_pow2 by lia.
    destruct (log2_up_next_pow2 (4 * effective_capacity cap / 3) Hq1)
      as (H1 & H2 & H3).
    split_and!; [done|lia|]. intros m Hm Hle. apply H3; [done|lia].
  - destruct (reach_spec
                (λ _ s _ _, c_hash_table_size (st_cache s) =
                            c_hash_table_size (st_cache s0))
                cap oracle s0 ops ltac:(lia) Hcr Hok)
      as (rs & s & Hrun & G & bs & _ & _ & Hh); [done| |by exists rs, s].
    intros h s1 G bs o r s2 G' bs' Hh _ _ _ Hst _ _.
    destruct (step_config _ _ _ _ _ _ _ _ Hst) as (-> & _). done.
Qed.

Lemma C9_table_length_witness :
  next_pow2_ge (4 * effective_capacity 5 / 3) 1
    (c_hash_table_size (st_cache (fresh_cache 5 8 []))) ∧
  ∃ rs s,
    run [Put key_a val_1; Resize 100; Put key_b val_2; Resize 1; Clear]
      (fresh_cache 5 8 []) = Some (rs, s) ∧
    c_hash_table_size (st_cache s) =
    c_hash_table_size (st_cache (fresh_cache 5 8 [])).
Proof.
  apply (C9_table_length 5 [] (fresh_cache 5 8 [])); [lia|by vm_compute|reflexivity..].
Defined.

(** C10 (the code departs from it): the default comparison reports two
    keys of unequal length as equal when their lengths differ by a multiple
    of 2^32, whatever their bytes: the difference of the lengths is
    truncated to int.  Here the lengths are 2^32 + 1 and 1. *)
Theorem C10_default_compare_truncates (key1 key2 : bytes) :
  default_compare key1 4294967297 key2 1 = 0.
Proof. done. Qed.
(** ** Lookups that do not promote *)

Lemma Inv_cache_keys s G bs : Inv s G bs → cache_keys s = g_kb <$> G.
Proof.
  intros HI. unfold cache_keys. rewrite (Inv_cache_items _ _ _ HI).
  unfold items_of. rewrite <- list_fmap_compose. done.
Qed.




(** ** Allocation *)

(** A request consumes a prefix of the allocation oracle. *)
Lemma step_oracle s G bs o r s' G' bs' :
  step_rel s G bs o r s' G' bs' →
  ∃ n, st_oracle s' = drop n (st_oracle s).
Proof.
  intros Hst. destruct Hst; try (by exists 0%nat).
  - match goal with H : put_rel _ _ _ _ _ _ _ _ _ |- _ => destruct H end.
    + exists 1%nat. by rewrite <- oracle_tail_drop.
    + exists 1%nat. by rewrite <- oracle_tail_drop.
    + by eexists.
    + by eexists.
    + by eexists.
  - match goal with H : get_rel _ _ _ _ _ _ _ _ |- _ => destruct H end.
    + by exists 0%nat.
    + exists 1%nat. by rewrite <- oracle_tail_drop.
    + exists 1%nat. by rewrite <- oracle_tail_drop.
  - match goal with H : peek_rel _ _ _ _ _ _ _ |- _ => destruct H end.
    + by exists 0%nat.
    + exists 1%nat. by rewrite <- oracle_tail_drop.
    + exists 1%nat. by rewrite <- oracle_tail_drop.
  - match goal with H : delete_rel _ _ _ _ _ _ _ |- _ => destruct H end;
      by exists 0%nat.
  - match goal with H : contains_rel _ _ _ _ _ |- _ =>
      destruct H as (_ & _ & _ & H) end. by exists 0%nat.
  - match goal with H : clear_rel _ _ _ |- _ => destruct H as [_ H _] end.
    by exists 0%nat.
  - match goal with H : resize_rel _ _ _ _ _ _ |- _ => destruct H end.
    + by exists 0%nat.
    + match goal with H : evicted_all _ _ _ _ |- _ =>
        pose proof (ea_oracle _ _ _ _ H) as Ho end.
      by exists 0%nat.
Qed.

Lemma forallb_drop {A} (f : A → bool) n l :
  forallb f l = true → forallb f (drop n l) = true.
Proof.
  revert l. induction n as [|n IH]; intros [|x l]; simpl; try done.
  intros [_ H]%andb_true_iff. by apply IH.
Qed.

Lemma all_true_head o : forallb id o = true → oracle_head o = true.
Proof. destruct o as [|[] o]; simpl; done. Qed.

Lemma all_true_no_false o : forallb id o = true → false ∉ o.
Proof.
  intros H Hin. rewrite forallb_forall in H.
  apply list_elem_of_In in Hin. by apply H in Hin.
Qed.

Lemma owned_perm G G' p : G ≡ₚ G' → p ∈ owned G ↔ p ∈ owned G'.
Proof. intros HP. rewrite !owned_cases, !elem_of_app. by rewrite HP. Qed.

(** A [get] of a cached key when the copy can be allocated. *)
Lemma get_hit_value s G bs key g :
  Inv s G bs → 0 < blen key →
  glookup (st_cache s) bs key = Some g →
  forallb id (st_oracle s) = true →
  ∃ out s' G',
    exec (Get key) s = Some (RLookup LRU_SUCCESS out, s') ∧
    out_bytes s' out = Some (g_vb g) ∧
    out_value out = Some (st_brk s) ∧
    (st_brk s ∉ owned G') ∧
    Inv s' G' bs ∧
    glookup (st_cache s') bs key = Some g ∧
    forallb id (st_oracle s') = true.
Proof.
  intros HI Hk Hlook Ho.
  assert (wp (exec (Get key)) s
            (λ r s', ∃ out G', r = RLookup LRU_SUCCESS out ∧
               out_bytes s' out = Some (g_vb g) ∧
               out_value out = Some (st_brk s) ∧
               (st_brk s ∉ owned G') ∧ Inv s' G' bs ∧
               glookup (st_cache s') bs key = Some g ∧
               forallb id (st_oracle s') = true)) as Hwp.
  { simpl. wp_pure. eapply lru_cache_get_spec; [done..|].
    intros r out s' G' HI' Hrel. wp_pure. simpl.
    destruct Hrel as [s' Hl _ _ _
                     |s' Ga g' Gb Hl -> Hoh [(C1 & C2 & C3 & C4 & _) _ _ _ _] Hh Hown Hos
                     |s' Ga g' Gb Hl -> Hoh _ _].
    - congruence.
    - assert (g' = g) as -> by congruence.
      exists (mk_out (Some (st_brk s)) (Some (blen (g_vb g)))), (g :: Ga ++ Gb).
      split_and!; try done.
      + unfold out_bytes, buf_at. simpl. rewrite Hh. by rewrite take_blen.
      + intros Hin. apply Hown. eapply owned_perm; [|exact Hin].
        solve_Permutation.
      + rewrite (glookup_cfg (st_cache s)) by done. done.
      + rewrite Hos, oracle_tail_drop. by apply forallb_drop.
    - apply all_true_head in Ho. congruence. }
  unfold wp in Hwp. destruct (exec (Get key) s) as [[r s']|]; [|done].
  destruct Hwp as (out & G' & -> & ?). by exists out, s', G'.
Qed.

(** C5: for every non-empty key k and non-empty value v, on a cache reached
    by any requests under any allocator answers, refused allocations
    included, and as long as the allocations still to come succeed,
    put(k, v) followed by get(k) succeeds and returns the bytes of v in a
    buffer that was not allocated before the get and that the cache does
    not own: whatever is then written into that buffer, the cached pairs
    and their order stay the same and a further get(k) returns v again. *)
Theorem C5_put_get_round_trip cap oracle s0 ops key value :
  0 ≤ cap < 2 ^ 51 →
  lru_cache_create cap oracle = Some (Some s0) →
  forallb op_ok ops = true →
  0 < blen key → 0 < blen value →
  ∃ rs s,
    run ops s0 = Some (rs, s) ∧
    (forallb id (st_oracle s) = true →
     ∃ s1 out s2 p,
       exec (Put key value) s = Some (RCode LRU_SUCCESS, s1) ∧
       exec (Get key) s1 = Some (RLookup LRU_SUCCESS out, s2) ∧
       out_bytes s2 out = Some value ∧
       out_value out = Some p ∧
       st_heap s1 !! p = None ∧
       ∀ b', ∃ out' s3,
         cache_items (set_st_heap (<[p := CBuf b']> (st_heap s2)) s2) =
           cache_items s2 ∧
         exec (Get key) (set_st_heap (<[p := CBuf b']> (st_heap s2)) s2) =
           Some (RLookup LRU_SUCCESS out', s3) ∧
         out_bytes s3 out' = Some value).
Proof.
  intros Hcap Hcr Hok Hk Hv.
  destruct (reach_spec (λ _ _ _ _, True) cap oracle s0 ops Hcap Hcr Hok)
    as (rs & s & Hrun & G & bs & HI & Hle & _); [done..|].
  exists rs, s. split; [done|]. intros Ho.
  (* the put *)
  assert (wp (exec (Put key value)) s
            (λ r s1, r = RCode LRU_SUCCESS ∧ ∃ G1 bs1 g,
               Inv s1 G1 bs1 ∧ glookup (st_cache s1) bs1 key = Some g ∧
               g_vb g = value ∧ forallb id (st_oracle s1) = true)) as Hput.
  { simpl. wp_pure. eapply lru_cache_put_spec; [done..|].
    intros r s1 G1 bs1 HI1 Hrel. wp_pure.
    pose proof (all_true_head _ Ho) as Hoh.
    pose proof (all_true_no_false _ Ho) as Hnf.
    destruct Hrel as [s1 Ga g Gb _ _ _ _ Hos Hl
                     |s1 g _ Hof _ _ _
                     |s1 n _ Hf _ _ _
                     |s1 bs1 Gk E g _ _ _ _ Hgv _ _ Hos Hl
                     |s1 bs1 Gk E _ _ _ Hf _ _ _]; try congruence; try done.
    - split; [done|]. eexists _, _, _. split_and!; [done|done|done|].
      rewrite Hos, oracle_tail_drop. by apply forallb_drop.
    - split; [done|]. eexists _, _, _. split_and!; [done|done|done|].
      rewrite Hos. by apply forallb_drop. }
  unfold wp in Hput.
  destruct (exec (Put key value) s) as [[r s1]|] eqn:Eput; [|done].
  destruct Hput as (-> & G1 & bs1 & g & HI1 & Hl1 & Hgv & Ho1).
  (* the get *)
  destruct (get_hit_value _ _ _ _ _ HI1 Hk Hl1 Ho1)
    as (out & s2 & G2 & Eget & Hob & Hov & Hown & HI2 & Hl2 & Ho2).
  exists s1, out, s2, (st_brk s1).
  split_and!; try done; [congruence|by eapply Inv_fresh|].
  (* writing into the copy *)
  intros b'.
  set (sm := set_st_heap (<[st_brk s1 := CBuf b']> (st_heap s2)) s2).
  assert (is_Some (st_heap s2 !! st_brk s1)) as [x Hx].
  { unfold out_bytes, buf_at in Hob. rewrite Hov in Hob.
    destruct (out_value_size out); [|done].
    destruct (st_heap s2 !! st_brk s1); [by eexists|done]. }
  assert (Inv sm G2 bs1) as HIm.
  { eapply Inv_frame; [exact HI2|apply shape_eq_refl| |].
    - intros q Hq. unfold sm. simpl. rewrite lookup_insert_ne; [done|].
      by intros <-.
    - destruct (inv_heap _ _ _ HI2) as [Hb Hh]. split; [done|].
      unfold sm. simpl. intros q y [[<- _]|[_ Hq]]%lookup_insert_Some.
      + by eapply Hh.
      + by eapply Hh. }
  destruct (get_hit_value sm G2 bs1 key g HIm Hk Hl2 Ho2)
    as (out' & s3 & G3 & Eget' & Hob' & _).
  exists out', s3. split_and!; [|done|congruence].
  by rewrite (Inv_cache_items _ _ _ HIm), (Inv_cache_items _ _ _ HI2).
Qed.

Lemma C5_put_get_round_trip_witness :
  ∃ rs s,
    run [Put key_a val_1; Put key_b val_2; Put key_c val_3]
      (fresh_cache 2 2 [true; true; true; true; true; false]) =
      Some (rs, s) ∧
    (forallb id (st_oracle s) = true →
     ∃ s1 out s2 p,
       exec (Put key_a val_4) s = Some (RCode LRU_SUCCESS, s1) ∧
       exec (Get key_a) s1 = Some (RLookup LRU_SUCCESS out, s2) ∧
       out_bytes s2 out = Some val_4 ∧
       out_value out = Some p ∧
       st_heap s1 !! p = None ∧
       ∀ b', ∃ out' s3,
         cache_items (set_st_heap (<[p := CBuf b']> (st_heap s2)) s2) =
           cache_items s2 ∧
         exec (Get key_a) (set_st_heap (<[p := CBuf b']> (st_heap s2)) s2) =
           Some (RLookup LRU_SUCCESS out', s3) ∧
         out_bytes s3 out' = Some val_4).
Proof.
  apply (C5_put_get_round_trip 2 [true; true; true; true; true; true; true; false]
           (fresh_cache 2 2 [true; true; true; true; true; false]));
    [lia|reflexivity|reflexivity|by vm_compute|by vm_compute].
Defined.
(** ** The eviction callback *)

Lemma filter_gone (A B C : list Z) :
  (∀ x, x ∈ A → x ∈ C) → (∀ x, x ∈ B → x ∉ C) →
  filter (λ n, n ∉ C) (A ++ B) = B.
Proof.
  intros HA HB. rewrite filter_app.
  assert (filter (λ n, n ∉ C) A = []) as ->.
  { induction A as [|a A IH]; [done|].
    rewrite filter_cons_False by (intros H; apply H, HA; left).
    apply IH. intros x Hx. apply HA. by right. }
  simpl. induction B as [|b B IH]; [done|].
  rewrite filter_cons_True by (apply HB; left).
  f_equal. apply IH. intros x Hx. apply HB. by right.
Qed.

Lemma filter_gone_nil (A C : list Z) :
  (∀ x, x ∈ A → x ∈ C) → filter (λ n, n ∉ C) A = [].
Proof.
  intros HA. rewrite <- (app_nil_r A).
  by rewrite (filter_gone A [] C HA) by (by intros ? ?%elem_of_nil).
Qed.

Lemma fmap_rev {A B} (f : A → B) l : f <$> rev l = rev (f <$> l).
Proof.
  induction l as [|x l IH]; [done|]. simpl.
  by rewrite fmap_app, IH.
Qed.

Lemma rev_perm {A} (l : list A) : rev l ≡ₚ l.
Proof. symmetry. apply Permutation_rev. Qed.

(** The nodes that leave the cache when the entries [E] at the tail of
    [Gk ++ E] are dropped and the state then holds [G']. *)
Lemma gone_nodes_tail s Gk E bs s' G' bs' :
  Inv s (Gk ++ E) bs → Inv s' G' bs' →
  (∀ x, x ∈ g_addr <$> Gk → x ∈ g_addr <$> G') →
  (∀ q, q ∈ owned E → st_heap s' !! q = None) →
  gone_nodes s s' = g_addr <$> rev E.
Proof.
  intros HI HI' Hk Hfr. unfold gone_nodes.
  rewrite (Inv_cache_nodes _ _ _ HI), (Inv_cache_nodes _ _ _ HI').
  rewrite fmap_app, filter_gone; [by rewrite fmap_rev|done|].
  intros x Hx Hin.
  assert (x ∈ owned E) as Ho by (apply owned_cases; by left).
  apply Hfr in Ho.
  pose proof (Inv_kind_node _ _ _ _ HI' Hin) as Hkd.
  unfold kind_at in Hkd. by rewrite Ho in Hkd.
Qed.

Lemma gone_nodes_none s G bs s' G' bs' :
  Inv s G bs → Inv s' G' bs' →
  (∀ x, x ∈ g_addr <$> G → x ∈ g_addr <$> G') →
  gone_nodes s s' = [].
Proof.
  intros HI HI' Hk. unfold gone_nodes.
  rewrite (Inv_cache_nodes _ _ _ HI), (Inv_cache_nodes _ _ _ HI').
  by rewrite filter_gone_nil.
Qed.

(** What a request logs: the calls for the entries [E] it evicts. *)
Lemma step_log s G bs o r s' G' bs' :
  step_rel s G bs o r s' G' bs' → Inv s G bs → Inv s' G' bs' →
  ∃ E,
    (∀ t, t ∈ E → t ∈ G) ∧
    st_log s' = st_log s ++ E ≫= evict_log (st_cache s) ∧
    evicted_nodes o s s' = g_addr <$> E ∧
    (∀ q, q ∈ owned E → st_heap s' !! q = None) ∧
    (E ≠ [] →
     match o with
     | Put _ _ => c_capacity (st_cache s) ≤ c_size (st_cache s)
     | Resize n => 1 ≤ n < c_size (st_cache s)
     | _ => False
     end).
Proof.
  intros Hst HI HI'.
  assert (∀ o, (∀ k v, o ≠ Put k v) → (∀ n, o ≠ Resize n) →
            st_log s' = st_log s ++ [] →
            ∃ E : list gnode,
              (∀ t, t ∈ E → t ∈ G) ∧
              st_log s' = st_log s ++ E ≫= evict_log (st_cache s) ∧
              evicted_nodes o s s' = g_addr <$> E ∧
              (∀ q, q ∈ owned E → st_heap s' !! q = None) ∧
              (E ≠ [] →
               match o with
               | Put _ _ => c_capacity (st_cache s) ≤ c_size (st_cache s)
               | Resize n => 1 ≤ n < c_size (st_cache s)
               | _ => False
               end)) as Hother.
  { intros o' H1 H2 Hl. exists []. split_and!; try done.
    - by intros ? ?%elem_of_nil.
    - destruct o'; try done; [by destruct (H1 key value)|by destruct (H2 new_capacity)].
    - by intros ? ?%elem_of_nil. }
  assert (∀ o, (∃ k v, o = Put k v) ∨ (∃ n, o = Resize n) →
            st_log s' = st_log s ++ [] →
            (∀ x, x ∈ g_addr <$> G → x ∈ g_addr <$> G') →
            ∃ E : list gnode,
              (∀ t, t ∈ E → t ∈ G) ∧
              st_log s' = st_log s ++ E ≫= evict_log (st_cache s) ∧
              evicted_nodes o s s' = g_addr <$> E ∧
              (∀ q, q ∈ owned E → st_heap s' !! q = None) ∧
              (E ≠ [] →
               match o with
               | Put _ _ => c_capacity (st_cache s) ≤ c_size (st_cache s)
               | Resize n => 1 ≤ n < c_size (st_cache s)
               | _ => False
               end)) as Hsame.
  { intros o' Ho' Hl Hsub. exists []. split_and!; try done.
    - by intros ? ?%elem_of_nil.
    - assert (evicted_nodes o' s s' = gone_nodes s s') as ->
        by (destruct Ho' as [(? & ? & ->)|(? & ->)]; done).
      by eapply gone_nodes_none.
    - by intros ? ?%elem_of_nil. }
  destruct Hst as
    [key value r s' G' bs' _ _ Hrel| |key r out s' G' _ Hrel|
    |key r out s' _ Hrel| |key r s' G' bs' _ Hrel|
    |key b s' _ Hrel| |s' Hrel|n r s' G' bs' Hrel| | ].
  - (* put *)
    destruct Hrel as [s' Ga g Gb _ -> _ [_ _ _ Hl _] _ _
                     |s' g _ _ [_ _ _ Hl _] _ _
                     |s' m _ _ [_ _ _ Hl _] _ _
                     |s' bs' Gk E g _ -> Hev _ _ [_ _ _ Hl _] Hfr _ _
                     |s' bs' Gk E _ -> Hev _ [_ _ _ Hl _] Hfr _].
    + apply Hsame; [left; eauto|done|].
      intros x. rewrite !fmap_app, !fmap_cons, fmap_app. simpl. set_solver.
    + apply Hsame; [left; eauto|done|done].
    + apply Hsame; [left; eauto|done|done].
    + exists E. split_and!; [set_solver|done| |done|].
      * simpl. erewrite gone_nodes_tail; [|exact HI|exact HI'| |done].
        -- by destruct Hev as [[-> _]|[_ [t ->]]].
        -- intros x Hx. rewrite fmap_cons. by right.
      * intros HE. destruct Hev as [[-> _]|[? _]]; done.
    + exists E. split_and!; [set_solver|done| |done|].
      * simpl. erewrite gone_nodes_tail; [|exact HI|exact HI'|done|done].
        by destruct Hev as [[-> _]|[_ [t ->]]].
      * intros HE. destruct Hev as [[-> _]|[? _]]; done.
  - apply Hsame; [left; eauto|by rewrite app_nil_r|done].
  - apply Hother; [done|done|]. destruct Hrel; by eapply cu_log.
  - apply Hother; [done|done|]. by rewrite app_nil_r.
  - apply Hother; [done|done|]. destruct Hrel; by eapply cu_log.
  - apply Hother; [done|done|]. by rewrite app_nil_r.
  - apply Hother; [done|done|]. destruct Hrel; by eapply cu_log.
  - apply Hother; [done|done|]. by rewrite app_nil_r.
  - apply Hother; [done|done|]. destruct Hrel as (_ & Hc & _). by eapply cu_log.
  - apply Hother; [done|done|]. by rewrite app_nil_r.
  - apply Hother; [done|done|]. destruct Hrel as [Hc _ _]. by eapply cu_log.
  - (* resize *)
    destruct Hrel as [Hn|s' G' E Hn -> Hlen [_ Hs _ _ _ Hl _ Hfr]].
    + apply Hsame; [right; eauto|by rewrite app_nil_r|done].
    + exists (rev E). split_and!.
      * intros t Ht. rewrite rev_perm in Ht. set_solver.
      * rewrite Hl. simpl. f_equal; by apply evict_logs_ext.
      * simpl. erewrite gone_nodes_tail; [|exact HI|exact HI'|done|].
        -- done.
        -- intros q Hq. apply Hfr. eapply owned_perm; [|exact Hq].
           by rewrite rev_perm.
      * done.
      * intros HE. pose proof (inv_size _ _ _ HI) as Hsz.
        rewrite length_app in Hsz, Hlen.
        destruct E as [|t E]; [done|]. simpl in *. lia.
  - apply Hother; [done|done|]. by rewrite app_nil_r.
  - apply Hother; [done|done|]. simpl. by rewrite app_nil_r.
Qed.

Lemma evict_log_none c (E : list gnode) :
  c_eviction_fn c = 0 → E ≫= evict_log c = [].
Proof.
  intros Hfn. induction E as [|t E IH]; [done|].
  rewrite bind_cons, IH. unfold evict_log. by rewrite Hfn.
Qed.

Lemma evict_log_calls c (E : list gnode) :
  c_eviction_fn c ≠ 0 → E ≫= evict_log c = call_of c <$> E.
Proof.
  intros Hfn. induction E as [|t E IH]; [done|].
  rewrite bind_cons, IH. unfold evict_log.
  by destruct (Z.eqb_spec (c_eviction_fn c) 0).
Qed.

Lemma Inv_node_call s G bs t :
  Inv s G bs → t ∈ G → node_call s (g_addr t) = Some (call_of (st_cache s) t).
Proof.
  intros HI Ht. destruct (Inv_node_ok _ _ _ _ HI Ht) as (p & n & Hn).
  destruct (Inv_bufs_ok _ _ _ _ HI Ht) as [Hk Hv].
  unfold node_call, call_of, buf_at. rewrite Hn. simpl. by rewrite Hk, Hv.
Qed.

(** C8: on a cache reached by any requests, a request logs no call if no
    eviction callback is registered; if one is registered it logs exactly
    one call per entry it evicts, least recently used first, each with the
    entry's own key and value pointers and sizes and the registered
    function and context, made while both buffers were still allocated,
    the node and the buffers being freed when the request returns.  Only a
    put into a full cache and a resize below the current size evict; delete
    (like clear and the lookups) removes entries without any call. *)
Theorem C8_eviction_callback cap oracle s0 ops o :
  0 ≤ cap < 2 ^ 51 →
  lru_cache_create cap oracle = Some (Some s0) →
  forallb op_ok ops = true →
  op_ok o = true →
  ∃ rs s r s',
    run ops s0 = Some (rs, s) ∧
    exec o s = Some (r, s') ∧
    (c_eviction_fn (st_cache s) = 0 → st_log s' = st_log s) ∧
    (c_eviction_fn (st_cache s) ≠ 0 →
     ∃ calls,
       st_log s' = st_log s ++ calls ∧
       Forall2 (evicted_call s s') (evicted_nodes o s s') calls ∧
       (calls ≠ [] → capacity_driven o s)).
Proof.
  intros Hcap Hcr Hok Ho.
  destruct (reach_spec (λ _ _ _ _, True) cap oracle s0 ops Hcap Hcr Hok)
    as (rs & s & Hrun & G & bs & HI & Hle & _); [done..|].
  assert (wp (exec o) s
            (λ r s', ∃ G' bs', Inv s' G' bs' ∧ step_rel s G bs o r s' G' bs'))
    as Hwp.
  { eapply exec_spec; [done..|]. intros; eauto. }
  unfold wp in Hwp. destruct (exec o s) as [[r s']|] eqn:Eex; [|done].
  destruct Hwp as (G' & bs' & HI' & Hst).
  destruct (step_log _ _ _ _ _ _ _ _ Hst HI HI')
    as (E & Hsub & Hlog & Hgone & Hfr & Hdrv).
  exists rs, s, r, s'. split_and!; [done|done| |].
  - intros Hfn. by rewrite Hlog, evict_log_none, app_nil_r.
  - intros Hfn. exists (call_of (st_cache s) <$> E).
    rewrite <- evict_log_calls by done. split_and!; [done| |].
    + rewrite Hgone, evict_log_calls by done.
      apply Forall2_fmap, Forall_Forall2_diag, Forall_forall.
      intros t Ht.
      assert (∀ q, q ∈ [g_addr t; g_key t; g_val t; g_entry t] →
                st_heap s' !! q = None) as Hfr'.
      { intros q Hq. apply Hfr, owned_cases.
        rewrite !elem_of_app, !list_elem_of_fmap.
        set_solver. }
      split_and!; simpl; [by eapply Inv_node_call; eauto|done|done|..];
        apply Hfr'; set_solver.
    + intros HE. apply Hdrv. intros ->. done.
Qed.

Lemma C8_eviction_callback_witness :
  ∃ rs s r s',
    run [SetEvictionCallback 1 2; Put key_a val_1; Put key_b val_2]
      (fresh_cache 2 2 []) = Some (rs, s) ∧
    exec (Put key_c val_3) s = Some (r, s') ∧
    (c_eviction_fn (st_cache s) = 0 → st_log s' = st_log s) ∧
    (c_eviction_fn (st_cache s) ≠ 0 →
     ∃ calls,
       st_log s' = st_log s ++ calls ∧
       Forall2 (evicted_call s s') (evicted_nodes (Put key_c val_3) s s')
         calls ∧
       (calls ≠ [] → capacity_driven (Put key_c val_3) s)).
Proof.
  apply (C8_eviction_callback 2 [] (fresh_cache 2 2 [])); [lia|reflexivity..].
Defined.
(** ** Statistics *)

Lemma iter_count_eviction_fields n t :
  hits (Nat.iter n count_eviction t) = hits t ∧
  misses (Nat.iter n count_eviction t) = misses t ∧
  current_size (Nat.iter n count_eviction t) = current_size t ∧
  peak_size (Nat.iter n count_eviction t) = peak_size t.
Proof.
  induction n as [|n (IH1 & IH2 & IH3 & IH4)]; [done|]. simpl.
  by destruct (Nat.iter n count_eviction t).
Qed.

(** The counters a client reads after an update of the cache structure. *)
Lemma cache_upd_fields s s' f d log :
  cache_upd s s' f d log → c_track_stats (st_cache s) = true →
  hits (c_stats (st_cache s')) = hits (f (c_stats (st_cache s))) ∧
  misses (c_stats (st_cache s')) = misses (f (c_stats (st_cache s))) ∧
  current_size (c_stats (st_cache s')) =
    current_size (f (c_stats (st_cache s))) ∧
  peak_size (c_stats (st_cache s')) = peak_size (f (c_stats (st_cache s))) ∧
  c_size (st_cache s') = c_size (st_cache s) + d ∧
  c_capacity (st_cache s') = c_capacity (st_cache s).
Proof.
  intros [(C1 & _) Hs Hst _ _] Htr. rewrite Htr in Hst.
  apply no_coll_eq_fields in Hst as (? & ? & ? & ? & ? & ? & ?). done.
Qed.

Lemma step_stats s G bs o r s' G' bs' :
  step_rel s G bs o r s' G' bs' → Inv s G bs →
  c_track_stats (st_cache s) = true →
  match o, r with
  | Get _, RLookup LRU_SUCCESS _ =>
      hits (c_stats (st_cache s')) = wrap64 (hits (c_stats (st_cache s)) + 1) ∧
      misses (c_stats (st_cache s')) = misses (c_stats (st_cache s))
  | Get _, RLookup LRU_ERROR_NOT_FOUND _ =>
      hits (c_stats (st_cache s')) = hits (c_stats (st_cache s)) ∧
      misses (c_stats (st_cache s')) =
        wrap64 (misses (c_stats (st_cache s)) + 1)
  | ResetStats, _ =>
      hits (c_stats (st_cache s')) = 0 ∧ misses (c_stats (st_cache s')) = 0
  | _, _ =>
      hits (c_stats (st_cache s')) = hits (c_stats (st_cache s)) ∧
      misses (c_stats (st_cache s')) = misses (c_stats (st_cache s))
  end ∧
  (o ≠ ResetStats →
   peak_size (c_stats (st_cache s)) ≤ peak_size (c_stats (st_cache s'))).
Proof.
  intros Hst HI Htr.
  pose proof (inv_size _ _ _ HI) as Hsz.
  destruct Hst as
    [key value r s' G' bs' _ _ Hrel| |key r out s' G' _ Hrel|
    |key r out s' _ Hrel| |key r s' G' bs' _ Hrel|
    |key b s' _ Hrel| |s' Hrel|n r s' G' bs' Hrel| | ].
  - (* put *)
    destruct Hrel as [s' Ga g Gb _ _ _ Hc _ _
                     |s' g _ _ Hc _ _
                     |s' m _ _ Hc _ _
                     |s' bs' Gk E g _ HG Hev _ _ Hc _ _ _
                     |s' bs' Gk E _ HG Hev _ Hc _ _];
      destruct (cache_upd_fields _ _ _ _ _ Hc Htr) as (F1 & F2 & F3 & F4 & F5 & F6);
      simpl in *.
    + split; [by split|intros; lia].
    + split; [by split|intros; lia].
    + split; [by split|intros; lia].
    + destruct (iter_count_eviction_fields (length E) (c_stats (st_cache s)))
        as (I1 & I2 & I3 & I4).
      unfold count_insertion in *. simpl in *.
      destruct (Z.ltb_spec
                  (peak_size (Nat.iter (length E) count_eviction
                                (c_stats (st_cache s))))
                  (c_size (st_cache s) - Z.of_nat (length E) + 1));
        simpl in *; (split; [split; congruence|intros; lia]).
    + destruct (iter_count_eviction_fields (length E) (c_stats (st_cache s)))
        as (I1 & I2 & I3 & I4).
      split; [split; congruence|intros; lia].
  - split; [by split|done].
  - (* get *)
    destruct Hrel as [s' _ Hc _ _|s' Ga g Gb _ _ _ Hc _ _ _|s' Ga g Gb _ _ _ Hc _];
      destruct (cache_upd_fields _ _ _ _ _ Hc Htr) as (F1 & F2 & F3 & F4 & F5 & F6);
      simpl in *; (split; [by split|intros; lia]).
  - split; [by split|done].
  - (* peek *)
    assert (cache_upd s s' id 0 []) as Hc by (by destruct Hrel).
    destruct (cache_upd_fields _ _ _ _ _ Hc Htr) as (F1 & F2 & F3 & F4 & F5 & F6).
    simpl in *. split; [by split|intros; lia].
  - split; [by split|done].
  - (* delete *)
    destruct Hrel as [s' _ Hc _ _|s' Ga g Gb _ _ Hc _ _ _];
      destruct (cache_upd_fields _ _ _ _ _ Hc Htr) as (F1 & F2 & F3 & F4 & F5 & F6);
      simpl in *; (split; [by split|intros; lia]).
  - split; [by split|done].
  - (* contains *)
    destruct Hrel as (_ & Hc & _).
    destruct (cache_upd_fields _ _ _ _ _ Hc Htr) as (F1 & F2 & F3 & F4 & F5 & F6).
    simpl in *. split; [by split|intros; lia].
  - split; [by split|done].
  - (* clear *)
    destruct Hrel as [Hc _ _].
    destruct (cache_upd_fields _ _ _ _ _ Hc Htr) as (F1 & F2 & F3 & F4 & F5 & F6).
    simpl in *. split; [by split|intros; lia].
  - (* resize *)
    destruct Hrel as [Hn|s' G' E Hn HG Hlen [_ Hs Hstt _ _ _ _ _]].
    + split; [by split|done].
    + simpl in Hs, Hstt. rewrite Htr in Hstt.
      apply no_coll_eq_fields in Hstt as (F1 & F2 & _ & _ & _ & F6 & F7).
      destruct (iter_count_eviction_fields (length (rev E)) (c_stats (st_cache s)))
        as (I1 & I2 & I3 & I4).
      split; [split; congruence|intros; lia].
  - split; [by split|done].
  - simpl. rewrite Htr. simpl. split; [by split|done].
Qed.




(** [size ≤ stats.current_size ≤ stats.peak_size] is kept by every
    request. *)
Lemma step_stats_order s G bs o r s' G' bs' :
  step_rel s G bs o r s' G' bs' → Inv s G bs →
  c_track_stats (st_cache s) = true →
  c_size (st_cache s) ≤ current_size (c_stats (st_cache s)) →
  current_size (c_stats (st_cache s)) ≤ peak_size (c_stats (st_cache s)) →
  c_size (st_cache s') ≤ current_size (c_stats (st_cache s')) ∧
  current_size (c_stats (st_cache s')) ≤ peak_size (c_stats (st_cache s')).
Proof.
  intros Hst HI Htr H1 H2.
  pose proof (inv_size _ _ _ HI) as Hsz.
  destruct Hst as
    [key value r s' G' bs' _ _ Hrel| |key r out s' G' _ Hrel|
    |key r out s' _ Hrel| |key r s' G' bs' _ Hrel|
    |key b s' _ Hrel| |s' Hrel|n r s' G' bs' Hrel| | ]; try done.
  - (* put *)
    destruct Hrel as [s' Ga g Gb _ _ _ Hc _ _
                     |s' g _ _ Hc _ _
                     |s' m _ _ Hc _ _
                     |s' bs' Gk E g _ HG Hev _ _ Hc _ _ _
                     |s' bs' Gk E _ HG Hev _ Hc _ _];
      destruct (cache_upd_fields _ _ _ _ _ Hc Htr) as (F1 & F2 & F3 & F4 & F5 & F6);
      simpl in *; try lia.
    + destruct (iter_count_eviction_fields (length E) (c_stats (st_cache s)))
        as (I1 & I2 & I3 & I4).
      unfold count_insertion in *. simpl in *.
      destruct (Z.ltb_spec
                  (peak_size (Nat.iter (length E) count_eviction
                                (c_stats (st_cache s))))
                  (c_size (st_cache s) - Z.of_nat (length E) + 1));
        simpl in *; lia.
    + destruct (iter_count_eviction_fields (length E) (c_stats (st_cache s)))
        as (I1 & I2 & I3 & I4). lia.
  - (* get *)
    destruct Hrel as [s' _ Hc _ _|s' Ga g Gb _ _ _ Hc _ _ _|s' Ga g Gb _ _ _ Hc _];
      destruct (cache_upd_fields _ _ _ _ _ Hc Htr) as (F1 & F2 & F3 & F4 & F5 & F6);
      simpl in *; lia.
  - (* peek *)
    assert (cache_upd s s' id 0 []) as Hc by (by destruct Hrel).
    destruct (cache_upd_fields _ _ _ _ _ Hc Htr) as (F1 & F2 & F3 & F4 & F5 & F6).
    simpl in *. lia.
  - (* delete *)
    destruct Hrel as [s' _ Hc _ _|s' Ga g Gb _ _ Hc _ _ _];
      destruct (cache_upd_fields _ _ _ _ _ Hc Htr) as (F1 & F2 & F3 & F4 & F5 & F6);
      simpl in *; lia.
  - (* contains *)
    destruct Hrel as (_ & Hc & _).
    destruct (cache_upd_fields _ _ _ _ _ Hc Htr) as (F1 & F2 & F3 & F4 & F5 & F6).
    simpl in *. lia.
  - (* clear *)
    destruct Hrel as [Hc _ _].
    destruct (cache_upd_fields _ _ _ _ _ Hc Htr) as (F1 & F2 & F3 & F4 & F5 & F6).
    simpl in *. lia.
  - (* resize *)
    destruct Hrel as [Hn|s' G' E Hn HG Hlen [_ Hs Hstt _ _ _ _ _]]; [done|].
    simpl in Hs, Hstt. rewrite Htr in Hstt.
    apply no_coll_eq_fields in Hstt as (F1 & F2 & _ & _ & _ & F6 & F7).
    destruct (iter_count_eviction_fields (length (rev E)) (c_stats (st_cache s)))
      as (I1 & I2 & I3 & I4). lia.
  - (* reset *)
    simpl. rewrite Htr. simpl. lia.
Qed.




(** ** Recency order and eviction *)

Lemma touches_unique e k0 k :
  touches e k0 = true → touches e k = true → k = k0.
Proof.
  destruct e as [o r]. unfold touches.
  destruct o; try done; destruct r as [c|c out|b|]; try done;
    destruct c; try done;
    intros H1%bool_decide_eq_true H2%bool_decide_eq_true; congruence.
Qed.

Lemma age_sorted_touch e rh k0 K K0 :
  touches e k0 = true → k0 ∉ K → sublist K K0 →
  StronglySorted (λ a b, (age rh a < age rh b)%nat) K0 →
  StronglySorted (λ a b, (age (e :: rh) a < age (e :: rh) b)%nat) (k0 :: K).
Proof.
  intros Ht Hn Hsub Hs.
  assert (∀ k, k ∈ K → touches e k = false) as Hf.
  { intros k Hk. destruct (touches e k) eqn:E; [|done].
    apply (touches_unique _ _ _ Ht) in E. by subst. }
  constructor.
  - clear Hn. revert K Hsub Hf. induction Hs as [|a K0 Hs IH Ha]; intros K Hsub Hf.
    + apply sublist_nil_r in Hsub as ->. constructor.
    + destruct K as [|b K]; [constructor|].
      apply sublist_cons_r in Hsub as [Hsub|(K' & [= -> ->] & Hsub)].
      * by apply IH.
      * constructor.
        -- apply IH; [done|]. intros k Hk. apply Hf. by right.
        -- rewrite Forall_forall in Ha |- *. intros x Hx. simpl.
           rewrite !Hf by (first [by left|by right]).
           apply -> Nat.succ_lt_mono. apply Ha.
           by eapply elem_of_sublist.
  - rewrite Forall_forall. intros x Hx. simpl.
    rewrite Ht, Hf by done. lia.
Qed.

Lemma age_sorted_keep e rh K K0 :
  (∀ k, touches e k = false) → sublist K K0 →
  StronglySorted (λ a b, (age rh a < age rh b)%nat) K0 →
  StronglySorted (λ a b, (age (e :: rh) a < age (e :: rh) b)%nat) K.
Proof.
  intros Hf Hsub Hs. revert K Hsub.
  induction Hs as [|a K0 Hs IH Ha]; intros K Hsub.
  - apply sublist_nil_r in Hsub as ->. constructor.
  - destruct K as [|b K]; [constructor|].
    apply sublist_cons_r in Hsub as [Hsub|(K' & [= -> ->] & Hsub)].
    + by apply IH.
    + constructor; [by apply IH|].
      rewrite Forall_forall in Ha |- *. intros x Hx. simpl. rewrite !Hf.
      apply -> Nat.succ_lt_mono. apply Ha.
      by eapply elem_of_sublist.
Qed.

Lemma age_sorted_NoDup rh K :
  StronglySorted (λ a b, (age rh a < age rh b)%nat) K → NoDup K.
Proof.
  induction 1 as [|a K Hs IH Ha]; constructor; [|done].
  intros Hin. rewrite Forall_forall in Ha.
  apply Ha in Hin. lia.
Qed.

(** With the default comparison and keys shorter than [2^32] bytes, the
    entry a lookup finds carries the key looked up. *)
Lemma glookup_key s G bs key g :
  Inv s G bs → c_compare_fn (st_cache s) = default_compare →
  Forall (λ g, blen (g_kb g) < 2 ^ 32) G → blen key < 2 ^ 32 →
  glookup (st_cache s) bs key = Some g → g_kb g = key.
Proof.
  intros HI Hc Hsh Hk Hl.
  destruct (glookup_Some _ _ _ _ _ HI Hl) as (Hin & Hm & _).
  unfold kmatch in Hm. rewrite Hc in Hm. apply Z.eqb_eq in Hm.
  apply default_compare_eq in Hm; [done| |done].
  rewrite Forall_forall in Hsh. by apply Hsh.
Qed.

Lemma glookup_None_key s G bs key :
  Inv s G bs → glookup (st_cache s) bs key = None → key ∉ g_kb <$> G.
Proof.
  intros HI Hl (g & -> & Hg)%list_elem_of_fmap.
  pose proof (proj1 (glookup_None_iff _ _ _ _ HI) Hl g Hg eq_refl) as Hm.
  unfold kmatch in Hm. destruct (inv_cmp _ _ _ HI) as [Hrefl _].
  by rewrite Hrefl in Hm.
Qed.

Lemma keys_move_front (Ga : list gnode) g Gb :
  NoDup (g_kb <$> Ga ++ g :: Gb) →
  (g_kb g ∉ g_kb <$> Ga ++ Gb) ∧
  sublist (g_kb <$> Ga ++ Gb) (g_kb <$> Ga ++ g :: Gb).
Proof.
  rewrite !fmap_app, fmap_cons. intros Hnd. split.
  - apply NoDup_app in Hnd as (_ & H1 & H2%NoDup_cons).
    intros [H|H]%elem_of_app; [|by destruct H2].
    apply (H1 _ H). by left.
  - apply sublist_app; [done|]. by apply sublist_cons.
Qed.

(** What one request does to the keys in recency order: a request that
    touches a key brings it to the front, so does a [get] that finds its
    key and fails to copy the value, and no other request reorders or adds
    keys. *)
Lemma step_keys s G bs o r s' G' bs' :
  step_rel s G bs o r s' G' bs' → Inv s G bs →
  c_compare_fn (st_cache s) = default_compare →
  short_keys o = true →
  Forall (λ g, blen (g_kb g) < 2 ^ 32) G →
  NoDup (g_kb <$> G) →
  Forall (λ g, blen (g_kb g) < 2 ^ 32) G' ∧
  ((∃ k0 K, g_kb <$> G' = k0 :: K ∧
            (touches (o, r) k0 = true ∨ failed_get (o, r) = true) ∧
            (k0 ∉ K) ∧ sublist K (g_kb <$> G)) ∨
   ((∀ k, touches (o, r) k = false) ∧ sublist (g_kb <$> G') (g_kb <$> G))).
Proof.
  intros Hst HI Hc Hsk Hsh Hnd.
  assert (∀ Ga Gb : list gnode, sublist (g_kb <$> Ga) (g_kb <$> Ga ++ Gb)) as Hpre.
  { intros Ga Gb. rewrite fmap_app. by apply sublist_inserts_r. }
  assert (∀ Ga Gb : list gnode,
            Forall (λ g, blen (g_kb g) < 2 ^ 32) (Ga ++ Gb) →
            Forall (λ g, blen (g_kb g) < 2 ^ 32) Ga) as Hfa.
  { intros Ga Gb H. by apply Forall_app in H as [? _]. }
  assert (∀ Ga g Gb,
            Forall (λ g, blen (g_kb g) < 2 ^ 32) (Ga ++ g :: Gb) →
            Forall (λ g, blen (g_kb g) < 2 ^ 32) (g :: Ga ++ Gb)) as Hfm.
  { intros Ga g Gb H. apply Forall_app in H as [? [? ?]%Forall_cons].
    constructor; [done|]. by apply Forall_app. }
  destruct Hst as [key value r s' G' bs' Hk Hv Hput|key value Hz
                  |key r out s' G' Hk Hget|key Hz
                  |key r out s' Hk Hpk|key Hz
                  |key r s' G' bs' Hk Hdel|key Hz
                  |key b s' Hk Hct|key Hz
                  |s' Hcl|n r s' G' bs' Hrs|fn ud| ];
    try (split; [done|right; split; [by intros k|done]]).
  - (* put *)
    simpl in Hsk. apply Z.ltb_lt in Hsk.
    destruct Hput as [s' Ga g Gb Hl -> Ho Hu Hor Hl'
                     |s' g Hl Ho Hu Hh Hor
                     |s' n Hl Ho Hu Hh Hor
                     |s' bs' Gk E g Hl -> Hev Hgk Hgv Hu Hfr Hor Hl'
                     |s' bs' Gk E Hl -> Hev Ho Hu Hfr Hor];
      try (split; [done|right; split; [by intros k|done]]).
    + pose proof (glookup_key _ _ _ _ _ HI Hc Hsh Hsk Hl) as Hg.
      destruct (keys_move_front _ _ _ Hnd) as [Hn Hsub].
      split.
      { apply Hfm in Hsh. apply Forall_cons in Hsh as [? ?]. by constructor. }
      left.
      exists key, (g_kb <$> Ga ++ Gb). rewrite fmap_cons. simpl.
      rewrite Hg in *. split_and!; [done| |done|done].
      first [by right|left; by apply bool_decide_eq_true].
    + split; [constructor; [by rewrite Hgk|by eapply Hfa]|]. left.
      exists key, (g_kb <$> Gk). rewrite fmap_cons, Hgk.
      split_and!; [done|left; by apply bool_decide_eq_true| |by apply Hpre].
      intros Hin. apply (glookup_None_key _ _ _ _ HI Hl).
      rewrite fmap_app. apply elem_of_app. by left.
    + split; [by eapply Hfa|]. right. split; [by intros k|by apply Hpre].
  - (* get *)
    simpl in Hsk. apply Z.ltb_lt in Hsk.
    destruct Hget as [s' Hl Hu Hh Hor
                     |s' Ga g Gb Hl -> Ho Hu Hh Hb Hor
                     |s' Ga g Gb Hl -> Ho Hu Hor];
      try (split; [done|right; split; [by intros k|done]]).
    + pose proof (glookup_key _ _ _ _ _ HI Hc Hsh Hsk Hl) as Hg.
      destruct (keys_move_front _ _ _ Hnd) as [Hn Hsub].
      split; [by apply (Hfm Ga g Gb)|]. left.
      exists key, (g_kb <$> Ga ++ Gb). rewrite fmap_cons.
      rewrite Hg in *. split_and!; [done| |done|done].
      first [by right|left; by apply bool_decide_eq_true].
    + pose proof (glookup_key _ _ _ _ _ HI Hc Hsh Hsk Hl) as Hg.
      destruct (keys_move_front _ _ _ Hnd) as [Hn Hsub].
      split; [by apply (Hfm Ga g Gb)|]. left.
      exists key, (g_kb <$> Ga ++ Gb). rewrite fmap_cons.
      rewrite Hg in *. split_and!; [done| |done|done].
      first [by right|left; by apply bool_decide_eq_true].
  - (* delete *)
    destruct Hdel as [s' Hl Hu Hh Hor|s' Ga g Gb Hl -> Hu Hor Hfr Hfd].
    + split; [done|right; split; [by intros k|done]].
    + split.
      * apply Forall_app in Hsh as [? [? ?]%Forall_cons]. by apply Forall_app.
      * right. split; [by intros k|]. rewrite !fmap_app, fmap_cons.
        apply sublist_app; [done|]. by apply sublist_cons.
  - (* clear *)
    split; [constructor|]. right. split; [by intros k|]. apply sublist_nil_l.
  - (* resize *)
    destruct Hrs as [Hn|s' G' E Hn -> Hlen Hev].
    + split; [done|right; split; [by intros k|done]].
    + split; [by eapply Hfa|]. right. split; [by intros k|by apply Hpre].
Qed.

(** What a [put] removes: nothing, or the last entry of the recency list
    of a full cache that does not hold the key. *)
Lemma put_victim s G bs key value r s' G' bs' :
  step_rel s G bs (Put key value) r s' G' bs' → Inv s G bs →
  ∀ k, k ∈ g_kb <$> G → k ∉ g_kb <$> G' →
       ∃ Gk t, G = Gk ++ [t] ∧ g_kb t = k ∧
               c_capacity (st_cache s) ≤ c_size (st_cache s) ∧
               key ∉ g_kb <$> G.
Proof.
  intros Hst HI k Hk Hn. inversion Hst as [? ? r' ? ? ? _ _ Hput| | | | | | | | | | | | | ];
    subst; [|done].
  assert (∀ Gk E, evicts s E → k ∈ g_kb <$> Gk ++ E → k ∉ g_kb <$> Gk →
            ∃ t, E = [t] ∧ g_kb t = k ∧
                 c_capacity (st_cache s) ≤ c_size (st_cache s)) as Hev.
  { intros Gk E [[-> _]|[Hle [t ->]]] Hin Hout.
    - by rewrite app_nil_r in Hin.
    - rewrite fmap_app in Hin. apply elem_of_app in Hin as [?|Hin]; [done|].
      apply list_elem_of_singleton in Hin. by exists t. }
  destruct Hput as [s' Ga g Gb Hl -> Ho Hu Hor Hl'
                   |s' g Hl Ho Hu Hh Hor
                   |s' n Hl Ho Hu Hh Hor
                   |s' bs' Gk E g Hl -> Hev' Hgk Hgv Hu Hfr Hor Hl'
                   |s' bs' Gk E Hl -> Hev' Ho Hu Hfr Hor]; try done.
  - exfalso. apply Hn. rewrite fmap_cons, fmap_app. simpl.
    rewrite fmap_app, fmap_cons in Hk. set_solver.
  - destruct (Hev Gk E Hev' Hk) as (t & -> & Ht & Hle).
    { intros H. apply Hn. rewrite fmap_cons. by right. }
    exists Gk, t. split_and!; [done..|]. by eapply glookup_None_key.
  - destruct (Hev Gk E Hev' Hk Hn) as (t & -> & Ht & Hle).
    exists Gk, t. split_and!; [done..|]. by eapply glookup_None_key.
Qed.

(** A successful [put] of a new key into a full cache drops the last key
    of the recency list and puts the new key in front. *)
Lemma put_full_new s G bs key value s' G' bs' :
  step_rel s G bs (Put key value) (RCode LRU_SUCCESS) s' G' bs' →
  Inv s G bs → c_compare_fn (st_cache s) = default_compare →
  Forall (λ g, blen (g_kb g) < 2 ^ 32) G → blen key < 2 ^ 32 →
  key ∉ g_kb <$> G →
  c_capacity (st_cache s) ≤ c_size (st_cache s) →
  ∃ Gk t, G = Gk ++ [t] ∧ g_kb <$> G' = key :: (g_kb <$> Gk).
Proof.
  intros Hst HI Hc Hsh Hsk Hnew Hfull.
  inversion Hst as [? ? r' ? ? ? Hk _ Hput| | | | | | | | | | | | | ]; subst.
  inversion Hput as [? Ga g Gb Hl HG Ho Hu Hor Hl'| | |
                     ? ? Gk E g Hl HG Hev' Hgk Hgv Hu Hfr Hor Hl'| ]; subst.
  - exfalso. apply Hnew.
    rewrite <- (glookup_key _ _ _ _ _ HI Hc Hsh Hsk Hl).
    apply list_elem_of_fmap_2. set_solver.
  - destruct Hev' as [[-> Hlt]|[_ [t ->]]]; [lia|].
    exists Gk, t. by rewrite fmap_cons.
Qed.

(** C1 (the code departs from it): a get that finds its key and then
    cannot allocate the copy of the value returns LRU_ERROR_NOMEM after it
    has moved the entry to the front.  In a cache of capacity 2, after
    put a, put b and such a get of a, the put of the new key c evicts b and
    keeps a, although of the two a is the key least recently touched by a
    put or a get that succeeded. *)
Theorem C1_failed_get_changes_victim :
  let oracle := [true; true; true; true; true; true; true; true; false] in
  let history :=
    [(Put key_a val_1, RCode LRU_SUCCESS);
     (Put key_b val_2, RCode LRU_SUCCESS);
     (Get key_a, RLookup LRU_ERROR_NOMEM (mk_out (Some 0) None))] in
  lru_cache_create 2 (true :: true :: oracle) =
    Some (Some (fresh_cache 2 2 oracle)) ∧
  observe (run [Put key_a val_1; Put key_b val_2; Get key_a]
             (fresh_cache 2 2 oracle)) =
    Some (mk_obs [Some LRU_SUCCESS; Some LRU_SUCCESS; Some LRU_ERROR_NOMEM]
            [None; None; None] [(key_a, val_1); (key_b, val_2)]
            (mk_stats 0 0 0 2 0 0 2 2) []) ∧
  observe (run [Put key_a val_1; Put key_b val_2; Get key_a; Put key_c val_3]
             (fresh_cache 2 2 oracle)) =
    Some (mk_obs [Some LRU_SUCCESS; Some LRU_SUCCESS; Some LRU_ERROR_NOMEM;
                  Some LRU_SUCCESS]
            [None; None; None; None] [(key_c, val_3); (key_a, val_1)]
            (mk_stats 0 0 1 3 0 1 2 2) []) ∧
  (age (rev history) key_b < age (rev history) key_a)%nat.
Proof. split_and!; [reflexivity|by vm_compute..]. Qed.

(** On a cache reached by requests whose keys are shorter than 2^32 bytes,
    a put drops a cached key only when its own key is new and the cache is
    full; the key it drops is the last of the recency order; if no get of
    the history has failed for lack of memory, that key is the one least
    recently touched by a put or a get that succeeded; and when such a put
    succeeds, the new key takes the front and the other keys keep their
    order. *)
Theorem put_evicts_least_recently_touched cap oracle s0 ops key value :
  0 ≤ cap < 2 ^ 51 →
  lru_cache_create cap oracle = Some (Some s0) →
  forallb op_ok ops = true →
  forallb short_keys ops = true →
  blen key < 2 ^ 32 →
  ∃ rs s r s',
    run ops s0 = Some (rs, s) ∧
    exec (Put key value) s = Some (r, s') ∧
    (∀ k, k ∈ cache_keys s → k ∉ cache_keys s' →
       (key ∉ cache_keys s) ∧
       c_size (st_cache s) = c_capacity (st_cache s) ∧
       last (cache_keys s) = Some k ∧
       (forallb (λ e, negb (failed_get e)) (zip ops rs) = true →
        ∀ k', k' ∈ cache_keys s → k' ≠ k →
              (age (rev (zip ops rs)) k' < age (rev (zip ops rs)) k)%nat)) ∧
    (key ∉ cache_keys s →
     c_size (st_cache s) = c_capacity (st_cache s) →
     r = RCode LRU_SUCCESS →
     ∃ K t, cache_keys s = K ++ [t] ∧ cache_keys s' = key :: K).
Proof.
  intros Hcap Hcr Hok Hshort Hkey.
  destruct (lru_cache_create_spec _ _ _ Hcap Hcr) as (HI0 & Hc0 & _).
  pose (I := λ (h : list (op * response)) (s : state) (G : list gnode)
               (_ : list (list gnode)),
         c_compare_fn (st_cache s) = default_compare ∧
         (forallb short_keys (h.*1) = true →
          Forall (λ g, blen (g_kb g) < 2 ^ 32) G ∧
          NoDup (g_kb <$> G) ∧
          (forallb (λ e, negb (failed_get e)) h = true →
           StronglySorted (λ a b, (age (rev h) a < age (rev h) b)%nat)
             (g_kb <$> G)))).
  destruct (reach_spec I cap oracle s0 ops Hcap Hcr Hok)
    as (rs & s & Hrun & G & bs & HI & Hle & Hcmp & Hsorted).
  { intros bs _. unfold I. rewrite Hc0. split; [done|].
    intros _. split_and!; [constructor|constructor|intros _; constructor]. }
  { unfold I. intros h s1 G bs o r s2 G' bs' [Hcmp Hh] HI1 _ _ Hst _ _.
    destruct (step_config _ _ _ _ _ _ _ _ Hst) as (_ & _ & Hc2 & _).
    split; [congruence|]. rewrite fmap_app, forallb_app. simpl.
    intros [Hsh [Ho _]%andb_true_iff]%andb_true_iff.
    destruct (Hh Hsh) as (Hf & Hnd & Hs).
    destruct (step_keys _ _ _ _ _ _ _ _ Hst HI1 Hcmp Ho Hf Hnd)
      as [Hf' Hcase].
    split; [done|]. split.
    { destruct Hcase as [(k0 & K & -> & _ & Hn & Hsub)|[_ Hsub]].
      - constructor; [done|]. by eapply sublist_NoDup.
      - by eapply sublist_NoDup. }
    rewrite forallb_app. cbn [forallb].
    intros [Hnf [Hnf1 _]%andb_true_iff]%andb_true_iff.
    apply negb_true_iff in Hnf1. specialize (Hs Hnf).
    rewrite rev_app_distr.
    change (rev [(o, r)] ++ rev h) with ((o, r) :: rev h).
    destruct Hcase as [(k0 & K & -> & [Ht|Ht] & Hn & Hsub)|[Ht Hsub]].
    - by eapply age_sorted_touch.
    - congruence.
    - by eapply age_sorted_keep. }
  pose proof (run_length _ _ _ _ Hrun) as Hlr.
  destruct Hsorted as (Hf & _ & Hs).
  { rewrite fst_zip by lia. done. }
  assert (wp (exec (Put key value)) s
            (λ r s', ∃ G' bs', Inv s' G' bs' ∧
                        step_rel s G bs (Put key value) r s' G' bs')) as Hwp.
  { eapply exec_spec; [done..|]. intros; eauto. }
  unfold wp in Hwp.
  destruct (exec (Put key value) s) as [[r s']|] eqn:Eex; [|done].
  destruct Hwp as (G' & bs' & HI' & Hst).
  exists rs, s, r, s'. split; [done|]. split; [done|].
  rewrite (Inv_cache_keys _ _ _ HI), (Inv_cache_keys _ _ _ HI'). split.
  - intros k Hk Hn.
    destruct (put_victim _ _ _ _ _ _ _ _ _ Hst HI k Hk Hn)
      as (Gk & t & -> & Ht & Hfull & Hnew).
    split; [done|]. split; [lia|]. rewrite fmap_app. simpl. rewrite Ht.
    split; [by rewrite last_snoc|].
    intros Hnf k' Hk' Hne. specialize (Hs Hnf).
    rewrite fmap_app in Hs. simpl in Hs. rewrite Ht in Hs.
    apply elem_of_app in Hk' as [Hk'|Hk'%list_elem_of_singleton]; [|done].
    clear -Hs Hk'. induction Gk as [|g Gk IH]; [by apply elem_of_nil in Hk'|].
    rewrite fmap_cons in Hs, Hk'. simpl in Hs.
    apply StronglySorted_inv in Hs as [Hs Ha].
    apply elem_of_cons in Hk' as [->|Hk']; [|by apply IH].
    rewrite Forall_forall in Ha. apply Ha. set_solver.
  - intros Hnew Hfull ->.
    destruct (put_full_new _ _ _ _ _ _ _ _ Hst HI Hcmp Hf Hkey Hnew)
      as (Gk & t & -> & HG'); [lia|].
    exists (g_kb <$> Gk), (g_kb t). by rewrite fmap_app.
Qed.

Lemma put_evicts_least_recently_touched_witness :
  ∃ rs s r s',
    run [Put key_a val_1; Put key_b val_2; Get key_a] (fresh_cache 2 2 []) =
      Some (rs, s) ∧
    exec (Put key_c val_3) s = Some (r, s') ∧
    (∀ k, k ∈ cache_keys s → k ∉ cache_keys s' →
       (key_c ∉ cache_keys s) ∧
       c_size (st_cache s) = c_capacity (st_cache s) ∧
       last (cache_keys s) = Some k ∧
       (forallb (λ e, negb (failed_get e))
          (zip [Put key_a val_1; Put key_b val_2; Get key_a] rs) = true →
        ∀ k', k' ∈ cache_keys s → k' ≠ k →
              (age (rev (zip [Put key_a val_1; Put key_b val_2; Get key_a] rs))
                 k' <
               age (rev (zip [Put key_a val_1; Put key_b val_2; Get key_a] rs))
                 k)%nat)) ∧
    (key_c ∉ cache_keys s →
     c_size (st_cache s) = c_capacity (st_cache s) →
     r = RCode LRU_SUCCESS →
     ∃ K t, cache_keys s = K ++ [t] ∧ cache_keys s' = key_c :: K).
Proof.
  apply (put_evicts_least_recently_touched 2 [] (fresh_cache 2 2 []));
    [lia|reflexivity|reflexivity|reflexivity|by vm_compute].
Defined.
(** ** The cached pairs under each request *)

Lemma chain_distinct_key_inj c es g1 g2 :
  cmp_ok (c_compare_fn c) → chain_distinct c es →
  g1 ∈ es → g2 ∈ es → g_kb g1 = g_kb g2 → g1 = g2.
Proof.
  intros [Hrefl _]. induction es as [|g es IH]; intros Hcd H1 H2 Hk.
  - by apply elem_of_nil in H1.
  - destruct Hcd as [Hf Hcd]. rewrite Forall_forall in Hf.
    apply elem_of_cons in H1 as [->|H1]; apply elem_of_cons in H2 as [->|H2].
    + done.
    + exfalso. specialize (Hf _ H2). unfold kmatch in Hf.
      by rewrite <- Hk, Hrefl in Hf.
    + exfalso. specialize (Hf _ H1). unfold kmatch in Hf.
      by rewrite Hk, Hrefl in Hf.
    + by apply IH.
Qed.

(** No two entries of a cache carry the same key. *)
Lemma Inv_keys_NoDup s G bs : Inv s G bs → NoDup (g_kb <$> G).
Proof.
  intros HI. apply NoDup_fmap_2_strong.
  - intros g1 g2 H1 H2 Hk.
    destruct (Inv_locate _ _ _ _ HI H1) as (l1 & l2 & Hl1).
    destruct (Inv_locate _ _ _ _ HI H2) as (l1' & l2' & Hl2).
    rewrite Hk, Hl2 in Hl1.
    destruct (inv_table _ _ _ HI) as (_ & _ & _ & Hbs).
    destruct (Hbs _ _ Hl2) as (_ & _ & _ & Hcd).
    eapply chain_distinct_key_inj; [apply HI|exact Hcd| | |done].
    + injection Hl1 as ->. set_solver.
    + set_solver.
  - eapply NoDup_fmap_1. apply HI.
Qed.

Lemma items_of_app G1 G2 : items_of (G1 ++ G2) = items_of G1 ++ items_of G2.
Proof. unfold items_of. by rewrite fmap_app. Qed.

Lemma items_of_keys G : (items_of G).*1 = g_kb <$> G.
Proof. unfold items_of. by rewrite <- list_fmap_compose. Qed.

Lemma filter_key_absent (key : bytes) G :
  key ∉ g_kb <$> G →
  filter (λ kv : bytes * bytes, kv.1 ≠ key) (items_of G) = items_of G.
Proof.
  induction G as [|g G IH]; [done|]. rewrite fmap_cons. intros Hn.
  apply not_elem_of_cons in Hn as [Hne Hn]. unfold items_of in *.
  rewrite fmap_cons, filter_cons_True by (simpl; congruence).
  by rewrite IH.
Qed.

(** Dropping the one entry that carries [key]. *)
Lemma filter_key_remove (Ga : list gnode) g Gb :
  NoDup (g_kb <$> Ga ++ g :: Gb) →
  filter (λ kv : bytes * bytes, kv.1 ≠ g_kb g) (items_of (Ga ++ g :: Gb)) =
  items_of (Ga ++ Gb).
Proof.
  intros Hnd. rewrite fmap_app, fmap_cons in Hnd.
  apply NoDup_app in Hnd as (_ & H1 & [H2 _]%NoDup_cons).
  rewrite !items_of_app, filter_app. unfold items_of at 2. rewrite fmap_cons.
  rewrite filter_cons_False by (simpl; tauto).
  rewrite !filter_key_absent; [done|done|].
  intros Hin. apply (H1 _ Hin). by left.
Qed.

Lemma items_of_lookup_key G g :
  g ∈ G → (g_kb g, g_vb g) ∈ items_of G.
Proof. intros H. unfold items_of. by apply (list_elem_of_fmap_2 (λ g, (g_kb g, g_vb g))). Qed.

(** What each request does to the cached pairs, given in recency order,
    for the default comparison and keys shorter than [2^32] bytes. *)
Lemma step_items s G bs o r s' G' bs' :
  step_rel s G bs o r s' G' bs' → Inv s G bs →
  c_size (st_cache s) ≤ c_capacity (st_cache s) →
  c_compare_fn (st_cache s) = default_compare →
  short_key o = true →
  Forall (λ g, blen (g_kb g) < 2 ^ 32) G →
  match o, r with
  | Put k v, RCode LRU_SUCCESS =>
      items_of G' =
      (k, v) :: take (Z.to_nat (c_capacity (st_cache s) - 1))
                  (filter (λ kv : bytes * bytes, kv.1 ≠ k) (items_of G))
  | Put k v, RCode LRU_ERROR_NOMEM =>
      items_of G' = items_of G ∨
      ((k ∉ g_kb <$> G) ∧ c_size (st_cache s) = c_capacity (st_cache s) ∧
       items_of G' = take (Z.to_nat (c_capacity (st_cache s) - 1)) (items_of G))
  | Get k, RLookup LRU_SUCCESS out =>
      ∃ v, (k, v) ∈ items_of G ∧ out_bytes s' out = Some v ∧
           items_of G' =
           (k, v) :: filter (λ kv : bytes * bytes, kv.1 ≠ k) (items_of G)
  | Get k, RLookup LRU_ERROR_NOMEM out =>
      ∃ v, (k, v) ∈ items_of G ∧
           items_of G' =
           (k, v) :: filter (λ kv : bytes * bytes, kv.1 ≠ k) (items_of G)
  | Get k, RLookup LRU_ERROR_NOT_FOUND out =>
      (k ∉ g_kb <$> G) ∧ 0 < blen k ∧ items_of G' = items_of G
  | Peek k, RLookup LRU_SUCCESS out =>
      ∃ v, (k, v) ∈ items_of G ∧ out_bytes s' out = Some v ∧
           items_of G' = items_of G
  | Peek k, RLookup LRU_ERROR_NOMEM out =>
      k ∈ g_kb <$> G ∧ items_of G' = items_of G
  | Peek k, RLookup LRU_ERROR_NOT_FOUND out =>
      (k ∉ g_kb <$> G) ∧ 0 < blen k ∧ items_of G' = items_of G
  | Delete k, RCode LRU_SUCCESS =>
      k ∈ g_kb <$> G ∧
      items_of G' = filter (λ kv : bytes * bytes, kv.1 ≠ k) (items_of G)
  | Delete k, RCode LRU_ERROR_NOT_FOUND =>
      (k ∉ g_kb <$> G) ∧ 0 < blen k ∧ items_of G' = items_of G
  | Contains k, RBool true => k ∈ g_kb <$> G ∧ items_of G' = items_of G
  | Contains k, RBool false =>
      (0 < blen k → k ∉ g_kb <$> G) ∧ items_of G' = items_of G
  | Resize n, RCode LRU_SUCCESS =>
      1 ≤ n ∧ items_of G' = take (Z.to_nat n) (items_of G)
  | Clear, _ => items_of G' = []
  | _, _ => items_of G' = items_of G
  end.
Proof.
  intros Hst HI Hle Hc Hsk Hsh.
  pose proof (Inv_keys_NoDup _ _ _ HI) as Hnd.
  pose proof (inv_size _ _ _ HI) as Hsz.
  assert (∀ key g, blen key < 2 ^ 32 →
            glookup (st_cache s) bs key = Some g →
            g ∈ G ∧ g_kb g = key) as Hfound.
  { intros key g Hk Hl. split; [by eapply glookup_Some|by eapply glookup_key]. }
  destruct Hst as [key value r s' G' bs' Hk Hv Hput|key value Hz
                  |key r out s' G' Hk Hget|key Hz
                  |key r out s' Hk Hpk|key Hz
                  |key r s' G' bs' Hk Hdel|key Hz
                  |key b s' Hk Hct|key Hz
                  |s' Hcl|n r s' G' bs' Hrs|fn ud| ];
    try done; try (split; [lia|done]);
    simpl in Hsk; try apply Z.ltb_lt in Hsk.
  - (* put *)
    destruct Hput as [s' Ga g Gb Hl -> Ho Hu Hor Hl'
                     |s' g Hl Ho Hu Hh Hor
                     |s' n Hl Ho Hu Hh Hor
                     |s' bs' Gk E g Hl -> Hev Hgk Hgv Hu Hfr Hor Hl'
                     |s' bs' Gk E Hl -> Hev Ho Hu Hfr Hor].
    + destruct (Hfound _ _ Hsk Hl) as [_ <-].
      rewrite filter_key_remove by done.
      rewrite take_ge.
      * done.
      * unfold items_of. rewrite length_fmap. rewrite !length_app in *.
        simpl in *. lia.
    + by left.
    + by left.
    + pose proof (glookup_None_key _ _ _ _ HI Hl) as Hnew.
      rewrite filter_key_absent by done. unfold items_of at 1.
      rewrite fmap_cons, Hgk, Hgv. f_equal. rewrite items_of_app.
      rewrite length_app in Hsz.
      destruct Hev as [[-> Hlt]|[Hge [t ->]]].
      * simpl. rewrite app_nil_r, take_ge; [done|].
        unfold items_of. rewrite length_fmap. simpl in Hsz. lia.
      * rewrite take_app_length'; [done|].
        unfold items_of. rewrite length_fmap. simpl in Hsz. lia.
    + pose proof (glookup_None_key _ _ _ _ HI Hl) as Hnew.
      rewrite length_app in Hsz.
      destruct Hev as [[-> Hlt]|[Hge [t ->]]].
      * left. by rewrite app_nil_r.
      * right. split; [done|]. split; [lia|]. rewrite items_of_app.
        rewrite take_app_length'; [done|].
        unfold items_of. rewrite length_fmap. simpl in Hsz. lia.
  - (* get *)
    destruct Hget as [s' Hl Hu Hh Hor
                     |s' Ga g Gb Hl -> Ho Hu Hh Hb Hor
                     |s' Ga g Gb Hl -> Ho Hu Hor].
    + split; [by eapply glookup_None_key|done].
    + destruct (Hfound _ _ Hsk Hl) as [Hin <-].
      exists (g_vb g). split; [by apply items_of_lookup_key|]. split.
      * unfold out_bytes, buf_at. simpl. rewrite Hh. by rewrite take_blen.
      * rewrite filter_key_remove by done. done.
    + destruct (Hfound _ _ Hsk Hl) as [Hin <-].
      exists (g_vb g). split; [by apply items_of_lookup_key|].
      rewrite filter_key_remove by done. done.
  - (* peek *)
    destruct Hpk as [s' Hl Hu Hh Hor|s' g Hl Ho Hu Hh Hb Hor|s' g Hl Ho Hu Hh Hor].
    + split; [by eapply glookup_None_key|done].
    + destruct (Hfound _ _ Hsk Hl) as [Hin <-].
      exists (g_vb g). split; [by apply items_of_lookup_key|]. split; [|done].
      unfold out_bytes, buf_at. simpl. rewrite Hh, lookup_insert_eq.
      by rewrite take_blen.
    + destruct (Hfound _ _ Hsk Hl) as [Hin <-].
      split; [|done]. by apply list_elem_of_fmap_2.
  - (* delete *)
    destruct Hdel as [s' Hl Hu Hh Hor|s' Ga g Gb Hl -> Hu Hor Hfr Hfd].
    + split; [by eapply glookup_None_key|done].
    + destruct (Hfound _ _ Hsk Hl) as [Hin <-].
      split; [by apply list_elem_of_fmap_2|].
      by rewrite filter_key_remove.
  - (* contains *)
    destruct Hct as (-> & _).
    destruct (glookup (st_cache s) bs key) as [g|] eqn:Hl.
    + rewrite bool_decide_eq_true_2 by eauto.
      destruct (Hfound _ _ Hsk Hl) as [Hin <-].
      split; [|done]. by apply list_elem_of_fmap_2.
    + rewrite bool_decide_eq_false_2 by (by intros [? ?]).
      split; [|done]. intros _. by eapply glookup_None_key.
  - (* resize *)
    destruct Hrs as [Hn|s' G' E Hn -> Hlen Hev]; [done|].
    split; [done|]. rewrite items_of_app. rewrite length_app in Hlen.
    destruct (Z.min_spec (Z.of_nat (length G' + length E)) n) as [[? Hm]|[? Hm]];
      rewrite <- Hlen in Hm.
    + assert (E = []) as -> by (apply length_zero_iff_nil; lia).
      rewrite app_nil_r, take_ge; [done|].
      unfold items_of. rewrite length_fmap. simpl in *. lia.
    + rewrite take_app_length'; [done|].
      unfold items_of. rewrite length_fmap. lia.
Qed.

(** Every request is defined on a well-formed cache and leads to one. *)
Lemma exec_step s G bs o :
  Inv s G bs → c_size (st_cache s) ≤ c_capacity (st_cache s) →
  op_ok o = true →
  ∃ r s' G' bs',
    exec o s = Some (r, s') ∧ Inv s' G' bs' ∧
    c_size (st_cache s') ≤ c_capacity (st_cache s') ∧
    step_rel s G bs o r s' G' bs'.
Proof.
  intros HI Hle Hok.
  assert (wp (exec o) s
            (λ r s', ∃ G' bs', Inv s' G' bs' ∧
               c_size (st_cache s') ≤ c_capacity (st_cache s') ∧
               step_rel s G bs o r s' G' bs')) as Hwp.
  { eapply exec_spec; [done..|]. intros; eauto 10. }
  unfold wp in Hwp. destruct (exec o s) as [[r s']|]; [|done].
  destruct Hwp as (G' & bs' & ? & ? & ?). by exists r, s', G', bs'.
Qed.

(** The caches a client can reach from [lru_cache_create]. *)
Lemma reach_inv cap oracle s0 ops :
  0 ≤ cap < 2 ^ 51 →
  lru_cache_create cap oracle = Some (Some s0) →
  forallb op_ok ops = true →
  ∃ rs s G bs,
    run ops s0 = Some (rs, s) ∧ Inv s G bs ∧
    c_size (st_cache s) ≤ c_capacity (st_cache s) ∧
    c_compare_fn (st_cache s) = default_compare ∧
    c_track_stats (st_cache s) = true ∧
    (forallb short_keys ops = true →
     Forall (λ g, blen (g_kb g) < 2 ^ 32) G).
Proof.
  intros Hcap Hcr Hok.
  destruct (lru_cache_create_spec _ _ _ Hcap Hcr) as (HI0 & Hc0 & _).
  pose (I := λ (h : list (op * response)) (s : state) (G : list gnode)
               (_ : list (list gnode)),
         c_compare_fn (st_cache s) = default_compare ∧
         c_track_stats (st_cache s) = true ∧
         (forallb short_keys (h.*1) = true →
          Forall (λ g, blen (g_kb g) < 2 ^ 32) G)).
  destruct (reach_spec I cap oracle s0 ops Hcap Hcr Hok)
    as (rs & s & Hrun & G & bs & HI & Hle & Hcmp & Htr & Hsh).
  { intros bs _. unfold I. rewrite Hc0. split_and!; [done..|].
    intros _. constructor. }
  { unfold I. intros h s1 G bs o r s2 G' bs' (Hcmp & Htr & Hh) HI1 _ _ Hst _ _.
    destruct (step_config _ _ _ _ _ _ _ _ Hst) as (_ & _ & Hc2 & Ht2).
    split_and!; [congruence..|]. rewrite fmap_app, forallb_app. simpl.
    intros [Hsh [Ho _]%andb_true_iff]%andb_true_iff.
    by destruct (step_keys _ _ _ _ _ _ _ _ Hst HI1 Hcmp Ho (Hh Hsh)
                   (Inv_keys_NoDup _ _ _ HI1)) as [Hf' _]. }
  exists rs, s, G, bs. split_and!; [done..|].
  intros Hshort. apply Hsh. rewrite fst_zip; [done|].
  rewrite (run_length _ _ _ _ Hrun). lia.
Qed.
(** ** Requests on a reachable cache *)

(** The result codes of each request, and when a request is rejected. *)
Lemma step_response s G bs o r s' G' bs' :
  step_rel s G bs o r s' G' bs' →
  match o with
  | Put k v =>
      (r = RCode LRU_ERROR_INVALID_ARG ∧ (blen k = 0 ∨ blen v = 0) ∧ s' = s) ∨
      (0 < blen k ∧ 0 < blen v ∧
       (r = RCode LRU_SUCCESS ∨
        (r = RCode LRU_ERROR_NOMEM ∧ false ∈ st_oracle s)))
  | Get k | Peek k =>
      (r = RLookup LRU_ERROR_INVALID_ARG (mk_out None None) ∧ blen k = 0 ∧
       s' = s) ∨
      (0 < blen k ∧
       ∃ out, r = RLookup LRU_SUCCESS out ∨
              (r = RLookup LRU_ERROR_NOMEM out ∧ false ∈ st_oracle s) ∨
              r = RLookup LRU_ERROR_NOT_FOUND out)
  | Delete k =>
      (r = RCode LRU_ERROR_INVALID_ARG ∧ blen k = 0 ∧ s' = s) ∨
      (0 < blen k ∧ (r = RCode LRU_SUCCESS ∨ r = RCode LRU_ERROR_NOT_FOUND))
  | Contains k => ∃ b, r = RBool b ∧ (blen k = 0 → b = false ∧ s' = s)
  | Resize n =>
      (n < 1 ∧ r = RCode LRU_ERROR_INVALID_ARG ∧ s' = s) ∨
      (1 ≤ n ∧ r = RCode LRU_SUCCESS)
  | SetEvictionCallback _ _ => r = RCode LRU_SUCCESS
  | Clear | ResetStats => r = RUnit
  end.
Proof.
  intros Hst.
  destruct Hst as [key value r s' G' bs' Hk Hv Hput|key value Hz
                  |key r out s' G' Hk Hget|key Hz
                  |key r out s' Hk Hpk|key Hz
                  |key r s' G' bs' Hk Hdel|key Hz
                  |key b s' Hk Hct|key Hz
                  |s' Hcl|n r s' G' bs' Hrs|fn ud| ]; try done.
  - right. split; [done|]. split; [done|].
    destruct Hput; first [by left|right; split; [done|]];
      first [done|by apply oracle_head_false].
  - by left.
  - right. split; [done|]. exists out.
    destruct Hget; first [by left|by right; right|right; left; split; [done|]].
    by apply oracle_head_false.
  - by left.
  - right. split; [done|]. exists out.
    destruct Hpk; first [by left|by right; right|right; left; split; [done|]].
    by apply oracle_head_false.
  - by left.
  - right. split; [done|]. destruct Hdel; [by right|by left].
  - by left.
  - exists b. split; [done|]. lia.
  - by exists false.
  - destruct Hrs; [by left|by right].
Qed.

Ltac reach_exec Hcap Hcr Hok o :=
  let rs := fresh "rs" in
  destruct (reach_inv _ _ _ _ Hcap Hcr Hok)
    as (rs & s & G & bs & Hrun & HI & Hle & Hcmp & Htr & Hsh);
  destruct (exec_step s G bs o HI Hle eq_refl)
    as (r & s' & G' & bs' & Hex & HI' & Hle' & Hst);
  pose proof (Inv_cache_items _ _ _ HI) as Hit;
  pose proof (Inv_cache_items _ _ _ HI') as Hit';
  pose proof (Inv_cache_keys _ _ _ HI) as Hks;
  exists rs, s, r, s'; split; [done|]; split; [done|].

(** A successful [put] stores its pair at the front of the recency order,
    drops the pair stored under the same key, and keeps the other pairs in
    their order, cut to capacity - 1 of them; a [put] is rejected exactly
    when the key or the value is empty, and succeeds otherwise as long as
    no allocation fails. *)
Theorem put_success_cached_pairs cap oracle s0 ops key value :
  0 ≤ cap < 2 ^ 51 →
  lru_cache_create cap oracle = Some (Some s0) →
  forallb op_ok ops = true →
  forallb short_keys ops = true →
  blen key < 2 ^ 32 →
  ∃ rs s r s',
    run ops s0 = Some (rs, s) ∧
    exec (Put key value) s = Some (r, s') ∧
    (r = RCode LRU_SUCCESS →
     cache_items s' =
     (key, value) ::
       take (Z.to_nat (c_capacity (st_cache s) - 1))
         (filter (λ kv : bytes * bytes, kv.1 ≠ key) (cache_items s))) ∧
    (r = RCode LRU_ERROR_INVALID_ARG ↔ blen key = 0 ∨ blen value = 0) ∧
    (0 < blen key → 0 < blen value → forallb id (st_oracle s) = true →
     r = RCode LRU_SUCCESS).
Proof.
  intros Hcap Hcr Hok Hshort Hkey.
  reach_exec Hcap Hcr Hok (Put key value).
  pose proof (step_items _ _ _ _ _ _ _ _ Hst HI Hle Hcmp
                (proj2 (Z.ltb_lt _ _) Hkey) (Hsh Hshort)) as Hi.
  pose proof (step_response _ _ _ _ _ _ _ _ Hst) as Hr. simpl in Hr.
  split_and!.
  - intros ->. by rewrite Hit, Hit'.
  - destruct Hr as [(-> & Hz & _)|(Hk & Hv & [->| [-> _]])].
    + done.
    + split; [done|lia].
    + split; [done|lia].
  - intros Hk Hv Ho. destruct Hr as [(_ & Hz & _)|(_ & _ & [->| [_ Hf]])].
    + lia.
    + done.
    + by apply all_true_no_false in Hf.
Qed.

Lemma put_success_cached_pairs_witness :
  ∃ rs s r s',
    run [Put key_a val_1; Put key_b val_2; Get key_a] (fresh_cache 2 2 []) =
      Some (rs, s) ∧
    exec (Put key_c val_3) s = Some (r, s') ∧
    (r = RCode LRU_SUCCESS →
     cache_items s' =
     (key_c, val_3) ::
       take (Z.to_nat (c_capacity (st_cache s) - 1))
         (filter (λ kv : bytes * bytes, kv.1 ≠ key_c) (cache_items s))) ∧
    (r = RCode LRU_ERROR_INVALID_ARG ↔ blen key_c = 0 ∨ blen val_3 = 0) ∧
    (0 < blen key_c → 0 < blen val_3 → forallb id (st_oracle s) = true →
     r = RCode LRU_SUCCESS).
Proof.
  apply (put_success_cached_pairs 2 [] (fresh_cache 2 2 []));
    [lia|reflexivity|reflexivity|reflexivity|by vm_compute].
Defined.

(** A [put] that returns LRU_ERROR_NOMEM has met a refused allocation, and
    it has done one of two things to the cached pairs: it has left them
    and their order as they were, or it has dropped the least recently
    used pair and nothing else.  It can have dropped that pair only if its
    key was not cached and the cache was full. *)
Theorem put_nomem_cached_pairs cap oracle s0 ops key value :
  0 ≤ cap < 2 ^ 51 →
  lru_cache_create cap oracle = Some (Some s0) →
  forallb op_ok ops = true →
  ∃ rs s r s',
    run ops s0 = Some (rs, s) ∧
    exec (Put key value) s = Some (r, s') ∧
    (r = RCode LRU_ERROR_NOMEM →
     (false ∈ st_oracle s) ∧
     (cache_items s' = cache_items s ∨
      ((key ∉ cache_keys s) ∧
       c_size (st_cache s) = c_capacity (st_cache s) ∧
       cache_items s' =
         take (Z.to_nat (c_capacity (st_cache s) - 1)) (cache_items s)))).
Proof.
  intros Hcap Hcr Hok.
  destruct (reach_inv _ _ _ _ Hcap Hcr Hok)
    as (rs & s & G & bs & Hrun & HI & Hle & _).
  destruct (exec_step s G bs (Put key value) HI Hle eq_refl)
    as (r & s' & G' & bs' & Hex & HI' & _ & Hst).
  exists rs, s, r, s'. split; [done|]. split; [done|].
  pose proof (step_response _ _ _ _ _ _ _ _ Hst) as Hr. simpl in Hr.
  intros ->. split.
  { destruct Hr as [(? & _)|(_ & _ & [?|[_ ?]])]; done. }
  rewrite (Inv_cache_items _ _ _ HI), (Inv_cache_items _ _ _ HI'),
    (Inv_cache_keys _ _ _ HI).
  pose proof (inv_size _ _ _ HI) as Hsz.
  inversion Hst as [? ? r' ? ? ? _ _ Hput| | | | | | | | | | | | | ]; subst.
  inversion Hput as [|? g Hl|? n Hl| |? ? Gk E Hl HG Hev]; subst;
    [by left|by left|].
  destruct Hev as [[-> Hlt]|[Hge [t ->]]].
  - left. by rewrite app_nil_r.
  - right. split; [by eapply glookup_None_key|]. split; [lia|].
    rewrite items_of_app, take_app_length'; [done|].
    unfold items_of. rewrite length_fmap. rewrite length_app in Hsz.
    simpl in Hsz. lia.
Qed.

Lemma put_nomem_cached_pairs_witness :
  ∃ rs s r s',
    run [Put key_a val_1] (fresh_cache 1 1 [true; true; true; true; true;
                                             true; true; false]) =
      Some (rs, s) ∧
    exec (Put key_b val_2) s = Some (r, s') ∧
    (r = RCode LRU_ERROR_NOMEM →
     (false ∈ st_oracle s) ∧
     (cache_items s' = cache_items s ∨
      ((key_b ∉ cache_keys s) ∧
       c_size (st_cache s) = c_capacity (st_cache s) ∧
       cache_items s' =
         take (Z.to_nat (c_capacity (st_cache s) - 1)) (cache_items s)))).
Proof.
  apply (put_nomem_cached_pairs 1
           [true; true; true; true; true; true; true; true; true; false]
           (fresh_cache 1 1 [true; true; true; true; true; true; true; false]));
    [lia|reflexivity|reflexivity].
Defined.

(** A [get] finds a key exactly when it is cached.  A successful one hands
    the caller a copy of the cached value and moves the pair to the front
    of the recency order, the other pairs keeping their order; a [get] of
    a key that is not cached returns [LRU_ERROR_NOT_FOUND] and leaves the
    pairs as they were. *)
Theorem get_cached_pairs cap oracle s0 ops key :
  0 ≤ cap < 2 ^ 51 →
  lru_cache_create cap oracle = Some (Some s0) →
  forallb op_ok ops = true →
  forallb short_keys ops = true →
  0 < blen key < 2 ^ 32 →
  ∃ rs s r s',
    run ops s0 = Some (rs, s) ∧
    exec (Get key) s = Some (r, s') ∧
    (∀ out, r = RLookup LRU_SUCCESS out →
       ∃ v, (key, v) ∈ cache_items s ∧ out_bytes s' out = Some v ∧
            cache_items s' =
            (key, v) ::
              filter (λ kv : bytes * bytes, kv.1 ≠ key) (cache_items s)) ∧
    ((∃ out, r = RLookup LRU_ERROR_NOT_FOUND out) ↔ key ∉ cache_keys s) ∧
    (key ∉ cache_keys s → cache_items s' = cache_items s) ∧
    (key ∈ cache_keys s → forallb id (st_oracle s) = true →
     ∃ out, r = RLookup LRU_SUCCESS out).
Proof.
  intros Hcap Hcr Hok Hshort [Hk0 Hkey].
  reach_exec Hcap Hcr Hok (Get key).
  pose proof (step_items _ _ _ _ _ _ _ _ Hst HI Hle Hcmp
                (proj2 (Z.ltb_lt _ _) Hkey) (Hsh Hshort)) as Hi.
  pose proof (step_response _ _ _ _ _ _ _ _ Hst) as Hr. simpl in Hr.
  rewrite Hit, Hit', Hks.
  assert (∀ v, (key, v) ∈ items_of G → key ∈ g_kb <$> G) as Hin.
  { intros v Hv. rewrite <- items_of_keys.
    by apply (list_elem_of_fmap_2 fst) in Hv. }
  destruct Hr as [(_ & Hz & _)|(_ & out & [->|[[-> Hf]| ->]])]; [lia|..].
  - destruct Hi as (v & Hv & Hob & Hi). split_and!.
    + intros out' [= <-]. by exists v.
    + split; [by intros [? [=]]|]. intros Hn. destruct Hn. by eapply Hin.
    + intros Hn. destruct Hn. by eapply Hin.
    + intros _ _. by exists out.
  - destruct Hi as (v & Hv & Hi). split_and!.
    + by intros out' [=].
    + split; [by intros [? [=]]|]. intros Hn. destruct Hn. by eapply Hin.
    + intros Hn. destruct Hn. by eapply Hin.
    + intros _ Ho. by apply all_true_no_false in Hf.
  - destruct Hi as (Hn & _ & Hi). split_and!.
    + by intros out' [=].
    + split; [done|]. intros _. by exists out.
    + done.
    + done.
Qed.

Lemma get_cached_pairs_witness :
  ∃ rs s r s',
    run [Put key_a val_1; Put key_b val_2] (fresh_cache 2 2 []) =
      Some (rs, s) ∧
    exec (Get key_a) s = Some (r, s') ∧
    (∀ out, r = RLookup LRU_SUCCESS out →
       ∃ v, (key_a, v) ∈ cache_items s ∧ out_bytes s' out = Some v ∧
            cache_items s' =
            (key_a, v) ::
              filter (λ kv : bytes * bytes, kv.1 ≠ key_a) (cache_items s)) ∧
    ((∃ out, r = RLookup LRU_ERROR_NOT_FOUND out) ↔ key_a ∉ cache_keys s) ∧
    (key_a ∉ cache_keys s → cache_items s' = cache_items s) ∧
    (key_a ∈ cache_keys s → forallb id (st_oracle s) = true →
     ∃ out, r = RLookup LRU_SUCCESS out).
Proof.
  apply (get_cached_pairs 2 [] (fresh_cache 2 2 []));
    [lia|reflexivity|reflexivity|reflexivity|by vm_compute].
Defined.
(** A [peek] finds a key exactly when it is cached; a successful one hands
    the caller a copy of the cached value; and whatever it returns, the
    cached pairs and their order stay as they were. *)
Theorem peek_cached_value cap oracle s0 ops key :
  0 ≤ cap < 2 ^ 51 →
  lru_cache_create cap oracle = Some (Some s0) →
  forallb op_ok ops = true →
  forallb short_keys ops = true →
  0 < blen key < 2 ^ 32 →
  ∃ rs s r s',
    run ops s0 = Some (rs, s) ∧
    exec (Peek key) s = Some (r, s') ∧
    cache_items s' = cache_items s ∧
    (∀ out, r = RLookup LRU_SUCCESS out →
       ∃ v, (key, v) ∈ cache_items s ∧ out_bytes s' out = Some v) ∧
    ((∃ out, r = RLookup LRU_ERROR_NOT_FOUND out) ↔ key ∉ cache_keys s) ∧
    (key ∈ cache_keys s → forallb id (st_oracle s) = true →
     ∃ out, r = RLookup LRU_SUCCESS out).
Proof.
  intros Hcap Hcr Hok Hshort [Hk0 Hkey].
  reach_exec Hcap Hcr Hok (Peek key).
  pose proof (step_items _ _ _ _ _ _ _ _ Hst HI Hle Hcmp
                (proj2 (Z.ltb_lt _ _) Hkey) (Hsh Hshort)) as Hi.
  pose proof (step_response _ _ _ _ _ _ _ _ Hst) as Hr. simpl in Hr.
  rewrite Hit, Hit', Hks.
  assert (∀ v, (key, v) ∈ items_of G → key ∈ g_kb <$> G) as Hin.
  { intros v Hv. rewrite <- items_of_keys.
    by apply (list_elem_of_fmap_2 fst) in Hv. }
  destruct Hr as [(_ & Hz & _)|(_ & out & [->|[[-> Hf]| ->]])]; [lia|..].
  - destruct Hi as (v & Hv & Hob & Hi). split_and!.
    + done.
    + intros out' [= <-]. by exists v.
    + split; [by intros [? [=]]|]. intros Hn. destruct Hn. by eapply Hin.
    + intros _ _. by exists out.
  - destruct Hi as (Hv & Hi). split_and!.
    + done.
    + by intros out' [=].
    + split; [by intros [? [=]]|]. by intros Hn.
    + intros _ Ho. by apply all_true_no_false in Hf.
  - destruct Hi as (Hn & _ & Hi). split_and!.
    + done.
    + by intros out' [=].
    + split; [done|]. intros _. by exists out.
    + done.
Qed.

Lemma peek_cached_value_witness :
  ∃ rs s r s',
    run [Put key_a val_1; Put key_b val_2] (fresh_cache 2 2 []) =
      Some (rs, s) ∧
    exec (Peek key_a) s = Some (r, s') ∧
    cache_items s' = cache_items s ∧
    (∀ out, r = RLookup LRU_SUCCESS out →
       ∃ v, (key_a, v) ∈ cache_items s ∧ out_bytes s' out = Some v) ∧
    ((∃ out, r = RLookup LRU_ERROR_NOT_FOUND out) ↔ key_a ∉ cache_keys s) ∧
    (key_a ∈ cache_keys s → forallb id (st_oracle s) = true →
     ∃ out, r = RLookup LRU_SUCCESS out).
Proof.
  apply (peek_cached_value 2 [] (fresh_cache 2 2 []));
    [lia|reflexivity|reflexivity|reflexivity|by vm_compute].
Defined.

(** [contains] answers whether the key is cached, and changes neither the
    cached pairs nor their order. *)
Theorem contains_iff_cached cap oracle s0 ops key :
  0 ≤ cap < 2 ^ 51 →
  lru_cache_create cap oracle = Some (Some s0) →
  forallb op_ok ops = true →
  forallb short_keys ops = true →
  0 < blen key < 2 ^ 32 →
  ∃ rs s r s',
    run ops s0 = Some (rs, s) ∧
    exec (Contains key) s = Some (r, s') ∧
    r = RBool (bool_decide (key ∈ cache_keys s)) ∧
    cache_items s' = cache_items s.
Proof.
  intros Hcap Hcr Hok Hshort [Hk0 Hkey].
  reach_exec Hcap Hcr Hok (Contains key).
  pose proof (step_items _ _ _ _ _ _ _ _ Hst HI Hle Hcmp
                (proj2 (Z.ltb_lt _ _) Hkey) (Hsh Hshort)) as Hi.
  pose proof (step_response _ _ _ _ _ _ _ _ Hst) as Hr. simpl in Hr.
  rewrite Hit, Hit', Hks. destruct Hr as ([|] & -> & _).
  - destruct Hi as [Hin Hi]. by rewrite bool_decide_eq_true_2.
  - destruct Hi as [Hn Hi]. by rewrite bool_decide_eq_false_2 by auto.
Qed.

Lemma contains_iff_cached_witness :
  ∃ rs s r s',
    run [Put key_a val_1; Put key_b val_2; Delete key_a]
      (fresh_cache 2 2 []) = Some (rs, s) ∧
    exec (Contains key_a) s = Some (r, s') ∧
    r = RBool (bool_decide (key_a ∈ cache_keys s)) ∧
    cache_items s' = cache_items s.
Proof.
  apply (contains_iff_cached 2 [] (fresh_cache 2 2 []));
    [lia|reflexivity|reflexivity|reflexivity|by vm_compute].
Defined.

(** The entries a request evicts for lack of capacity are logged; a
    request that is neither a [put] nor a [resize] logs nothing. *)
Lemma step_no_call s G bs o r s' G' bs' :
  step_rel s G bs o r s' G' bs' → Inv s G bs → Inv s' G' bs' →
  match o with Put _ _ | Resize _ => False | _ => True end →
  st_log s' = st_log s.
Proof.
  intros Hst HI HI' Ho.
  destruct (step_log _ _ _ _ _ _ _ _ Hst HI HI') as (E & _ & Hlog & _ & _ & HE).
  destruct E as [|t E]; [by rewrite Hlog, app_nil_r|].
  exfalso. specialize (HE ltac:(done)). by destruct o.
Qed.

(** [delete] removes the pair of a cached key and nothing else, keeps the
    order of the other pairs, and does not call the eviction callback; for
    a key that is not cached it returns [LRU_ERROR_NOT_FOUND] and leaves
    the pairs as they were.  After it the key is no longer found. *)
Theorem delete_cached_pairs cap oracle s0 ops key :
  0 ≤ cap < 2 ^ 51 →
  lru_cache_create cap oracle = Some (Some s0) →
  forallb op_ok ops = true →
  forallb short_keys ops = true →
  0 < blen key < 2 ^ 32 →
  ∃ rs s r s',
    run ops s0 = Some (rs, s) ∧
    exec (Delete key) s = Some (r, s') ∧
    r = RCode (if bool_decide (key ∈ cache_keys s) then LRU_SUCCESS
               else LRU_ERROR_NOT_FOUND) ∧
    cache_items s' =
      filter (λ kv : bytes * bytes, kv.1 ≠ key) (cache_items s) ∧
    st_log s' = st_log s ∧
    ∃ s1 s2,
      exec (Contains key) s' = Some (RBool false, s1) ∧
      exec (Get key) s' =
        Some (RLookup LRU_ERROR_NOT_FOUND (mk_out None None), s2).
Proof.
  intros Hcap Hcr Hok Hshort [Hk0 Hkey].
  reach_exec Hcap Hcr Hok (Delete key).
  pose proof (step_items _ _ _ _ _ _ _ _ Hst HI Hle Hcmp
                (proj2 (Z.ltb_lt _ _) Hkey) (Hsh Hshort)) as Hi.
  pose proof (step_response _ _ _ _ _ _ _ _ Hst) as Hr. simpl in Hr.
  pose proof (step_no_call _ _ _ _ _ _ _ _ Hst HI HI' I) as Hlog.
  rewrite Hit, Hit', Hks.
  assert (cache_items s' =
          filter (λ kv : bytes * bytes, kv.1 ≠ key) (items_of G) ∧
          r = RCode (if bool_decide (key ∈ g_kb <$> G) then LRU_SUCCESS
                     else LRU_ERROR_NOT_FOUND)) as [Hi' Hr'].
  { rewrite Hit'.
    destruct Hr as [(_ & Hz & _)|(_ & [->| ->])]; [lia|..].
    - destruct Hi as [Hin Hi]. by rewrite bool_decide_eq_true_2.
    - destruct Hi as (Hn & _ & Hi).
      by rewrite bool_decide_eq_false_2, filter_key_absent. }
  rewrite Hit' in Hi'. split_and!; [done..|].
  (* the key is gone *)
  assert (key ∉ g_kb <$> G') as Hgone.
  { rewrite <- items_of_keys, Hi'. intros (kv & -> & Hkv)%list_elem_of_fmap.
    by apply list_elem_of_filter in Hkv as [? _]. }
  assert (Forall (λ g, blen (g_kb g) < 2 ^ 32) G') as Hsh'.
  { apply Forall_forall. intros g Hg.
    assert ((g_kb g, g_vb g) ∈ items_of G) as Hin.
    { apply (list_elem_of_filter (λ kv : bytes * bytes, kv.1 ≠ key)).
      rewrite <- Hi'. by apply items_of_lookup_key. }
    apply list_elem_of_fmap in Hin as (g0 & Heq & Hg0).
    injection Heq as -> _.
    pose proof (Hsh Hshort) as Hf. rewrite Forall_forall in Hf. by apply Hf. }
  destruct (step_config _ _ _ _ _ _ _ _ Hst) as (_ & _ & Hc' & _).
  rewrite Hcmp in Hc'.
  destruct (exec_step s' G' bs' (Contains key) HI' Hle' eq_refl)
    as (r1 & s1 & G1 & bs1 & Hex1 & HI1 & _ & Hst1).
  destruct (exec_step s' G' bs' (Get key) HI' Hle' eq_refl)
    as (r2 & s2 & G2 & bs2 & Hex2 & HI2 & _ & Hst2).
  exists s1, s2. split.
  - pose proof (step_items _ _ _ _ _ _ _ _ Hst1 HI' Hle' Hc'
                  (proj2 (Z.ltb_lt _ _) Hkey) Hsh') as Hi1.
    pose proof (step_response _ _ _ _ _ _ _ _ Hst1) as Hr1. simpl in Hr1.
    destruct Hr1 as ([|] & -> & _); [|done]. by destruct Hi1 as [? _].
  - pose proof (step_items _ _ _ _ _ _ _ _ Hst2 HI' Hle' Hc'
                  (proj2 (Z.ltb_lt _ _) Hkey) Hsh') as Hi2.
    inversion Hst2 as [| |? r' out' ? ? _ Hget| | | | | | | | | | | ]; subst; [|lia].
    destruct Hget as [s2 Hl Hu Hh Hor
                     |s2 Ga g Gb Hl -> Ho Hu Hh Hb Hor
                     |s2 Ga g Gb Hl -> Ho Hu Hor].
    + done.
    + exfalso. destruct Hi2 as (v & Hv & _). apply Hgone.
      rewrite <- items_of_keys. by apply (list_elem_of_fmap_2 fst) in Hv.
    + exfalso. destruct Hi2 as (v & Hv & _). apply Hgone.
      rewrite <- items_of_keys. by apply (list_elem_of_fmap_2 fst) in Hv.
Qed.

Lemma delete_cached_pairs_witness :
  ∃ rs s r s',
    run [Put key_a val_1; Put key_b val_2] (fresh_cache 2 2 []) =
      Some (rs, s) ∧
    exec (Delete key_a) s = Some (r, s') ∧
    r = RCode (if bool_decide (key_a ∈ cache_keys s) then LRU_SUCCESS
               else LRU_ERROR_NOT_FOUND) ∧
    cache_items s' =
      filter (λ kv : bytes * bytes, kv.1 ≠ key_a) (cache_items s) ∧
    st_log s' = st_log s ∧
    ∃ s1 s2,
      exec (Contains key_a) s' = Some (RBool false, s1) ∧
      exec (Get key_a) s' =
        Some (RLookup LRU_ERROR_NOT_FOUND (mk_out None None), s2).
Proof.
  apply (delete_cached_pairs 2 [] (fresh_cache 2 2 []));
    [lia|reflexivity|reflexivity|reflexivity|by vm_compute].
Defined.
(** ** Bulk requests: resize and clear *)

Lemma Inv_owned_NoDup s G bs : Inv s G bs → NoDup (owned G).
Proof.
  intros HI. unfold owned.
  assert (∀ p k1 k2, kind_at (st_heap s) p = Some k1 →
            kind_at (st_heap s) p = Some k2 → k1 = k2) as Hk by congruence.
  apply NoDup_app. split_and!; [apply HI| |].
  - intros p Hp [Hq|Hq]%elem_of_app.
    + pose proof (Inv_kind_node _ _ _ _ HI Hp).
      pose proof (Inv_kind_entry _ _ _ _ HI Hq). by specialize (Hk p _ _ H H0).
    + pose proof (Inv_kind_node _ _ _ _ HI Hp).
      pose proof (Inv_kind_buf _ _ _ _ HI Hq). by specialize (Hk p _ _ H H0).
  - apply NoDup_app. split_and!; [apply HI| |apply HI].
    intros p Hp Hq.
    pose proof (Inv_kind_entry _ _ _ _ HI Hp).
    pose proof (Inv_kind_buf _ _ _ _ HI Hq). by specialize (Hk p _ _ H H0).
Qed.

Lemma owned_length G : length (owned G) = (4 * length G)%nat.
Proof. unfold owned. rewrite !length_app, !length_fmap. lia. Qed.

Lemma heap_minus_size (h : gmap Z cell) D h' :
  heap_minus h D h' → NoDup D → (∀ q, q ∈ D → is_Some (h !! q)) →
  size h = (size h' + length D)%nat.
Proof.
  intros [Hd Hk] Hnd Hlive.
  rewrite <- !(size_dom (D := gset Z)).
  rewrite <- (size_list_to_set (C := gset Z) D) by done.
  rewrite <- size_union.
  - f_equal. apply set_eq. intros x.
    rewrite elem_of_union, !elem_of_dom, elem_of_list_to_set.
    destruct (decide (x ∈ D)) as [Hx|Hx].
    + split; [by right|]. intros _. by apply Hlive.
    + rewrite (Hk _ Hx). tauto.
  - intros x [y Hy]%elem_of_dom Hx%elem_of_list_to_set.
    by rewrite (Hd _ Hx) in Hy.
Qed.

(** [resize] to a capacity of at least 1 sets the capacity and keeps the
    most recently used pairs, as many as the new capacity admits, in their
    order; the pairs it drops are counted as evictions.  A capacity below
    1 is rejected and nothing changes. *)
Theorem resize_cached_pairs cap oracle s0 ops n :
  0 ≤ cap < 2 ^ 51 →
  lru_cache_create cap oracle = Some (Some s0) →
  forallb op_ok ops = true →
  n < 2 ^ 64 →
  ∃ rs s r s',
    run ops s0 = Some (rs, s) ∧
    exec (Resize n) s = Some (r, s') ∧
    (n < 1 → r = RCode LRU_ERROR_INVALID_ARG ∧ s' = s) ∧
    (1 ≤ n →
     r = RCode LRU_SUCCESS ∧
     c_capacity (st_cache s') = n ∧
     cache_items s' = take (Z.to_nat n) (cache_items s) ∧
     evictions (c_stats (st_cache s')) =
       Nat.iter (length (cache_items s) - length (cache_items s'))
         (λ e, wrap64 (e + 1)) (evictions (c_stats (st_cache s)))).
Proof.
  intros Hcap Hcr Hok Hn.
  destruct (reach_inv _ _ _ _ Hcap Hcr Hok)
    as (rs & s & G & bs & Hrun & HI & Hle & Hcmp & Htr & _).
  destruct (exec_step s G bs (Resize n) HI Hle)
    as (r & s' & G' & bs' & Hex & HI' & Hle' & Hst).
  { simpl. by apply Z.ltb_lt. }
  exists rs, s, r, s'. split; [done|]. split; [done|].
  rewrite (Inv_cache_items _ _ _ HI), (Inv_cache_items _ _ _ HI').
  inversion Hst as [| | | | | | | | | | |? r' ? ? ? Hrs| | ]; subst.
  destruct Hrs as [Hlt|s' G' E Hge -> Hlen Hev].
  - split; [done|]. lia.
  - split; [lia|]. intros _. split; [done|].
    destruct Hev as [(Hc & _) _ Hstats _ _ _ _ _]. simpl in *.
    split; [done|].
    assert (items_of G' = take (Z.to_nat n) (items_of (G' ++ E))) as Hit.
    { rewrite items_of_app. rewrite length_app in Hlen.
      destruct (Z.min_spec (Z.of_nat (length G' + length E)) n)
        as [[? Hm]|[? Hm]]; rewrite <- Hlen in Hm.
      - assert (E = []) as -> by (apply length_zero_iff_nil; lia).
        rewrite app_nil_r, take_ge; [done|].
        unfold items_of. rewrite length_fmap. simpl in *. lia.
      - rewrite take_app_length'; [done|].
        unfold items_of. rewrite length_fmap. lia. }
    split; [done|].
    rewrite Htr in Hstats. apply (f_equal evictions) in Hstats.
    unfold no_coll in Hstats.
    replace (length (items_of (G' ++ E)) - length (items_of G'))%nat
      with (length (rev E)).
    2:{ unfold items_of. rewrite !length_fmap, length_app, length_rev. lia. }
    destruct (c_stats (st_cache s')) as [h1 m1 e1 i1 d1 c1 cs1 p1].
    simpl in Hstats. simpl. rewrite Hstats. clear.
    generalize (c_stats (st_cache s)).
    induction (length (rev E)) as [|k IH]; intros t; [by destruct t|].
    simpl. rewrite <- IH. by destruct (Nat.iter k count_eviction t).
Qed.

Lemma resize_cached_pairs_witness :
  ∃ rs s r s',
    run [Put key_a val_1; Put key_b val_2; Put key_c val_3]
      (fresh_cache 5 8 []) = Some (rs, s) ∧
    exec (Resize 2) s = Some (r, s') ∧
    (2 < 1 → r = RCode LRU_ERROR_INVALID_ARG ∧ s' = s) ∧
    (1 ≤ 2 →
     r = RCode LRU_SUCCESS ∧
     c_capacity (st_cache s') = 2 ∧
     cache_items s' = take (Z.to_nat 2) (cache_items s) ∧
     evictions (c_stats (st_cache s')) =
       Nat.iter (length (cache_items s) - length (cache_items s'))
         (λ e, wrap64 (e + 1)) (evictions (c_stats (st_cache s)))).
Proof.
  apply (resize_cached_pairs 5 [] (fresh_cache 5 8 []));
    [lia|reflexivity|reflexivity|lia].
Defined.

(** [clear] empties the cache: no pair is left and the size is 0; the
    capacity is kept, the eviction callback is not called, and the node,
    the chain cell, the key buffer and the value buffer of every entry are
    freed, while every other live cell stays as it is. *)
Theorem clear_frees_entries cap oracle s0 ops :
  0 ≤ cap < 2 ^ 51 →
  lru_cache_create cap oracle = Some (Some s0) →
  forallb op_ok ops = true →
  ∃ rs s s',
    run ops s0 = Some (rs, s) ∧
    exec Clear s = Some (RUnit, s') ∧
    cache_items s' = [] ∧
    c_size (st_cache s') = 0 ∧
    c_capacity (st_cache s') = c_capacity (st_cache s) ∧
    st_log s' = st_log s ∧
    size (st_heap s) =
      (size (st_heap s') + 4 * length (cache_items s))%nat ∧
    st_heap s' ⊆ st_heap s ∧
    ∀ n, n ∈ cache_nodes s → st_heap s' !! n = None.
Proof.
  intros Hcap Hcr Hok.
  destruct (reach_inv _ _ _ _ Hcap Hcr Hok)
    as (rs & s & G & bs & Hrun & HI & Hle & Hcmp & Htr & _).
  destruct (exec_step s G bs Clear HI Hle eq_refl)
    as (r & s' & G' & bs' & Hex & HI' & Hle' & Hst).
  inversion Hst as [| | | | | | | | | |? Hcl| | | ]; subst.
  exists rs, s, s'. split; [done|]. split; [done|].
  rewrite (Inv_cache_items _ _ _ HI), (Inv_cache_items _ _ _ HI').
  rewrite (Inv_cache_nodes _ _ _ HI).
  destruct Hcl as [[(Hc & _) Hsz _ Hlog _] _ [Hd Hk]].
  split_and!.
  - done.
  - lia.
  - done.
  - by rewrite Hlog, app_nil_r.
  - unfold items_of. rewrite length_fmap, <- owned_length.
    apply heap_minus_size; [done|by eapply Inv_owned_NoDup|].
    intros q Hq. destruct (Inv_owned_live _ _ _ _ HI Hq) as [k Hkq].
    unfold kind_at in Hkq. destruct (st_heap s !! q); [by eexists|done].
  - apply map_subseteq_spec. intros q x Hq.
    destruct (decide (q ∈ owned G)) as [Hin|Hout].
    + by rewrite (Hd _ Hin) in Hq.
    + by rewrite <- (Hk _ Hout).
  - intros n Hn. apply Hd. apply owned_cases. by left.
Qed.

Lemma clear_frees_entries_witness :
  ∃ rs s s',
    run [Put key_a val_1; Put key_b val_2; Get key_a]
      (fresh_cache 2 2 []) = Some (rs, s) ∧
    exec Clear s = Some (RUnit, s') ∧
    cache_items s' = [] ∧
    c_size (st_cache s') = 0 ∧
    c_capacity (st_cache s') = c_capacity (st_cache s) ∧
    st_log s' = st_log s ∧
    size (st_heap s) =
      (size (st_heap s') + 4 * length (cache_items s))%nat ∧
    st_heap s' ⊆ st_heap s ∧
    ∀ n, n ∈ cache_nodes s → st_heap s' !! n = None.
Proof.
  apply (clear_frees_entries 2 [] (fresh_cache 2 2 []));
    [lia|reflexivity|reflexivity].
Defined.

(** ** Statistics and configuration *)

(** On every cache a client can reach, [lru_cache_get_stats] succeeds and
    leaves the cache as it is, and its snapshot satisfies
    size ≤ current_size ≤ peak_size: the size counter of the statistics
    may lag behind after evictions, but it never under-reports. *)
Theorem stats_snapshot_order cap oracle s0 ops :
  0 ≤ cap < 2 ^ 51 →
  lru_cache_create cap oracle = Some (Some s0) →
  forallb op_ok ops = true →
  ∃ rs s t n,
    run ops s0 = Some (rs, s) ∧
    lru_cache_get_stats s = Some ((LRU_SUCCESS, Some t), s) ∧
    lru_cache_size s = Some (n, s) ∧
    n ≤ current_size t ≤ peak_size t.
Proof.
  intros Hcap Hcr Hok.
  destruct (lru_cache_create_spec _ _ _ Hcap Hcr) as (HI0 & Hc0 & _).
  pose (I := λ (_ : list (op * response)) (s : state) (_ : list gnode)
               (_ : list (list gnode)),
         c_track_stats (st_cache s) = true ∧
         c_size (st_cache s) ≤ current_size (c_stats (st_cache s)) ∧
         current_size (c_stats (st_cache s)) ≤
           peak_size (c_stats (st_cache s))).
  destruct (reach_spec I cap oracle s0 ops Hcap Hcr Hok)
    as (rs & s & Hrun & G & bs & HI & Hle & Htr & H1 & H2).
  { intros bs _. unfold I. rewrite Hc0. simpl. lia. }
  { unfold I. intros h s1 G bs o r s2 G' bs' (Htr & H1 & H2) HI1 _ _ Hst _ _.
    destruct (step_config _ _ _ _ _ _ _ _ Hst) as (_ & _ & _ & Ht2).
    split; [congruence|]. by eapply step_stats_order. }
  exists rs, s, (c_stats (st_cache s)), (c_size (st_cache s)).
  split; [done|]. split.
  - unfold lru_cache_get_stats, get_cache, mbind, M_bind. simpl.
    by rewrite Htr.
  - done.
Qed.

Lemma stats_snapshot_order_witness :
  ∃ rs s t n,
    run [Put key_a val_1; Put key_b val_2; Put key_c val_3; Resize 1;
         Delete key_c; ResetStats; Put key_d val_4]
      (fresh_cache 3 4 []) = Some (rs, s) ∧
    lru_cache_get_stats s = Some ((LRU_SUCCESS, Some t), s) ∧
    lru_cache_size s = Some (n, s) ∧
    n ≤ current_size t ≤ peak_size t.
Proof.
  apply (stats_snapshot_order 3 [] (fresh_cache 3 4 []));
    [lia|reflexivity|reflexivity].
Defined.
(** A request that is rejected as an invalid argument changes nothing at
    all: the whole state, statistics and heap included, is as before.  A
    [put] is rejected exactly for an empty key or value, a [get], [peek] or
    [delete] for an empty key, a [resize] for a capacity below 1; a
    [contains] of an empty key answers [false] and changes nothing. *)
Theorem rejected_request_changes_nothing cap oracle s0 ops o :
  0 ≤ cap < 2 ^ 51 →
  lru_cache_create cap oracle = Some (Some s0) →
  forallb op_ok ops = true →
  op_ok o = true →
  ∃ rs s r s',
    run ops s0 = Some (rs, s) ∧
    exec o s = Some (r, s') ∧
    (response_code r = Some LRU_ERROR_INVALID_ARG → s' = s) ∧
    (response_code r = Some LRU_ERROR_INVALID_ARG ↔
     match o with
     | Put key value => blen key = 0 ∨ blen value = 0
     | Get key | Peek key | Delete key => blen key = 0
     | Resize n => n < 1
     | _ => False
     end) ∧
    (∀ key, o = Contains key → blen key = 0 → r = RBool false ∧ s' = s).
Proof.
  intros Hcap Hcr Hok Ho.
  destruct (reach_inv _ _ _ _ Hcap Hcr Hok)
    as (rs & s & G & bs & Hrun & HI & Hle & Hcmp & Htr & _).
  destruct (exec_step s G bs o HI Hle Ho)
    as (r & s' & G' & bs' & Hex & HI' & Hle' & Hst).
  exists rs, s, r, s'. split; [done|]. split; [done|].
  pose proof (step_response _ _ _ _ _ _ _ _ Hst) as Hr.
  destruct o as [key value|key|key|key|key| |n|fn ud| ]; simpl in Hr.
  - destruct Hr as [(-> & Hz & ->)|(Hk & Hv & [->|[-> _]])]; simpl;
      (split_and!; [try done|split; [try done; lia|try done; lia]|done]).
  - destruct Hr as [(-> & Hz & ->)|(Hk & out & [->|[[-> _]| ->]])]; simpl;
      (split_and!; [try done|split; [try done; lia|try done; lia]|done]).
  - destruct Hr as [(-> & Hz & ->)|(Hk & out & [->|[[-> _]| ->]])]; simpl;
      (split_and!; [try done|split; [try done; lia|try done; lia]|done]).
  - destruct Hr as [(-> & Hz & ->)|(Hk & [->| ->])]; simpl;
      (split_and!; [try done|split; [try done; lia|try done; lia]|done]).
  - destruct Hr as (b & -> & Hb). simpl. split_and!; [done|done|].
    intros key' [= <-] Hz. destruct (Hb Hz) as [-> ->]. done.
  - subst r. simpl. split_and!; done.
  - destruct Hr as [(Hn & -> & ->)|(Hn & ->)]; simpl;
      (split_and!; [try done|split; [try done; lia|try done; lia]|done]).
  - subst r. simpl. split_and!; done.
  - subst r. simpl. split_and!; done.
Qed.

Lemma rejected_request_changes_nothing_witness :
  ∃ rs s r s',
    run [Put key_a val_1; Put key_b val_2] (fresh_cache 2 2 []) =
      Some (rs, s) ∧
    exec (Put key_c []) s = Some (r, s') ∧
    (response_code r = Some LRU_ERROR_INVALID_ARG → s' = s) ∧
    (response_code r = Some LRU_ERROR_INVALID_ARG ↔
     blen key_c = 0 ∨ blen [] = 0) ∧
    (∀ key, Put key_c [] = Contains key → blen key = 0 →
            r = RBool false ∧ s' = s).
Proof.
  apply (rejected_request_changes_nothing 2 [] (fresh_cache 2 2 []));
    reflexivity || lia.
Defined.

(** For keys shorter than 2^32 bytes the default comparison returns 0
    exactly for byte-equal keys of the same length. *)
Theorem default_compare_short_keys (key1 key2 : bytes) :
  blen key1 < 2 ^ 32 → blen key2 < 2 ^ 32 →
  default_compare key1 (blen key1) key2 (blen key2) = 0 ↔ key1 = key2.
Proof. apply default_compare_eq. Qed.

Lemma default_compare_short_keys_witness :
  default_compare key_a (blen key_a) key_b (blen key_b) = 0 ↔ key_a = key_b.
Proof. apply default_compare_short_keys; by vm_compute. Defined.

(** Every sequence of requests on a created cache runs to its end (no load
    or free of a dead cell, no endless loop), and in the cache it leaves
    the recency list holds distinct live nodes with live key and value
    buffers, the keys are pairwise distinct, and [lru_cache_size] is the
    number of entries. *)
Theorem requests_keep_cache_well_formed cap oracle s0 ops :
  0 ≤ cap < 2 ^ 51 →
  lru_cache_create cap oracle = Some (Some s0) →
  forallb op_ok ops = true →
  ∃ rs s,
    run ops s0 = Some (rs, s) ∧
    length rs = length ops ∧
    NoDup (cache_nodes s) ∧
    Forall (λ n, is_Some (node_item (st_heap s) n)) (cache_nodes s) ∧
    NoDup (cache_keys s) ∧
    lru_cache_size s = Some (Z.of_nat (length (cache_items s)), s) ∧
    length (cache_items s) = length (cache_nodes s).
Proof.
  intros Hcap Hcr Hok.
  destruct (reach_inv _ _ _ _ Hcap Hcr Hok)
    as (rs & s & G & bs & Hrun & HI & Hle & Hcmp & Htr & _).
  exists rs, s. split; [done|]. split; [by eapply run_length|].
  rewrite (Inv_cache_keys _ _ _ HI), (Inv_cache_items _ _ _ HI),
    (Inv_cache_nodes _ _ _ HI).
  split_and!.
  - apply HI.
  - apply Forall_forall. intros n (g & -> & Hg)%list_elem_of_fmap.
    rewrite (Inv_node_item _ _ _ _ HI Hg). by eexists.
  - by eapply Inv_keys_NoDup.
  - unfold lru_cache_size, get_cache, mbind, M_bind. simpl.
    unfold items_of. rewrite length_fmap. by rewrite (inv_size _ _ _ HI).
  - unfold items_of. by rewrite !length_fmap.
Qed.

Lemma requests_keep_cache_well_formed_witness :
  ∃ rs s,
    run [Put key_a val_1; Put key_b val_2; Put key_a val_3; Put key_c val_4;
         Get key_b; Delete key_c; Resize 1; Clear; Put key_d val_1]
      (fresh_cache 2 2 []) = Some (rs, s) ∧
    length rs = 9%nat ∧
    NoDup (cache_nodes s) ∧
    Forall (λ n, is_Some (node_item (st_heap s) n)) (cache_nodes s) ∧
    NoDup (cache_keys s) ∧
    lru_cache_size s = Some (Z.of_nat (length (cache_items s)), s) ∧
    length (cache_items s) = length (cache_nodes s).
Proof.
  apply (requests_keep_cache_well_formed 2 [] (fresh_cache 2 2 []));
    [lia|reflexivity|reflexivity].
Defined.

(** Only [resize] changes the capacity: every other request, [clear]
    included, leaves [lru_cache_capacity] as it was. *)
Theorem capacity_changed_by_resize_only cap oracle s0 ops o :
  0 ≤ cap < 2 ^ 51 →
  lru_cache_create cap oracle = Some (Some s0) →
  forallb op_ok ops = true →
  op_ok o = true →
  (∀ n, o ≠ Resize n) →
  ∃ rs s r s' c,
    run ops s0 = Some (rs, s) ∧
    exec o s = Some (r, s') ∧
    lru_cache_capacity s = Some (c, s) ∧
    lru_cache_capacity s' = Some (c, s').
Proof.
  intros Hcap Hcr Hok Ho Hnr.
  destruct (reach_inv _ _ _ _ Hcap Hcr Hok)
    as (rs & s & G & bs & Hrun & HI & Hle & Hcmp & Htr & _).
  destruct (exec_step s G bs o HI Hle Ho)
    as (r & s' & G' & bs' & Hex & HI' & Hle' & Hst).
  exists rs, s, r, s', (c_capacity (st_cache s)).
  split; [done|]. split; [done|]. split; [done|].
  enough (c_capacity (st_cache s') = c_capacity (st_cache s)) as <- by done.
  assert (∀ f d l, cache_upd s s' f d l →
            c_capacity (st_cache s') = c_capacity (st_cache s)) as Hcu.
  { intros f d l [(Hc & _) _ _ _ _]. done. }
  destruct Hst as
    [key value r s' G' bs' _ _ Hrel| |key r out s' G' _ Hrel|
    |key r out s' _ Hrel| |key r s' G' bs' _ Hrel|
    |key b s' _ Hrel| |s' Hrel|n r s' G' bs' Hrel| | ]; try done.
  - destruct Hrel; by eapply Hcu.
  - destruct Hrel; by eapply Hcu.
  - destruct Hrel; by eapply Hcu.
  - destruct Hrel; by eapply Hcu.
  - destruct Hrel as (_ & Hc & _). by eapply Hcu.
  - destruct Hrel as [Hc _ _]. by eapply Hcu.
  - by destruct (Hnr n).
  - simpl. by destruct (c_track_stats (st_cache s)).
Qed.

Lemma capacity_changed_by_resize_only_witness :
  ∃ rs s r s' c,
    run [Put key_a val_1; Resize 7; Put key_b val_2]
      (fresh_cache 2 2 []) = Some (rs, s) ∧
    exec Clear s = Some (r, s') ∧
    lru_cache_capacity s = Some (c, s) ∧
    lru_cache_capacity s' = Some (c, s').
Proof.
  apply (capacity_changed_by_resize_only 2 [] (fresh_cache 2 2 []));
    [lia|reflexivity|reflexivity|reflexivity|done].
Defined.
(** ** Iterators *)

Lemma heap_fresh2 (h : gmap Z cell) b x y :
  h !! b = None → h !! (b + 1) = None →
  delete (b + 1) (delete b (<[b + 1 := y]> (<[b := x]> h))) = h.
Proof.
  intros H1 H2. apply map_eq. intros q.
  destruct (decide (q = b + 1)) as [->|N1].
  { by rewrite lookup_delete_eq. }
  rewrite lookup_delete_ne by done.
  destruct (decide (q = b)) as [->|N2].
  { by rewrite lookup_delete_eq. }
  by rewrite lookup_delete_ne, !lookup_insert_ne.
Qed.

Lemma heap_fresh1 (h : gmap Z cell) b x :
  h !! b = None → delete b (<[b := x]> h) = h.
Proof.
  intros H1. apply map_eq. intros q.
  destruct (decide (q = b)) as [->|N1].
  { by rewrite lookup_delete_eq. }
  by rewrite lookup_delete_ne, lookup_insert_ne.
Qed.

(** One call of [lru_iterator_next] with all four out-parameters, on an
    iterator that stands at the node of [g]. *)
Lemma lru_iterator_next_spec c h brk o log g p n lk Q :
  h !! g_addr g = Some (CNode (gnode_cell g p n)) → bufs_ok h g →
  g_addr g ≠ 0 → (∀ q x, h !! q = Some x → 0 < q < brk) →
  (oracle_head o = false →
   Q (LRU_ERROR_NOMEM, mk_iter_out (Some 0) None None None,
      Some (mk_iter (g_addr g) lk))
     (mk_state c h brk (oracle_tail o) log)) →
  (oracle_head o = true → oracle_head (oracle_tail o) = false →
   Q (LRU_ERROR_NOMEM,
      mk_iter_out (Some brk) (Some (blen (g_kb g))) (Some 0) None,
      Some (mk_iter (g_addr g) lk))
     (mk_state c (delete brk (<[brk := CBuf (g_kb g)]> h)) (brk + 1)
        (oracle_tail (oracle_tail o)) log)) →
  (oracle_head o = true → oracle_head (oracle_tail o) = true →
   Q (LRU_SUCCESS,
      mk_iter_out (Some brk) (Some (blen (g_kb g))) (Some (brk + 1))
        (Some (blen (g_vb g))),
      Some (mk_iter n lk))
     (mk_state c
        (<[brk + 1 := CBuf (g_vb g)]> (<[brk := CBuf (g_kb g)]> h))
        (brk + 2) (oracle_tail (oracle_tail o)) log)) →
  wp (lru_iterator_next (Some (mk_iter (g_addr g) lk)) true true true true)
    (mk_state c h brk o log) Q.
Proof.
  intros Hn [Hk Hv] Hnz Hb Q1 Q2 Q3. unfold lru_iterator_next. simpl.
  pose proof (Hb _ _ Hk) as Hkb. pose proof (Hb _ _ Hv) as Hvb.
  destruct (Z.eqb_spec (g_addr g) 0) as [|_]; [done|].
  apply wp_bind. eapply wp_load_node; [exact Hn|]. simpl.
  apply wp_bind. apply wp_bind. eapply wp_load_buf; [exact Hk|].
  apply wp_bind. apply wp_default_copy; [unfold blen; lia| |].
  - (* the key is copied *)
    simpl. intros Ho1. apply wp_ret. rewrite take_blen.
    rewrite bool_decide_eq_false_2 by (intros [= E]; lia).
    apply wp_bind. apply wp_bind.
    assert (g_val g ≠ brk) as Hne by lia.
    eapply wp_load_buf.
    { simpl. rewrite lookup_insert_ne by done. exact Hv. }
    apply wp_bind. apply wp_default_copy; [unfold blen; lia| |].
    + simpl. intros Ho2. apply wp_ret. rewrite take_blen.
      rewrite bool_decide_eq_false_2 by (intros [= E]; lia).
      apply wp_ret. replace (brk + 1 + 1) with (brk + 2) by lia.
      by apply Q3.
    + simpl. intros Ho2. apply wp_ret.
      rewrite bool_decide_eq_true_2 by done.
      apply wp_bind. unfold default_destroy.
      eapply wp_free; [simpl; apply lookup_insert_eq|lia|].
      apply wp_ret. simpl. by apply Q2.
  - simpl. intros Ho1. apply wp_ret.
    rewrite bool_decide_eq_true_2 by done. apply wp_ret. by apply Q1.
Qed.

Lemma refusals_tail o : (refusals (oracle_tail o) ≤ refusals o)%nat.
Proof.
  destruct o as [|b o]; [done|]. unfold refusals, oracle_tail.
  rewrite filter_cons. destruct (decide (b = false)); simpl; lia.
Qed.

Lemma refusals_head_false o :
  oracle_head o = false → (S (refusals (oracle_tail o)) = refusals o)%nat.
Proof.
  destruct o as [|b o]; [done|]. unfold refusals, oracle_tail, oracle_head.
  intros ->. by rewrite filter_cons_True by done.
Qed.

(** The loop of the driver ends within as many iterations as there are
    nodes to walk and refusals still to come; it yields the pairs of the
    nodes in their order and leaves cache and heap as they were. *)
Lemma iterate_loop_spec fuel : ∀ Grest p c h brk o log lk,
  dseg h p Grest 0 → Forall (bufs_ok h) Grest →
  (∀ q x, h !! q = Some x → 0 < q < brk) →
  (length Grest + refusals o ≤ fuel)%nat →
  wp (iterate_loop fuel (Some (mk_iter (addr_hd Grest 0) lk)))
    (mk_state c h brk o log)
    (λ l s', l = items_of Grest ∧ st_cache s' = c ∧ st_heap s' = h ∧
             st_log s' = log ∧ brk ≤ st_brk s' ∧
             (refusals (st_oracle s') ≤ refusals o)%nat).
Proof.
  induction fuel as [|fuel IH]; intros Grest p c h brk o log lk Hd Hb Hh Hf.
  - destruct Grest; [|simpl in Hf; lia]. by simpl.
  - destruct Grest as [|g G'].
    { by simpl. }
    destruct Hd as [Hg Hd]. apply Forall_cons in Hb as [Hbg Hb].
    assert (g_addr g ≠ 0) as Hnz by (apply Hh in Hg; lia).
    assert (0 < brk) as Hbp by (apply Hh in Hg; lia).
    assert (h !! brk = None) as Hf0.
    { destruct (h !! brk) eqn:E; [|done]. apply Hh in E. lia. }
    assert (h !! (brk + 1) = None) as Hf1.
    { destruct (h !! (brk + 1)) eqn:E; [|done]. apply Hh in E. lia. }
    pose proof (refusals_tail o) as Ht1.
    pose proof (refusals_tail (oracle_tail o)) as Ht2.
    cbn [iterate_loop lru_iterator_has_next it_current addr_hd].
    destruct (Z.eqb_spec (g_addr g) 0) as [|_]; [done|]. cbn [negb].
    apply wp_bind.
    eapply lru_iterator_next_spec; [exact Hg|done|done|done|..].
    + intros Ho. cbn [fst snd].
      rewrite bool_decide_eq_false_2 by done.
      eapply wp_mono.
      * apply (IH (g :: G') p); [by split|by constructor|done|].
        apply refusals_head_false in Ho. simpl in *. lia.
      * intros l s1 (-> & ? & ? & ? & ? & ?). split_and!; try done.
        simpl in *. lia.
    + intros Ho1 Ho2. cbn [fst snd].
      rewrite bool_decide_eq_false_2 by done.
      rewrite heap_fresh1 by done.
      eapply wp_mono.
      * apply (IH (g :: G') p); [by split|by constructor| |].
        -- intros q x Hq. apply Hh in Hq. lia.
        -- apply refusals_head_false in Ho2. simpl in *. lia.
      * intros l s1 (-> & ? & ? & ? & ? & ?). split_and!; try done; [lia|].
        simpl in *. lia.
    + intros Ho1 Ho2. cbn [fst snd io_key io_value].
      rewrite bool_decide_eq_true_2 by done.
      apply wp_bind. eapply wp_load_buf.
      { simpl. rewrite lookup_insert_ne by lia. apply lookup_insert_eq. }
      apply wp_bind. eapply wp_load_buf.
      { simpl. apply lookup_insert_eq. }
      apply wp_bind. eapply wp_free.
      { simpl. rewrite lookup_insert_ne by lia. apply lookup_insert_eq. }
      { lia. }
      apply wp_bind. eapply wp_free.
      { simpl. rewrite lookup_delete_ne by lia. apply lookup_insert_eq. }
      { lia. }
      apply wp_bind. simpl.
      rewrite heap_fresh2 by done.
      eapply wp_mono.
      * apply (IH G' (g_addr g)); [done|done| |].
        -- intros q x Hq. apply Hh in Hq. lia.
        -- simpl in *. lia.
      * intros l s1 (-> & ? & ? & ? & ? & ?). apply wp_ret.
        split_and!; try done; [lia|]. simpl in *. lia.
Qed.

(** While the allocator refuses, the loop does not get past the node it
    stands at: after [k] refusals in a row it has not ended within [k]
    iterations. *)
Lemma iterate_loop_refused fuel : ∀ k c h brk rest log g p n lk,
  h !! g_addr g = Some (CNode (gnode_cell g p n)) → bufs_ok h g →
  (∀ q x, h !! q = Some x → 0 < q < brk) →
  (fuel ≤ k)%nat →
  iterate_loop fuel (Some (mk_iter (g_addr g) lk))
    (mk_state c h brk (replicate k false ++ rest) log) = None.
Proof.
  induction fuel as [|fuel IH]; intros k c h brk rest log g p n lk Hg Hb Hh Hk.
  - assert (g_addr g ≠ 0) as Hnz by (apply Hh in Hg; lia).
    simpl. by destruct (Z.eqb_spec (g_addr g) 0).
  - assert (g_addr g ≠ 0) as Hnz by (apply Hh in Hg; lia).
    destruct k as [|k]; [lia|].
    cbn [iterate_loop lru_iterator_has_next it_current].
    destruct (Z.eqb_spec (g_addr g) 0) as [|_]; [done|]. cbn [negb].
    assert (wp (lru_iterator_next (Some (mk_iter (g_addr g) lk))
                  true true true true)
              (mk_state c h brk (replicate (S k) false ++ rest) log)
              (λ r s1, r.1.1 = LRU_ERROR_NOMEM ∧
                       r.2 = Some (mk_iter (g_addr g) lk) ∧
                       s1 = mk_state c h brk (replicate k false ++ rest) log))
      as Hwp.
    { eapply lru_iterator_next_spec; [exact Hg|done|done|done|..];
        [done|done|done]. }
    unfold wp in Hwp. unfold mbind, M_bind.
    destruct (lru_iterator_next _ _ _ _ _ _) as [[r s1]|]; [|done].
    destruct Hwp as (He & Hi & ->). rewrite He, Hi.
    rewrite bool_decide_eq_false_2 by done.
    eapply IH; [done..|lia].
Qed.

(** Iterating over a cache as the driver does, from [lru_iterator_create]
    to [lru_iterator_destroy].  The loop ends once the allocator stops
    refusing: it takes at most as many iterations as there are cached
    entries and refusals still to come.  It then has yielded the cached
    pairs from the most to the least recently used one, and it leaves the
    cache, the heap and the callback log as they were: recency order and
    statistics are untouched and every copy handed out has been freed; it
    yields nothing only if the allocation of the iterator itself is
    refused.  A call that is refused is tried again without moving on, so
    the loop does not end while the allocator refuses: on a cache that is
    not empty, after [k] refusals in a row it has not ended within [k]
    iterations. *)
Theorem iterate_yields_cached_pairs cap oracle s0 ops fuel :
  0 ≤ cap < 2 ^ 51 →
  lru_cache_create cap oracle = Some (Some s0) →
  forallb op_ok ops = true →
  ∃ rs s,
    run ops s0 = Some (rs, s) ∧
    ((length (cache_items s) + refusals (st_oracle s) ≤ fuel)%nat →
     ∃ r s',
       iterate fuel s = Some (r, s') ∧
       r = (if oracle_head (st_oracle s) then Some (cache_items s)
            else None) ∧
       st_cache s' = st_cache s ∧
       st_heap s' = st_heap s ∧
       st_log s' = st_log s) ∧
    (∀ k rest,
       cache_items s ≠ [] → (fuel ≤ k)%nat →
       iterate fuel
         (mk_state (st_cache s) (st_heap s) (st_brk s)
            (true :: replicate k false ++ rest) (st_log s)) = None).
Proof.
  intros Hcap Hcr Hok.
  destruct (reach_inv _ _ _ _ Hcap Hcr Hok)
    as (rs & s & G & bs & Hrun & HI & Hle & Hcmp & Htr & _).
  exists rs, s. split; [done|].
  rewrite (Inv_cache_items _ _ _ HI).
  destruct (inv_list _ _ _ HI) as (Hd & Hhd & _).
  destruct (inv_heap _ _ _ HI) as [Hb Hh].
  pose proof (inv_bufs _ _ _ HI) as Hbufs.
  destruct s as [c h brk o log]. simpl in *. split.
  - intros Hfuel.
    enough (wp (iterate fuel) (mk_state c h brk o log)
              (λ r s', r = (if oracle_head o then Some (items_of G)
                            else None) ∧
                       st_cache s' = c ∧ st_heap s' = h ∧ st_log s' = log))
      as Hwp.
    { unfold wp in Hwp.
      destruct (iterate fuel _) as [[r s']|]; [|done]. by exists r, s'. }
    unfold items_of in Hfuel. rewrite length_fmap in Hfuel.
    unfold iterate, lru_iterator_create. apply wp_bind. apply wp_bind.
    unfold wp at 1, malloc_block. simpl.
    pose proof (refusals_tail o) as Ht.
    destruct o as [|[] o]; simpl in *.
    + apply wp_bind, wp_get_cache, wp_ret. simpl. rewrite Hhd.
      apply wp_bind. eapply wp_mono.
      * apply (iterate_loop_spec _ G 0); [done|done|done|lia].
      * intros l s1 (-> & ? & ? & ? & ? & ?).
        by apply wp_bind, wp_ret, wp_ret.
    + apply wp_bind, wp_get_cache, wp_ret. simpl. rewrite Hhd.
      apply wp_bind. eapply wp_mono.
      * apply (iterate_loop_spec _ G 0); [done|done|done|lia].
      * intros l s1 (-> & ? & ? & ? & ? & ?).
        by apply wp_bind, wp_ret, wp_ret.
    + apply wp_ret. simpl. by apply wp_ret.
  - intros k rest Hne Hk.
    destruct G as [|g G]; [done|].
    destruct Hd as [Hg _]. apply Forall_cons in Hbufs as [Hbg _].
    unfold iterate, lru_iterator_create, malloc_block, get_cache,
      lru_iterator_destroy, mbind, M_bind. simpl. rewrite Hhd. simpl.
    by rewrite (iterate_loop_refused fuel k c h brk rest log g 0
                  (addr_hd G 0) (c_thread_safe c) Hg Hbg Hh Hk).
Qed.

Lemma iterate_yields_cached_pairs_witness :
  ∃ rs s,
    run [Put key_a val_1; Put key_b val_2; Put key_c val_3; Get key_a]
      (fresh_cache 3 4 [true; true; true; true; true; true; true; true;
                        true; true; true; true; true; true; false; true]) =
      Some (rs, s) ∧
    ((length (cache_items s) + refusals (st_oracle s) ≤ 4)%nat →
     ∃ r s',
       iterate 4 s = Some (r, s') ∧
       r = (if oracle_head (st_oracle s) then Some (cache_items s)
            else None) ∧
       st_cache s' = st_cache s ∧
       st_heap s' = st_heap s ∧
       st_log s' = st_log s) ∧
    (∀ k rest,
       cache_items s ≠ [] → (4 ≤ k)%nat →
       iterate 4
         (mk_state (st_cache s) (st_heap s) (st_brk s)
            (true :: replicate k false ++ rest) (st_log s)) = None).
Proof.
  apply (iterate_yields_cached_pairs 3
           [true; true; true; true; true; true; true; true; true; true;
            true; true; true; true; true; true; false; true]
           (fresh_cache 3 4 [true; true; true; true; true; true; true; true;
                             true; true; true; true; true; true; false; true]));
    [lia|reflexivity|reflexivity].
Defined.

(** One step of an iterator that [lru_iterator_create] has just returned.
    On an empty cache it has no next entry and [lru_iterator_next] returns
    [LRU_ERROR_INVALID_ARG], changing nothing.  Otherwise a call either
    succeeds: it hands out fresh copies of the key and the value of the
    most recently used entry, with their sizes, and moves on; or it fails
    for lack of memory: then the iterator stays where it is and no copy is
    left allocated.  The cache itself is never changed. *)
Theorem iterator_next_step cap oracle s0 ops :
  0 ≤ cap < 2 ^ 51 →
  lru_cache_create cap oracle = Some (Some s0) →
  forallb op_ok ops = true →
  ∃ rs s r1 s1,
    run ops s0 = Some (rs, s) ∧
    lru_iterator_create s = Some (r1, s1) ∧
    st_heap s1 = st_heap s ∧ st_cache s1 = st_cache s ∧
    (r1 = None ↔ oracle_head (st_oracle s) = false) ∧
    (lru_iterator_has_next r1 = true ↔ r1 ≠ None ∧ cache_items s ≠ []) ∧
    ∃ r s2,
      lru_iterator_next r1 true true true true s1 = Some (r, s2) ∧
      st_cache s2 = st_cache s ∧
      (r.1.1 = LRU_ERROR_INVALID_ARG ↔ lru_iterator_has_next r1 = false) ∧
      (r.1.1 ≠ LRU_SUCCESS → r.2 = r1 ∧ st_heap s2 = st_heap s) ∧
      (r.1.1 = LRU_SUCCESS →
       ∃ k v kb vb,
         io_key r.1.2 = Some k ∧ io_value r.1.2 = Some v ∧ k ≠ v ∧
         st_heap s !! k = None ∧ st_heap s !! v = None ∧
         st_heap s2 = <[v := CBuf vb]> (<[k := CBuf kb]> (st_heap s)) ∧
         io_key_size r.1.2 = Some (blen kb) ∧
         io_value_size r.1.2 = Some (blen vb) ∧
         head (cache_items s) = Some (kb, vb) ∧
         (lru_iterator_has_next r.2 = true ↔
          (1 < length (cache_items s))%nat)).
Proof.
  intros Hcap Hcr Hok.
  destruct (reach_inv _ _ _ _ Hcap Hcr Hok)
    as (rs & s & G & bs & Hrun & HI & Hle & Hcmp & Htr & _).
  exists rs, s.
  rewrite (Inv_cache_items _ _ _ HI).
  destruct (inv_list _ _ _ HI) as (Hd & Hhd & _).
  destruct (inv_heap _ _ _ HI) as [Hb Hh].
  pose proof (inv_bufs _ _ _ HI) as Hbufs.
  assert (∀ (G0 : list gnode) p, dseg (st_heap s) p G0 0 →
            (negb (addr_hd G0 0 =? 0) = true ↔ G0 ≠ [])) as Hnz.
  { intros [|g G0] p HG0; simpl; [done|]. destruct HG0 as [Hg _].
    apply Hh in Hg. destruct (Z.eqb_spec (g_addr g) 0); [lia|done]. }
  destruct s as [c h brk o log]. simpl in *.
  unfold lru_iterator_create, malloc_block, mbind, M_bind, get_cache. simpl.
  assert (∃ b o', (match o with [] => (true, []) | b :: r => (b, r) end)
                  = (b, o') ∧ oracle_head o = b ∧ oracle_tail o = o')
    as (b & o' & -> & Hoh & Hot) by (destruct o; simpl; eauto).
  destruct b; simpl.
  - eexists _, _. split; [done|]. split; [done|]. simpl.
    split; [done|]. split; [done|]. split; [by rewrite Hoh|].
    rewrite Hhd. split.
    { rewrite (Hnz G 0 Hd). unfold items_of.
      split; [intros HG; split; [done|]; by destruct G|].
      intros [_ HG]. by destruct G. }
    destruct G as [|g G'].
    + simpl. eexists _, _. split; [done|]. simpl.
      split_and!; [done|done|done|done].
    + destruct Hd as [Hg Hd]. apply Forall_cons in Hbufs as [Hbg Hbufs].
      assert (g_addr g ≠ 0) as Hgz by (apply Hh in Hg; lia).
      assert (h !! brk = None) as Hf0.
      { destruct (h !! brk) eqn:E; [|done]. apply Hh in E. lia. }
      assert (h !! (brk + 1) = None) as Hf1.
      { destruct (h !! (brk + 1)) eqn:E; [|done]. apply Hh in E. lia. }
      assert (negb (g_addr g =? 0) = true) as Hhn
        by (by destruct (Z.eqb_spec (g_addr g) 0)).
      apply wp_run. cbn [lru_iterator_has_next it_current addr_hd].
      rewrite Hhn.
      eapply lru_iterator_next_spec; [exact Hg|done|done|done|..]; simpl.
      * intros _. split_and!; [done|done|done|done].
      * intros _ _. rewrite heap_fresh1 by done.
        split_and!; [done|done|done|done].
      * intros _ _. split_and!; [done|done|done|].
        intros _. exists brk, (brk + 1), (g_kb g), (g_vb g).
        split_and!; try done; [lia|].
        rewrite (Hnz G' _ Hd). unfold items_of. rewrite length_fmap.
        destruct G'; simpl; [split; [done|lia]|split; [intros; lia|done]].
  - eexists _, _. split; [done|]. split; [done|]. simpl.
    split; [done|]. split; [done|]. split; [by rewrite Hoh|].
    split; [split; [done|by intros [? _]]|].
    eexists _, _. split; [done|]. simpl. split_and!; done.
Qed.

Lemma iterator_next_step_witness :
  ∃ rs s r1 s1,
    run [Put key_a val_1; Put key_b val_2] (fresh_cache 3 4 []) =
      Some (rs, s) ∧
    lru_iterator_create s = Some (r1, s1) ∧
    st_heap s1 = st_heap s ∧ st_cache s1 = st_cache s ∧
    (r1 = None ↔ oracle_head (st_oracle s) = false) ∧
    (lru_iterator_has_next r1 = true ↔ r1 ≠ None ∧ cache_items s ≠ []) ∧
    ∃ r s2,
      lru_iterator_next r1 true true true true s1 = Some (r, s2) ∧
      st_cache s2 = st_cache s ∧
      (r.1.1 = LRU_ERROR_INVALID_ARG ↔ lru_iterator_has_next r1 = false) ∧
      (r.1.1 ≠ LRU_SUCCESS → r.2 = r1 ∧ st_heap s2 = st_heap s) ∧
      (r.1.1 = LRU_SUCCESS →
       ∃ k v kb vb,
         io_key r.1.2 = Some k ∧ io_value r.1.2 = Some v ∧ k ≠ v ∧
         st_heap s !! k = None ∧ st_heap s !! v = None ∧
         st_heap s2 = <[v := CBuf vb]> (<[k := CBuf kb]> (st_heap s)) ∧
         io_key_size r.1.2 = Some (blen kb) ∧
         io_value_size r.1.2 = Some (blen vb) ∧
         head (cache_items s) = Some (kb, vb) ∧
         (lru_iterator_has_next r.2 = true ↔
          (1 < length (cache_items s))%nat)).
Proof.
  apply (iterator_next_step 3 [] (fresh_cache 3 4 []));
    [lia|reflexivity|reflexivity].
Defined.
(** ** Creation and strategies *)

(** [lru_cache_create] returns [NULL] when the bucket array cannot be
    allocated.  The cache it returns otherwise is empty, with the capacity
    asked for (1024 if 0 was asked for), all counters at 0 and no eviction
    callback; every lookup on it misses. *)
Theorem create_empty_cache cap oracle s0 :
  0 ≤ cap < 2 ^ 51 →
  lru_cache_create cap oracle = Some (Some s0) →
  lru_cache_create cap [true; false] = Some None ∧
  cache_items s0 = [] ∧
  lru_cache_size s0 = Some (0, s0) ∧
  lru_cache_capacity s0 = Some (effective_capacity cap, s0) ∧
  lru_cache_get_stats s0 =
    Some ((LRU_SUCCESS, Some (mk_stats 0 0 0 0 0 0 0 0)), s0) ∧
  c_eviction_fn (st_cache s0) = 0 ∧
  st_heap s0 = ∅ ∧
  ∀ key, 0 < blen key →
    ∃ s1 s2 s3,
      exec (Get key) s0 =
        Some (RLookup LRU_ERROR_NOT_FOUND (mk_out None None), s1) ∧
      exec (Contains key) s0 = Some (RBool false, s2) ∧
      exec (Delete key) s0 = Some (RCode LRU_ERROR_NOT_FOUND, s3).
Proof.
  intros Hcap Hcr.
  destruct (lru_cache_create_spec _ _ _ Hcap Hcr) as (HI & Hc & Hh & _).
  change (if cap <? 1 then 1024 else cap) with (effective_capacity cap) in *.
  pose proof (Inv_cache_items _ _ _ HI) as Hit.
  assert (c_size (st_cache s0) ≤ c_capacity (st_cache s0)) as Hle.
  { rewrite Hc. simpl. unfold effective_capacity, LRU_CACHE_MIN_CAPACITY,
      LRU_CACHE_DEFAULT_CAPACITY. destruct (Z.ltb_spec cap 1); lia. }
  split_and!.
  - unfold lru_cache_create. simpl. done.
  - by rewrite Hit.
  - unfold lru_cache_size, get_cache, mbind, M_bind. simpl. by rewrite Hc.
  - unfold lru_cache_capacity, get_cache, mbind, M_bind. simpl. by rewrite Hc.
  - unfold lru_cache_get_stats, get_cache, mbind, M_bind. simpl. by rewrite Hc.
  - by rewrite Hc.
  - done.
  - intros key Hk.
    destruct (exec_step _ _ _ (Get key) HI Hle eq_refl)
      as (r1 & s1 & G1 & bs1 & Hex1 & _ & _ & Hst1).
    destruct (exec_step _ _ _ (Contains key) HI Hle eq_refl)
      as (r2 & s2 & G2 & bs2 & Hex2 & _ & _ & Hst2).
    destruct (exec_step _ _ _ (Delete key) HI Hle eq_refl)
      as (r3 & s3 & G3 & bs3 & Hex3 & _ & _ & Hst3).
    exists s1, s2, s3. split_and!.
    + inversion Hst1 as [| |? r' out' ? ? _ Hget| | | | | | | | | | | ];
        subst; [|lia].
      destruct Hget as [? Hl|? Ga g Gb _ HG|? Ga g Gb _ HG];
        [done|by destruct Ga|by destruct Ga].
    + inversion Hst2 as [| | | | | | | |? b ? _ Hct| | | | | ]; subst; [|lia].
      destruct Hct as (-> & _).
      destruct (glookup _ _ key) as [g|] eqn:Hl;
        [|by rewrite bool_decide_eq_false_2 in Hex2 by (by intros [? ?])].
      apply (glookup_Some _ _ _ _ _ HI) in Hl as [Hl _].
      by apply elem_of_nil in Hl.
    + inversion Hst3 as [| | | | | |? r' ? ? ? _ Hdel| | | | | | | ];
        subst; [|lia].
      destruct Hdel as [|? Ga g Gb _ HG]; [done|by destruct Ga].
Qed.

Lemma create_empty_cache_witness :
  lru_cache_create 0 [true; false] = Some None ∧
  cache_items (fresh_cache 1024 2048 []) = [] ∧
  lru_cache_size (fresh_cache 1024 2048 []) =
    Some (0, fresh_cache 1024 2048 []) ∧
  lru_cache_capacity (fresh_cache 1024 2048 []) =
    Some (effective_capacity 0, fresh_cache 1024 2048 []) ∧
  lru_cache_get_stats (fresh_cache 1024 2048 []) =
    Some ((LRU_SUCCESS, Some (mk_stats 0 0 0 0 0 0 0 0)),
          fresh_cache 1024 2048 []) ∧
  c_eviction_fn (st_cache (fresh_cache 1024 2048 [])) = 0 ∧
  st_heap (fresh_cache 1024 2048 []) = ∅ ∧
  ∀ key, 0 < blen key →
    ∃ s1 s2 s3,
      exec (Get key) (fresh_cache 1024 2048 []) =
        Some (RLookup LRU_ERROR_NOT_FOUND (mk_out None None), s1) ∧
      exec (Contains key) (fresh_cache 1024 2048 []) =
        Some (RBool false, s2) ∧
      exec (Delete key) (fresh_cache 1024 2048 []) =
        Some (RCode LRU_ERROR_NOT_FOUND, s3).
Proof.
  apply (create_empty_cache 0 [] (fresh_cache 1024 2048 []));
    [lia|reflexivity].
Defined.

(** A [put] followed by a [get] of the same key on any well-formed cache,
    while allocations succeed. *)
Lemma put_get_value s G bs key value :
  Inv s G bs → c_size (st_cache s) ≤ c_capacity (st_cache s) →
  forallb id (st_oracle s) = true → 0 < blen key → 0 < blen value →
  ∃ s1 out s2,
    exec (Put key value) s = Some (RCode LRU_SUCCESS, s1) ∧
    exec (Get key) s1 = Some (RLookup LRU_SUCCESS out, s2) ∧
    out_bytes s2 out = Some value.
Proof.
  intros HI Hle Ho Hk Hv.
  assert (wp (exec (Put key value)) s
            (λ r s1, r = RCode LRU_SUCCESS ∧ ∃ G1 bs1 g,
               Inv s1 G1 bs1 ∧ glookup (st_cache s1) bs1 key = Some g ∧
               g_vb g = value ∧ forallb id (st_oracle s1) = true)) as Hput.
  { simpl. wp_pure. eapply lru_cache_put_spec; [done..|].
    intros r s1 G1 bs1 HI1 Hrel. wp_pure.
    pose proof (all_true_head _ Ho) as Hoh.
    pose proof (all_true_no_false _ Ho) as Hnf.
    destruct Hrel as [s1 Ga g Gb _ _ _ _ Hos Hl
                     |s1 g _ Hof _ _ _
                     |s1 n _ Hf _ _ _
                     |s1 bs1 Gk E g _ _ _ _ Hgv _ _ Hos Hl
                     |s1 bs1 Gk E _ _ _ Hf _ _ _]; try congruence; try done.
    - split; [done|]. eexists _, _, _. split_and!; [done|done|done|].
      rewrite Hos, oracle_tail_drop. by apply forallb_drop.
    - split; [done|]. eexists _, _, _. split_and!; [done|done|done|].
      rewrite Hos. by apply forallb_drop. }
  unfold wp in Hput.
  destruct (exec (Put key value) s) as [[r s1]|] eqn:Eput; [|done].
  destruct Hput as (-> & G1 & bs1 & g & HI1 & Hl1 & Hgv & Ho1).
  destruct (get_hit_value _ _ _ _ _ HI1 Hk Hl1 Ho1)
    as (out & s2 & G2 & Eget & Hob & _).
  exists s1, out, s2. split_and!; [done|done|congruence].
Qed.

(** An empty cache stays well formed when its strategies are replaced. *)
Lemma Inv_set_strategy s bs hash_fn compare_fn :
  Inv s [] bs → cmp_ok compare_fn →
  Inv (set_st_cache
         (set_c_compare_fn compare_fn (set_c_hash_fn hash_fn (st_cache s))) s)
    [] bs.
Proof.
  intros [HL (T1 & T2 & T3 & T4) Hp Hbu N1 N2 N3 Hsz Hszlt Hcap Hcmp Hhp] Hok.
  assert (∀ i es, bs !! i = Some es → es = []) as Hemp.
  { intros i es Hi. destruct es as [|g es]; [done|].
    assert (g ∈ mjoin bs) as Hg.
    { apply list_elem_of_join. exists (g :: es). split; [by left|].
      by eapply list_elem_of_lookup_2. }
    rewrite Hp in Hg. by apply elem_of_nil in Hg. }
  destruct s as [c h brk o log]. destruct c. simpl in *.
  constructor; simpl; try done.
  split_and!; try done. intros i es Hi.
  destruct (T4 i es Hi) as (? & ? & ? & ?).
  rewrite (Hemp _ _ Hi) in *. done.
Qed.

(** [lru_cache_set_hash_function] and [lru_cache_set_compare_function]
    reject a null function, and any function while the cache holds
    entries; nothing changes then.  On an empty cache they install the
    function, and the cache works with it: with any hash function and any
    comparison that is reflexive and symmetric in reporting equality, a
    [put] followed by a [get] of the same key returns the value put, as
    long as allocations succeed. *)
Theorem strategies_replaced_when_empty cap oracle s0 ops hash_fn compare_fn
    key value :
  0 ≤ cap < 2 ^ 51 →
  lru_cache_create cap oracle = Some (Some s0) →
  forallb op_ok ops = true →
  cmp_ok compare_fn →
  0 < blen key → 0 < blen value →
  ∃ rs s e1 s1 e2 s2,
    run ops s0 = Some (rs, s) ∧
    lru_cache_set_hash_function None s = Some (LRU_ERROR_INVALID_ARG, s) ∧
    lru_cache_set_compare_function None s = Some (LRU_ERROR_INVALID_ARG, s) ∧
    lru_cache_set_hash_function (Some hash_fn) s = Some (e1, s1) ∧
    lru_cache_set_compare_function (Some compare_fn) s1 = Some (e2, s2) ∧
    (cache_items s ≠ [] →
     e1 = LRU_ERROR_INVALID_ARG ∧ e2 = LRU_ERROR_INVALID_ARG ∧ s2 = s) ∧
    (cache_items s = [] →
     e1 = LRU_SUCCESS ∧ e2 = LRU_SUCCESS ∧
     c_hash_fn (st_cache s2) = hash_fn ∧
     c_compare_fn (st_cache s2) = compare_fn ∧
     (forallb id (st_oracle s) = true →
      ∃ s3 out s4,
        exec (Put key value) s2 = Some (RCode LRU_SUCCESS, s3) ∧
        exec (Get key) s3 = Some (RLookup LRU_SUCCESS out, s4) ∧
        out_bytes s4 out = Some value)).
Proof.
  intros Hcap Hcr Hok Hcmp' Hk Hv.
  destruct (reach_inv _ _ _ _ Hcap Hcr Hok)
    as (rs & s & G & bs & Hrun & HI & Hle & Hcmp & Htr & _).
  exists rs, s.
  rewrite (Inv_cache_items _ _ _ HI).
  pose proof (inv_size _ _ _ HI) as Hsz.
  unfold lru_cache_set_hash_function, lru_cache_set_compare_function,
    get_cache, modify_cache, mbind, M_bind.
  destruct G as [|g G].
  - pose proof (Inv_set_strategy s bs hash_fn compare_fn HI Hcmp') as HI2.
    destruct s as [[cp sz hts hd tl tbl hf cf ef ud st ts tr] h brk o log].
    simpl in *. subst sz. simpl.
    eexists _, _, _, _. split_and!; try done.
    intros _. split_and!; try done.
    intros Ho. by eapply (put_get_value _ [] bs).
  - destruct s as [[cp sz hts hd tl tbl hf cf ef ud st ts tr] h brk o log].
    simpl in *.
    assert ((0 <? sz) = true) as Hpos by (apply Z.ltb_lt; lia).
    eexists LRU_ERROR_INVALID_ARG, _, LRU_ERROR_INVALID_ARG, _.
    simpl. rewrite Hpos. simpl. split_and!; try done.
    simpl. by rewrite Hpos.
Qed.

Lemma strategies_replaced_when_empty_witness :
  ∃ rs s e1 s1 e2 s2,
    run [Put key_a val_1; Clear] (fresh_cache 2 2 []) = Some (rs, s) ∧
    lru_cache_set_hash_function None s = Some (LRU_ERROR_INVALID_ARG, s) ∧
    lru_cache_set_compare_function None s = Some (LRU_ERROR_INVALID_ARG, s) ∧
    lru_cache_set_hash_function (Some (λ _ _, 7)) s = Some (e1, s1) ∧
    lru_cache_set_compare_function
      (Some (λ _ size1 _ size2, size1 - size2)) s1 = Some (e2, s2) ∧
    (cache_items s ≠ [] →
     e1 = LRU_ERROR_INVALID_ARG ∧ e2 = LRU_ERROR_INVALID_ARG ∧ s2 = s) ∧
    (cache_items s = [] →
     e1 = LRU_SUCCESS ∧ e2 = LRU_SUCCESS ∧
     c_hash_fn (st_cache s2) = (λ _ _, 7) ∧
     c_compare_fn (st_cache s2) = (λ _ size1 _ size2, size1 - size2) ∧
     (forallb id (st_oracle s) = true →
      ∃ s3 out s4,
        exec (Put key_b val_2) s2 = Some (RCode LRU_SUCCESS, s3) ∧
        exec (Get key_b) s3 = Some (RLookup LRU_SUCCESS out, s4) ∧
        out_bytes s4 out = Some val_2)).
Proof.
  apply (strategies_replaced_when_empty 2 [] (fresh_cache 2 2 []));
    [lia|reflexivity|reflexivity|split; intros; lia|by vm_compute|by vm_compute].
Defined.
(** What the counters of the statistics record of a [put] and a [delete],
    for keys shorter than 2^32 bytes: a successful [put] of a new key is
    one insertion, preceded by one eviction if the cache was full; a
    successful [put] of a cached key is neither; a [delete] is one deletion
    if the key was cached and none otherwise, and never an eviction or an
    insertion; and no [put] and no [delete], whatever it returns, changes
    the hit and miss counters. *)
Theorem put_delete_counters cap oracle s0 ops key value :
  0 ≤ cap < 2 ^ 51 →
  lru_cache_create cap oracle = Some (Some s0) →
  forallb op_ok ops = true →
  forallb short_keys ops = true →
  0 < blen key < 2 ^ 32 →
  ∃ rs s r1 s1 r2 s2,
    run ops s0 = Some (rs, s) ∧
    exec (Put key value) s = Some (r1, s1) ∧
    exec (Delete key) s = Some (r2, s2) ∧
    (r1 = RCode LRU_SUCCESS →
     insertions (c_stats (st_cache s1)) =
       (if bool_decide (key ∈ cache_keys s)
        then insertions (c_stats (st_cache s))
        else wrap64 (insertions (c_stats (st_cache s)) + 1)) ∧
     evictions (c_stats (st_cache s1)) =
       (if bool_decide (key ∈ cache_keys s) then
          evictions (c_stats (st_cache s))
        else if bool_decide (c_size (st_cache s) = c_capacity (st_cache s))
        then wrap64 (evictions (c_stats (st_cache s)) + 1)
        else evictions (c_stats (st_cache s))) ∧
     deletions (c_stats (st_cache s1)) = deletions (c_stats (st_cache s))) ∧
    (hits (c_stats (st_cache s1)) = hits (c_stats (st_cache s)) ∧
     misses (c_stats (st_cache s1)) = misses (c_stats (st_cache s))) ∧
    (deletions (c_stats (st_cache s2)) =
       (if bool_decide (key ∈ cache_keys s)
        then wrap64 (deletions (c_stats (st_cache s)) + 1)
        else deletions (c_stats (st_cache s))) ∧
     evictions (c_stats (st_cache s2)) = evictions (c_stats (st_cache s)) ∧
     insertions (c_stats (st_cache s2)) = insertions (c_stats (st_cache s)) ∧
     hits (c_stats (st_cache s2)) = hits (c_stats (st_cache s)) ∧
     misses (c_stats (st_cache s2)) = misses (c_stats (st_cache s))).
Proof.
  intros Hcap Hcr Hok Hshort [Hk0 Hkey].
  destruct (reach_inv _ _ _ _ Hcap Hcr Hok)
    as (rs & s & G & bs & Hrun & HI & Hle & Hcmp & Htr & Hsh).
  specialize (Hsh Hshort).
  destruct (exec_step s G bs (Put key value) HI Hle eq_refl)
    as (r1 & s1 & G1 & bs1 & Hex1 & HI1 & _ & Hst1).
  destruct (exec_step s G bs (Delete key) HI Hle eq_refl)
    as (r2 & s2 & G2 & bs2 & Hex2 & HI2 & _ & Hst2).
  exists rs, s, r1, s1, r2, s2.
  split; [done|]. split; [done|]. split; [done|].
  split; [|split; [by destruct (step_stats _ _ _ _ _ _ _ _ Hst1 HI Htr)
                        as [[? ?] _]|]].
  - (* put *)
    intros ->. rewrite (Inv_cache_keys _ _ _ HI).
    inversion Hst1 as [? ? r' ? ? ? _ _ Hput| | | | | | | | | | | | | ]; subst.
    inversion Hput as [? Ga g Gb Hl HG Ho Hu Hor Hl'| | |
                       ? ? Gk E g Hl HG Hev Hgk Hgv Hu Hfr Hor Hl'| ]; subst.
    + destruct Hu as [_ _ Hs _ _]. rewrite Htr in Hs.
      apply no_coll_eq_fields in Hs as (F1 & F2 & F3 & F4 & F5 & _).
      rewrite bool_decide_eq_true_2; [simpl in *; done|].
      rewrite <- (glookup_key _ _ _ _ _ HI Hcmp Hsh Hkey Hl).
      apply list_elem_of_fmap_2. set_solver.
    + destruct Hu as [_ _ Hs _ _]. rewrite Htr in Hs.
      apply no_coll_eq_fields in Hs as (F1 & F2 & F3 & F4 & F5 & _).
      rewrite bool_decide_eq_false_2 by (by eapply glookup_None_key).
      rewrite F3, F4, F5. clear F1 F2 F3 F4 F5.
      pose proof (inv_size _ _ _ HI) as Hsz.
      unfold count_insertion, count_eviction.
      destruct Hev as [[-> Hlt]|[Hge [t ->]]]; simpl;
        [rewrite bool_decide_eq_false_2 by lia
        |rewrite bool_decide_eq_true_2 by lia];
        match goal with
        | |- context [if ?b then _ else _] => destruct b
        end; simpl; done.
  - (* delete *)
    rewrite (Inv_cache_keys _ _ _ HI).
    inversion Hst2 as [| | | | | |? r' ? ? ? _ Hdel| | | | | | | ];
      subst; [|lia].
    destruct Hdel as [? Hl Hu _ _|? Ga g Gb Hl HG Hu _ _ _].
    + destruct Hu as [_ _ Hs _ _]. rewrite Htr in Hs.
      apply no_coll_eq_fields in Hs as (F1 & F2 & F3 & F4 & F5 & _).
      rewrite (bool_decide_eq_false_2 _ (glookup_None_key _ _ _ _ HI Hl)).
      simpl in *. done.
    + destruct Hu as [_ _ Hs _ _]. rewrite Htr in Hs.
      apply no_coll_eq_fields in Hs as (F1 & F2 & F3 & F4 & F5 & _).
      rewrite bool_decide_eq_true_2; [simpl in *; done|].
      rewrite <- (glookup_key _ _ _ _ _ HI Hcmp Hsh Hkey Hl).
      apply list_elem_of_fmap_2. subst G. set_solver.
Qed.

Lemma put_delete_counters_witness :
  ∃ rs s r1 s1 r2 s2,
    run [Put key_a val_1; Put key_b val_2] (fresh_cache 2 2 []) =
      Some (rs, s) ∧
    exec (Put key_c val_3) s = Some (r1, s1) ∧
    exec (Delete key_c) s = Some (r2, s2) ∧
    (r1 = RCode LRU_SUCCESS →
     insertions (c_stats (st_cache s1)) =
       (if bool_decide (key_c ∈ cache_keys s)
        then insertions (c_stats (st_cache s))
        else wrap64 (insertions (c_stats (st_cache s)) + 1)) ∧
     evictions (c_stats (st_cache s1)) =
       (if bool_decide (key_c ∈ cache_keys s) then
          evictions (c_stats (st_cache s))
        else if bool_decide (c_size (st_cache s) = c_capacity (st_cache s))
        then wrap64 (evictions (c_stats (st_cache s)) + 1)
        else evictions (c_stats (st_cache s))) ∧
     deletions (c_stats (st_cache s1)) = deletions (c_stats (st_cache s))) ∧
    (hits (c_stats (st_cache s1)) = hits (c_stats (st_cache s)) ∧
     misses (c_stats (st_cache s1)) = misses (c_stats (st_cache s))) ∧
    (deletions (c_stats (st_cache s2)) =
       (if bool_decide (key_c ∈ cache_keys s)
        then wrap64 (deletions (c_stats (st_cache s)) + 1)
        else deletions (c_stats (st_cache s))) ∧
     evictions (c_stats (st_cache s2)) = evictions (c_stats (st_cache s)) ∧
     insertions (c_stats (st_cache s2)) = insertions (c_stats (st_cache s)) ∧
     hits (c_stats (st_cache s2)) = hits (c_stats (st_cache s)) ∧
     misses (c_stats (st_cache s2)) = misses (c_stats (st_cache s))).
Proof.
  apply (put_delete_counters 2 [] (fresh_cache 2 2 []));
    [lia|reflexivity|reflexivity|reflexivity|by vm_compute].
Defined.
